(** * libuv: the promise primitive and the reactor core

    A shallow embedding of [src/promise.c] and of the handle life cycle of
    [src/unix/core.c] ([uv_close], [uv__run_pending], [uv__finish_close],
    [uv__run], [uv_run], [uv_run_once]), with the properties the
    specification states about them. *)

From Stdlib Require Import ZArith List Bool Lia.
From stdpp Require Import base decidable option list gmap.

Local Open Scope Z_scope.

(** ** The promise ([src/promise.c]) *)

Module Promise.

(** [void*] values are addresses; [NULL] is address 0. *)
Definition ptr := Z.
Definition NULL : ptr := 0.

(** [EINVAL] from [<errno.h>]. *)
Definition EINVAL : Z := 22.

(** Threads are named by numbers. *)
Definition tid := nat.

Inductive uv_promise_status_t :=
  | UV_PROMISE_PENDING
  | UV_PROMISE_FULFILLED
  | UV_PROMISE_BROKEN
  | UV_PROMISE_CANCELLED.

#[global] Instance uv_promise_status_eq_dec : EqDecision uv_promise_status_t.
Proof. solve_decision. Defined.

(** [uv_promise_result_t], the snapshot handed to readers. *)
Record uv_promise_result_t := mk_result {
  rs_status : uv_promise_status_t;
  rs_code   : Z;
  rs_result : ptr
}.

(** Modelled from the spec: the mutex and the condition variable
    ([uv_mutex_t], [uv_cond_t] and the [uv_mutex_*] / [uv_cond_*] routines
    of libuv's thread layer, which is not among the sources).  A mutex is
    either without an operating-system resource (never initialised, or
    released again), free, or held by one thread.  A condition variable
    knows which threads sleep in [uv_cond_wait] and which have been woken
    and still have to leave [uv_cond_wait]. *)
Inductive uv_mutex_t :=
  | MutexNone
  | MutexFree
  | MutexHeld (owner : tid).

Record uv_cond_t := mk_cond {
  cond_live  : bool;
  sleepers   : list tid;
  signalled  : list tid
}.

(** Calls into the thread layer, in the order they were made. *)
Inductive sync_call :=
  | CallMutexInit (rc : Z)
  | CallCondInit (rc : Z)
  | CallMutexLock (t : tid)
  | CallMutexTrylock (t : tid) (rc : Z)
  | CallMutexUnlock (t : tid)
  | CallMutexDestroy
  | CallCondWait (t : tid)
  | CallCondBroadcast (woken : list tid)
  | CallCondDestroy.

(** [uv_promise_t]; [calls] is the history of thread-layer calls made on
    this promise (ghost state, newest last).  [waiting] counts threads; its
    C type is declared in a header that is not among the sources, and the
    count stays far below any integer bound, so it is an integer here. *)
Record uv_promise_t := mk_promise {
  status  : uv_promise_status_t;
  result  : ptr;
  code    : Z;
  waiting : Z;
  mutex   : uv_mutex_t;
  cond    : uv_cond_t;
  calls   : list sync_call
}.

Definition set_status (v : uv_promise_status_t) (h : uv_promise_t) :=
  mk_promise v (result h) (code h) (waiting h) (mutex h) (cond h) (calls h).
Definition set_result (v : ptr) (h : uv_promise_t) :=
  mk_promise (status h) v (code h) (waiting h) (mutex h) (cond h) (calls h).
Definition set_code (v : Z) (h : uv_promise_t) :=
  mk_promise (status h) (result h) v (waiting h) (mutex h) (cond h) (calls h).
Definition set_waiting (v : Z) (h : uv_promise_t) :=
  mk_promise (status h) (result h) (code h) v (mutex h) (cond h) (calls h).
Definition set_mutex (v : uv_mutex_t) (h : uv_promise_t) :=
  mk_promise (status h) (result h) (code h) (waiting h) v (cond h) (calls h).
Definition set_cond (v : uv_cond_t) (h : uv_promise_t) :=
  mk_promise (status h) (result h) (code h) (waiting h) (mutex h) v (calls h).
Definition log (c : sync_call) (h : uv_promise_t) :=
  mk_promise (status h) (result h) (code h) (waiting h) (mutex h) (cond h)
             (calls h ++ [c]).

(** *** A monad for code that may block

    A call either returns a value, or leaves its thread suspended inside a
    blocking primitive ([Block], with the state it leaves behind), or uses
    a primitive in a way its contract does not cover ([Undef]). *)
Inductive outcome (A : Type) :=
  | Ret (a : A) (h : uv_promise_t)
  | Block (h : uv_promise_t)
  | Undef.
Arguments Ret {A} a h.
Arguments Block {A} h.
Arguments Undef {A}.

Definition M (A : Type) := uv_promise_t -> outcome A.

Definition ret {A} (a : A) : M A := fun h => Ret a h.
Definition bind {A B} (m : M A) (k : A -> M B) : M B :=
  fun h => match m h with
           | Ret a h' => k a h'
           | Block h' => Block h'
           | Undef => Undef
           end.
Definition get_state : M uv_promise_t := fun h => Ret h h.
Definition modify (f : uv_promise_t -> uv_promise_t) : M unit :=
  fun h => Ret tt (f h).
Definition when (b : bool) (m : M unit) : M unit := if b then m else ret tt.

Notation "x <- m ;; k" := (bind m (fun x => k))
  (at level 100, m at next level, right associativity).
Notation "m ;; k" := (bind m (fun _ => k))
  (at level 100, right associativity).

(** *** The thread layer

    Modelled from the spec: the routines of the thread layer.  The
    allocation routines report the return code the environment chooses
    ([rc], 0 for success). *)
Definition uv_mutex_init (rc : Z) : M Z := fun h =>
  let h := log (CallMutexInit rc) h in
  if decide (rc = 0) then Ret rc (set_mutex MutexFree h) else Ret rc h.

Definition uv_cond_init (rc : Z) : M Z := fun h =>
  let h := log (CallCondInit rc) h in
  if decide (rc = 0) then Ret rc (set_cond (mk_cond true [] []) h) else Ret rc h.

Definition uv_mutex_lock (t : tid) : M unit := fun h =>
  match mutex h with
  | MutexFree => Ret tt (set_mutex (MutexHeld t) (log (CallMutexLock t) h))
  | MutexHeld _ => Block h
  | MutexNone => Undef
  end.

Definition uv_mutex_trylock (t : tid) : M Z := fun h =>
  match mutex h with
  | MutexFree => Ret 0 (set_mutex (MutexHeld t) (log (CallMutexTrylock t 0) h))
  | MutexHeld _ => Ret (-1) (log (CallMutexTrylock t (-1)) h)
  | MutexNone => Undef
  end.

Definition uv_mutex_unlock (t : tid) : M unit := fun h =>
  match mutex h with
  | MutexHeld o =>
      if decide (o = t) then Ret tt (set_mutex MutexFree (log (CallMutexUnlock t) h))
      else Undef
  | _ => Undef
  end.

Definition uv_mutex_destroy : M unit := fun h =>
  match mutex h with
  | MutexFree => Ret tt (set_mutex MutexNone (log CallMutexDestroy h))
  | _ => Undef
  end.

(** Waking every sleeper: they all move to [signalled]. *)
Definition uv_cond_broadcast : M unit := fun h =>
  let c := cond h in
  if cond_live c then
    Ret tt (set_cond (mk_cond true [] (signalled c ++ sleepers c))
                     (log (CallCondBroadcast (sleepers c)) h))
  else Undef.

(** A condition variable may be destroyed once nobody sleeps on it; woken
    threads that have not left [uv_cond_wait] yet do not prevent it. *)
Definition uv_cond_destroy : M unit := fun h =>
  let c := cond h in
  if cond_live c then
    match sleepers c with
    | [] => Ret tt (set_cond (mk_cond false [] (signalled c)) (log CallCondDestroy h))
    | _ :: _ => Undef
    end
  else Undef.

(** [uv_cond_wait]: the caller, holding the mutex, releases it and goes to
    sleep.  The call is left through [uv_cond_wait_return]. *)
Definition uv_cond_wait {A} (t : tid) : M A := fun h =>
  let c := cond h in
  match mutex h with
  | MutexHeld o =>
      if decide (o = t) then
        if cond_live c then
          Block (set_mutex MutexFree
                  (set_cond (mk_cond true (sleepers c ++ [t]) (signalled c))
                     (log (CallCondWait t) h)))
        else Undef
      else Undef
  | _ => Undef
  end.

Definition remove_tid (t : tid) (l : list tid) : list tid :=
  filter (fun x => x ≠ t) l.

Definition in_wait (t : tid) (h : uv_promise_t) : bool :=
  bool_decide (t ∈ sleepers (cond h) ++ signalled (cond h)).

(** Leaving [uv_cond_wait]: a thread that was woken (or that wakes up
    spuriously, which the thread layer permits) takes the mutex again. *)
Definition uv_cond_wait_return (t : tid) : M unit := fun h =>
  let c := cond h in
  if in_wait t h then
    match mutex h with
    | MutexFree =>
        Ret tt (set_mutex (MutexHeld t)
                 (set_cond (mk_cond (cond_live c) (remove_tid t (sleepers c))
                                    (remove_tid t (signalled c))) h))
    | MutexHeld _ => Block h
    | MutexNone => Undef
    end
  else Undef.

(** *** The operations of [src/promise.c] *)

Definition uv_promise_init (rc_mutex rc_cond : Z) : M Z :=
  rc <- uv_mutex_init rc_mutex ;;
  if negb (bool_decide (rc = 0)) then ret rc
  else
    rc <- uv_cond_init rc_cond ;;
    when (negb (bool_decide (rc = 0))) uv_mutex_destroy ;;
    modify (set_status UV_PROMISE_PENDING) ;;
    modify (set_result NULL) ;;
    modify (set_code 0) ;;
    modify (set_waiting 0) ;;
    ret rc.

Definition uv_promise_fulfil (t : tid) (res : ptr) : M Z :=
  uv_mutex_lock t ;;
  h <- get_state ;;
  rc <- (if negb (bool_decide (status h = UV_PROMISE_PENDING)) then ret (- EINVAL)
         else
           modify (set_status UV_PROMISE_FULFILLED) ;;
           modify (set_result res) ;;
           when (0 <? waiting h) uv_cond_broadcast ;;
           ret 0) ;;
  uv_mutex_unlock t ;;
  ret rc.

Definition uv_promise_break (t : tid) (c : Z) : M Z :=
  uv_mutex_lock t ;;
  h <- get_state ;;
  rc <- (if negb (bool_decide (status h = UV_PROMISE_PENDING)) then ret (- EINVAL)
         else
           modify (set_status UV_PROMISE_BROKEN) ;;
           modify (set_code c) ;;
           when (0 <? waiting h) uv_cond_broadcast ;;
           ret 0) ;;
  uv_mutex_unlock t ;;
  ret rc.

Definition snapshot (h : uv_promise_t) : uv_promise_result_t :=
  mk_result (status h) (code h) (result h).

(** The [while] loop of [uv_promise_get] and what follows it.  When the
    test holds the thread sleeps in [uv_cond_wait]; control comes back to
    the test each time that call is left. *)
Definition get_loop (t : tid) : M uv_promise_result_t :=
  h <- get_state ;;
  if bool_decide (status h = UV_PROMISE_PENDING) then uv_cond_wait t
  else
    modify (fun h => set_waiting (waiting h - 1) h) ;;
    h <- get_state ;;
    let rs := snapshot h in
    uv_mutex_unlock t ;;
    ret rs.

(** [uv_promise_get].  The initial value of [rs], ([CANCELLED], 0,
    [NULL]), is overwritten before the only [return]. *)
Definition uv_promise_get (t : tid) : M uv_promise_result_t :=
  uv_mutex_lock t ;;
  modify (fun h => set_waiting (waiting h + 1) h) ;;
  get_loop t.

(** A thread suspended in the [uv_cond_wait] of [uv_promise_get] goes on. *)
Definition uv_promise_get_resume (t : tid) : M uv_promise_result_t :=
  uv_cond_wait_return t ;;
  get_loop t.

Definition uv_promise_trywait (t : tid) : M uv_promise_result_t :=
  let rs := mk_result UV_PROMISE_PENDING 0 NULL in
  rc <- uv_mutex_trylock t ;;
  if bool_decide (rc = 0) then
    h <- get_state ;;
    let rs := snapshot h in
    uv_mutex_unlock t ;;
    ret rs
  else ret rs.

(** The part of [uv_promise_destroy] that runs under the lock. *)
Definition destroy_locked (t : tid) : M unit :=
  uv_mutex_lock t ;;
  h <- get_state ;;
  when (bool_decide (UV_PROMISE_PENDING = status h))
       (modify (set_status UV_PROMISE_CANCELLED)) ;;
  when (0 <? waiting h) uv_cond_broadcast ;;
  uv_mutex_unlock t.

Definition uv_promise_destroy (t : tid) : M unit :=
  destroy_locked t ;;
  uv_mutex_destroy ;;
  uv_cond_destroy.

(** *** Schedules

    Every operation does its work between [uv_mutex_lock] and
    [uv_mutex_unlock], so concurrent calls take effect one after the other,
    in the order in which they obtained the lock.  A schedule lists the
    calls in that order. *)
Inductive op :=
  | OpFulfil (t : tid) (res : ptr)
  | OpBreak (t : tid) (c : Z)
  | OpGet (t : tid)
  | OpGetResume (t : tid)
  | OpTrywait (t : tid)
  | OpDestroy (t : tid).

Inductive value :=
  | VInt (rc : Z)
  | VSnap (rs : uv_promise_result_t)
  | VUnit.

(** A thread that is inside [uv_promise_get] cannot call it again: such a
    schedule is not one of a program. *)
Definition call (o : op) : M value :=
  match o with
  | OpFulfil t res => rc <- uv_promise_fulfil t res ;; ret (VInt rc)
  | OpBreak t c => rc <- uv_promise_break t c ;; ret (VInt rc)
  | OpGet t =>
      h <- get_state ;;
      if in_wait t h then (fun _ => Undef)
      else rs <- uv_promise_get t ;; ret (VSnap rs)
  | OpGetResume t => rs <- uv_promise_get_resume t ;; ret (VSnap rs)
  | OpTrywait t => rs <- uv_promise_trywait t ;; ret (VSnap rs)
  | OpDestroy t => uv_promise_destroy t ;; ret VUnit
  end.

(** The state an outcome leaves behind. *)
Definition after {A} (r : outcome A) : option uv_promise_t :=
  match r with
  | Ret _ h => Some h
  | Block h => Some h
  | Undef => None
  end.

(** The promises a program can hold: those whose [uv_promise_init] got its
    mutex, and what the operations make of them. *)
Inductive reachable : uv_promise_t -> Prop :=
  | reachable_init h0 rc_cond h :
      after (uv_promise_init 0 rc_cond h0) = Some h -> reachable h
  | reachable_step h o h' :
      reachable h -> after (call o h) = Some h' -> reachable h'.

(** The calls of a producers' race: [fulfil] and [break] only. *)
Inductive write_call :=
  | Fulfil (t : tid) (res : ptr)
  | Break (t : tid) (c : Z).

Definition write (w : write_call) : M Z :=
  match w with
  | Fulfil t res => uv_promise_fulfil t res
  | Break t c => uv_promise_break t c
  end.

(** Runs the calls in order and collects their return codes. *)
Fixpoint run_writes (ws : list write_call) : M (list Z) :=
  match ws with
  | [] => ret []
  | w :: ws => rc <- write w ;; rcs <- run_writes ws ;; ret (rc :: rcs)
  end.

(** What a successful call stores. *)
Definition written (w : write_call) (h h' : uv_promise_t) : Prop :=
  match w with
  | Fulfil _ res =>
      status h' = UV_PROMISE_FULFILLED /\ result h' = res /\ code h' = code h
  | Break _ c =>
      status h' = UV_PROMISE_BROKEN /\ code h' = c /\ result h' = result h
  end.

(** Same [status], [result] and [code]. *)
Definition same_value (h h' : uv_promise_t) : Prop :=
  status h' = status h /\ result h' = result h /\ code h' = code h.

(** Same fields throughout; only the history of calls may differ. *)
Definition same_state (h h' : uv_promise_t) : Prop :=
  status h' = status h /\ result h' = result h /\ code h' = code h /\
  waiting h' = waiting h /\ mutex h' = mutex h /\ cond h' = cond h.

(** Some memory that was never initialised, a promise fresh from a
    successful [uv_promise_init], and a race between three producers. *)
Definition raw_memory : uv_promise_t :=
  mk_promise UV_PROMISE_BROKEN 77 (-3) 12 MutexNone (mk_cond false [] []) [].

Definition ready : uv_promise_t :=
  mk_promise UV_PROMISE_PENDING NULL 0 0 MutexFree (mk_cond true [] [])
             [CallMutexInit 0; CallCondInit 0].

Definition race : list write_call :=
  [Break 2%nat (-5); Fulfil 1%nat 4096; Break 3%nat (-7)].

(** A thread asleep in [uv_promise_get] on a pending promise, and the same
    thread after a producer has fulfilled the promise and woken it. *)
Definition asleep : uv_promise_t :=
  mk_promise UV_PROMISE_PENDING NULL 0 1 MutexFree (mk_cond true [5%nat] [])
             [CallMutexInit 0; CallCondInit 0; CallMutexLock 5%nat;
              CallCondWait 5%nat].

Definition woken : uv_promise_t :=
  mk_promise UV_PROMISE_FULFILLED 4096 0 1 MutexFree (mk_cond true [] [5%nat])
             [CallMutexInit 0; CallCondInit 0; CallMutexLock 5%nat;
              CallCondWait 5%nat; CallMutexLock 1%nat;
              CallCondBroadcast [5%nat]; CallMutexUnlock 1%nat].

(** Runs a schedule; [None] when a call is outside the primitives'
    contract. *)
Fixpoint run_ops (os : list op) (h : uv_promise_t) : option uv_promise_t :=
  match os with
  | [] => Some h
  | o :: os =>
      match after (call o h) with
      | Some h' => run_ops os h'
      | None => None
      end
  end.

(** A promise whose synchronisation primitives are ready and not in use. *)
Definition usable (h : uv_promise_t) : Prop :=
  mutex h = MutexFree /\ cond_live (cond h) = true.

(** The invariant on the value fields: a pending promise holds no value. *)
Definition pending_clean (h : uv_promise_t) : Prop :=
  status h = UV_PROMISE_PENDING -> code h = 0 /\ result h = NULL.

(** The invariant on the waiter count of a usable promise. *)
Definition waiters_counted (h : uv_promise_t) : Prop :=
  usable h ->
  waiting h = Z.of_nat (length (sleepers (cond h) ++ signalled (cond h)))
  /\ NoDup (sleepers (cond h) ++ signalled (cond h))
  /\ (status h <> UV_PROMISE_PENDING -> sleepers (cond h) = []).

(** What holds of every promise a program can hold. *)
Definition promise_inv (h : uv_promise_t) : Prop :=
  pending_clean h /\ waiters_counted h /\
  (mutex h = MutexFree \/ mutex h = MutexNone) /\
  (mutex h = MutexFree -> cond_live (cond h) = true).

(** *** Proof support *)

Ltac unfold_ops :=
  unfold call, write, uv_promise_init, uv_promise_fulfil, uv_promise_break,
    uv_promise_get, uv_promise_get_resume, get_loop, uv_promise_trywait,
    uv_promise_destroy, destroy_locked,
    uv_mutex_init, uv_cond_init, uv_mutex_lock, uv_mutex_trylock,
    uv_mutex_unlock, uv_mutex_destroy, uv_cond_broadcast, uv_cond_destroy,
    uv_cond_wait, uv_cond_wait_return, in_wait,
    when, modify, get_state, bind, ret, snapshot,
    set_status, set_result, set_code, set_waiting, set_mutex, set_cond, log.

Ltac open_promise h :=
  let c := fresh "c" in
  destruct h as [? ? ? ? ? c ?]; destruct c as [? ? ?];
  unfold usable, same_value, pending_clean in *; simpl in *.

Section PromiseFacts.

Implicit Types (h : uv_promise_t) (t : tid).

Lemma fulfil_when_pending t res h :
  usable h -> status h = UV_PROMISE_PENDING ->
  exists h', uv_promise_fulfil t res h = Ret 0 h'
    /\ status h' = UV_PROMISE_FULFILLED /\ result h' = res /\ code h' = code h
    /\ usable h' /\ waiting h' = waiting h
    /\ sleepers (cond h') = (if 0 <? waiting h then [] else sleepers (cond h))
    /\ signalled (cond h') =
         (if 0 <? waiting h then signalled (cond h) ++ sleepers (cond h)
          else signalled (cond h)).
Proof.
  intros [Hm Hc] Hs. open_promise h. subst.
  unfold_ops; simpl.
  destruct (0 <? waiting0); simpl; rewrite decide_True by done;
    eexists; (split; [reflexivity|]); simpl; auto 10.
Qed.

Lemma break_when_pending t c h :
  usable h -> status h = UV_PROMISE_PENDING ->
  exists h', uv_promise_break t c h = Ret 0 h'
    /\ status h' = UV_PROMISE_BROKEN /\ code h' = c /\ result h' = result h
    /\ usable h' /\ waiting h' = waiting h
    /\ sleepers (cond h') = (if 0 <? waiting h then [] else sleepers (cond h))
    /\ signalled (cond h') =
         (if 0 <? waiting h then signalled (cond h) ++ sleepers (cond h)
          else signalled (cond h)).
Proof.
  intros [Hm Hc] Hs. open_promise h. subst.
  unfold_ops; simpl.
  destruct (0 <? waiting0); simpl; rewrite decide_True by done;
    eexists; (split; [reflexivity|]); simpl; auto 10.
Qed.

Lemma fulfil_when_settled t res h :
  mutex h = MutexFree -> status h <> UV_PROMISE_PENDING ->
  exists h', uv_promise_fulfil t res h = Ret (- EINVAL) h'
    /\ same_value h h' /\ waiting h' = waiting h
    /\ mutex h' = MutexFree /\ cond h' = cond h.
Proof.
  intros Hm Hs. open_promise h. subst.
  unfold_ops; simpl.
  rewrite bool_decide_false by done; simpl. rewrite decide_True by done.
  eexists; split; [reflexivity|]; simpl; auto.
Qed.

Lemma break_when_settled t c h :
  mutex h = MutexFree -> status h <> UV_PROMISE_PENDING ->
  exists h', uv_promise_break t c h = Ret (- EINVAL) h'
    /\ same_value h h' /\ waiting h' = waiting h
    /\ mutex h' = MutexFree /\ cond h' = cond h.
Proof.
  intros Hm Hs. open_promise h. subst.
  unfold_ops; simpl.
  rewrite bool_decide_false by done; simpl. rewrite decide_True by done.
  eexists; split; [reflexivity|]; simpl; auto.
Qed.

Lemma written_settles w h h' : written w h h' -> status h' <> UV_PROMISE_PENDING.
Proof. destruct w; simpl; intros (-> & _); discriminate. Qed.

Lemma same_value_trans h1 h2 h3 :
  same_value h1 h2 -> same_value h2 h3 -> same_value h1 h3.
Proof. unfold same_value. intuition congruence. Qed.

Lemma same_value_refl h : same_value h h.
Proof. unfold same_value. auto. Qed.

(** One call of the race, by the status it finds. *)
Lemma write_cases w h :
  usable h ->
  exists rc h', write w h = Ret rc h' /\ usable h' /\
    ((status h = UV_PROMISE_PENDING /\ rc = 0 /\ written w h h')
     \/ (status h <> UV_PROMISE_PENDING /\ rc = - EINVAL /\ same_value h h')).
Proof.
  intros Hu. destruct (decide (status h = UV_PROMISE_PENDING)) as [Hs|Hs].
  - destruct w as [t res|t c]; simpl.
    + destruct (fulfil_when_pending t res h Hu Hs) as (h' & -> & ? & ? & ? & ? & _).
      exists 0, h'. simpl. auto 10.
    + destruct (break_when_pending t c h Hu Hs) as (h' & -> & ? & ? & ? & ? & _).
      exists 0, h'. simpl. auto 10.
  - destruct Hu as [Hm Hc]. destruct w as [t res|t c]; simpl.
    + destruct (fulfil_when_settled t res h Hm Hs) as (h' & -> & ? & ? & ? & Hc').
      exists (- EINVAL), h'. unfold usable. rewrite Hc'. auto 10.
    + destruct (break_when_settled t c h Hm Hs) as (h' & -> & ? & ? & ? & Hc').
      exists (- EINVAL), h'. unfold usable. rewrite Hc'. auto 10.
Qed.

Lemma run_writes_cons w ws h rc h1 rcs h2 :
  write w h = Ret rc h1 -> run_writes ws h1 = Ret rcs h2 ->
  run_writes (w :: ws) h = Ret (rc :: rcs) h2.
Proof. intros H1 H2. simpl. unfold bind, ret. rewrite H1, H2. reflexivity. Qed.

(** Once the promise is settled every further call of the race fails. *)
Lemma run_writes_settled ws h :
  usable h -> status h <> UV_PROMISE_PENDING ->
  exists h', run_writes ws h = Ret (replicate (length ws) (- EINVAL)) h'
    /\ same_value h h' /\ usable h'.
Proof.
  revert h. induction ws as [|w ws IH]; intros h Hu Hs.
  - exists h. simpl. unfold ret. auto using same_value_refl.
  - destruct (write_cases w h Hu) as (rc & h1 & Hw & Hu1 & [(? & _)|(_ & -> & Hsv)]);
      [contradiction|].
    assert (Hs1 : status h1 <> UV_PROMISE_PENDING).
    { destruct Hsv as (-> & _). exact Hs. }
    destruct (IH h1 Hu1 Hs1) as (h' & Hr & Hsv' & Hu').
    exists h'. split; [|split]; [|eauto using same_value_trans|done].
    simpl length. simpl replicate. eapply run_writes_cons; eauto.
Qed.

(** C1.  In every sequence of [uv_promise_fulfil] / [uv_promise_break]
    calls on a usable promise, every call returns; a call returns 0 exactly
    when it finds status [PENDING], and it then performs the transition and
    what it stored is what the promise holds at the end; a call that finds
    another status returns [-EINVAL] and leaves status, result and code as
    they were; so at most one call returns 0, and when none does the value
    fields end as they began. *)
Theorem single_transition (h : uv_promise_t) (ws : list write_call) :
  usable h ->
  exists rcs h',
    run_writes ws h = Ret rcs h' /\ length rcs = length ws /\
    (forall (i : nat) w, ws !! i = Some w ->
       exists pre hi rc hi',
         run_writes (take i ws) h = Ret pre hi /\
         write w hi = Ret rc hi' /\ rcs !! i = Some rc /\
         ((status hi = UV_PROMISE_PENDING /\ rc = 0 /\
           written w hi hi' /\ same_value hi' h')
          \/ (status hi <> UV_PROMISE_PENDING /\ rc = - EINVAL /\
              same_value hi hi'))) /\
    (forall i j : nat, rcs !! i = Some 0 -> rcs !! j = Some 0 -> i = j) /\
    ((forall i : nat, rcs !! i <> Some 0) -> same_value h h').
Proof.
  intros Hu. destruct ws as [|w ws].
  { exists [], h. simpl. unfold ret. repeat split; auto.
    - intros i w Hi. rewrite lookup_nil in Hi. discriminate.
    - intros i j Hi. rewrite lookup_nil in Hi. discriminate. }
  destruct (write_cases w h Hu) as (rc & h1 & Hw & Hu1 & Hcase).
  assert (Hs1 : status h1 <> UV_PROMISE_PENDING).
  { destruct Hcase as [(_ & _ & Hwr)|(Hs & _ & (-> & _))]; eauto using written_settles. }
  destruct (run_writes_settled ws h1 Hu1 Hs1) as (h' & Hr & Hsv & Hu').
  exists (rc :: replicate (length ws) (- EINVAL)), h'.
  assert (Hlater : forall j : nat,
            (rc :: replicate (length ws) (- EINVAL)) !! S j <> Some 0).
  { intros j Hj. simpl in Hj. apply lookup_replicate in Hj as [Hj _].
    unfold EINVAL in Hj. discriminate. }
  split; [eapply run_writes_cons; eauto|].
  split; [simpl; rewrite length_replicate; reflexivity|].
  split; [|split].
  - intros [|i] w' Hi; simpl in Hi.
    + injection Hi as <-. exists [], h, rc, h1. simpl. unfold ret.
      repeat split; auto.
      destruct Hcase as [(? & ? & ?)|?]; [left|right]; auto.
    + destruct (run_writes_settled (take i ws) h1 Hu1 Hs1) as (hi & Hri & Hsvi & Hui).
      assert (Hsi : status hi <> UV_PROMISE_PENDING).
      { destruct Hsvi as (-> & _). exact Hs1. }
      destruct (write_cases w' hi Hui) as (rc' & hi' & Hw' & _ & [(? & _)|(_ & -> & ?)]);
        [contradiction|].
      eexists _, hi, (- EINVAL), hi'.
      split; [simpl; eapply run_writes_cons; eauto|].
      split; [exact Hw'|]. split; [|right; auto].
      simpl. apply lookup_replicate. split; [reflexivity|].
      eapply lookup_lt_Some; eauto.
  - intros [|i] [|j] Hi Hj; auto; exfalso; eapply Hlater; eauto.
  - intros Hnone. destruct Hcase as [(_ & -> & _)|(_ & _ & Hsv0)].
    + exfalso. apply (Hnone 0%nat). reflexivity.
    + eauto using same_value_trans.
Qed.

Lemma single_transition_witness :
  usable ready /\
  exists rcs h', run_writes race ready = Ret rcs h' /\ length rcs = length race.
Proof.
  split; [split; reflexivity|].
  destruct (single_transition ready race) as (rcs & h' & Hr & Hl & _);
    [split; reflexivity|].
  exists rcs, h'. split; assumption.
Defined.

Lemma trywait_free t h :
  mutex h = MutexFree ->
  exists h', uv_promise_trywait t h = Ret (snapshot h) h' /\ same_state h h'.
Proof.
  intros Hm. open_promise h. unfold same_state. subst.
  unfold_ops; simpl. rewrite decide_True by done.
  eexists. split; [reflexivity|]. simpl. auto 10.
Qed.

Lemma trywait_held t h o :
  mutex h = MutexHeld o ->
  exists h', uv_promise_trywait t h
             = Ret (mk_result UV_PROMISE_PENDING 0 NULL) h' /\ same_state h h'.
Proof.
  intros Hm. open_promise h. unfold same_state. subst.
  unfold_ops; simpl. eexists. split; [reflexivity|]. simpl. auto 10.
Qed.

(** C5.  [uv_promise_trywait] never leaves its caller blocked.  On an
    initialised mutex it returns: the fixed snapshot [{PENDING, 0, NULL}]
    when the mutex is held (after the one failed trylock and nothing else),
    and the current [{status, code, result}] when the mutex is free (after
    trylock and unlock); the promise's fields are the same afterwards. *)
Theorem trywait_never_blocks (t : tid) (h : uv_promise_t) :
  (forall h', uv_promise_trywait t h <> Block h') /\
  (mutex h <> MutexNone ->
   exists rs h',
     uv_promise_trywait t h = Ret rs h' /\ same_state h h' /\
     (mutex h = MutexFree ->
        rs = mk_result (status h) (code h) (result h) /\
        calls h' = calls h ++ [CallMutexTrylock t 0; CallMutexUnlock t]) /\
     (forall o, mutex h = MutexHeld o ->
        rs = mk_result UV_PROMISE_PENDING 0 NULL /\
        calls h' = calls h ++ [CallMutexTrylock t (-1)])).
Proof.
  open_promise h. unfold same_state. split.
  - intros h'. unfold_ops; simpl. destruct mutex0; simpl; try discriminate.
    rewrite decide_True by done. discriminate.
  - intros Hm. destruct mutex0 as [| |o]; [contradiction| |].
    + unfold_ops; simpl. rewrite decide_True by done.
      eexists _, _. split; [reflexivity|]. simpl.
      rewrite <- app_assoc. simpl. repeat split; auto; discriminate.
    + unfold_ops; simpl.
      eexists _, _. split; [reflexivity|]. simpl.
      repeat split; auto; discriminate.
Qed.

Lemma trywait_never_blocks_witness :
  mutex (set_mutex (MutexHeld 4%nat) ready) <> MutexNone /\
  exists rs h',
    uv_promise_trywait 9%nat (set_mutex (MutexHeld 4%nat) ready) = Ret rs h'.
Proof.
  split; [discriminate|].
  destruct (trywait_never_blocks 9%nat (set_mutex (MutexHeld 4%nat) ready))
    as (_ & H).
  destruct H as (rs & h' & Hr & _); [discriminate|].
  exists rs, h'. exact Hr.
Defined.

Lemma init_success h :
  exists h', uv_promise_init 0 0 h = Ret 0 h' /\
    status h' = UV_PROMISE_PENDING /\ result h' = NULL /\ code h' = 0 /\
    waiting h' = 0 /\ mutex h' = MutexFree /\ cond h' = mk_cond true [] [].
Proof.
  open_promise h. unfold_ops; simpl. eexists. split; [reflexivity|]. simpl. auto 10.
Qed.

(** C8.  [uv_promise_init]: when the mutex cannot be allocated the error
    is returned after that one call, with every field as it was; when the
    mutex is allocated and the condition variable is not, the mutex is
    destroyed again before the error is returned and no mutex is left; on
    success the result is 0 and the promise is [PENDING] with result
    [NULL], code 0, no waiters, a free mutex and a condition variable
    nobody waits on. *)
Theorem init_outcomes (rc_mutex rc_cond : Z) (h : uv_promise_t) :
  (rc_mutex <> 0 ->
   exists h', uv_promise_init rc_mutex rc_cond h = Ret rc_mutex h' /\
     same_state h h' /\ calls h' = calls h ++ [CallMutexInit rc_mutex]) /\
  (rc_mutex = 0 -> rc_cond <> 0 ->
   exists h', uv_promise_init rc_mutex rc_cond h = Ret rc_cond h' /\
     mutex h' = MutexNone /\ cond h' = cond h /\
     calls h' = calls h ++
                [CallMutexInit 0; CallCondInit rc_cond; CallMutexDestroy]) /\
  (rc_mutex = 0 -> rc_cond = 0 ->
   exists h', uv_promise_init rc_mutex rc_cond h = Ret 0 h' /\
     status h' = UV_PROMISE_PENDING /\ result h' = NULL /\ code h' = 0 /\
     waiting h' = 0 /\ mutex h' = MutexFree /\ cond h' = mk_cond true [] [] /\
     calls h' = calls h ++ [CallMutexInit 0; CallCondInit 0]).
Proof.
  open_promise h. unfold same_state. repeat split.
  - intros Hm. unfold_ops; simpl. rewrite decide_False by done.
    rewrite bool_decide_false by done. simpl.
    eexists. split; [reflexivity|]. simpl. auto 10.
  - intros -> Hc. unfold_ops; simpl. rewrite decide_False by done.
    rewrite (bool_decide_false (rc_cond = 0)) by done. simpl.
    eexists. split; [reflexivity|]. simpl.
    repeat rewrite <- app_assoc. auto.
  - intros -> ->. unfold_ops; simpl.
    eexists. split; [reflexivity|]. simpl.
    repeat rewrite <- app_assoc. auto 10.
Qed.

Lemma init_outcomes_witness :
  (-1 <> 0 /\ exists h', uv_promise_init (-1) 0 raw_memory = Ret (-1) h') /\
  (0 = 0 /\ -1 <> 0 /\ exists h', uv_promise_init 0 (-1) raw_memory = Ret (-1) h') /\
  (0 = 0 /\ exists h', uv_promise_init 0 0 raw_memory = Ret 0 h' /\
     status h' = UV_PROMISE_PENDING).
Proof.
  destruct (init_outcomes (-1) 0 raw_memory) as (Ha & _ & _).
  destruct (init_outcomes 0 (-1) raw_memory) as (_ & Hb & _).
  destruct (init_outcomes 0 0 raw_memory) as (_ & _ & Hc).
  destruct Ha as (ha & Ha & _); [discriminate|].
  destruct Hb as (hb & Hb & _); [reflexivity|discriminate|].
  destruct Hc as (hc & Hc & Hs & _); [reflexivity|reflexivity|].
  repeat split; try discriminate; eauto.
Defined.

Lemma remove_tid_not_in t (l : list tid) : t ∉ remove_tid t l.
Proof. unfold remove_tid. rewrite list_elem_of_filter. tauto. Qed.

Lemma get_returns_settled t h rs h' :
  uv_promise_get t h = Ret rs h' \/ uv_promise_get_resume t h = Ret rs h' ->
  rs_status rs <> UV_PROMISE_PENDING /\
  rs = mk_result (status h) (code h) (result h) /\ same_value h h'.
Proof.
  open_promise h. unfold_ops; simpl. intros [H|H].
  - destruct mutex0; simpl in H; try discriminate.
    destruct (bool_decide_reflect (status0 = UV_PROMISE_PENDING)); simpl in H.
    + rewrite decide_True in H by done. destruct cond_live0; discriminate.
    + rewrite decide_True in H by done. injection H as <- <-. simpl. auto.
  - match type of H with context [bool_decide ?P] => destruct (bool_decide P) end;
      [|discriminate].
    destruct mutex0; simpl in H; try discriminate.
    destruct (bool_decide_reflect (status0 = UV_PROMISE_PENDING)); simpl in H.
    + rewrite decide_True in H by done. destruct cond_live0; discriminate.
    + rewrite decide_True in H by done. injection H as <- <-. simpl. auto.
Qed.

Lemma get_blocks_unchanged t h h' :
  uv_promise_get t h = Block h' \/ uv_promise_get_resume t h = Block h' ->
  same_value h h'.
Proof.
  open_promise h. unfold_ops; simpl. intros [H|H].
  - destruct mutex0; simpl in H; try discriminate.
    + destruct (bool_decide_reflect (status0 = UV_PROMISE_PENDING)); simpl in H.
      * rewrite decide_True in H by done. destruct cond_live0; [|discriminate].
        injection H as <-. simpl. auto.
      * rewrite decide_True in H by done. discriminate.
    + injection H as <-. simpl. auto.
  - match type of H with context [bool_decide ?P] => destruct (bool_decide P) end;
      [|discriminate].
    destruct mutex0; simpl in H; try discriminate.
    + destruct (bool_decide_reflect (status0 = UV_PROMISE_PENDING)); simpl in H.
      * rewrite decide_True in H by done. destruct cond_live0; [|discriminate].
        injection H as <-. simpl. auto.
      * rewrite decide_True in H by done. discriminate.
    + injection H as <-. simpl. auto.
Qed.

Lemma get_enter t h :
  usable h ->
  (status h <> UV_PROMISE_PENDING ->
   exists h', uv_promise_get t h = Ret (snapshot h) h' /\ same_state h h' /\
     calls h' = calls h ++ [CallMutexLock t; CallMutexUnlock t]) /\
  (status h = UV_PROMISE_PENDING ->
   exists h', uv_promise_get t h = Block h' /\ usable h' /\
     waiting h' = waiting h + 1 /\
     sleepers (cond h') = sleepers (cond h) ++ [t] /\
     signalled (cond h') = signalled (cond h) /\
     calls h' = calls h ++ [CallMutexLock t; CallCondWait t]).
Proof.
  intros [Hm Hc]. open_promise h. unfold same_state. subst. split; intros Hs.
  - unfold_ops; simpl. rewrite bool_decide_false by done. simpl.
    rewrite decide_True by done. eexists. split; [reflexivity|]. simpl.
    rewrite <- app_assoc. repeat split; auto. lia.
  - subst. unfold_ops; simpl. rewrite decide_True by done.
    eexists. split; [reflexivity|]. simpl.
    rewrite <- app_assoc. repeat split; auto.
Qed.

Lemma get_leave t h :
  usable h -> in_wait t h = true ->
  (status h <> UV_PROMISE_PENDING ->
   exists h', uv_promise_get_resume t h = Ret (snapshot h) h' /\ usable h' /\
     same_value h h' /\ waiting h' = waiting h - 1 /\ in_wait t h' = false /\
     sleepers (cond h') = remove_tid t (sleepers (cond h)) /\
     signalled (cond h') = remove_tid t (signalled (cond h))) /\
  (status h = UV_PROMISE_PENDING ->
   exists h', uv_promise_get_resume t h = Block h' /\ usable h' /\
     waiting h' = waiting h /\
     sleepers (cond h') = remove_tid t (sleepers (cond h)) ++ [t] /\
     signalled (cond h') = remove_tid t (signalled (cond h))).
Proof.
  intros [Hm Hc] Hw. open_promise h. subst.
  unfold in_wait in Hw. simpl in Hw. split; intros Hs.
  - unfold_ops; simpl. rewrite Hw. simpl.
    rewrite bool_decide_false by done. simpl.
    rewrite decide_True by done. eexists. split; [reflexivity|]. simpl.
    repeat split; auto.
    apply bool_decide_eq_false. rewrite elem_of_app.
    intros [?|?]; eapply remove_tid_not_in; eauto.
  - subst. unfold_ops; simpl. rewrite Hw. simpl. rewrite decide_True by done.
    eexists. split; [reflexivity|]. simpl. repeat split; auto.
Qed.

(** C9.  [uv_promise_get] on a usable promise: when the status is not
    [PENDING] it returns at once; when it is, the caller sleeps with the
    waiter count one higher, and each time it leaves the wait it either
    sleeps again (status still [PENDING], count unchanged) or returns with
    the count one lower.  Whenever the call returns, the snapshot's status is
    not [PENDING] and the snapshot is the promise's [{status, code, result}];
    whether it returns or sleeps, status, result and code are unchanged. *)
Theorem get_waits_then_reads (t : tid) (h : uv_promise_t) :
  (forall rs h',
     uv_promise_get t h = Ret rs h' \/ uv_promise_get_resume t h = Ret rs h' ->
     rs_status rs <> UV_PROMISE_PENDING /\
     rs = mk_result (status h) (code h) (result h) /\ same_value h h') /\
  (forall h',
     uv_promise_get t h = Block h' \/ uv_promise_get_resume t h = Block h' ->
     same_value h h') /\
  (usable h ->
   (status h <> UV_PROMISE_PENDING ->
    exists h', uv_promise_get t h = Ret (mk_result (status h) (code h) (result h)) h'
      /\ same_state h h') /\
   (status h = UV_PROMISE_PENDING ->
    exists h', uv_promise_get t h = Block h' /\ usable h' /\
      waiting h' = waiting h + 1 /\ in_wait t h' = true)) /\
  (usable h -> in_wait t h = true ->
   (status h <> UV_PROMISE_PENDING ->
    exists h', uv_promise_get_resume t h
               = Ret (mk_result (status h) (code h) (result h)) h'
      /\ usable h' /\ waiting h' = waiting h - 1 /\ in_wait t h' = false) /\
   (status h = UV_PROMISE_PENDING ->
    exists h', uv_promise_get_resume t h = Block h' /\ usable h' /\
      waiting h' = waiting h /\ in_wait t h' = true)).
Proof.
  split; [intros; eapply get_returns_settled; eauto|].
  split; [intros; eapply get_blocks_unchanged; eauto|].
  split.
  - intros Hu. destruct (get_enter t h Hu) as [Hret Hblk]. split; intros Hs.
    + destruct (Hret Hs) as (h' & ? & ? & _). eauto.
    + destruct (Hblk Hs) as (h' & ? & ? & ? & Hsl & _). exists h'.
      repeat split; auto; try apply H0.
      unfold in_wait. apply bool_decide_eq_true. rewrite Hsl.
      rewrite !elem_of_app, list_elem_of_singleton. auto.
  - intros Hu Hw. destruct (get_leave t h Hu Hw) as [Hret Hblk]. split; intros Hs.
    + destruct (Hret Hs) as (h' & ? & ? & ? & ? & ? & _). exists h'.
      repeat split; auto; apply H0.
    + destruct (Hblk Hs) as (h' & ? & ? & ? & Hsl & _). exists h'.
      repeat split; auto; try apply H0.
      unfold in_wait. apply bool_decide_eq_true. rewrite Hsl.
      rewrite !elem_of_app, list_elem_of_singleton. auto.
Qed.

Lemma get_waits_then_reads_witness :
  (usable ready /\ status ready = UV_PROMISE_PENDING /\
   exists h', uv_promise_get 5%nat ready = Block h') /\
  (usable woken /\ status woken <> UV_PROMISE_PENDING /\
   exists h', uv_promise_get 6%nat woken
              = Ret (mk_result UV_PROMISE_FULFILLED 0 4096) h') /\
  (usable asleep /\ in_wait 5%nat asleep = true /\
   status asleep = UV_PROMISE_PENDING /\
   exists h', uv_promise_get_resume 5%nat asleep = Block h') /\
  (usable woken /\ in_wait 5%nat woken = true /\
   status woken <> UV_PROMISE_PENDING /\
   exists h', uv_promise_get_resume 5%nat woken
              = Ret (mk_result UV_PROMISE_FULFILLED 0 4096) h').
Proof.
  assert (Hr : usable ready) by (split; reflexivity).
  assert (Hw : usable woken) by (split; reflexivity).
  assert (Ha : usable asleep) by (split; reflexivity).
  destruct (get_waits_then_reads 5%nat ready) as (_ & _ & H1 & _).
  destruct (get_waits_then_reads 6%nat woken) as (_ & _ & H2 & _).
  destruct (get_waits_then_reads 5%nat asleep) as (_ & _ & _ & H3).
  destruct (get_waits_then_reads 5%nat woken) as (_ & _ & _ & H4).
  destruct (H1 Hr) as [_ H1b]. destruct (H1b eq_refl) as (h1 & E1 & _).
  destruct (H2 Hw) as [H2a _]. destruct H2a as (h2 & E2 & _); [discriminate|].
  destruct (H3 Ha eq_refl) as [_ H3b]. destruct (H3b eq_refl) as (h3 & E3 & _).
  destruct (H4 Hw eq_refl) as [H4a _]. destruct H4a as (h4 & E4 & _); [discriminate|].
  repeat split; try discriminate; eauto.
Defined.

(** *** Invariants of reachable promises *)

Lemma remove_tid_absent t (l : list tid) : t ∉ l -> remove_tid t l = l.
Proof.
  unfold remove_tid. induction l as [|x l IH]; intros Hin; [reflexivity|].
  apply not_elem_of_cons in Hin as [Hne Hin].
  rewrite filter_cons_True by (intros ->; contradiction).
  rewrite IH by assumption. reflexivity.
Qed.

Lemma remove_tid_perm t (l : list tid) :
  NoDup l -> t ∈ l -> l ≡ₚ t :: remove_tid t l.
Proof.
  induction l as [|x l IH]; intros Hnd Hin.
  - inversion Hin.
  - apply NoDup_cons in Hnd as [Hx Hnd]. unfold remove_tid.
    destruct (decide (x = t)) as [->|Hne].
    + rewrite filter_cons_False by tauto.
      fold (remove_tid t l). rewrite remove_tid_absent by assumption.
      reflexivity.
    + rewrite filter_cons_True by done. fold (remove_tid t l).
      apply elem_of_cons in Hin as [->|Hin]; [contradiction|].
      rewrite (IH Hnd Hin) at 1. apply Permutation_swap.
Qed.

Lemma remove_tid_app t (l1 l2 : list tid) :
  remove_tid t (l1 ++ l2) = remove_tid t l1 ++ remove_tid t l2.
Proof. unfold remove_tid. apply filter_app. Qed.

Lemma destroy_locked_usable t h :
  usable h ->
  exists h1, destroy_locked t h = Ret tt h1 /\ usable h1 /\
    status h1 = (if decide (status h = UV_PROMISE_PENDING)
                 then UV_PROMISE_CANCELLED else status h) /\
    result h1 = result h /\ code h1 = code h /\ waiting h1 = waiting h /\
    sleepers (cond h1) = (if 0 <? waiting h then [] else sleepers (cond h)) /\
    signalled (cond h1) =
      (if 0 <? waiting h then signalled (cond h) ++ sleepers (cond h)
       else signalled (cond h)) /\
    calls h1 = calls h ++ CallMutexLock t ::
                 (if 0 <? waiting h then [CallCondBroadcast (sleepers (cond h))]
                  else []) ++ [CallMutexUnlock t].
Proof.
  intros [Hm Hc]. open_promise h. subst. unfold_ops; simpl.
  destruct (decide (status0 = UV_PROMISE_PENDING)) as [->|Hs].
  - simpl. destruct (0 <? waiting0); simpl; rewrite decide_True by done;
      eexists; (split; [reflexivity|]); simpl;
      repeat rewrite <- app_assoc; simpl; auto 12.
  - rewrite (bool_decide_false (UV_PROMISE_PENDING = status0)) by congruence. simpl.
    destruct (0 <? waiting0); simpl; rewrite decide_True by done;
      eexists; (split; [reflexivity|]); simpl;
      repeat rewrite <- app_assoc; simpl; auto 12.
Qed.

Lemma destroy_release h1 :
  usable h1 -> sleepers (cond h1) = [] ->
  exists h', (uv_mutex_destroy ;; uv_cond_destroy) h1 = Ret tt h' /\
    same_value h1 h' /\ mutex h' = MutexNone /\ cond_live (cond h') = false /\
    signalled (cond h') = signalled (cond h1) /\
    calls h' = calls h1 ++ [CallMutexDestroy; CallCondDestroy].
Proof.
  intros [Hm Hc] Hsl. open_promise h1. subst. unfold_ops; simpl.
  eexists. split; [reflexivity|]. simpl. rewrite <- app_assoc. auto 10.
Qed.

Lemma call_without_mutex o h : mutex h = MutexNone -> call o h = Undef.
Proof.
  intros Hm. open_promise h. subst.
  destruct o; unfold_ops; simpl; try reflexivity;
    match goal with |- context [bool_decide ?P] => destruct (bool_decide P) end;
    reflexivity.
Qed.

Lemma inv_init h0 rc_cond h :
  after (uv_promise_init 0 rc_cond h0) = Some h -> promise_inv h.
Proof.
  destruct (decide (rc_cond = 0)) as [->|Hrc].
  - destruct (init_success h0) as (h' & -> & Hs & Hr & Hc & Hw & Hm & Hcd).
    simpl. intros [= <-]. unfold promise_inv, pending_clean, waiters_counted, usable.
    rewrite Hm, Hcd, Hw, Hr, Hc. simpl.
    repeat split; auto using NoDup_nil_2.
  - unfold promise_inv, pending_clean, waiters_counted, usable.
    open_promise h0. unfold_ops; simpl.
    rewrite decide_False by done. rewrite bool_decide_false by done. simpl.
    intros [= <-]. simpl. intuition congruence.
Qed.

Lemma call_eq {A} (m : M A) (f : A -> value) h a h1 :
  m h = Ret a h1 -> (x <- m ;; ret (f x)) h = Ret (f a) h1.
Proof. intros H. unfold bind, ret. rewrite H. reflexivity. Qed.

Lemma call_eq_block {A} (m : M A) (f : A -> value) h h1 :
  m h = Block h1 -> (x <- m ;; ret (f x)) h = Block h1.
Proof. intros H. unfold bind, ret. rewrite H. reflexivity. Qed.

Lemma no_sleepers_when_uncounted h :
  waiting h = Z.of_nat (length (sleepers (cond h) ++ signalled (cond h))) ->
  (0 <? waiting h) = false -> sleepers (cond h) = [].
Proof.
  intros Hc Hw. apply Z.ltb_ge in Hw. rewrite Hc in Hw.
  destruct (sleepers (cond h)); [reflexivity|]. simpl in Hw. lia.
Qed.

(** What a broadcast under the [waiting > 0] test does to the invariant. *)
Lemma wake_counted h h' :
  usable h -> waiters_counted h -> usable h' ->
  waiting h' = waiting h ->
  sleepers (cond h') = (if 0 <? waiting h then [] else sleepers (cond h)) ->
  signalled (cond h') =
    (if 0 <? waiting h then signalled (cond h) ++ sleepers (cond h)
     else signalled (cond h)) ->
  sleepers (cond h') = [] /\ waiters_counted h'.
Proof.
  intros Hu Hwc Hu' Hw Hsl Hsg. destruct (Hwc Hu) as (Hcount & Hnd & Hset).
  assert (Hnil : sleepers (cond h') = []).
  { rewrite Hsl. destruct (0 <? waiting h) eqn:E; [reflexivity|].
    eauto using no_sleepers_when_uncounted. }
  split; [exact Hnil|]. intros _. rewrite Hnil. simpl.
  rewrite Hw, Hsg.
  destruct (0 <? waiting h) eqn:E.
  - rewrite Hcount, !length_app. split; [lia|]. split; [|reflexivity].
    eapply NoDup_Permutation_proper; [apply Permutation_app_comm|exact Hnd].
  - pose proof (no_sleepers_when_uncounted h Hcount E) as Hno.
    rewrite Hno in Hcount, Hnd. simpl in *. auto.
Qed.

Lemma inv_step o h h' :
  promise_inv h -> after (call o h) = Some h' -> promise_inv h'.
Proof.
  intros (Hpc & Hwc & [Hm|Hm] & Hlive) Hstep;
    [|rewrite call_without_mutex in Hstep by assumption; discriminate].
  assert (Hu : usable h) by (split; auto).
  destruct (Hwc Hu) as (Hcount & Hnd & Hset).
  assert (Hinv : forall h1, usable h1 -> pending_clean h1 -> waiters_counted h1 ->
                            promise_inv h1).
  { intros h1 [Hm1 Hc1] ? ?. unfold promise_inv. auto. }
  destruct o as [t res|t c|t|t|t|t]; simpl in Hstep.
  - destruct (decide (status h = UV_PROMISE_PENDING)) as [Hs|Hs].
    + destruct (fulfil_when_pending t res h Hu Hs)
        as (h1 & E & Hs1 & _ & _ & Hu1 & Hw1 & Hsl1 & Hsg1).
      rewrite (call_eq _ VInt _ _ _ E) in Hstep. injection Hstep as <-.
      apply Hinv; auto.
      * intros Hp. congruence.
      * exact (proj2 (wake_counted h h1 Hu Hwc Hu1 Hw1 Hsl1 Hsg1)).
    + destruct (fulfil_when_settled t res h Hm Hs)
        as (h1 & E & (Hs1 & Hr1 & Hc1) & Hw1 & Hm1 & Hcd1).
      rewrite (call_eq _ VInt _ _ _ E) in Hstep. injection Hstep as <-.
      apply Hinv.
      * split; [auto|]. rewrite Hcd1. apply Hu.
      * intros Hp. congruence.
      * intros _. rewrite Hcd1, Hw1, Hs1. auto.
  - destruct (decide (status h = UV_PROMISE_PENDING)) as [Hs|Hs].
    + destruct (break_when_pending t c h Hu Hs)
        as (h1 & E & Hs1 & _ & _ & Hu1 & Hw1 & Hsl1 & Hsg1).
      rewrite (call_eq _ VInt _ _ _ E) in Hstep. injection Hstep as <-.
      apply Hinv; auto.
      * intros Hp. congruence.
      * exact (proj2 (wake_counted h h1 Hu Hwc Hu1 Hw1 Hsl1 Hsg1)).
    + destruct (break_when_settled t c h Hm Hs)
        as (h1 & E & (Hs1 & Hr1 & Hc1) & Hw1 & Hm1 & Hcd1).
      rewrite (call_eq _ VInt _ _ _ E) in Hstep. injection Hstep as <-.
      apply Hinv.
      * split; [auto|]. rewrite Hcd1. apply Hu.
      * intros Hp. congruence.
      * intros _. rewrite Hcd1, Hw1, Hs1. auto.
  - unfold bind at 1 in Hstep. unfold get_state in Hstep.
    destruct (in_wait t h) eqn:Hin; [discriminate|].
    apply bool_decide_eq_false in Hin.
    destruct (get_enter t h Hu) as [Hret Hblk].
    destruct (decide (status h = UV_PROMISE_PENDING)) as [Hs|Hs].
    + destruct (Hblk Hs) as (h1 & E & Hu1 & Hw1 & Hsl1 & Hsg1 & _).
      rewrite (call_eq_block _ VSnap _ _ E) in Hstep. injection Hstep as <-.
      destruct (get_blocks_unchanged t h h1 (or_introl E)) as (Hs1 & Hr1 & Hc1).
      apply Hinv; auto.
      * intros _. rewrite Hr1, Hc1. auto.
      * intros _. rewrite Hsl1, Hsg1, Hw1, Hcount.
        assert (Hp : (sleepers (cond h) ++ [t]) ++ signalled (cond h)
                     ≡ₚ t :: sleepers (cond h) ++ signalled (cond h)).
        { rewrite <- app_assoc. simpl. symmetry. apply Permutation_middle. }
        split; [|split].
        -- rewrite Hp. simpl length. lia.
        -- rewrite Hp. apply NoDup_cons. auto.
        -- intros Hne. congruence.
    + destruct (Hret Hs) as (h1 & E & (Hs1 & Hr1 & Hc1 & Hw1 & Hm1 & Hcd1) & _).
      rewrite (call_eq _ VSnap _ _ _ E) in Hstep. injection Hstep as <-.
      apply Hinv.
      * split; [congruence|]. rewrite Hcd1. apply Hu.
      * intros Hp. congruence.
      * intros _. rewrite Hcd1, Hw1, Hs1. auto.
  - destruct (in_wait t h) eqn:Hin.
    2:{ revert Hin Hstep. open_promise h. unfold_ops; simpl.
        intros ->. discriminate. }
    destruct (get_leave t h Hu Hin) as [Hret Hblk].
    apply bool_decide_eq_true in Hin.
    pose proof (remove_tid_perm t _ Hnd Hin) as Hperm.
    rewrite remove_tid_app in Hperm.
    assert (Hnd' : NoDup (t :: remove_tid t (sleepers (cond h))
                            ++ remove_tid t (signalled (cond h)))).
    { eapply NoDup_Permutation_proper; [symmetry; exact Hperm|exact Hnd]. }
    assert (Hlen : length (sleepers (cond h) ++ signalled (cond h))
                   = S (length (remove_tid t (sleepers (cond h))
                                ++ remove_tid t (signalled (cond h))))).
    { rewrite Hperm at 1. reflexivity. }
    destruct (decide (status h = UV_PROMISE_PENDING)) as [Hs|Hs].
    + destruct (Hblk Hs) as (h1 & E & Hu1 & Hw1 & Hsl1 & Hsg1).
      rewrite (call_eq_block _ VSnap _ _ E) in Hstep. injection Hstep as <-.
      destruct (get_blocks_unchanged t h h1 (or_intror E)) as (Hs1 & Hr1 & Hc1).
      apply Hinv; auto.
      * intros _. rewrite Hr1, Hc1. auto.
      * intros _. rewrite Hsl1, Hsg1, Hw1, Hcount, Hlen.
        assert (Hp : (remove_tid t (sleepers (cond h)) ++ [t])
                       ++ remove_tid t (signalled (cond h))
                     ≡ₚ t :: remove_tid t (sleepers (cond h))
                          ++ remove_tid t (signalled (cond h))).
        { rewrite <- app_assoc. simpl. symmetry. apply Permutation_middle. }
        split; [|split].
        -- rewrite Hp. reflexivity.
        -- rewrite Hp. exact Hnd'.
        -- intros Hne. congruence.
    + destruct (Hret Hs) as (h1 & E & Hu1 & (Hs1 & Hr1 & Hc1) & Hw1 & _ & Hsl1 & Hsg1).
      rewrite (call_eq _ VSnap _ _ _ E) in Hstep. injection Hstep as <-.
      apply Hinv; auto.
      * intros Hp. congruence.
      * intros _. rewrite Hsl1, Hsg1, Hw1, Hcount, Hlen, Hs1.
        apply NoDup_cons in Hnd' as [_ Hnd'].
        split; [lia|]. split; [exact Hnd'|].
        intros Hne. rewrite (Hset Hne). reflexivity.
  - destruct (trywait_free t h Hm) as (h1 & E & (Hs1 & Hr1 & Hc1 & Hw1 & Hm1 & Hcd1)).
    rewrite (call_eq _ VSnap _ _ _ E) in Hstep. injection Hstep as <-.
    apply Hinv.
    + split; [congruence|]. rewrite Hcd1. apply Hu.
    + intros Hp. rewrite Hr1, Hc1. apply Hpc. congruence.
    + intros _. rewrite Hcd1, Hw1, Hs1. auto.
  - destruct (destroy_locked_usable t h Hu)
      as (h1 & E & Hu1 & Hs1 & Hr1 & Hc1 & Hw1 & Hsl1 & Hsg1 & _).
    destruct (wake_counted h h1 Hu Hwc Hu1 Hw1 Hsl1 Hsg1) as [Hnil _].
    destruct (destroy_release h1 Hu1 Hnil) as (h2 & E2 & (Hs2 & _) & Hm2 & _).
    unfold uv_promise_destroy in Hstep. unfold bind at 1 2 in Hstep.
    rewrite E in Hstep. fold (uv_mutex_destroy ;; uv_cond_destroy) in Hstep.
    rewrite E2 in Hstep. simpl in Hstep. injection Hstep as <-.
    unfold promise_inv, pending_clean, waiters_counted, usable.
    rewrite Hm2, Hs2, Hs1.
    split; [|split; [|split]]; try (intros [? ?]; discriminate); auto.
    + destruct (decide (status h = UV_PROMISE_PENDING)); [discriminate|congruence].
    + discriminate.
Qed.

Lemma reachable_inv h : reachable h -> promise_inv h.
Proof.
  induction 1 as [h0 rc h Hi|h o h' _ IH Hstep];
    eauto using inv_init, inv_step.
Qed.

Ltac split_matches H :=
  repeat match type of H with
         | context [match ?x with _ => _ end] => is_var x; destruct x; simpl in H
         | context [bool_decide ?P] => destruct (bool_decide_reflect P); simpl in H
         | context [decide ?P] => destruct (decide P); simpl in H
         | context [if (?a <? ?b) then _ else _] => destruct (a <? b); simpl in H
         end.

(** No call ever moves a promise out of a settled status, or touches the
    value it holds. *)
Lemma settled_stays o h h' :
  after (call o h) = Some h' -> status h <> UV_PROMISE_PENDING -> same_value h h'.
Proof.
  intros Hstep Hs. open_promise h.
  destruct o; revert Hstep; unfold_ops; simpl; intros Hstep;
    split_matches Hstep; try discriminate; try congruence;
    injection Hstep as <-; simpl; auto.
Qed.

(** No call leaves a pending promise with a value. *)
Lemma pending_clean_step o h h' :
  pending_clean h -> after (call o h) = Some h' -> pending_clean h'.
Proof.
  intros Hpc Hstep. open_promise h.
  destruct o; revert Hstep; unfold_ops; simpl; intros Hstep;
    split_matches Hstep; try discriminate; try congruence;
    injection Hstep as <-; simpl; auto; try discriminate; try congruence.
Qed.

Lemma run_ops_settled os h1 h2 :
  run_ops os h1 = Some h2 -> status h1 <> UV_PROMISE_PENDING -> same_value h1 h2.
Proof.
  revert h1. induction os as [|o os IH]; intros h1 Hrun Hs; simpl in Hrun.
  - injection Hrun as <-. apply same_value_refl.
  - destruct (after (call o h1)) as [hm|] eqn:E; [|discriminate].
    pose proof (settled_stays o h1 hm E Hs) as Hsv.
    eapply same_value_trans; [exact Hsv|]. apply IH; [exact Hrun|].
    destruct Hsv as (-> & _). exact Hs.
Qed.

Lemma reachable_ready : reachable ready.
Proof. apply (reachable_init raw_memory 0). reflexivity. Qed.

Lemma reachable_asleep : reachable asleep.
Proof.
  apply (reachable_step ready (OpGet 5%nat)); [apply reachable_ready|reflexivity].
Qed.





(** C10.  A pending promise holds no value: [uv_promise_init] (once it has
    its mutex) leaves code 0 and result [NULL] with status [PENDING]; every
    call of [fulfil], [break], [get] (entering or leaving its wait),
    [trywait] and [destroy] keeps "status [PENDING] implies code 0 and result
    [NULL]"; so it holds of every promise a program can hold, and the
    snapshot [trywait] returns under contention is the one a [trywait] that
    gets the lock reads from any such promise that is still pending. *)
Theorem pending_holds_no_value :
  (forall rc_cond h0 h,
     after (uv_promise_init 0 rc_cond h0) = Some h ->
     status h = UV_PROMISE_PENDING /\ code h = 0 /\ result h = NULL) /\
  (forall o h h',
     (status h = UV_PROMISE_PENDING -> code h = 0 /\ result h = NULL) ->
     after (call o h) = Some h' ->
     (status h' = UV_PROMISE_PENDING -> code h' = 0 /\ result h' = NULL)) /\
  (forall h, reachable h ->
     status h = UV_PROMISE_PENDING -> code h = 0 /\ result h = NULL) /\
  (forall h t t' hc o,
     reachable h -> usable h -> status h = UV_PROMISE_PENDING ->
     mutex hc = MutexHeld o ->
     exists rs h1 h2,
       uv_promise_trywait t hc = Ret rs h1 /\
       uv_promise_trywait t' h = Ret rs h2 /\
       rs = mk_result UV_PROMISE_PENDING 0 NULL).
Proof.
  split; [|split; [|split]].
  - intros rc_cond h0 h. open_promise h0. unfold_ops; simpl.
    destruct (decide (rc_cond = 0)); simpl.
    + rewrite bool_decide_true by done. simpl. intros [= <-]. auto.
    + rewrite bool_decide_false by done. simpl. intros [= <-]. auto.
  - intros o h h'. apply pending_clean_step.
  - intros h Hreach. apply (reachable_inv h Hreach).
  - intros h t t' hc o Hreach Hu Hs Hheld.
    destruct (reachable_inv h Hreach) as (Hpc & _).
    destruct (Hpc Hs) as [Hc Hr].
    destruct (trywait_held t hc o Hheld) as (h1 & E1 & _).
    destruct (trywait_free t' h (proj1 Hu)) as (h2 & E2 & _).
    unfold snapshot in E2. rewrite Hs, Hc, Hr in E2. eauto 10.
Qed.

Lemma pending_holds_no_value_witness :
  reachable asleep /\ usable asleep /\ status asleep = UV_PROMISE_PENDING /\
  mutex (set_mutex (MutexHeld 4%nat) woken) = MutexHeld 4%nat /\
  exists rs h1 h2,
    uv_promise_trywait 8%nat (set_mutex (MutexHeld 4%nat) woken) = Ret rs h1 /\
    uv_promise_trywait 9%nat asleep = Ret rs h2.
Proof.
  assert (Hu : usable asleep) by (split; reflexivity).
  split; [exact reachable_asleep|]. split; [exact Hu|].
  split; [reflexivity|]. split; [reflexivity|].
  destruct pending_holds_no_value as (_ & _ & _ & H).
  destruct (H asleep 8%nat 9%nat (set_mutex (MutexHeld 4%nat) woken) 4%nat
              reachable_asleep Hu eq_refl eq_refl) as (rs & h1 & h2 & E1 & E2 & _).
  exists rs, h1, h2. auto.
Defined.

(** The scenarios of the specification, run. *)
Example init_gives_ready : uv_promise_init 0 0 raw_memory = Ret 0 ready.
Proof. reflexivity. Qed.

Example scenario_fulfil_wakes_reader :
  match uv_promise_get 5%nat ready with
  | Block h1 =>
      match uv_promise_fulfil 1%nat 4096 h1 with
      | Ret rc h2 =>
          rc = 0 /\
          match uv_promise_get_resume 5%nat h2 with
          | Ret rs h3 =>
              rs = mk_result UV_PROMISE_FULFILLED 0 4096 /\ waiting h3 = 0
          | _ => False
          end
      | _ => False
      end
  | _ => False
  end.
Proof. vm_compute. auto. Qed.

Example scenario_break_before_get :
  match uv_promise_break 2%nat (-5) ready with
  | Ret rc h1 =>
      rc = 0 /\
      match uv_promise_get 5%nat h1 with
      | Ret rs _ => rs = mk_result UV_PROMISE_BROKEN (-5) NULL
      | _ => False
      end
  | _ => False
  end.
Proof. vm_compute. auto. Qed.

Example scenario_destroy_cancels_reader :
  match uv_promise_get 5%nat ready with
  | Block h1 =>
      match destroy_locked 7%nat h1 with
      | Ret _ h2 =>
          match uv_promise_get_resume 5%nat h2 with
          | Ret rs h3 =>
              rs_status rs = UV_PROMISE_CANCELLED /\
              match (uv_mutex_destroy ;; uv_cond_destroy) h3 with
              | Ret _ h4 => mutex h4 = MutexNone /\ waiting h4 = 0
              | _ => False
              end
          | _ => False
          end
      | _ => False
      end
  | _ => False
  end.
Proof. vm_compute. auto. Qed.

Example scenario_second_writer_loses :
  match run_writes race ready with
  | Ret rcs h' =>
      rcs = [0; - EINVAL; - EINVAL] /\
      status h' = UV_PROMISE_BROKEN /\ code h' = -5 /\ result h' = NULL
  | _ => False
  end.
Proof. vm_compute. auto. Qed.

End PromiseFacts.

End Promise.

(** ** The reactor ([src/unix/core.c]) *)

Module Reactor.

(** Handles live in caller-owned memory; a handle pointer is an address,
    and a null pointer is [None]. *)
Definition addr := Z.

(** The handle kinds [src/unix/core.c] switches on; [UV_UNKNOWN_HANDLE]
    stands for every other value of the type tag. *)
Inductive uv_handle_type :=
  | UV_UNKNOWN_HANDLE
  | UV_NAMED_PIPE
  | UV_TTY
  | UV_TCP
  | UV_UDP
  | UV_PREPARE
  | UV_CHECK
  | UV_IDLE
  | UV_ASYNC
  | UV_TIMER
  | UV_PROCESS
  | UV_FS_EVENT
  | UV_POLL.

#[global] Instance uv_handle_type_eq_dec : EqDecision uv_handle_type.
Proof. solve_decision. Defined.

(** The fields of [uv_handle_t] the core reads and writes, with the
    stream fields [uv__finish_close] inspects ([read_watcher] and
    [write_watcher] hold what [ev_is_active] reports).  [close_cb] is a
    function pointer: the number of a callback, or null.  One loop is
    modelled, so the handle's pointer to its loop is left out. *)
Record uv_handle_t := mk_handle {
  type          : uv_handle_type;
  flags         : Z;
  next_pending  : option addr;
  close_cb      : option nat;
  read_watcher  : bool;
  write_watcher : bool;
  fd            : Z
}.

Definition set_flags (v : Z) (h : uv_handle_t) :=
  mk_handle (type h) v (next_pending h) (close_cb h)
            (read_watcher h) (write_watcher h) (fd h).
Definition set_next_pending (v : option addr) (h : uv_handle_t) :=
  mk_handle (type h) (flags h) v (close_cb h)
            (read_watcher h) (write_watcher h) (fd h).
Definition set_close_cb (v : option nat) (h : uv_handle_t) :=
  mk_handle (type h) (flags h) (next_pending h) v
            (read_watcher h) (write_watcher h) (fd h).
Definition set_stream (rd wr : bool) (d : Z) (h : uv_handle_t) :=
  mk_handle (type h) (flags h) (next_pending h) (close_cb h) rd wr d.

(** The routines of other libuv files that the core calls. *)
Inductive routine :=
  | uv__pipe_close
  | uv__stream_close
  | uv__udp_close
  | uv__prepare_close
  | uv__check_close
  | uv__idle_close
  | uv__async_close
  | uv__timer_close
  | uv__process_close
  | uv__fs_event_close
  | uv__poll_close
  | uv__stream_pending
  | uv__stream_destroy
  | uv__udp_finish_close.

#[global] Instance routine_eq_dec : EqDecision routine.
Proof. solve_decision. Defined.

Inductive phase :=
  | uv__run_idle
  | uv__run_prepare
  | uv__run_check.

#[global] Instance phase_eq_dec : EqDecision phase.
Proof. solve_decision. Defined.

(** What the loop did, newest last.  [EvCall], [EvCloseCb], [EvPhase] and
    [EvPoll] record calls that leave the core; [EvClosed] records the write
    of the [CLOSED] flag and [EvEnqueue] the linking of a handle into the
    pending list. *)
Inductive event :=
  | EvCall (r : routine) (a : addr)
  | EvCloseCb (cb : nat) (a : addr)
  | EvClosed (a : addr)
  | EvEnqueue (a : addr)
  | EvPhase (p : phase)
  | EvPoll (block : bool).

#[global] Instance event_eq_dec : EqDecision event.
Proof. solve_decision. Defined.

(** The loop ([uv_loop_t]: [pending_handles], [active_handles],
    [idle_handles], the requests in flight, [counters.handle_init]), the
    memory holding the handles, and the history of events. *)
Record reactor := mk_reactor {
  heap              : gmap addr uv_handle_t;
  pending_handles   : option addr;
  active_handles    : list addr;
  idle_handles      : list addr;
  active_reqs       : nat;
  handle_init_count : Z;
  trace             : list event
}.

Definition set_heap (v : gmap addr uv_handle_t) (s : reactor) :=
  mk_reactor v (pending_handles s) (active_handles s) (idle_handles s)
             (active_reqs s) (handle_init_count s) (trace s).
Definition set_pending_handles (v : option addr) (s : reactor) :=
  mk_reactor (heap s) v (active_handles s) (idle_handles s)
             (active_reqs s) (handle_init_count s) (trace s).
Definition set_active_handles (v : list addr) (s : reactor) :=
  mk_reactor (heap s) (pending_handles s) v (idle_handles s)
             (active_reqs s) (handle_init_count s) (trace s).
Definition set_idle_handles (v : list addr) (s : reactor) :=
  mk_reactor (heap s) (pending_handles s) (active_handles s) v
             (active_reqs s) (handle_init_count s) (trace s).
Definition set_active_reqs (v : nat) (s : reactor) :=
  mk_reactor (heap s) (pending_handles s) (active_handles s) (idle_handles s)
             v (handle_init_count s) (trace s).
Definition set_handle_init_count (v : Z) (s : reactor) :=
  mk_reactor (heap s) (pending_handles s) (active_handles s) (idle_handles s)
             (active_reqs s) v (trace s).
Definition add_event (e : event) (s : reactor) :=
  mk_reactor (heap s) (pending_handles s) (active_handles s) (idle_handles s)
             (active_reqs s) (handle_init_count s) (trace s ++ [e]).

(** *** A monad for code that may abort

    [Abort] is [abort()] or a failed [assert], with the state reached;
    [Fault] is the use of a pointer to no handle; [OutOfFuel] is a loop
    that did not finish within the steps it was given. *)
Inductive outcome (A : Type) :=
  | Ok (a : A) (s : reactor)
  | Abort (s : reactor)
  | Fault
  | OutOfFuel.
Arguments Ok {A} a s.
Arguments Abort {A} s.
Arguments Fault {A}.
Arguments OutOfFuel {A}.

Definition M (A : Type) := reactor -> outcome A.

Definition ret {A} (a : A) : M A := fun s => Ok a s.
Definition bind {A B} (m : M A) (k : A -> M B) : M B :=
  fun s => match m s with
           | Ok a s' => k a s'
           | Abort s' => Abort s'
           | Fault => Fault
           | OutOfFuel => OutOfFuel
           end.
Definition get_state : M reactor := fun s => Ok s s.
Definition modify (f : reactor -> reactor) : M unit := fun s => Ok tt (f s).
Definition abort {A} : M A := fun s => Abort s.
Definition assert (b : bool) : M unit := if b then ret tt else abort.
Definition emit (e : event) : M unit := modify (add_event e).

Notation "x <- m ;; k" := (bind m (fun x => k))
  (at level 100, m at next level, right associativity).
Notation "m ;; k" := (bind m (fun _ => k))
  (at level 100, right associativity).

(** Reading and writing a handle through its pointer. *)
Definition load (a : addr) : M uv_handle_t := fun s =>
  match heap s !! a with
  | Some h => Ok h s
  | None => Fault
  end.
Definition store (a : addr) (h : uv_handle_t) : M unit :=
  modify (fun s => set_heap (<[a := h]> (heap s)) s).
Definition update (a : addr) (f : uv_handle_t -> uv_handle_t) : M unit :=
  h <- load a ;; store a (f h).

(** *** Flag bits

    The values of the flag constants are declared in headers that are not
    among the sources; they are single bits, taken as parameters. *)
Record flag_bits := mk_flag_bits {
  closing_bit : nat;
  closed_bit  : nat;
  pending_bit : nat;
  ref_bit     : nat;
  active_bit  : nat
}.

Definition distinct_bits (B : flag_bits) : Prop :=
  NoDup [closing_bit B; closed_bit B; pending_bit B; ref_bit B; active_bit B].

Definition bit (k : nat) : Z := 2 ^ Z.of_nat k.

(** [f & m] used as a condition. *)
Definition has_flag (f m : Z) : bool := negb (Z.land f m =? 0).

(** What code outside the core may do to the state the core keeps: the
    operations other libuv files perform on handles and on the loop. *)
Inductive prim :=
  | PMakePending (a : addr)
  | PStart (a : addr)
  | PStop (a : addr)
  | PStream (a : addr) (rd wr : bool) (d : Z)
  | PReqs (n : nat)
  | PIdle (hs : list addr).

(** What callbacks may do: the above, and [uv_close]. *)
Inductive api_call :=
  | ALib (p : prim)
  | AClose (a : addr) (cb : option nat).

(** The code outside the core: what a type-specific close routine does
    when [uv_close] calls it, and what runs when the loop calls out (a
    dispatcher, a finaliser, a close callback, the hooks of a phase, the
    poll), given the state at the call. *)
Record environment := mk_environment {
  close_code    : routine -> addr -> reactor -> list prim;
  callback_code : event -> reactor -> list api_call
}.

Section Core.

Context (B : flag_bits) (E : environment).

Definition UV_CLOSING : Z := bit (closing_bit B).
Definition UV_CLOSED : Z := bit (closed_bit B).
Definition UV__PENDING : Z := bit (pending_bit B).
Definition UV__REF : Z := bit (ref_bit B).
Definition UV__ACTIVE : Z := bit (active_bit B).

(** Modelled from the spec: [uv__is_active], [uv__has_pending_handles],
    [uv__has_active_handles] and [uv__has_active_reqs] (macros of a header
    that is not among the sources): a handle is active when its [ACTIVE]
    flag is set; the loop has pending handles when its pending list is not
    empty, active handles when its queue of active handles is not empty,
    active requests when their number is positive. *)
Definition uv__is_active (h : uv_handle_t) : bool := has_flag (flags h) UV__ACTIVE.
Definition uv__has_pending_handles (s : reactor) : bool :=
  bool_decide (pending_handles s <> None).
Definition uv__has_active_handles (s : reactor) : bool :=
  bool_decide (active_handles s <> []).
Definition uv__has_active_reqs (s : reactor) : bool :=
  bool_decide (active_reqs s <> 0%nat).

Definition remove_addr (a : addr) (l : list addr) : list addr :=
  filter (fun x => x <> a) l.

(** Modelled from the spec: [uv__make_pending] (not among the sources).
    [PENDING] marks a handle that is linked into the pending list, and a
    handle is linked at most once: a handle that carries the flag is left
    alone, any other is pushed onto the front of the list. *)
Definition uv__make_pending (a : addr) : M unit :=
  h <- load a ;;
  if has_flag (flags h) UV__PENDING then ret tt
  else
    s <- get_state ;;
    store a (set_flags (Z.lor (flags h) UV__PENDING)
              (set_next_pending (pending_handles s) h)) ;;
    modify (set_pending_handles (Some a)) ;;
    emit (EvEnqueue a).

(** Modelled from the spec: [uv__handle_start], [uv__handle_stop] and
    [uv__handle_unref] (not among the sources).  An active handle counts
    towards the loop's work while it is referenced. *)
Definition uv__handle_start (a : addr) : M unit :=
  h <- load a ;;
  if has_flag (flags h) UV__ACTIVE then ret tt
  else
    store a (set_flags (Z.lor (flags h) UV__ACTIVE) h) ;;
    if has_flag (flags h) UV__REF
    then modify (fun s => set_active_handles (a :: active_handles s) s)
    else ret tt.

Definition uv__handle_stop (a : addr) : M unit :=
  h <- load a ;;
  if negb (has_flag (flags h) UV__ACTIVE) then ret tt
  else
    store a (set_flags (Z.land (flags h) (Z.lnot UV__ACTIVE)) h) ;;
    if has_flag (flags h) UV__REF
    then modify (fun s => set_active_handles (remove_addr a (active_handles s)) s)
    else ret tt.

Definition uv__handle_unref (a : addr) : M unit :=
  h <- load a ;;
  if negb (has_flag (flags h) UV__REF) then ret tt
  else
    store a (set_flags (Z.land (flags h) (Z.lnot UV__REF)) h) ;;
    if has_flag (flags h) UV__ACTIVE
    then modify (fun s => set_active_handles (remove_addr a (active_handles s)) s)
    else ret tt.

Definition exec_prim (p : prim) : M unit :=
  match p with
  | PMakePending a => uv__make_pending a
  | PStart a => uv__handle_start a
  | PStop a => uv__handle_stop a
  | PStream a rd wr d => update a (set_stream rd wr d)
  | PReqs n => modify (set_active_reqs n)
  | PIdle hs => modify (set_idle_handles hs)
  end.

Fixpoint exec_prims (ps : list prim) : M unit :=
  match ps with
  | [] => ret tt
  | p :: ps => exec_prim p ;; exec_prims ps
  end.

(** A type-specific close routine, called from [uv_close]. *)
Definition close_routine (r : routine) (a : addr) : M unit :=
  emit (EvCall r a) ;;
  s <- get_state ;;
  exec_prims (close_code E r a s).

(** [uv__handle_init].  [counters.handle_init] is one of the loop's
    unsigned 64-bit counters (their type is declared in a header that is not
    among the sources); [++] on it wraps at [2 ^ 64]. *)
Definition counter_bits : Z := 64.
Definition wrap_counter (v : Z) : Z := v mod 2 ^ counter_bits.

Definition uv__handle_init (a : addr) (ty : uv_handle_type) : M unit :=
  modify (fun s => set_handle_init_count
                     (wrap_counter (handle_init_count s + 1)) s) ;;
  s <- get_state ;;
  let h := default (mk_handle ty 0 None None false false (-1)) (heap s !! a) in
  store a (mk_handle ty UV__REF None (close_cb h)
                     (read_watcher h) (write_watcher h) (fd h)).

(** [uv_close]. *)
Definition uv_close (a : addr) (cb : option nat) : M unit :=
  update a (set_close_cb cb) ;;
  h <- load a ;;
  match type h with
  | UV_NAMED_PIPE => close_routine uv__pipe_close a
  | UV_TTY | UV_TCP => close_routine uv__stream_close a
  | UV_UDP => close_routine uv__udp_close a
  | UV_PREPARE => close_routine uv__prepare_close a
  | UV_CHECK => close_routine uv__check_close a
  | UV_IDLE => close_routine uv__idle_close a
  | UV_ASYNC => close_routine uv__async_close a
  | UV_TIMER => close_routine uv__timer_close a
  | UV_PROCESS => close_routine uv__process_close a
  | UV_FS_EVENT => close_routine uv__fs_event_close a
  | UV_POLL => close_routine uv__poll_close a
  | UV_UNKNOWN_HANDLE => abort
  end ;;
  update a (fun h => set_flags (Z.lor (flags h) UV_CLOSING) h) ;;
  uv__make_pending a.

Definition exec_call (c : api_call) : M unit :=
  match c with
  | ALib p => exec_prim p
  | AClose a cb => uv_close a cb
  end.

Fixpoint exec_calls (cs : list api_call) : M unit :=
  match cs with
  | [] => ret tt
  | c :: cs => exec_call c ;; exec_calls cs
  end.

(** A call that leaves the core: it is recorded, and the code behind it
    runs. *)
Definition call_out (e : event) : M unit :=
  emit e ;;
  s <- get_state ;;
  exec_calls (callback_code E e s).

(** [uv__finish_close]. *)
Definition uv__finish_close (a : addr) : M unit :=
  h <- load a ;;
  assert (negb (uv__is_active h)) ;;
  assert (has_flag (flags h) UV_CLOSING) ;;
  assert (negb (has_flag (flags h) UV_CLOSED)) ;;
  store a (set_flags (Z.lor (flags h) UV_CLOSED) h) ;;
  emit (EvClosed a) ;;
  match type h with
  | UV_PREPARE | UV_CHECK | UV_IDLE | UV_ASYNC | UV_TIMER | UV_PROCESS => ret tt
  | UV_NAMED_PIPE | UV_TCP | UV_TTY =>
      assert (negb (read_watcher h)) ;;
      assert (negb (write_watcher h)) ;;
      assert (bool_decide (fd h = -1)) ;;
      call_out (EvCall uv__stream_destroy a)
  | UV_UDP => call_out (EvCall uv__udp_finish_close a)
  | UV_FS_EVENT => ret tt
  | UV_POLL => ret tt
  | UV_UNKNOWN_HANDLE => abort
  end ;;
  h <- load a ;;
  match close_cb h with
  | Some cb => call_out (EvCloseCb cb a)
  | None => ret tt
  end ;;
  uv__handle_unref a.

(** The body of the [for] loop of [uv__run_pending], from handle [p] on. *)
Fixpoint drain (fuel : nat) (p : option addr) : M unit :=
  match p with
  | None => ret tt
  | Some a =>
      match fuel with
      | O => fun _ => OutOfFuel
      | S fuel =>
          h <- load a ;;
          let q := next_pending h in
          store a (set_flags (Z.land (flags h) (Z.lnot UV__PENDING))
                    (set_next_pending None h)) ;;
          h <- load a ;;
          (if has_flag (flags h) UV_CLOSING then uv__finish_close a
           else
             match type h with
             | UV_NAMED_PIPE | UV_TCP | UV_TTY =>
                 call_out (EvCall uv__stream_pending a)
             | _ => abort
             end) ;;
          drain fuel q
      end
  end.

(** [uv__run_pending]. *)
Definition uv__run_pending (fuel : nat) : M unit :=
  s <- get_state ;;
  match pending_handles s with
  | None => ret tt
  | Some a =>
      modify (set_pending_handles None) ;;
      drain fuel (Some a)
  end.

(** [uv__poll]. *)
Definition uv__poll (block : bool) : M unit := call_out (EvPoll block).

(** [uv__should_block]. *)
Definition uv__should_block (s : reactor) : bool :=
  bool_decide (idle_handles s = []) && negb (bool_decide (active_handles s = [])).

(** [uv__run]. *)
Definition uv__run (fuel : nat) : M bool :=
  call_out (EvPhase uv__run_idle) ;;
  uv__run_pending fuel ;;
  s <- get_state ;;
  (if uv__has_active_handles s || uv__has_active_reqs s then
     call_out (EvPhase uv__run_prepare) ;;
     s <- get_state ;;
     uv__poll (uv__should_block s) ;;
     call_out (EvPhase uv__run_check)
   else ret tt) ;;
  s <- get_state ;;
  ret (uv__has_pending_handles s || uv__has_active_handles s
       || uv__has_active_reqs s).

(** [uv_run]: [cycles] bounds the number of iterations of its [while]. *)
Fixpoint uv_run (cycles fuel : nat) : M Z :=
  match cycles with
  | O => fun _ => OutOfFuel
  | S cycles =>
      more <- uv__run fuel ;;
      if more then uv_run cycles fuel else ret 0
  end.

(** [uv_run_once]. *)
Definition uv_run_once (fuel : nat) : M Z :=
  uv__run fuel ;;
  ret 0.

(** *** The vocabulary of the properties *)

Definition closing (h : uv_handle_t) : bool := has_flag (flags h) UV_CLOSING.
Definition closed (h : uv_handle_t) : bool := has_flag (flags h) UV_CLOSED.
Definition pending (h : uv_handle_t) : bool := has_flag (flags h) UV__PENDING.
Definition referenced (h : uv_handle_t) : bool := has_flag (flags h) UV__REF.

(** The chain of [next_pending] links that starts at [p] visits exactly
    the handles [xs], each flagged [PENDING], and ends in a null link. *)
Fixpoint linked (s : reactor) (p : option addr) (xs : list addr) : Prop :=
  match xs with
  | [] => p = None
  | x :: xs =>
      p = Some x /\
      exists h, heap s !! x = Some h /\ pending h = true /\
                linked s (next_pending h) xs
  end.

(** The pending handles during a drain: [rest] are the detached handles
    still to be visited, from [q] on, and [newq] is the loop's own list; no
    handle is in both or twice in either, and they are all the handles that
    carry [PENDING].  Outside a drain [q] is null and [rest] is empty. *)
Definition queues (s : reactor) (q : option addr) (rest newq : list addr) : Prop :=
  linked s q rest /\ linked s (pending_handles s) newq /\
  NoDup (rest ++ newq) /\
  (forall a h, heap s !! a = Some h -> pending h = true -> a ∈ rest ++ newq).

(** The handles linked into the pending list by a stretch of events. *)
Definition enqueued (evs : list event) : list addr :=
  omap (fun e => match e with EvEnqueue a => Some a | _ => None end) evs.

(** What the drain did with a handle. *)
Inductive dispatch :=
  | Finalised (a : addr)
  | Dispatched (a : addr).

Definition target (d : dispatch) : addr :=
  match d with Finalised a => a | Dispatched a => a end.

Definition dispatches (evs : list event) : list dispatch :=
  omap (fun e => match e with
                 | EvClosed a => Some (Finalised a)
                 | EvCall uv__stream_pending a => Some (Dispatched a)
                 | _ => None
                 end) evs.

(** The close routine [uv_close] selects for a type tag. *)
Definition shutdown_routine (ty : uv_handle_type) : option routine :=
  match ty with
  | UV_NAMED_PIPE => Some uv__pipe_close
  | UV_TTY | UV_TCP => Some uv__stream_close
  | UV_UDP => Some uv__udp_close
  | UV_PREPARE => Some uv__prepare_close
  | UV_CHECK => Some uv__check_close
  | UV_IDLE => Some uv__idle_close
  | UV_ASYNC => Some uv__async_close
  | UV_TIMER => Some uv__timer_close
  | UV_PROCESS => Some uv__process_close
  | UV_FS_EVENT => Some uv__fs_event_close
  | UV_POLL => Some uv__poll_close
  | UV_UNKNOWN_HANDLE => None
  end.

Definition is_shutdown_routine (r : routine) : bool :=
  match r with
  | uv__stream_pending | uv__stream_destroy | uv__udp_finish_close => false
  | _ => true
  end.

(** The events of code that only uses [uv_close] and the operations of
    [prim]: calls of close routines, and enqueueings. *)
Definition benign (e : event) : Prop :=
  match e with
  | EvEnqueue _ => True
  | EvCall r _ => is_shutdown_routine r = true
  | _ => False
  end.

(** How often [CLOSED] was written on handle [a], and how often its close
    callback was called. *)
Definition closed_count (a : addr) (evs : list event) : nat :=
  length (omap (fun e => match e with
                         | EvClosed a' => if decide (a' = a) then Some a' else None
                         | _ => None
                         end) evs).
Definition callback_count (a : addr) (evs : list event) : nat :=
  length (omap (fun e => match e with
                         | EvCloseCb _ a' => if decide (a' = a) then Some a' else None
                         | _ => None
                         end) evs).

(** What the pending lists read of a handle. *)
Definition qproj (h : uv_handle_t) : option addr * bool :=
  (next_pending h, pending h).

(** What code that only uses [uv_close] and the operations of [prim] can
    have done between two states: it added benign events; every handle is
    still there with its type and its [CLOSED] flag, and with [CLOSING] if
    it had it; only the handles it enqueued are linked differently; and
    the pending lists are as before, with the enqueued handles pushed onto
    the loop's list. *)
Definition api_post (s s' : reactor) : Prop :=
  exists evs,
    trace s' = trace s ++ evs /\ Forall benign evs /\
    (forall a h, heap s !! a = Some h ->
       exists h', heap s' !! a = Some h' /\ type h' = type h /\
         (closing h = true -> closing h' = true) /\ closed h' = closed h /\
         (a ∉ enqueued evs -> qproj h' = qproj h)) /\
    (forall a, heap s !! a = None -> heap s' !! a = None) /\
    (forall q rest newq,
       queues s q rest newq -> queues s' q rest (rev (enqueued evs) ++ newq)).

Definition is_stream (ty : uv_handle_type) : bool :=
  match ty with
  | UV_NAMED_PIPE | UV_TCP | UV_TTY => true
  | _ => false
  end.

(** What any code of the loop that does not unlink handles can have done
    between two states: its events hold the dispatches [ds]; every handle is
    still there with its type, and with [CLOSING] and [CLOSED] if it had
    them; only the handles it enqueued are linked differently; the pending
    lists are as before, with the enqueued handles pushed onto the loop's
    list. *)
Definition step_post (ds : list dispatch) (s s' : reactor) : Prop :=
  exists evs,
    trace s' = trace s ++ evs /\ dispatches evs = ds /\
    (forall a h, heap s !! a = Some h ->
       exists h', heap s' !! a = Some h' /\ type h' = type h /\
         (closing h = true -> closing h' = true) /\
         (closed h = true -> closed h' = true) /\
         (a ∉ enqueued evs -> qproj h' = qproj h)) /\
    (forall a, heap s !! a = None -> heap s' !! a = None) /\
    (forall q rest newq,
       queues s q rest newq -> queues s' q rest (rev (enqueued evs) ++ newq)).

(** What a drain of the detached handles [rest] has done when it returns:
    it dispatched exactly these handles, in order, a handle to the stream
    dispatcher only if it was an open stream and to the finaliser otherwise;
    the detached list is used up and the loop's list holds what was
    enqueued meanwhile; a detached handle that was not enqueued again is
    unlinked and without [PENDING]. *)
Definition drain_post (rest newq : list addr) (s s' : reactor) : Prop :=
  exists evs,
    trace s' = trace s ++ evs /\ map target (dispatches evs) = rest /\
    (forall d, d ∈ dispatches evs ->
       match d with
       | Dispatched a =>
           exists h, heap s !! a = Some h /\ closing h = false /\
                     is_stream (type h) = true
       | Finalised a =>
           exists h', heap s' !! a = Some h' /\ closing h' = true /\
                      closed h' = true
       end) /\
    (forall a h, heap s !! a = Some h ->
       exists h', heap s' !! a = Some h' /\ type h' = type h /\
         (closing h = true -> closing h' = true) /\
         (closed h = true -> closed h' = true) /\
         (a ∉ enqueued evs ->
          qproj h' = if bool_decide (a ∈ rest) then (None, false) else qproj h)) /\
    (forall a, heap s !! a = None -> heap s' !! a = None) /\
    queues s' None [] (rev (enqueued evs) ++ newq).

(** What a type-specific close routine can have done between two states,
    as far as [uv_close] cares: its events are enqueueings, and every handle
    is still there with its type and its close callback. *)
Definition quiet_post (s s' : reactor) : Prop :=
  (exists enq, trace s' = trace s ++ map EvEnqueue enq) /\
  (forall a h, heap s !! a = Some h ->
     exists h', heap s' !! a = Some h' /\ close_cb h' = close_cb h /\
                type h' = type h).

(** The events of the type-specific release in [uv__finish_close]: none
    for the kinds that need no release, and for the others the call of their
    finaliser followed by what the code behind it does. *)
Definition release_events (ty : uv_handle_type) (a : addr) (rel : list event) : Prop :=
  match ty with
  | UV_NAMED_PIPE | UV_TCP | UV_TTY =>
      exists evs, rel = EvCall uv__stream_destroy a :: evs /\ Forall benign evs
  | UV_UDP =>
      exists evs, rel = EvCall uv__udp_finish_close a :: evs /\ Forall benign evs
  | UV_UNKNOWN_HANDLE => False
  | _ => rel = []
  end.

(** The events of the close callback: none when the pointer is null, else
    the one call followed by what the callback does. *)
Definition callback_events (cb : option nat) (a : addr) (cbs : list event) : Prop :=
  match cb with
  | None => cbs = []
  | Some c => exists evs, cbs = EvCloseCb c a :: evs /\ Forall benign evs
  end.

(** The history agrees with the flags: [CLOSED] was written once on the
    handles that carry it and never on the others, and no close callback ran
    more often than [CLOSED] was written. *)
Definition accounted (s : reactor) : Prop :=
  forall a,
    closed_count a (trace s)
    = (if default false (closed <$> heap s !! a) then 1 else 0)%nat /\
    (callback_count a (trace s) <= closed_count a (trace s))%nat.

(** The state of the ledger between the write of [CLOSED] on [a] and the
    call of its close callback. *)
Definition closed_uncalled (a : addr) (s : reactor) : Prop :=
  accounted s /\ closed_count a (trace s) = 1%nat /\
  callback_count a (trace s) = 0%nat.

(** An event that is neither the write of [CLOSED] nor a close callback. *)
Definition plain (e : event) : Prop :=
  match e with
  | EvClosed _ | EvCloseCb _ _ => False
  | _ => True
  end.

(** What a program does with a loop, step by step. *)
Inductive top :=
  | TopCall (c : api_call)
  | TopRun (cycles fuel : nat)
  | TopRunOnce (fuel : nat).

Definition exec_top (t : top) : M unit :=
  match t with
  | TopCall c => exec_call c
  | TopRun cycles fuel => uv_run cycles fuel ;; ret tt
  | TopRunOnce fuel => uv_run_once fuel ;; ret tt
  end.

Fixpoint exec_program (prog : list top) : M unit :=
  match prog with
  | [] => ret tt
  | t :: prog => exec_top t ;; exec_program prog
  end.

(** The drain as the specification words it: it returns, having passed
    every detached handle to the finaliser if the handle was closing and to
    the pending-event dispatcher if it was not. *)
Definition dispatches_all (fuel : nat) (s : reactor) (xs : list addr) : Prop :=
  exists s' evs,
    uv__run_pending fuel s = Ok tt s' /\ trace s' = trace s ++ evs /\
    forall a h, a ∈ xs -> heap s !! a = Some h ->
      if closing h then Finalised a ∈ dispatches evs
      else Dispatched a ∈ dispatches evs.

(** A handle taken off the detached list: [PENDING] cleared, link null. *)
Definition unlinked (h : uv_handle_t) : uv_handle_t :=
  set_flags (Z.land (flags h) (Z.lnot UV__PENDING)) (set_next_pending None h).

(** What the drain does with a detached handle once it is unlinked. *)
Definition drain_action (a : addr) (h : uv_handle_t) : M unit :=
  if closing h then uv__finish_close a
  else if is_stream (type h) then call_out (EvCall uv__stream_pending a)
  else abort.

(** A handle that passes the guards of the drain and of the finaliser: an
    open stream, or a closing handle of a known kind that is not active and
    not closed yet and, if it is a stream, has its watchers stopped and its
    descriptor closed. *)
Definition drainable (s : reactor) (a : addr) : Prop :=
  exists h, heap s !! a = Some h /\
    if closing h then
      uv__is_active h = false /\ closed h = false /\
      type h <> UV_UNKNOWN_HANDLE /\
      (is_stream (type h) = true ->
       read_watcher h = false /\ write_watcher h = false /\ fd h = -1)
    else is_stream (type h) = true.

(** Where the drain sends a handle, read off the handle as it is in [s]. *)
Definition expected_dispatch (s : reactor) (a : addr) : dispatch :=
  match heap s !! a with
  | Some h => if closing h then Finalised a else Dispatched a
  | None => Dispatched a
  end.

(** The code outside the core makes no call into the core. *)
Definition calls_nothing : Prop :=
  forall e s, callback_code E e s = [].


End Core.

(** *** Sample loops

    One assignment of bits to the flags; an environment in which no code
    outside the core does anything, and one in which close routines stop
    their handle, the stream dispatcher closes its stream with callback 1,
    and callback 1 closes the timer at address 20 with callback 2. *)
Definition sample_bits : flag_bits := mk_flag_bits 0 1 2 3 4.

Definition quiet : environment :=
  mk_environment (fun _ _ _ => []) (fun _ _ => []).

Definition busy : environment :=
  mk_environment
    (fun _ a _ => [PStop a])
    (fun e _ =>
       match e with
       | EvCall uv__stream_pending a => [AClose a (Some 1%nat)]
       | EvCloseCb 1 _ => [AClose 20 (Some 2%nat)]
       | _ => []
       end).

(** A TCP stream with an event pending (flags [REF|PENDING]), the same
    stream without it, an active timer ([REF|ACTIVE]), a timer that found
    its way into the pending list without being closed ([REF|PENDING]), and
    a timer under finalisation ([REF|CLOSING], callback 2). *)
Definition stream_pending_h : uv_handle_t :=
  mk_handle UV_TCP 12 None None false false (-1).
Definition stream_h : uv_handle_t :=
  mk_handle UV_TCP 8 None None false false (-1).
Definition timer_h : uv_handle_t :=
  mk_handle UV_TIMER 24 None None false false (-1).
Definition timer_pending_h : uv_handle_t :=
  mk_handle UV_TIMER 12 None None false false (-1).
Definition timer_closing_h : uv_handle_t :=
  mk_handle UV_TIMER 9 None (Some 2%nat) false false (-1).

Definition idle_loop : reactor :=
  mk_reactor ∅ None [] [] 0 0 [].
Definition loop_with_event : reactor :=
  mk_reactor (<[10 := stream_pending_h]> (<[20 := timer_h]> ∅))
             (Some 10) [20] [] 0 2 [].
Definition loop_at_rest : reactor :=
  mk_reactor (<[10 := stream_h]> (<[20 := timer_h]> ∅)) None [20] [] 0 2 [].
Definition loop_with_pending_timer : reactor :=
  mk_reactor (<[10 := timer_pending_h]> (<[20 := timer_h]> ∅))
             (Some 10) [20] [] 0 2 [].
Definition loop_finalising : reactor :=
  mk_reactor (<[10 := stream_h]> (<[20 := timer_closing_h]> ∅)) None [] [] 0 2 [].

(** The loop with the pending stream event after one drain in the busy
    environment: the dispatcher has closed the stream, which is pending
    again, now for its finalisation. *)
Definition loop_after_event : reactor :=
  Eval vm_compute in
    match uv__run_pending sample_bits busy 1 loop_with_event with
    | Ok _ s => s
    | _ => idle_loop
    end.

(** *** Flag arithmetic *)

Lemma has_flag_bit f k : has_flag f (bit k) = Z.testbit f (Z.of_nat k).
Proof.
  unfold has_flag, bit.
  destruct (Z.testbit f (Z.of_nat k)) eqn:Hb.
  - apply negb_true_iff, Z.eqb_neq. intros H0.
    assert (Ht : Z.testbit (Z.land f (2 ^ Z.of_nat k)) (Z.of_nat k) = true).
    { rewrite Z.land_spec, Hb, Z.pow2_bits_true; [reflexivity|lia]. }
    rewrite H0, Z.bits_0 in Ht. discriminate.
  - apply negb_false_iff, Z.eqb_eq. apply Z.bits_inj_0. intros n.
    rewrite Z.land_spec.
    destruct (decide (n = Z.of_nat k)) as [->|Hne].
    + rewrite Hb. reflexivity.
    + destruct (Z.ltb_spec n 0).
      * rewrite (Z.testbit_neg_r (2 ^ _)) by lia. apply andb_false_r.
      * rewrite Z.pow2_bits_false by lia. apply andb_false_r.
Qed.

Lemma has_flag_set f k j :
  has_flag (Z.lor f (bit k)) (bit j) = if decide (k = j) then true else has_flag f (bit j).
Proof.
  rewrite !has_flag_bit, Z.lor_spec. unfold bit.
  destruct (decide (k = j)) as [->|Hne].
  - rewrite Z.pow2_bits_true by lia. apply orb_true_r.
  - rewrite Z.pow2_bits_false by lia. apply orb_false_r.
Qed.

Lemma has_flag_clear f k j :
  has_flag (Z.land f (Z.lnot (bit k))) (bit j)
  = if decide (k = j) then false else has_flag f (bit j).
Proof.
  rewrite !has_flag_bit, Z.land_spec, Z.lnot_spec by lia. unfold bit.
  destruct (decide (k = j)) as [->|Hne].
  - rewrite Z.pow2_bits_true by lia. apply andb_false_r.
  - rewrite Z.pow2_bits_false by lia. apply andb_true_r.
Qed.

Lemma has_flag_only k j :
  has_flag (bit k) (bit j) = if decide (k = j) then true else false.
Proof.
  rewrite has_flag_bit. unfold bit.
  destruct (decide (k = j)) as [->|Hne].
  - apply Z.pow2_bits_true. lia.
  - apply Z.pow2_bits_false. lia.
Qed.

(** *** Reasoning about monadic code *)

(** [wp m Q R s]: running [m] from [s] does not run out of fuel, and
    ends in a state satisfying [Q] when it returns and [R] when it aborts. *)
Definition wp {A} (m : M A) (Q : A -> reactor -> Prop) (R : reactor -> Prop)
    (s : reactor) : Prop :=
  match m s with
  | Ok a s' => Q a s'
  | Abort s' => R s'
  | Fault => True
  | OutOfFuel => False
  end.

Lemma wp_ret {A} (a : A) Q R s : Q a s -> wp (ret a) Q R s.
Proof. intros H. exact H. Qed.

Lemma wp_bind {A C} (m : M A) (k : A -> M C) Q R s :
  wp m (fun a s' => wp (k a) Q R s') R s -> wp (x <- m ;; k x) Q R s.
Proof. unfold wp, bind. destruct (m s); auto. Qed.

Lemma wp_mono {A} (m : M A) (Q Q' : A -> reactor -> Prop) (R R' : reactor -> Prop) s :
  wp m Q R s -> (forall a s', Q a s' -> Q' a s') -> (forall s', R s' -> R' s') ->
  wp m Q' R' s.
Proof. unfold wp. destruct (m s); auto. Qed.

Lemma wp_get Q R s : Q s s -> wp get_state Q R s.
Proof. intros H. exact H. Qed.

Lemma wp_modify f Q R s : Q tt (f s) -> wp (modify f) Q R s.
Proof. intros H. exact H. Qed.

Lemma wp_emit e Q R s : Q tt (add_event e s) -> wp (emit e) Q R s.
Proof. intros H. exact H. Qed.

Lemma wp_abort {A} (Q : A -> reactor -> Prop) (R : reactor -> Prop) s :
  R s -> wp abort Q R s.
Proof. intros H. exact H. Qed.

Lemma wp_assert (b : bool) Q R s :
  (b = true -> Q tt s) -> (b = false -> R s) -> wp (assert b) Q R s.
Proof. destruct b; intros H1 H2; [apply H1|apply H2]; reflexivity. Qed.

Lemma wp_load a Q R s :
  (forall h, heap s !! a = Some h -> Q h s) -> wp (load a) Q R s.
Proof. unfold wp, load. destruct (heap s !! a); auto. Qed.

Lemma wp_store a h Q R s :
  Q tt (set_heap (<[a := h]> (heap s)) s) -> wp (store a h) Q R s.
Proof. intros H. exact H. Qed.

Lemma wp_update a f Q R s :
  (forall h, heap s !! a = Some h -> Q tt (set_heap (<[a := f h]> (heap s)) s)) ->
  wp (update a f) Q R s.
Proof.
  intros H. unfold update. apply wp_bind, wp_load. intros h Hh.
  apply wp_store. auto.
Qed.

Lemma wp_if {A} (b : bool) (m1 m2 : M A) Q R s :
  (b = true -> wp m1 Q R s) -> (b = false -> wp m2 Q R s) ->
  wp (if b then m1 else m2) Q R s.
Proof. destruct b; auto. Qed.

Lemma wp_ok {A} (m : M A) Q R s a s' : wp m Q R s -> m s = Ok a s' -> Q a s'.
Proof. unfold wp. intros H E. rewrite E in H. exact H. Qed.

Lemma wp_aborted {A} (m : M A) Q R s s' : wp m Q R s -> m s = Abort s' -> R s'.
Proof. unfold wp. intros H E. rewrite E in H. exact H. Qed.

(** [keeps I m s]: however far [m] gets from [s], by returning or by
    aborting, it ends in a state satisfying [I]. *)
Definition keeps {A} (I : reactor -> Prop) (m : M A) (s : reactor) : Prop :=
  match m s with
  | Ok _ s' => I s'
  | Abort s' => I s'
  | Fault => True
  | OutOfFuel => True
  end.

Lemma keeps_bind {A C} I (m : M A) (k : A -> M C) s :
  keeps I m s -> (forall a s', m s = Ok a s' -> keeps I (k a) s') ->
  keeps I (x <- m ;; k x) s.
Proof.
  unfold keeps, bind. destruct (m s) as [a s'| | |]; auto.
  intros _ H. apply (H a s'). reflexivity.
Qed.

Lemma keeps_wp {A} I (m : M A) s : wp m (fun _ => I) I s -> keeps I m s.
Proof. unfold keeps, wp. destruct (m s); auto. Qed.

Lemma keeps_ret {A} I (a : A) s : I s -> keeps I (ret a) s.
Proof. intros H. exact H. Qed.

Lemma assert_ok b s u s' : assert b s = Ok u s' -> b = true /\ s' = s.
Proof. destruct b; simpl; unfold ret, abort; intros [= <-] || intros [=]; auto. Qed.

Lemma bind_ok {A C} (m : M A) (k : A -> M C) s c s' :
  (x <- m ;; k x) s = Ok c s' <->
  exists a s1, m s = Ok a s1 /\ k a s1 = Ok c s'.
Proof.
  unfold bind. split.
  - destruct (m s) as [a s1| | |]; try discriminate. eauto.
  - intros (a & s1 & -> & H). exact H.
Qed.

(** *** The run loop *)

Section RunLoop.

Context (B : flag_bits) (E : environment).





End RunLoop.

(** *** The pending lists *)

Section Facts.

Context (B : flag_bits) (E : environment) (HB : distinct_bits B).

Implicit Types (s : reactor) (h : uv_handle_t) (a : addr) (xs : list addr).

Lemma bits_ne :
  closing_bit B <> closed_bit B /\ closing_bit B <> pending_bit B /\
  closing_bit B <> ref_bit B /\ closing_bit B <> active_bit B /\
  closed_bit B <> pending_bit B /\ closed_bit B <> ref_bit B /\
  closed_bit B <> active_bit B /\ pending_bit B <> ref_bit B /\
  pending_bit B <> active_bit B /\ ref_bit B <> active_bit B.
Proof.
  pose proof HB as H. unfold distinct_bits in H.
  repeat (apply NoDup_cons in H as [? H]).
  rewrite !not_elem_of_cons in *. intuition.
Qed.

Ltac flags :=
  let H := fresh in
  pose proof bits_ne as H; destruct H as (? & ? & ? & ? & ? & ? & ? & ? & ? & ?);
  unfold closing, closed, pending, referenced, uv__is_active,
    UV_CLOSING, UV_CLOSED, UV__PENDING, UV__REF, UV__ACTIVE in *;
  simpl in *;
  rewrite ?has_flag_set, ?has_flag_clear, ?has_flag_only in *;
  repeat case_decide; try congruence; auto.

#[local] Abbreviation qproj := (qproj B).
#[local] Abbreviation api_post := (api_post B).
#[local] Abbreviation step_post := (step_post B).
#[local] Abbreviation drain_post := (drain_post B).
#[local] Abbreviation closed_uncalled := (closed_uncalled B).

Lemma linked_ext s s' p xs :
  (forall x, x ∈ xs -> qproj <$> heap s' !! x = qproj <$> heap s !! x) ->
  linked B s p xs -> linked B s' p xs.
Proof.
  revert p. induction xs as [|x xs IH]; intros p Hext; simpl; [auto|].
  intros (-> & h & Hh & Hp & Hl). split; [reflexivity|].
  pose proof (Hext x ltac:(left)) as Hx. rewrite Hh in Hx.
  destruct (heap s' !! x) as [h'|] eqn:Hh'; [|discriminate].
  simpl in Hx. injection Hx as Hn Hpe.
  exists h'. split; [reflexivity|]. split; [congruence|].
  rewrite Hn. apply IH; [|exact Hl].
  intros y Hy. apply Hext. right. exact Hy.
Qed.

Lemma linked_functional s p xs ys :
  linked B s p xs -> linked B s p ys -> xs = ys.
Proof.
  revert p ys. induction xs as [|x xs IH]; intros p [|y ys]; simpl.
  - reflexivity.
  - intros -> (? & _). discriminate.
  - intros (-> & _) ?. discriminate.
  - intros (-> & h & Hh & _ & Hl) ([= <-] & h' & Hh' & _ & Hl').
    rewrite Hh in Hh'. injection Hh' as <-. f_equal. eauto.
Qed.

Lemma linked_valid s p xs a :
  linked B s p xs -> a ∈ xs ->
  exists h, heap s !! a = Some h /\ pending B h = true.
Proof.
  revert p. induction xs as [|x xs IH]; intros p; simpl.
  - intros _ Hin. inversion Hin.
  - intros (-> & h & Hh & Hp & Hl) Hin.
    apply elem_of_cons in Hin as [->|Hin]; eauto.
Qed.

(** A change that the pending lists do not read leaves them as they are. *)
Lemma queues_ext s s' q rest newq :
  pending_handles s' = pending_handles s ->
  (forall x, qproj <$> heap s' !! x = qproj <$> heap s !! x) ->
  queues B s q rest newq -> queues B s' q rest newq.
Proof.
  intros Hp Hext (H1 & H2 & H3 & H4).
  split; [eapply linked_ext; eauto|].
  split; [rewrite Hp; eapply linked_ext; eauto|].
  split; [exact H3|].
  intros a h Hh Hpe. pose proof (Hext a) as Ha. rewrite Hh in Ha.
  destruct (heap s !! a) as [h0|] eqn:Hh0; [|discriminate].
  simpl in Ha. injection Ha as _ Hpe'. apply (H4 a h0); congruence.
Qed.

Lemma enqueued_app evs1 evs2 : enqueued (evs1 ++ evs2) = enqueued evs1 ++ enqueued evs2.
Proof. apply omap_app. Qed.

Lemma api_post_refl s : api_post s s.
Proof.
  exists []. rewrite app_nil_r.
  split; [reflexivity|]. split; [constructor|]. split; [|split]; auto.
  intros a h Hh. exists h. auto.
Qed.

Lemma api_post_trans s1 s2 s3 : api_post s1 s2 -> api_post s2 s3 -> api_post s1 s3.
Proof.
  intros (e1 & Ht1 & Hb1 & Hh1 & Hn1 & Hq1) (e2 & Ht2 & Hb2 & Hh2 & Hn2 & Hq2).
  exists (e1 ++ e2). split; [rewrite Ht2, Ht1, app_assoc; reflexivity|].
  split; [apply Forall_app; auto|]. split; [|split].
  - intros a h Hh. destruct (Hh1 a h Hh) as (h' & Hh' & Hty & Hcl & Hcd & Hqp).
    destruct (Hh2 a h' Hh') as (h'' & Hh'' & Hty' & Hcl' & Hcd' & Hqp').
    exists h''. split; [exact Hh''|]. split; [congruence|].
    split; [auto|]. split; [congruence|].
    rewrite enqueued_app, not_elem_of_app. intros [Hn Hn'].
    rewrite Hqp', Hqp; auto.
  - auto.
  - intros q rest newq Hq. rewrite enqueued_app, rev_app_distr, <- app_assoc. auto.
Qed.

(** A write to one handle that the pending lists do not read. *)
Lemma api_post_store s a h h' :
  heap s !! a = Some h -> type h' = type h ->
  (closing B h = true -> closing B h' = true) -> closed B h' = closed B h ->
  qproj h' = qproj h ->
  api_post s (set_heap (<[a := h']> (heap s)) s).
Proof.
  intros Hh Hty Hcl Hcd Hqp. exists []. simpl. rewrite app_nil_r.
  split; [reflexivity|]. split; [constructor|]. split; [|split].
  - intros x hx Hx. destruct (decide (a = x)) as [->|Hne].
    + rewrite lookup_insert_eq. exists h'.
      rewrite Hh in Hx. injection Hx as <-. auto.
    + rewrite lookup_insert_ne by done. exists hx. auto.
  - intros x Hx. destruct (decide (a = x)) as [->|Hne]; [congruence|].
    rewrite lookup_insert_ne by done. exact Hx.
  - intros q rest newq. apply queues_ext; [reflexivity|]. simpl.
    intros x. destruct (decide (a = x)) as [->|Hne].
    + rewrite lookup_insert_eq, Hh. simpl. congruence.
    + rewrite lookup_insert_ne by done. reflexivity.
Qed.

(** A change to the loop that touches neither the handles, nor the
    pending list, nor the history. *)
Lemma api_post_loop s s' :
  heap s' = heap s -> pending_handles s' = pending_handles s ->
  trace s' = trace s -> api_post s s'.
Proof.
  intros Hh Hp Ht. exists []. rewrite app_nil_r.
  split; [exact Ht|]. split; [constructor|]. rewrite Hh. split; [|split]; auto.
  - intros a h Ha. exists h. auto.
  - intros q rest newq. apply queues_ext; [exact Hp|]. rewrite Hh. reflexivity.
Qed.

Lemma api_post_event s e : benign e -> enqueued [e] = [] -> api_post s (add_event e s).
Proof.
  intros He Hen. exists [e]. split; [reflexivity|]. split; [auto|]. rewrite Hen.
  simpl. split; [|split]; auto.
  - intros a h Ha. exists h. auto.
  - intros q rest newq. apply queues_ext; reflexivity.
Qed.

(** Linking a handle that does not carry [PENDING]. *)
Lemma api_post_enqueue s a h :
  heap s !! a = Some h -> pending B h = false ->
  api_post s
    (add_event (EvEnqueue a)
       (set_pending_handles (Some a)
          (set_heap (<[a := set_flags (Z.lor (flags h) (UV__PENDING B))
                             (set_next_pending (pending_handles s) h)]> (heap s)) s))).
Proof.
  intros Hh Hp. exists [EvEnqueue a]. simpl.
  split; [reflexivity|]. split; [repeat constructor|]. split; [|split].
  - intros x hx Hx. destruct (decide (a = x)) as [->|Hne].
    + rewrite lookup_insert_eq. eexists. split; [reflexivity|].
      rewrite Hh in Hx. injection Hx as <-.
      split; [reflexivity|]. split; [|split].
      * clear Hp. flags.
      * clear Hp. flags.
      * intros Hn. elim Hn. left.
    + rewrite lookup_insert_ne by done. exists hx. auto.
  - intros x Hx. destruct (decide (a = x)) as [->|Hne]; [congruence|].
    rewrite lookup_insert_ne by done. exact Hx.
  - intros q rest newq (H1 & H2 & H3 & H4).
    assert (Hout : a ∉ rest ++ newq).
    { intros Hin. apply elem_of_app in Hin as [Hin|Hin].
      - destruct (linked_valid _ _ _ _ H1 Hin) as (h0 & Hh0 & Hp0). congruence.
      - destruct (linked_valid _ _ _ _ H2 Hin) as (h0 & Hh0 & Hp0). congruence. }
    apply not_elem_of_app in Hout as [Hout1 Hout2].
    assert (Hsame : forall xs x, a ∉ xs -> x ∈ xs ->
              qproj <$> <[a := set_flags (Z.lor (flags h) (UV__PENDING B))
                   (set_next_pending (pending_handles s) h)]> (heap s) !! x
              = qproj <$> heap s !! x).
    { intros xs x Ha Hx. rewrite lookup_insert_ne; [reflexivity|].
      intros ->. contradiction. }
    split; [eapply linked_ext; [|exact H1]; simpl; eauto|].
    split; [|split].
    + simpl. split; [reflexivity|]. eexists. rewrite lookup_insert_eq.
      split; [reflexivity|]. split; [clear Hp; flags|].
      simpl. eapply linked_ext; [|exact H2]; simpl; eauto.
    + apply NoDup_app. apply NoDup_app in H3 as (Hn1 & Hn2 & Hn3).
      split; [exact Hn1|]. split.
      * intros x Hx Hx'. apply elem_of_cons in Hx' as [->|Hx']; [contradiction|].
        eapply Hn2; eauto.
      * apply NoDup_cons. auto.
    + simpl. intros x hx Hx Hpx. destruct (decide (a = x)) as [->|Hne].
      * rewrite elem_of_app, elem_of_cons. auto.
      * rewrite lookup_insert_ne in Hx by done.
        pose proof (H4 x hx Hx Hpx) as Hin.
        rewrite elem_of_app, elem_of_cons. rewrite elem_of_app in Hin. tauto.
Qed.

Lemma wp_make_pending s0 s a :
  api_post s0 s ->
  wp (uv__make_pending B a) (fun _ s' => api_post s0 s') (api_post s0) s.
Proof.
  intros H0. unfold uv__make_pending. apply wp_bind, wp_load. intros h Hh.
  destruct (has_flag (flags h) (UV__PENDING B)) eqn:Hp.
  - apply wp_ret. exact H0.
  - unfold wp, bind, get_state, store, modify, emit. simpl.
    eapply api_post_trans; [exact H0|]. apply api_post_enqueue; auto.
Qed.

Lemma wp_handle_start s0 s a :
  api_post s0 s ->
  wp (uv__handle_start B a) (fun _ s' => api_post s0 s') (api_post s0) s.
Proof.
  intros H0. unfold uv__handle_start. apply wp_bind, wp_load. intros h Hh.
  apply wp_if; intros Ha; [apply wp_ret; exact H0|].
  apply wp_bind, wp_store.
  assert (H1 : api_post s0 (set_heap (<[a := set_flags (Z.lor (flags h) (UV__ACTIVE B)) h]>
                                       (heap s)) s)).
  { eapply api_post_trans; [exact H0|]. apply api_post_store with h; auto.
    - clear Ha. flags.
    - clear Ha. flags.
    - unfold qproj. clear Ha. f_equal. flags. }
  apply wp_if; intros Hr; [|apply wp_ret; exact H1].
  apply wp_modify. eapply api_post_trans; [exact H1|].
  apply api_post_loop; reflexivity.
Qed.

Lemma wp_handle_stop s0 s a :
  api_post s0 s ->
  wp (uv__handle_stop B a) (fun _ s' => api_post s0 s') (api_post s0) s.
Proof.
  intros H0. unfold uv__handle_stop. apply wp_bind, wp_load. intros h Hh.
  apply wp_if; intros Ha; [apply wp_ret; exact H0|].
  apply wp_bind, wp_store.
  assert (H1 : api_post s0 (set_heap (<[a := set_flags (Z.land (flags h)
                                             (Z.lnot (UV__ACTIVE B))) h]>
                                       (heap s)) s)).
  { eapply api_post_trans; [exact H0|]. apply api_post_store with h; auto.
    - clear Ha. flags.
    - clear Ha. flags.
    - unfold qproj. clear Ha. f_equal. flags. }
  apply wp_if; intros Hr; [|apply wp_ret; exact H1].
  apply wp_modify. eapply api_post_trans; [exact H1|].
  apply api_post_loop; reflexivity.
Qed.

Lemma wp_handle_unref s0 s a :
  api_post s0 s ->
  wp (uv__handle_unref B a) (fun _ s' => api_post s0 s') (api_post s0) s.
Proof.
  intros H0. unfold uv__handle_unref. apply wp_bind, wp_load. intros h Hh.
  apply wp_if; intros Ha; [apply wp_ret; exact H0|].
  apply wp_bind, wp_store.
  assert (H1 : api_post s0 (set_heap (<[a := set_flags (Z.land (flags h)
                                             (Z.lnot (UV__REF B))) h]>
                                       (heap s)) s)).
  { eapply api_post_trans; [exact H0|]. apply api_post_store with h; auto.
    - clear Ha. flags.
    - clear Ha. flags.
    - unfold qproj. clear Ha. f_equal. flags. }
  apply wp_if; intros Hr; [|apply wp_ret; exact H1].
  apply wp_modify. eapply api_post_trans; [exact H1|].
  apply api_post_loop; reflexivity.
Qed.

Lemma wp_exec_prim s0 s p :
  api_post s0 s ->
  wp (exec_prim B p) (fun _ s' => api_post s0 s') (api_post s0) s.
Proof.
  intros H0. destruct p as [a|a|a|a rd wr d|n|hs]; simpl.
  - apply wp_make_pending; exact H0.
  - apply wp_handle_start; exact H0.
  - apply wp_handle_stop; exact H0.
  - apply wp_update. intros h Hh. eapply api_post_trans; [exact H0|].
    apply api_post_store with h; auto.
  - apply wp_modify. eapply api_post_trans; [exact H0|].
    apply api_post_loop; reflexivity.
  - apply wp_modify. eapply api_post_trans; [exact H0|].
    apply api_post_loop; reflexivity.
Qed.

Lemma wp_exec_prims s0 ps s :
  api_post s0 s ->
  wp (exec_prims B ps) (fun _ s' => api_post s0 s') (api_post s0) s.
Proof.
  revert s. induction ps as [|p ps IH]; intros s H0; simpl.
  - apply wp_ret. exact H0.
  - apply wp_bind. eapply wp_mono; [apply wp_exec_prim; exact H0| |]; auto.
Qed.

Lemma wp_close_routine s0 s r a :
  is_shutdown_routine r = true -> api_post s0 s ->
  wp (close_routine B E r a) (fun _ s' => api_post s0 s') (api_post s0) s.
Proof.
  intros Hr H0. unfold close_routine. apply wp_bind, wp_emit.
  apply wp_bind, wp_get. apply wp_exec_prims.
  eapply api_post_trans; [exact H0|]. apply api_post_event; [exact Hr|reflexivity].
Qed.

Lemma wp_uv_close s0 s a cb :
  api_post s0 s ->
  wp (uv_close B E a cb) (fun _ s' => api_post s0 s') (api_post s0) s.
Proof.
  intros H0. unfold uv_close. apply wp_bind, wp_update. intros h Hh.
  assert (H1 : api_post s0 (set_heap (<[a := set_close_cb cb h]> (heap s)) s)).
  { eapply api_post_trans; [exact H0|]. apply api_post_store with h; auto. }
  apply wp_bind, wp_load. intros h1 Hh1. apply wp_bind.
  assert (Hnext : forall s1, api_post s0 s1 ->
            wp (update a (fun h => set_flags (Z.lor (flags h) (UV_CLOSING B)) h) ;;
                uv__make_pending B a)
               (fun _ s' => api_post s0 s') (api_post s0) s1).
  { intros s1 Hs1. apply wp_bind, wp_update. intros h2 Hh2.
    apply wp_make_pending. eapply api_post_trans; [exact Hs1|].
    apply api_post_store with h2; auto.
    - flags.
    - flags.
    - unfold qproj. f_equal. flags. }
  destruct (type h1);
    try (eapply wp_mono; [apply wp_close_routine; [reflexivity|exact H1]| |];
         simpl; auto).
  apply wp_abort. exact H1.
Qed.

Lemma wp_exec_calls s0 cs s :
  api_post s0 s ->
  wp (exec_calls B E cs) (fun _ s' => api_post s0 s') (api_post s0) s.
Proof.
  revert s. induction cs as [|c cs IH]; intros s H0; simpl.
  - apply wp_ret. exact H0.
  - apply wp_bind. destruct c as [p|a cb]; simpl.
    + eapply wp_mono; [apply wp_exec_prim; exact H0| |]; auto.
    + eapply wp_mono; [apply wp_uv_close; exact H0| |]; auto.
Qed.

Lemma dispatches_app evs1 evs2 :
  dispatches (evs1 ++ evs2) = dispatches evs1 ++ dispatches evs2.
Proof. apply omap_app. Qed.

Lemma benign_no_dispatch evs : Forall benign evs -> dispatches evs = [].
Proof.
  induction 1 as [|e evs He _ IH]; [reflexivity|].
  change (e :: evs) with ([e] ++ evs). rewrite dispatches_app, IH, app_nil_r.
  destruct e as [r a| | | | |]; simpl in *; try contradiction; try reflexivity.
  destruct r; simpl in *; try discriminate; reflexivity.
Qed.

Lemma api_post_step s s' : api_post s s' -> step_post [] s s'.
Proof.
  intros (evs & Ht & Hb & Hh & Hn & Hq). exists evs.
  split; [exact Ht|]. split; [apply benign_no_dispatch; exact Hb|].
  split; [|split]; auto.
  intros a h Ha. destruct (Hh a h Ha) as (h' & ? & ? & ? & Hcd & ?).
  exists h'. repeat split; auto. congruence.
Qed.

Lemma step_post_trans ds1 ds2 s1 s2 s3 :
  step_post ds1 s1 s2 -> step_post ds2 s2 s3 -> step_post (ds1 ++ ds2) s1 s3.
Proof.
  intros (e1 & Ht1 & Hd1 & Hh1 & Hn1 & Hq1) (e2 & Ht2 & Hd2 & Hh2 & Hn2 & Hq2).
  exists (e1 ++ e2). split; [rewrite Ht2, Ht1, app_assoc; reflexivity|].
  split; [rewrite dispatches_app; congruence|]. split; [|split].
  - intros a h Hh. destruct (Hh1 a h Hh) as (h' & Hh' & Hty & Hcl & Hcd & Hqp).
    destruct (Hh2 a h' Hh') as (h'' & Hh'' & Hty' & Hcl' & Hcd' & Hqp').
    exists h''. split; [exact Hh''|]. split; [congruence|].
    split; [auto|]. split; [auto|].
    rewrite enqueued_app, not_elem_of_app. intros [Hn Hn'].
    rewrite Hqp', Hqp; auto.
  - auto.
  - intros q rest newq Hq. rewrite enqueued_app, rev_app_distr, <- app_assoc. auto.
Qed.

(** An event that is neither a dispatch nor an enqueueing. *)
Lemma step_post_event s e ds :
  dispatches [e] = ds -> enqueued [e] = [] -> step_post ds s (add_event e s).
Proof.
  intros Hd Hen. exists [e]. split; [reflexivity|]. split; [exact Hd|].
  rewrite Hen. simpl. split; [|split]; auto.
  - intros a h Ha. exists h. auto.
  - intros q rest newq. apply queues_ext; reflexivity.
Qed.

Lemma step_post_store s a h h' :
  heap s !! a = Some h -> type h' = type h ->
  (closing B h = true -> closing B h' = true) ->
  (closed B h = true -> closed B h' = true) ->
  qproj h' = qproj h ->
  step_post [] s (set_heap (<[a := h']> (heap s)) s).
Proof.
  intros Hh Hty Hcl Hcd Hqp. exists []. simpl. rewrite app_nil_r.
  split; [reflexivity|]. split; [reflexivity|]. split; [|split].
  - intros x hx Hx. destruct (decide (a = x)) as [->|Hne].
    + rewrite lookup_insert_eq. exists h'.
      rewrite Hh in Hx. injection Hx as <-. auto.
    + rewrite lookup_insert_ne by done. exists hx. auto.
  - intros x Hx. destruct (decide (a = x)) as [->|Hne]; [congruence|].
    rewrite lookup_insert_ne by done. exact Hx.
  - intros q rest newq. apply queues_ext; [reflexivity|]. simpl.
    intros x. destruct (decide (a = x)) as [->|Hne].
    + rewrite lookup_insert_eq, Hh. simpl. congruence.
    + rewrite lookup_insert_ne by done. reflexivity.
Qed.

(** A call that leaves the core, by the dispatches its event stands for. *)
Lemma wp_call_out s0 s e ds0 ds :
  (forall a, e <> EvEnqueue a) -> dispatches [e] = ds ->
  step_post ds0 s0 s ->
  wp (call_out B E e) (fun _ s' => step_post (ds0 ++ ds) s0 s') (fun _ => True) s.
Proof.
  intros He Hd H0. unfold call_out. apply wp_bind, wp_emit.
  apply wp_bind, wp_get.
  assert (H1 : step_post (ds0 ++ ds) s0 (add_event e s)).
  { eapply step_post_trans; [exact H0|]. apply step_post_event; [exact Hd|].
    destruct e; try reflexivity. elim (He a). reflexivity. }
  eapply wp_mono; [apply (wp_exec_calls (add_event e s)); apply api_post_refl| |].
  - intros [] s' Hs'. simpl in *.
    rewrite <- (app_nil_r (ds0 ++ ds)).
    eapply step_post_trans; [exact H1|]. apply api_post_step. exact Hs'.
  - auto.
Qed.

Lemma wp_call_out_quiet s0 s e :
  (forall a, e <> EvEnqueue a) -> dispatches [e] = [] ->
  step_post [] s0 s ->
  wp (call_out B E e) (fun _ s' => step_post [] s0 s') (fun _ => True) s.
Proof. intros He Hd H0. apply (wp_call_out s0 s e [] []); assumption. Qed.

Lemma wp_handle_unref_step s0 s a :
  step_post [] s0 s ->
  wp (uv__handle_unref B a) (fun _ s' => step_post [] s0 s') (fun _ => True) s.
Proof.
  intros H0.
  eapply wp_mono; [apply (wp_handle_unref s); apply api_post_refl| |]; [|auto].
  intros [] s' Hs'. simpl in *. change (@nil dispatch) with (@nil dispatch ++ []).
  eapply step_post_trans; [exact H0|]. apply api_post_step. exact Hs'.
Qed.

(** The tail of [uv__finish_close]: the close callback and the unref. *)
Lemma wp_finish_close_tail s0 s a :
  step_post [] s0 s ->
  wp (h <- load a ;;
      match close_cb h with
      | Some cb => call_out B E (EvCloseCb cb a)
      | None => ret tt
      end ;;
      uv__handle_unref B a)
     (fun _ s' => step_post [] s0 s') (fun _ => True) s.
Proof.
  intros H0. apply wp_bind, wp_load. intros h Hh. apply wp_bind.
  destruct (close_cb h) as [cb|].
  - eapply wp_mono; [apply wp_call_out_quiet; [discriminate|reflexivity|exact H0]| |];
      [|auto].
    intros [] s' Hs'. simpl in *. apply wp_handle_unref_step. exact Hs'.
  - apply wp_ret. apply wp_handle_unref_step. exact H0.
Qed.

Lemma wp_finish_close s a :
  wp (uv__finish_close B E a)
     (fun _ s' => step_post [Finalised a] s s' /\
                  exists h', heap s' !! a = Some h' /\
                             closing B h' = true /\ closed B h' = true)
     (fun _ => True) s.
Proof.
  unfold uv__finish_close. apply wp_bind, wp_load. intros h Hh.
  apply wp_bind, wp_assert; [intros Hact|auto].
  apply wp_bind, wp_assert; [intros Hcl|auto].
  apply wp_bind, wp_assert; [intros Hcd|auto].
  apply wp_bind, wp_store. apply wp_bind, wp_emit.
  set (s2 := add_event (EvClosed a)
               (set_heap (<[a := set_flags (Z.lor (flags h) (UV_CLOSED B)) h]> (heap s)) s)).
  assert (H2 : step_post [Finalised a] s s2).
  { change [Finalised a] with ([] ++ [Finalised a]).
    eapply step_post_trans; [|apply step_post_event; reflexivity].
    apply step_post_store with h; auto.
    - clear Hact Hcd. flags.
    - clear Hact Hcl. flags.
    - unfold qproj. f_equal. clear Hact Hcl Hcd. flags. }
  assert (Hfin : forall s', step_post [] s2 s' ->
            step_post [Finalised a] s s' /\
            exists h', heap s' !! a = Some h' /\
                       closing B h' = true /\ closed B h' = true).
  { intros s' Hs'. split.
    - change [Finalised a] with ([Finalised a] ++ []).
      eapply step_post_trans; eauto.
    - destruct Hs' as (evs & _ & _ & Hev & _).
      destruct (Hev a (set_flags (Z.lor (flags h) (UV_CLOSED B)) h))
        as (h' & Hh' & _ & Hc1 & Hc2 & _).
      { subst s2. simpl. apply lookup_insert_eq. }
      exists h'. split; [exact Hh'|]. split.
      + apply Hc1. clear Hact Hcd. flags.
      + apply Hc2. clear Hact Hcl Hcd. flags. }
  assert (Htail : forall s3, step_post [] s2 s3 ->
            wp (h0 <- load a ;;
                match close_cb h0 with
                | Some cb => call_out B E (EvCloseCb cb a)
                | None => ret tt
                end ;;
                uv__handle_unref B a)
               (fun _ s' => step_post [Finalised a] s s' /\
                  exists h', heap s' !! a = Some h' /\
                             closing B h' = true /\ closed B h' = true)
               (fun _ => True) s3).
  { intros s3 Hs3.
    eapply wp_mono; [apply wp_finish_close_tail; exact Hs3| |]; [|auto].
    intros [] s' Hs'. simpl in *. auto. }
  assert (Hrefl : step_post [] s2 s2) by (apply api_post_step, api_post_refl).
  assert (Hstream :
    wp (assert (negb (read_watcher h)) ;;
        assert (negb (write_watcher h)) ;;
        assert (bool_decide (fd h = -1)) ;;
        call_out B E (EvCall uv__stream_destroy a))
       (fun _ s' => step_post [] s2 s') (fun _ => True) s2).
  { apply wp_bind, wp_assert; [intros _|auto].
    apply wp_bind, wp_assert; [intros _|auto].
    apply wp_bind, wp_assert; [intros _|auto].
    apply wp_call_out_quiet; [discriminate|reflexivity|exact Hrefl]. }
  apply wp_bind.
  destruct (type h);
    first [ apply wp_abort; exact I
          | apply wp_ret; apply Htail; exact Hrefl
          | eapply wp_mono; [exact Hstream| |]; [|auto];
            intros [] s' Hs'; simpl in *; apply Htail; exact Hs'
          | eapply wp_mono;
            [apply wp_call_out_quiet; [discriminate|reflexivity|exact Hrefl]| |];
            [|auto];
            intros [] s' Hs'; simpl in *; apply Htail; exact Hs' ].
Qed.

Lemma drain_post_nil s newq : queues B s None [] newq -> drain_post [] newq s s.
Proof.
  intros Hq. exists []. rewrite app_nil_r.
  split; [reflexivity|]. split; [reflexivity|]. split; [|split; [|split]]; auto.
  - intros d Hd. inversion Hd.
  - intros a h Ha. exists h. repeat split; auto.
Qed.

(** Unlinking the first detached handle. *)
Lemma queues_detach s a h rest newq :
  queues B s (Some a) (a :: rest) newq -> heap s !! a = Some h ->
  let hd := set_flags (Z.land (flags h) (Z.lnot (UV__PENDING B)))
              (set_next_pending None h) in
  queues B (set_heap (<[a := hd]> (heap s)) s) (next_pending h) rest newq /\
  a ∉ rest ++ newq.
Proof.
  intros (H1 & H2 & H3 & H4) Hh hd. simpl in H1.
  destruct H1 as (_ & h0 & Hh0 & Hp0 & Hl). rewrite Hh in Hh0. injection Hh0 as <-.
  simpl in H3. apply NoDup_cons in H3 as [Hout Hnd].
  assert (Hsame : forall xs x, a ∉ xs -> x ∈ xs ->
            qproj <$> <[a := hd]> (heap s) !! x = qproj <$> heap s !! x).
  { intros xs x Ha Hx. rewrite lookup_insert_ne; [reflexivity|].
    intros ->. contradiction. }
  pose proof Hout as Hout'. apply not_elem_of_app in Hout' as [Hout1 Hout2].
  split; [|exact Hout].
  split; [eapply linked_ext; [|exact Hl]; simpl; eauto|].
  split; [eapply linked_ext; [|exact H2]; simpl; eauto|].
  split; [exact Hnd|].
  simpl. intros x hx Hx Hpx. destruct (decide (a = x)) as [->|Hne].
  - rewrite lookup_insert_eq in Hx. injection Hx as <-.
    exfalso. subst hd. clear Hp0. flags.
  - rewrite lookup_insert_ne in Hx by done.
    pose proof (H4 x hx Hx Hpx) as Hin. simpl in Hin.
    apply elem_of_cons in Hin as [->|Hin]; [contradiction|exact Hin].
Qed.

(** One turn of the loop of [uv__run_pending], followed by the rest. *)
Lemma drain_post_cons s s1 s2 s' a h hd d evs1 rest newq :
  heap s !! a = Some h ->
  heap s1 = <[a := hd]> (heap s) -> trace s1 = trace s ->
  type hd = type h -> closing B hd = closing B h -> closed B hd = closed B h ->
  qproj hd = (None, false) ->
  a ∉ rest ->
  trace s2 = trace s1 ++ evs1 -> dispatches evs1 = [d] -> target d = a ->
  (forall x hx, heap s1 !! x = Some hx ->
     exists hx', heap s2 !! x = Some hx' /\ type hx' = type hx /\
       (closing B hx = true -> closing B hx' = true) /\
       (closed B hx = true -> closed B hx' = true) /\
       (x ∉ enqueued evs1 -> qproj hx' = qproj hx)) ->
  (forall x, heap s1 !! x = None -> heap s2 !! x = None) ->
  match d with
  | Dispatched _ => closing B h = false /\ is_stream (type h) = true
  | Finalised _ =>
      exists h2, heap s2 !! a = Some h2 /\ closing B h2 = true /\ closed B h2 = true
  end ->
  drain_post rest (rev (enqueued evs1) ++ newq) s2 s' ->
  drain_post (a :: rest) newq s s'.
Proof.
  intros Hh Hheap1 Htr1 Hty Hcl Hcd Hqp Hout Htr2 Hd1 Htgt Hev1 Hnone1 Hkind
         (evs2 & Htr' & Hmap & Hkinds & Hev2 & Hnone2 & Hq').
  assert (Hstep : forall x hx, heap s !! x = Some hx ->
            exists h1, heap s1 !! x = Some h1 /\ type h1 = type hx /\
              closing B h1 = closing B hx /\ closed B h1 = closed B hx /\
              qproj h1 = if decide (x = a) then (None, false) else qproj hx).
  { intros x hx Hx. rewrite Hheap1. destruct (decide (x = a)) as [->|Hne].
    - rewrite lookup_insert_eq. exists hd. rewrite Hh in Hx. injection Hx as <-. auto.
    - rewrite lookup_insert_ne by done. exists hx. auto. }
  assert (Hnone : forall x, heap s !! x = None -> heap s' !! x = None).
  { intros x Hx. apply Hnone2, Hnone1. rewrite Hheap1.
    rewrite lookup_insert_ne; [exact Hx|]. intros ->. congruence. }
  exists (evs1 ++ evs2).
  split; [rewrite Htr', Htr2, Htr1, app_assoc; reflexivity|].
  split; [rewrite dispatches_app, Hd1; simpl; congruence|].
  split; [|split; [|split]].
  - intros d' Hd'. rewrite dispatches_app, Hd1 in Hd'. simpl in Hd'.
    apply elem_of_cons in Hd' as [->|Hd'].
    + destruct d as [a'|a']; simpl in Htgt; subst a'.
      * destruct Hkind as (h2 & Hh2 & Hc1 & Hc2).
        destruct (Hev2 a h2 Hh2) as (h' & Hh' & _ & Hm1 & Hm2 & _).
        exists h'. auto.
      * exists h. tauto.
    + specialize (Hkinds d' Hd'). destruct d' as [x|x]; [exact Hkinds|].
      destruct Hkinds as (h2 & Hh2 & Hc2 & Hs2).
      destruct (heap s !! x) as [hx|] eqn:Hx.
      * destruct (Hstep x hx Hx) as (h1 & Hh1 & Hty1 & Hcl1 & _).
        destruct (Hev1 x h1 Hh1) as (h2' & Hh2' & Hty2 & Hm & _).
        rewrite Hh2 in Hh2'. injection Hh2' as <-.
        exists hx. split; [reflexivity|]. split; [|congruence].
        destruct (closing B hx) eqn:Hcx; [|reflexivity].
        rewrite Hm in Hc2 by congruence. discriminate.
      * assert (Hx2 : heap s2 !! x = None); [|congruence].
        apply Hnone1. rewrite Hheap1.
        rewrite lookup_insert_ne; [exact Hx|]. intros ->. congruence.
  - intros x hx Hx.
    destruct (Hstep x hx Hx) as (h1 & Hh1 & Hty1 & Hcl1 & Hcd1 & Hqp1).
    destruct (Hev1 x h1 Hh1) as (h2 & Hh2 & Hty2 & Hm1 & Hm2 & Hqp2).
    destruct (Hev2 x h2 Hh2) as (h' & Hh' & Hty' & Hm1' & Hm2' & Hqp').
    exists h'. split; [exact Hh'|]. split; [congruence|].
    split; [intros; apply Hm1', Hm1; congruence|].
    split; [intros; apply Hm2', Hm2; congruence|].
    rewrite enqueued_app, not_elem_of_app. intros [Hn1 Hn2].
    rewrite (Hqp' Hn2), (Hqp2 Hn1), Hqp1.
    destruct (decide (x = a)) as [->|Hne].
    + rewrite (bool_decide_true (a ∈ a :: rest)) by left.
      destruct (bool_decide (a ∈ rest)); reflexivity.
    + destruct (bool_decide_reflect (x ∈ rest)) as [Hin|Hin].
      * rewrite bool_decide_true by (right; exact Hin). reflexivity.
      * rewrite bool_decide_false; [reflexivity|].
        rewrite elem_of_cons. tauto.
  - exact Hnone.
  - rewrite enqueued_app, rev_app_distr, <- app_assoc. exact Hq'.
Qed.

Lemma wp_drain rest :
  forall fuel q s newq,
    queues B s q rest newq -> (length rest <= fuel)%nat ->
    wp (drain B E fuel q) (fun _ s' => drain_post rest newq s s') (fun _ => True) s.
Proof.
  induction rest as [|a rest IH]; intros fuel q s newq Hq Hfuel.
  - pose proof Hq as (Hl & _). simpl in Hl. subst q.
    destruct fuel; simpl; apply wp_ret, drain_post_nil; exact Hq.
  - pose proof Hq as (Hl & _). simpl in Hl.
    destruct Hl as (-> & h & Hh & Hp & _).
    destruct fuel as [|fuel]; [simpl in Hfuel; lia|]. simpl in Hfuel. simpl.
    apply wp_bind, wp_load. intros h0 Hh0.
    rewrite Hh in Hh0. injection Hh0 as <-.
    apply wp_bind, wp_store.
    set (hd := set_flags (Z.land (flags h) (Z.lnot (UV__PENDING B)))
                 (set_next_pending None h)).
    set (s1 := set_heap (<[a := hd]> (heap s)) s).
    destruct (queues_detach s a h rest newq Hq Hh) as [Hq1 Hout].
    fold hd in Hq1. fold s1 in Hq1.
    apply not_elem_of_app in Hout as [Hout _].
    assert (Hty : type hd = type h) by reflexivity.
    assert (Hcl : closing B hd = closing B h) by (subst hd; clear Hp; flags).
    assert (Hcd : closed B hd = closed B h) by (subst hd; clear Hp; flags).
    assert (Hqp : qproj hd = (None, false)).
    { unfold qproj. subst hd. simpl. f_equal. clear Hp. flags. }
    apply wp_bind, wp_load. intros h1 Hh1.
    assert (h1 = hd) as ->.
    { subst s1. simpl in Hh1. rewrite lookup_insert_eq in Hh1. congruence. }
    assert (Hgo : forall d s2,
              target d = a ->
              step_post [d] s1 s2 ->
              match d with
              | Dispatched _ => closing B h = false /\ is_stream (type h) = true
              | Finalised _ =>
                  exists h2, heap s2 !! a = Some h2 /\
                             closing B h2 = true /\ closed B h2 = true
              end ->
              wp (drain B E fuel (next_pending h))
                 (fun _ s' => drain_post (a :: rest) newq s s') (fun _ => True) s2).
    { intros d s2 Htgt (evs1 & Htr2 & Hd1 & Hev1 & Hnone1 & Hqs) Hkind.
      eapply wp_mono;
        [apply (IH fuel (next_pending h) s2 (rev (enqueued evs1) ++ newq));
         [apply Hqs; exact Hq1|lia]| |]; [|auto].
      intros [] s' Hs'. simpl in *.
      eapply (drain_post_cons s s1 s2 s' a h hd d evs1); eauto. }
    apply wp_bind. fold (closing B hd). rewrite Hcl.
    destruct (closing B h) eqn:Hclosing.
    + eapply wp_mono; [apply wp_finish_close| |]; [|auto].
      intros [] s2 [Hs2 Hfin]. simpl in *.
      apply (Hgo (Finalised a)); auto.
    + rewrite Hty. destruct (is_stream (type h)) eqn:Hst.
      * assert (Hsw : forall A (m1 m2 : M A),
                  match type h with
                  | UV_NAMED_PIPE | UV_TTY | UV_TCP => m1
                  | _ => m2
                  end = m1).
        { intros A m1 m2. destruct (type h); try discriminate; reflexivity. }
        rewrite Hsw.
        eapply wp_mono;
          [apply (wp_call_out s1 s1 (EvCall uv__stream_pending a) [] [Dispatched a]);
           [discriminate|reflexivity|apply api_post_step, api_post_refl]| |];
          [|auto].
        intros [] s2 Hs2. simpl in *.
        apply (Hgo (Dispatched a)); auto.
      * assert (Hsw : forall A (m1 m2 : M A),
                  match type h with
                  | UV_NAMED_PIPE | UV_TTY | UV_TCP => m1
                  | _ => m2
                  end = m2).
        { intros A m1 m2. destruct (type h); try discriminate; reflexivity. }
        rewrite Hsw. apply wp_abort. exact I.
Qed.

Lemma wp_run_pending fuel s xs :
  queues B s None [] xs -> (length xs <= fuel)%nat ->
  wp (uv__run_pending B E fuel) (fun _ s' => drain_post xs [] s s') (fun _ => True) s.
Proof.
  intros Hq Hfuel. unfold uv__run_pending. apply wp_bind, wp_get.
  pose proof Hq as (_ & Hl & Hnd & Hall).
  destruct (pending_handles s) as [a|] eqn:Hp.
  - apply wp_bind, wp_modify.
    assert (Hq1 : queues B (set_pending_handles None s) (Some a) xs []).
    { split; [eapply linked_ext; [|exact Hl]; reflexivity|].
      split; [reflexivity|]. rewrite app_nil_r. simpl in *. auto. }
    eapply wp_mono; [apply wp_drain; eauto| |]; [|auto].
    intros [] s' Hs'. exact Hs'.
  - destruct xs as [|x xs]; [|destruct Hl; discriminate].
    apply wp_ret. apply drain_post_nil. exact Hq.
Qed.

(** In a drain that returns, a detached handle that was closing went to
    the finaliser. *)
Lemma drain_post_finalises xs newq s s' a h :
  drain_post xs newq s s' -> a ∈ xs -> heap s !! a = Some h ->
  closing B h = true ->
  exists evs, trace s' = trace s ++ evs /\ Finalised a ∈ dispatches evs.
Proof.
  intros (evs & Ht & Hmap & Hkinds & _) Hin Hh Hcl. exists evs.
  split; [exact Ht|]. rewrite <- Hmap in Hin.
  apply list_elem_of_fmap in Hin as (d & Htgt & Hd).
  pose proof (Hkinds d Hd) as Hk. destruct d as [x|x]; simpl in Htgt; subst x.
  - exact Hd.
  - destruct Hk as (h0 & Hh0 & Hc0 & _). congruence.
Qed.

Lemma run_pending_guard fuel s a h :
  pending_handles s = Some a -> heap s !! a = Some h ->
  closing B h = false -> is_stream (type h) = false ->
  uv__run_pending B E (S fuel) s =
  Abort (set_heap (<[a := set_flags (Z.land (flags h) (Z.lnot (UV__PENDING B)))
                           (set_next_pending None h)]> (heap s))
           (set_pending_handles None s)).
Proof.
  intros Hp Hh Hcl Hst.
  unfold uv__run_pending, bind, get_state, modify. rewrite Hp. simpl.
  unfold bind, load, store, modify. simpl. rewrite Hh. simpl.
  rewrite lookup_insert_eq.
  assert (Hc : has_flag (Z.land (flags h) (Z.lnot (UV__PENDING B))) (UV_CLOSING B)
               = false).
  { rewrite <- Hcl. clear Hcl. flags. }
  simpl. rewrite Hc.
  destruct (type h); try discriminate; reflexivity.
Qed.

(** The drain starts by emptying the loop's list. *)
Lemma run_pending_detaches fuel s :
  uv__run_pending B E fuel s
  = drain B E fuel (pending_handles s) (set_pending_handles None s).
Proof.
  unfold uv__run_pending, bind, get_state, modify.
  destruct s as [hp p ah ih ar hc tr]. simpl.
  destruct p as [a|]; [reflexivity|].
  destruct fuel; reflexivity.
Qed.

(** One turn of the drain's loop. *)
Lemma drain_step fuel a h s :
  heap s !! a = Some h ->
  drain B E (S fuel) (Some a) s
  = (drain_action B E a h ;; drain B E fuel (next_pending h))
      (set_heap (<[a := unlinked B h]> (heap s)) s).
Proof.
  intros Hh. simpl. unfold bind at 1, load at 1. rewrite Hh.
  unfold bind at 1, store at 1, modify. unfold bind at 1, load at 1. simpl.
  rewrite lookup_insert_eq. fold (unlinked B h).
  assert (Hcl : has_flag (flags (unlinked B h)) (UV_CLOSING B) = closing B h)
    by (unfold unlinked; flags).
  rewrite Hcl. unfold drain_action, bind.
  destruct (closing B h); [reflexivity|].
  change (type (unlinked B h)) with (type h).
  destruct (type h); reflexivity.
Qed.

Lemma call_out_quiet e s :
  calls_nothing E -> call_out B E e s = Ok tt (add_event e s).
Proof.
  intros Hq. unfold call_out, bind, emit, modify, get_state.
  rewrite Hq. reflexivity.
Qed.

Lemma unref_goes s a h :
  heap s !! a = Some h ->
  exists s', uv__handle_unref B a s = Ok tt s' /\ trace s' = trace s /\
    (forall x, x <> a -> heap s' !! x = heap s !! x).
Proof.
  intros Hh. unfold uv__handle_unref, bind, load. rewrite Hh.
  destruct (has_flag (flags h) (UV__REF B)); simpl.
  - unfold store, modify.
    destruct (has_flag (flags h) (UV__ACTIVE B)); simpl;
      eexists; (split; [reflexivity|]); (split; [reflexivity|]);
      intros x Hx; simpl; now rewrite lookup_insert_ne by congruence.
  - eexists. split; [reflexivity|]. auto.
Qed.

Lemma finish_close_goes s a h :
  calls_nothing E ->
  heap s !! a = Some h -> closing B h = true ->
  uv__is_active B h = false -> closed B h = false ->
  type h <> UV_UNKNOWN_HANDLE ->
  (is_stream (type h) = true ->
   read_watcher h = false /\ write_watcher h = false /\ fd h = -1) ->
  exists s' evs, uv__finish_close B E a s = Ok tt s' /\
    trace s' = trace s ++ EvClosed a :: evs /\ dispatches evs = [] /\
    (forall x, x <> a -> heap s' !! x = heap s !! x).
Proof.
  intros Hq Hh Hcl Hact Hcd Hty Hst.
  unfold uv__finish_close. unfold bind at 1, load at 1. rewrite Hh.
  unfold closing, closed in Hcl, Hcd. rewrite Hact, Hcl, Hcd. simpl.
  unfold bind at 1, ret at 1. unfold bind at 1, ret at 1.
  unfold bind at 1, ret at 1. unfold bind at 1, store at 1, modify.
  unfold bind at 1, emit at 1, modify.
  set (s1 := add_event _ _).
  assert (Hs1 : heap s1 !! a = Some (set_flags (Z.lor (flags h) (UV_CLOSED B)) h))
    by (unfold s1; simpl; apply lookup_insert_eq).
  assert (Hother1 : forall x, x <> a -> heap s1 !! x = heap s !! x)
    by (intros x Hx; unfold s1; simpl; now rewrite lookup_insert_ne by congruence).
  assert (Ht1 : trace s1 = trace s ++ [EvClosed a]) by reflexivity.
  assert (Hrel : exists s2 rel,
            match type h with
            | UV_PREPARE | UV_CHECK | UV_IDLE | UV_ASYNC | UV_TIMER
            | UV_PROCESS => ret tt
            | UV_NAMED_PIPE | UV_TCP | UV_TTY =>
                assert (negb (read_watcher h)) ;;
                assert (negb (write_watcher h)) ;;
                assert (bool_decide (fd h = -1)) ;;
                call_out B E (EvCall uv__stream_destroy a)
            | UV_UDP => call_out B E (EvCall uv__udp_finish_close a)
            | UV_FS_EVENT => ret tt
            | UV_POLL => ret tt
            | UV_UNKNOWN_HANDLE => abort
            end s1 = Ok tt s2 /\ heap s2 = heap s1 /\
            trace s2 = trace s1 ++ rel /\ dispatches rel = []).
  { destruct (type h) eqn:Et; try contradiction;
      try (exists s1, []; rewrite app_nil_r; repeat split; reflexivity);
      try (exists (add_event (EvCall uv__udp_finish_close a) s1),
                  [EvCall uv__udp_finish_close a];
           split; [now apply call_out_quiet|repeat split; reflexivity]);
      (destruct (Hst eq_refl) as (-> & -> & ->); simpl;
       exists (add_event (EvCall uv__stream_destroy a) s1),
              [EvCall uv__stream_destroy a];
       split; [|repeat split; reflexivity]; unfold bind, assert, ret; simpl;
       now apply call_out_quiet). }
  destruct Hrel as (s2 & rel & Hrel & Hheap2 & Ht2 & Hd2).
  unfold bind at 1. rewrite Hrel.
  unfold bind at 1, load at 1. rewrite Hheap2, Hs1. simpl.
  assert (Hcb : exists s3 cbs,
            match close_cb h with
            | Some cb => call_out B E (EvCloseCb cb a)
            | None => ret tt
            end s2 = Ok tt s3 /\ heap s3 = heap s2 /\
            trace s3 = trace s2 ++ cbs /\ dispatches cbs = []).
  { destruct (close_cb h) as [cb|].
    - exists (add_event (EvCloseCb cb a) s2), [EvCloseCb cb a].
      split; [now apply call_out_quiet|repeat split; reflexivity].
    - exists s2, []. rewrite app_nil_r. repeat split; reflexivity. }
  destruct Hcb as (s3 & cbs & Hcb & Hheap3 & Ht3 & Hd3).
  unfold bind at 1. rewrite Hcb.
  assert (Hs3 : heap s3 !! a = Some (set_flags (Z.lor (flags h) (UV_CLOSED B)) h))
    by (rewrite Hheap3, Hheap2; exact Hs1).
  destruct (unref_goes s3 a _ Hs3) as (s' & Hun & Ht' & Hother).
  exists s', (rel ++ cbs). split; [exact Hun|].
  split; [rewrite Ht', Ht3, Ht2, Ht1, <- !app_assoc; reflexivity|].
  split; [rewrite dispatches_app, Hd2, Hd3; reflexivity|].
  intros x Hx. rewrite (Hother x Hx), Hheap3, Hheap2. now apply Hother1.
Qed.

(** With code outside the core that makes no call into it, a drain of
    handles that pass its guards returns, having sent each where its flags
    and type say. *)
Lemma drain_returns rest :
  calls_nothing E ->
  forall fuel q s,
    linked B s q rest -> NoDup rest -> (length rest <= fuel)%nat ->
    Forall (drainable B s) rest ->
    exists s' evs, drain B E fuel q s = Ok tt s' /\
      trace s' = trace s ++ evs /\
      dispatches evs = map (expected_dispatch B s) rest.
Proof.
  intros Hq. induction rest as [|a rest IH]; intros fuel q s Hl Hnd Hfuel Hall.
  - simpl in Hl. subst q. exists s, []. rewrite app_nil_r.
    destruct fuel; repeat split; reflexivity.
  - simpl in Hl. destruct Hl as (-> & h & Hh & Hp & Hl).
    destruct fuel as [|fuel]; [simpl in Hfuel; lia|]. simpl in Hfuel.
    apply NoDup_cons in Hnd as [Hout Hnd].
    apply Forall_cons in Hall as [(h0 & Hh0 & Hok) Hall].
    rewrite Hh in Hh0. injection Hh0 as <-.
    rewrite (drain_step fuel a h s Hh).
    set (s1 := set_heap (<[a := unlinked B h]> (heap s)) s).
    assert (Hs1 : heap s1 !! a = Some (unlinked B h))
      by (unfold s1; simpl; apply lookup_insert_eq).
    assert (Hother1 : forall x, x <> a -> heap s1 !! x = heap s !! x)
      by (intros x Hx; unfold s1; simpl;
          now rewrite lookup_insert_ne by congruence).
    assert (Hact : exists s2 evs1, drain_action B E a h s1 = Ok tt s2 /\
              trace s2 = trace s ++ evs1 /\
              dispatches evs1 = [expected_dispatch B s a] /\
              (forall x, x <> a -> heap s2 !! x = heap s !! x)).
    { unfold drain_action, expected_dispatch. rewrite Hh.
      destruct (closing B h) eqn:Hcl.
      - destruct Hok as (Ha & Hcd & Hty & Hst).
        destruct (finish_close_goes s1 a (unlinked B h) Hq Hs1)
          as (s2 & evs1 & Hrun & Ht & Hd & Hother); try assumption.
        + unfold unlinked. clear Hp. flags.
        + unfold unlinked. clear Hp. flags.
        + unfold unlinked. clear Hp. flags.
        + exists s2, (EvClosed a :: evs1). split; [exact Hrun|].
          split; [exact Ht|]. split; [simpl; now rewrite Hd|].
          intros x Hx. rewrite (Hother x Hx). now apply Hother1.
      - rewrite Hok. exists (add_event (EvCall uv__stream_pending a) s1),
                            [EvCall uv__stream_pending a].
        split; [now apply call_out_quiet|]. repeat split; auto. }
    destruct Hact as (s2 & evs1 & Hrun & Ht2 & Hd1 & Hother).
    unfold bind. rewrite Hrun.
    destruct (IH fuel (next_pending h) s2) as (s' & evs & Hrun' & Ht' & Hd');
      [|exact Hnd|lia| |].
    + eapply linked_ext; [|exact Hl].
      intros x Hx. rewrite Hother; [reflexivity|]. intros ->. contradiction.
    + apply Forall_forall. intros x Hx.
      destruct (proj1 (Forall_forall _ _) Hall x Hx) as (hx & Hhx & Hokx).
      exists hx. split; [|exact Hokx].
      rewrite Hother; [exact Hhx|]. intros ->. contradiction.
    + exists s', (evs1 ++ evs). split; [exact Hrun'|].
      split; [rewrite Ht', Ht2, <- app_assoc; reflexivity|].
      rewrite dispatches_app, Hd1, Hd'. simpl. f_equal.
      apply map_ext_in. intros x Hx. unfold expected_dispatch.
      rewrite Hother; [reflexivity|]. intros ->.
      apply Hout. apply list_elem_of_In. exact Hx.
Qed.

(** C3, as the code has it.  The drain first empties the loop's list and
    then walks the detached handles.  Each turn of its loop takes the
    handle off the detached list ([PENDING] cleared, link null) and then: if
    [CLOSING] is set, runs the finaliser; otherwise, if the handle is a named
    pipe, TCP or TTY handle, calls the stream dispatcher; otherwise aborts.
    With a well-formed pending list [xs] and enough fuel the drain ends.
    It returns whenever every handle of [xs] passes the guards of the drain
    and of the finaliser and the code called makes no call into the core,
    and it has then sent each handle where its flags and type said, in
    order.  Whenever it returns it has dispatched exactly the handles of
    [xs], once each and in order: a handle went to the stream dispatcher
    only if it was an open stream, a handle that is not closed afterwards
    went to the stream dispatcher, and a closing handle went to the finaliser
    and ends closed.  The loop's list then holds exactly the handles
    enqueued during the drain, which the next drain dispatches; a detached
    handle that was not enqueued again has [PENDING] clear and a null link.
    A handle that is neither closing nor a stream makes the drain abort,
    without any call on it. *)
Theorem run_pending_drains (fuel : nat) (s : reactor) (xs : list addr) :
  queues B s None [] xs -> (length xs <= fuel)%nat ->
  uv__run_pending B E fuel s
  = drain B E fuel (pending_handles s) (set_pending_handles None s) /\
  (forall fuel' a h s0,
     heap s0 !! a = Some h ->
     drain B E (S fuel') (Some a) s0
     = ((if closing B h then uv__finish_close B E a
         else if is_stream (type h)
              then call_out B E (EvCall uv__stream_pending a)
              else abort) ;;
        drain B E fuel' (next_pending h))
         (set_heap
            (<[a := set_flags (Z.land (flags h) (Z.lnot (UV__PENDING B)))
                      (set_next_pending None h)]> (heap s0)) s0)) /\
  uv__run_pending B E fuel s <> OutOfFuel /\
  (calls_nothing E -> Forall (drainable B s) xs ->
   exists s' evs,
     uv__run_pending B E fuel s = Ok tt s' /\
     trace s' = trace s ++ evs /\
     dispatches evs = map (expected_dispatch B s) xs) /\
  (forall s', uv__run_pending B E fuel s = Ok tt s' ->
     exists evs,
       trace s' = trace s ++ evs /\
       map target (dispatches evs) = xs /\
       (forall a, Dispatched a ∈ dispatches evs ->
          exists h, heap s !! a = Some h /\ closing B h = false /\
                    is_stream (type h) = true) /\
       (forall a, Finalised a ∈ dispatches evs ->
          exists h', heap s' !! a = Some h' /\ closing B h' = true /\
                     closed B h' = true) /\
       (forall a h', a ∈ xs -> heap s' !! a = Some h' -> closed B h' = false ->
          Dispatched a ∈ dispatches evs) /\
       (forall a h, a ∈ xs -> heap s !! a = Some h -> closing B h = true ->
          Finalised a ∈ dispatches evs) /\
       queues B s' None [] (rev (enqueued evs)) /\
       (forall a h', a ∈ xs -> a ∉ enqueued evs -> heap s' !! a = Some h' ->
          pending B h' = false /\ next_pending h' = None) /\
       (forall fuel' s'',
          (length (enqueued evs) <= fuel')%nat ->
          uv__run_pending B E fuel' s' = Ok tt s'' ->
          exists evs', trace s'' = trace s' ++ evs' /\
                       map target (dispatches evs') = rev (enqueued evs))) /\
  (forall a h xs',
     xs = a :: xs' -> heap s !! a = Some h ->
     closing B h = false -> is_stream (type h) = false ->
     exists s1, uv__run_pending B E fuel s = Abort s1 /\ trace s1 = trace s).
Proof.
  intros Hq Hfuel. pose proof (wp_run_pending fuel s xs Hq Hfuel) as Hwp.
  split; [apply run_pending_detaches|].
  split; [intros fuel' a h s0 Hh; apply (drain_step fuel' a h s0 Hh)|].
  split; [|split; [|split]].
  - unfold wp in Hwp. intros Hout. rewrite Hout in Hwp. exact Hwp.
  - intros Hquiet Hall. rewrite run_pending_detaches.
    destruct Hq as (_ & Hl & Hnd & _). simpl in Hnd.
    destruct (drain_returns xs Hquiet fuel (pending_handles s)
                (set_pending_handles None s))
      as (s' & evs & Hrun & Ht & Hd); auto.
    + eapply linked_ext; [|exact Hl]. reflexivity.
    + exists s', evs. auto.
  - intros s' Hrun. pose proof (wp_ok _ _ _ _ _ _ Hwp Hrun) as Hpost.
    pose proof Hpost as (evs & Ht & Hmap & Hkinds & Hev & _ & Hq').
    rewrite app_nil_r in Hq'. exists evs.
    split; [exact Ht|]. split; [exact Hmap|].
    split; [intros a Ha; exact (Hkinds _ Ha)|].
    split; [intros a Ha; exact (Hkinds _ Ha)|].
    split; [|split; [|split; [exact Hq'|split]]].
    + intros a h' Hin Hh' Hopen. rewrite <- Hmap in Hin.
      apply list_elem_of_fmap in Hin as (d & Htgt & Hd).
      destruct d as [x|x]; simpl in Htgt; subst x; [|exact Hd].
      destruct (Hkinds _ Hd) as (h0 & Hh0 & _ & Hc0). congruence.
    + intros a h Hin Hh Hcl.
      destruct (drain_post_finalises xs [] s s' a h Hpost Hin Hh Hcl)
        as (evs0 & Ht0 & Hfin).
      rewrite Ht in Ht0. apply app_inv_head in Ht0. subst evs0. exact Hfin.
    + intros a h' Hin Hnot Hh'.
      destruct Hq as (_ & Hl & _).
      destruct (linked_valid _ _ _ _ Hl Hin) as (h & Hh & _).
      destruct (Hev a h Hh) as (h0 & Hh0 & _ & _ & _ & Hqp).
      rewrite Hh' in Hh0. injection Hh0 as <-.
      specialize (Hqp Hnot). rewrite bool_decide_true in Hqp by exact Hin.
      unfold qproj in Hqp. injection Hqp as -> ->. auto.
    + intros fuel' s'' Hfuel' Hrun'.
      assert (Hlen : (length (rev (enqueued evs)) <= fuel')%nat)
        by (rewrite length_rev; exact Hfuel').
      pose proof (wp_ok _ _ _ _ _ _
                    (wp_run_pending fuel' s' _ Hq' Hlen) Hrun')
        as (evs' & Ht' & Hmap' & _).
      exists evs'. auto.
  - intros a h xs' -> Hh Hcl Hst.
    destruct Hq as (_ & Hl & _). simpl in Hl. destruct Hl as (Hp & _).
    destruct fuel as [|fuel]; [simpl in Hfuel; lia|].
    rewrite (run_pending_guard fuel s a h Hp Hh Hcl Hst).
    eexists. split; [reflexivity|]. reflexivity.
Qed.

(** *** [uv_close] *)

Lemma quiet_post_refl s : quiet_post s s.
Proof.
  split; [exists []; simpl; rewrite app_nil_r; reflexivity|].
  intros a h Hh. exists h. auto.
Qed.

Lemma quiet_post_trans s1 s2 s3 : quiet_post s1 s2 -> quiet_post s2 s3 -> quiet_post s1 s3.
Proof.
  intros [(e1 & Ht1) Hh1] [(e2 & Ht2) Hh2]. split.
  - exists (e1 ++ e2). rewrite Ht2, Ht1, map_app, app_assoc. reflexivity.
  - intros a h Hh. destruct (Hh1 a h Hh) as (h' & Hh' & Hc & Hty).
    destruct (Hh2 a h' Hh') as (h'' & Hh'' & Hc' & Hty').
    exists h''. repeat split; congruence.
Qed.

Lemma quiet_post_store s a h h' :
  heap s !! a = Some h -> close_cb h' = close_cb h -> type h' = type h ->
  quiet_post s (set_heap (<[a := h']> (heap s)) s).
Proof.
  intros Hh Hc Hty. split; [exists []; simpl; rewrite app_nil_r; reflexivity|].
  intros x hx Hx. simpl. destruct (decide (a = x)) as [->|Hne].
  - rewrite lookup_insert_eq. exists h'. rewrite Hh in Hx. injection Hx as <-. auto.
  - rewrite lookup_insert_ne by done. exists hx. auto.
Qed.

Lemma quiet_post_loop s s' :
  heap s' = heap s -> trace s' = trace s -> quiet_post s s'.
Proof.
  intros Hh Ht. split; [exists []; simpl; rewrite app_nil_r; exact Ht|].
  rewrite Hh. intros a h Ha. exists h. auto.
Qed.

Lemma wp_make_pending_quiet s0 s a :
  quiet_post s0 s ->
  wp (uv__make_pending B a)
     (fun _ s' => quiet_post s0 s' /\
                  exists h h', heap s !! a = Some h /\ heap s' !! a = Some h' /\
                    pending B h' = true /\
                    (closing B h = true -> closing B h' = true))
     (fun _ => False) s.
Proof.
  intros H0. unfold uv__make_pending. apply wp_bind, wp_load. intros h Hh.
  destruct (has_flag (flags h) (UV__PENDING B)) eqn:Hp.
  - apply wp_ret. split; [exact H0|]. exists h, h. auto.
  - unfold wp, bind, get_state, store, modify, emit. simpl. split.
    + eapply quiet_post_trans; [exact H0|]. split.
      * exists [a]. reflexivity.
      * intros x hx Hx. simpl. destruct (decide (a = x)) as [->|Hne].
        -- rewrite lookup_insert_eq. eexists. split; [reflexivity|].
           rewrite Hh in Hx. injection Hx as <-. auto.
        -- rewrite lookup_insert_ne by done. exists hx. auto.
    + rewrite lookup_insert_eq. exists h. eexists. split; [exact Hh|].
      split; [reflexivity|]. clear Hp. split; flags.
Qed.

Lemma wp_exec_prim_quiet s0 s p :
  quiet_post s0 s ->
  wp (exec_prim B p) (fun _ s' => quiet_post s0 s') (fun _ => False) s.
Proof.
  intros H0. destruct p as [a|a|a|a rd wr d|n|hs]; simpl.
  - eapply wp_mono; [apply wp_make_pending_quiet; exact H0| |]; [|auto].
    intros [] s' [Hs' _]. exact Hs'.
  - unfold uv__handle_start. apply wp_bind, wp_load. intros h Hh.
    apply wp_if; intros _; [apply wp_ret; exact H0|].
    apply wp_bind, wp_store.
    assert (H1 : quiet_post s0 (set_heap (<[a := set_flags (Z.lor (flags h) (UV__ACTIVE B)) h]>
                                            (heap s)) s)).
    { eapply quiet_post_trans; [exact H0|]. apply quiet_post_store with h; auto. }
    apply wp_if; intros _; [|apply wp_ret; exact H1].
    apply wp_modify. eapply quiet_post_trans; [exact H1|].
    apply quiet_post_loop; reflexivity.
  - unfold uv__handle_stop. apply wp_bind, wp_load. intros h Hh.
    apply wp_if; intros _; [apply wp_ret; exact H0|].
    apply wp_bind, wp_store.
    assert (H1 : quiet_post s0 (set_heap (<[a := set_flags (Z.land (flags h)
                                                  (Z.lnot (UV__ACTIVE B))) h]>
                                            (heap s)) s)).
    { eapply quiet_post_trans; [exact H0|]. apply quiet_post_store with h; auto. }
    apply wp_if; intros _; [|apply wp_ret; exact H1].
    apply wp_modify. eapply quiet_post_trans; [exact H1|].
    apply quiet_post_loop; reflexivity.
  - apply wp_update. intros h Hh. eapply quiet_post_trans; [exact H0|].
    apply quiet_post_store with h; auto.
  - apply wp_modify. eapply quiet_post_trans; [exact H0|].
    apply quiet_post_loop; reflexivity.
  - apply wp_modify. eapply quiet_post_trans; [exact H0|].
    apply quiet_post_loop; reflexivity.
Qed.

Lemma wp_exec_prims_quiet s0 ps s :
  quiet_post s0 s ->
  wp (exec_prims B ps) (fun _ s' => quiet_post s0 s') (fun _ => False) s.
Proof.
  revert s. induction ps as [|p ps IH]; intros s H0; simpl.
  - apply wp_ret. exact H0.
  - apply wp_bind. eapply wp_mono; [apply wp_exec_prim_quiet; exact H0| |]; auto.
Qed.

(** The switch of [uv_close], by the routine it selects. *)
Lemma close_switch ty r a :
  shutdown_routine ty = Some r ->
  match ty with
  | UV_NAMED_PIPE => close_routine B E uv__pipe_close a
  | UV_TTY | UV_TCP => close_routine B E uv__stream_close a
  | UV_UDP => close_routine B E uv__udp_close a
  | UV_PREPARE => close_routine B E uv__prepare_close a
  | UV_CHECK => close_routine B E uv__check_close a
  | UV_IDLE => close_routine B E uv__idle_close a
  | UV_ASYNC => close_routine B E uv__async_close a
  | UV_TIMER => close_routine B E uv__timer_close a
  | UV_PROCESS => close_routine B E uv__process_close a
  | UV_FS_EVENT => close_routine B E uv__fs_event_close a
  | UV_POLL => close_routine B E uv__poll_close a
  | UV_UNKNOWN_HANDLE => abort
  end = close_routine B E r a.
Proof. destruct ty; simpl; intros [= <-]; reflexivity. Qed.

Lemma wp_uv_close_detail s a h cb r :
  heap s !! a = Some h -> shutdown_routine (type h) = Some r ->
  wp (uv_close B E a cb)
     (fun _ s' => exists h' enq,
        heap s' !! a = Some h' /\ type h' = type h /\ close_cb h' = cb /\
        closing B h' = true /\ pending B h' = true /\
        trace s' = trace s ++ EvCall r a :: map EvEnqueue enq)
     (fun _ => False) s.
Proof.
  intros Hh Hr. unfold uv_close. apply wp_bind, wp_update.
  intros h0 Hh0. rewrite Hh in Hh0. injection Hh0 as <-.
  set (s1 := set_heap (<[a := set_close_cb cb h]> (heap s)) s).
  apply wp_bind, wp_load. intros h1 Hh1.
  assert (h1 = set_close_cb cb h) as ->.
  { subst s1. simpl in Hh1. rewrite lookup_insert_eq in Hh1. congruence. }
  simpl type. rewrite (close_switch (type h) r a Hr).
  apply wp_bind. unfold close_routine. apply wp_bind, wp_emit.
  apply wp_bind, wp_get.
  eapply wp_mono;
    [apply (wp_exec_prims_quiet (add_event (EvCall r a) s1)); apply quiet_post_refl| |];
    [|auto].
  intros [] s2 [(enq & Ht2) Hev2]. simpl in *.
  destruct (Hev2 a (set_close_cb cb h)) as (h2 & Hh2 & Hcb2 & Hty2).
  { apply lookup_insert_eq. }
  apply wp_bind, wp_update. intros h2' Hh2'.
  rewrite Hh2 in Hh2'. injection Hh2' as <-.
  set (s3 := set_heap (<[a := set_flags (Z.lor (flags h2) (UV_CLOSING B)) h2]> (heap s2)) s2).
  eapply wp_mono; [apply (wp_make_pending_quiet s3); apply quiet_post_refl| |];
    [|auto].
  intros [] s' [[(enq' & Ht') Hev'] (h3 & h' & Hh3 & Hh' & Hp' & Hcl')]. simpl in *.
  rewrite lookup_insert_eq in Hh3. injection Hh3 as <-.
  destruct (Hev' a (set_flags (Z.lor (flags h2) (UV_CLOSING B)) h2))
    as (h'' & Hh'' & Hcb'' & Hty'').
  { apply lookup_insert_eq. }
  rewrite Hh' in Hh''. injection Hh'' as <-.
  exists h', (enq ++ enq').
  split; [exact Hh'|]. split; [simpl in *; congruence|].
  split; [simpl in *; congruence|]. split; [|split; [exact Hp'|]].
  - apply Hcl'. flags.
  - rewrite Ht', Ht2, map_app. rewrite <- !app_assoc. reflexivity.
Qed.

Lemma uv_close_unknown s a h cb :
  heap s !! a = Some h -> shutdown_routine (type h) = None ->
  uv_close B E a cb s = Abort (set_heap (<[a := set_close_cb cb h]> (heap s)) s).
Proof.
  intros Hh Hr. unfold uv_close, update, bind, load, store, modify. rewrite Hh.
  simpl. rewrite lookup_insert_eq. simpl.
  destruct (type h); try discriminate. reflexivity.
Qed.

Lemma uv_close_returns s a h cb r s2 :
  heap s !! a = Some h -> shutdown_routine (type h) = Some r ->
  close_routine B E r a (set_heap (<[a := set_close_cb cb h]> (heap s)) s) = Ok tt s2 ->
  exists s', uv_close B E a cb s = Ok tt s'.
Proof.
  intros Hh Hr Hcr.
  set (s1 := set_heap (<[a := set_close_cb cb h]> (heap s)) s) in *.
  assert (Hin : exists h2, heap s2 !! a = Some h2).
  { pose proof (wp_ok _ _ _ _ _ _
                  (wp_close_routine s1 s1 r a
                     ltac:(destruct (type h); simpl in Hr; try discriminate;
                           injection Hr as <-; reflexivity)
                     (api_post_refl s1)) Hcr)
      as (evs & _ & _ & Hev & _).
    destruct (Hev a (set_close_cb cb h)) as (h2 & Hh2 & _).
    { subst s1. simpl. apply lookup_insert_eq. }
    eauto. }
  destruct Hin as (h2 & Hh2).
  unfold uv_close. unfold bind at 1. unfold update at 1, bind at 1, load at 1.
  rewrite Hh. unfold store, modify. fold s1.
  unfold bind at 1, load at 1. subst s1. simpl heap. rewrite lookup_insert_eq.
  simpl type. rewrite (close_switch (type h) r a Hr).
  unfold bind at 1. rewrite Hcr.
  unfold bind at 1, update, bind at 1, load at 1. rewrite Hh2.
  unfold store, modify. unfold uv__make_pending, bind at 1, load at 1.
  simpl heap. rewrite lookup_insert_eq.
  match goal with |- context [if ?b then _ else _] => destruct b end;
    eexists; reflexivity.
Qed.

(** C7.  [uv_close] on a handle of a known type, outside a drain: it
    neither aborts nor runs out of fuel, and it returns whenever the
    type-specific close routine does.  When it returns, the handle holds the
    supplied callback, has [CLOSING] and [PENDING] set, and is in the loop's
    pending list; the only call that left the core is the close routine
    selected by the type tag; and every later drain of that list that returns
    has passed the handle to the finaliser.  On a handle of no known type
    [uv_close] aborts, having stored the callback. *)
Theorem close_enqueues (s : reactor) (a : addr) (h : uv_handle_t)
    (cb : option nat) (xs : list addr) :
  heap s !! a = Some h -> queues B s None [] xs ->
  match shutdown_routine (type h) with
  | None =>
      uv_close B E a cb s
      = Abort (set_heap (<[a := set_close_cb cb h]> (heap s)) s)
  | Some r =>
      (forall s1, uv_close B E a cb s <> Abort s1) /\
      uv_close B E a cb s <> OutOfFuel /\
      (forall s2,
         close_routine B E r a (set_heap (<[a := set_close_cb cb h]> (heap s)) s)
         = Ok tt s2 ->
         exists s', uv_close B E a cb s = Ok tt s') /\
      (forall s', uv_close B E a cb s = Ok tt s' ->
         exists h' enq ys,
           heap s' !! a = Some h' /\ type h' = type h /\ close_cb h' = cb /\
           closing B h' = true /\ pending B h' = true /\
           trace s' = trace s ++ EvCall r a :: map EvEnqueue enq /\
           queues B s' None [] ys /\ a ∈ ys /\
           (forall fuel s'',
              (length ys <= fuel)%nat ->
              uv__run_pending B E fuel s' = Ok tt s'' ->
              exists evs, trace s'' = trace s' ++ evs /\
                          Finalised a ∈ dispatches evs))
  end.
Proof.
  intros Hh Hq. destruct (shutdown_routine (type h)) as [r|] eqn:Hr;
    [|apply uv_close_unknown; assumption].
  pose proof (wp_uv_close_detail s a h cb r Hh Hr) as Hwp.
  split; [|split; [|split]].
  - intros s1 Habort. exact (wp_aborted _ _ _ _ _ Hwp Habort).
  - intros Hout. unfold wp in Hwp. rewrite Hout in Hwp. exact Hwp.
  - intros s2. apply uv_close_returns; assumption.
  - intros s' Hrun.
    destruct (wp_ok _ _ _ _ _ _ Hwp Hrun)
      as (h' & enq & Hh' & Hty & Hcb & Hcl & Hp & Ht).
    pose proof (wp_ok _ _ _ _ _ _
                  (wp_uv_close s s a cb (api_post_refl s)) Hrun)
      as (evs & _ & _ & _ & _ & Hqs).
    pose proof (Hqs None [] xs Hq) as Hq'.
    exists h', enq, (rev (enqueued evs) ++ xs).
    repeat (split; [assumption|]).
    assert (Hin : a ∈ rev (enqueued evs) ++ xs).
    { destruct Hq' as (_ & _ & _ & Hall). exact (Hall a h' Hh' Hp). }
    split; [exact Hin|].
    intros fuel s'' Hfuel Hdrain.
    pose proof (wp_ok _ _ _ _ _ _ (wp_run_pending fuel s' _ Hq' Hfuel) Hdrain)
      as Hpost.
    exact (drain_post_finalises _ _ _ _ _ _ Hpost Hin Hh' Hcl).
Qed.

(** *** Finalisation and the life of a handle *)

Lemma closed_count_app a evs1 evs2 :
  closed_count a (evs1 ++ evs2) = (closed_count a evs1 + closed_count a evs2)%nat.
Proof. unfold closed_count. rewrite omap_app, length_app. reflexivity. Qed.

Lemma callback_count_app a evs1 evs2 :
  callback_count a (evs1 ++ evs2)
  = (callback_count a evs1 + callback_count a evs2)%nat.
Proof. unfold callback_count. rewrite omap_app, length_app. reflexivity. Qed.

Lemma benign_counts a evs :
  Forall benign evs -> closed_count a evs = 0%nat /\ callback_count a evs = 0%nat.
Proof.
  induction 1 as [|e evs He _ [IH1 IH2]]; [split; reflexivity|].
  change (e :: evs) with ([e] ++ evs).
  rewrite closed_count_app, callback_count_app, IH1, IH2.
  destruct e; simpl in He; try contradiction; split; reflexivity.
Qed.

Lemma api_post_counts s s' a :
  api_post s s' ->
  closed_count a (trace s') = closed_count a (trace s) /\
  callback_count a (trace s') = callback_count a (trace s) /\
  default false (closed B <$> heap s' !! a) = default false (closed B <$> heap s !! a).
Proof.
  intros (evs & Ht & Hb & Hev & Hnone & _).
  destruct (benign_counts a evs Hb) as [H1 H2].
  rewrite Ht, closed_count_app, callback_count_app, H1, H2.
  split; [lia|]. split; [lia|].
  destruct (heap s !! a) as [h|] eqn:Hh.
  - destruct (Hev a h Hh) as (h' & -> & _ & _ & Hcd & _). simpl. exact Hcd.
  - rewrite (Hnone a Hh). reflexivity.
Qed.

Lemma accounted_api s s' : accounted B s -> api_post s s' -> accounted B s'.
Proof.
  intros Hacc Hapi a. destruct (api_post_counts s s' a Hapi) as (-> & -> & ->).
  apply Hacc.
Qed.

Lemma closed_uncalled_api a s s' :
  closed_uncalled a s -> api_post s s' -> closed_uncalled a s'.
Proof.
  intros (Hacc & H1 & H2) Hapi.
  destruct (api_post_counts s s' a Hapi) as (Hc1 & Hc2 & _).
  split; [eapply accounted_api; eauto|]. split; congruence.
Qed.

Lemma plain_counts a e s :
  plain e ->
  closed_count a (trace (add_event e s)) = closed_count a (trace s) /\
  callback_count a (trace (add_event e s)) = callback_count a (trace s).
Proof.
  intros He. simpl. rewrite closed_count_app, callback_count_app.
  assert (Hz : closed_count a [e] = 0%nat /\ callback_count a [e] = 0%nat)
    by (destruct e; simpl in He; try contradiction; split; reflexivity).
  destruct Hz as [-> ->]. split; lia.
Qed.

Lemma accounted_plain e s : plain e -> accounted B s -> accounted B (add_event e s).
Proof.
  intros He Hacc a. destruct (plain_counts a e s He) as (-> & ->). apply Hacc.
Qed.

Lemma closed_uncalled_plain a e s :
  plain e -> closed_uncalled a s -> closed_uncalled a (add_event e s).
Proof.
  intros He (Hacc & H1 & H2). destruct (plain_counts a e s He) as (Hc1 & Hc2).
  split; [apply accounted_plain; assumption|]. split; congruence.
Qed.

Lemma wp_call_out_inv (I : reactor -> Prop) e s :
  (forall s1 s2, I s1 -> api_post s1 s2 -> I s2) -> I (add_event e s) ->
  wp (call_out B E e) (fun _ => I) I s.
Proof.
  intros Hstable He. unfold call_out. apply wp_bind, wp_emit.
  apply wp_bind, wp_get.
  eapply wp_mono; [apply (wp_exec_calls (add_event e s)); apply api_post_refl| |].
  - intros [] s' Hs'. simpl in *. eauto.
  - intros s' Hs'. simpl in *. eauto.
Qed.

(** A write to a handle that leaves [CLOSED] as it was. *)
Lemma accounted_store s a h h' :
  heap s !! a = Some h -> closed B h' = closed B h -> accounted B s ->
  accounted B (set_heap (<[a := h']> (heap s)) s).
Proof.
  intros Hh Hcd Hacc x. simpl. destruct (Hacc x) as [H1 H2].
  split; [|exact H2]. rewrite H1.
  destruct (decide (a = x)) as [->|Hne].
  - rewrite lookup_insert_eq, Hh. simpl. rewrite Hcd. reflexivity.
  - rewrite lookup_insert_ne by done. reflexivity.
Qed.

(** The write of [CLOSED] on a handle that did not carry it. *)
Lemma accounted_close s a h :
  heap s !! a = Some h -> closed B h = false -> accounted B s ->
  closed_uncalled a
    (add_event (EvClosed a)
       (set_heap (<[a := set_flags (Z.lor (flags h) (UV_CLOSED B)) h]> (heap s)) s)).
Proof.
  intros Hh Hcd Hacc.
  assert (Hzero : closed_count a (trace s) = 0%nat /\ callback_count a (trace s) = 0%nat).
  { destruct (Hacc a) as [H1 H2]. rewrite Hh in H1. simpl in H1.
    rewrite Hcd in H1. lia. }
  destruct Hzero as [Hz1 Hz2].
  assert (Hone : closed_count a [EvClosed a] = 1%nat).
  { unfold closed_count. simpl. rewrite decide_True by reflexivity. reflexivity. }
  split; [|split].
  - intros x. simpl. rewrite closed_count_app, callback_count_app.
    destruct (Hacc x) as [H1 H2].
    assert (Hcb0 : callback_count x [EvClosed a] = 0%nat) by reflexivity.
    rewrite Hcb0.
    destruct (decide (a = x)) as [->|Hne].
    + rewrite lookup_insert_eq. simpl. rewrite Hone, Hz1, Hz2.
      assert (Hset : closed B (set_flags (Z.lor (flags h) (UV_CLOSED B)) h) = true)
        by (clear Hcd; flags).
      rewrite Hset. simpl. lia.
    + rewrite lookup_insert_ne by done. rewrite H1.
      assert (Hno : closed_count x [EvClosed a] = 0%nat).
      { unfold closed_count. simpl. rewrite decide_False by done. reflexivity. }
      rewrite Hno. simpl. rewrite H1 in H2. lia.
  - simpl. rewrite closed_count_app, Hone, Hz1. reflexivity.
  - simpl. rewrite callback_count_app, Hz2. reflexivity.
Qed.

(** The call of the close callback of [a], after [CLOSED] was written. *)
Lemma accounted_callback a cb s :
  closed_uncalled a s -> accounted B (add_event (EvCloseCb cb a) s).
Proof.
  intros (Hacc & H1 & H2) x. simpl. rewrite closed_count_app, callback_count_app.
  destruct (Hacc x) as [Hx1 Hx2].
  assert (Hz : closed_count x [EvCloseCb cb a] = 0%nat) by reflexivity.
  rewrite Hz, Nat.add_0_r. split; [exact Hx1|].
  destruct (decide (a = x)) as [->|Hne].
  - assert (Hc : callback_count x [EvCloseCb cb x] = 1%nat).
    { unfold callback_count. simpl. rewrite decide_True by reflexivity. reflexivity. }
    rewrite Hc. lia.
  - assert (Hc : callback_count x [EvCloseCb cb a] = 0%nat).
    { unfold callback_count. simpl. rewrite decide_False by done. reflexivity. }
    rewrite Hc. lia.
Qed.

Lemma wp_finish_close_acc s a :
  accounted B s ->
  wp (uv__finish_close B E a) (fun _ => accounted B) (accounted B) s.
Proof.
  intros Hacc. unfold uv__finish_close. apply wp_bind, wp_load. intros h Hh.
  apply wp_bind, wp_assert; [intros _|auto].
  apply wp_bind, wp_assert; [intros _|auto].
  apply wp_bind, wp_assert; [intros Hcd|auto].
  apply negb_true_iff in Hcd.
  apply wp_bind, wp_store. apply wp_bind, wp_emit.
  set (s2 := add_event (EvClosed a)
               (set_heap (<[a := set_flags (Z.lor (flags h) (UV_CLOSED B)) h]> (heap s)) s)).
  assert (H2 : closed_uncalled a s2) by (apply accounted_close; assumption).
  assert (Hout : forall e s3, plain e -> closed_uncalled a s3 ->
            wp (call_out B E e) (fun _ => closed_uncalled a) (accounted B) s3).
  { intros e s3 He Hs3.
    eapply wp_mono;
      [apply (wp_call_out_inv (closed_uncalled a));
       [apply closed_uncalled_api|apply closed_uncalled_plain; assumption]| |].
    - auto.
    - intros s' Hs'. apply Hs'. }
  assert (Htail : forall s3, closed_uncalled a s3 ->
            wp (h0 <- load a ;;
                match close_cb h0 with
                | Some cb => call_out B E (EvCloseCb cb a)
                | None => ret tt
                end ;;
                uv__handle_unref B a)
               (fun _ => accounted B) (accounted B) s3).
  { intros s3 Hs3. apply wp_bind, wp_load. intros h0 Hh0. apply wp_bind.
    assert (Hunref : forall s4, accounted B s4 ->
              wp (uv__handle_unref B a) (fun _ => accounted B) (accounted B) s4).
    { intros s4 Hs4.
      eapply wp_mono; [apply (wp_handle_unref s4); apply api_post_refl| |];
        simpl; intros; eapply accounted_api; eauto. }
    destruct (close_cb h0) as [cb|].
    - eapply wp_mono;
        [apply (wp_call_out_inv (accounted B));
         [apply accounted_api|apply accounted_callback; exact Hs3]| |].
      + intros [] s4 Hs4. simpl in *. apply Hunref. exact Hs4.
      + auto.
    - apply wp_ret. apply Hunref. apply Hs3. }
  assert (Hstream :
    wp (assert (negb (read_watcher h)) ;;
        assert (negb (write_watcher h)) ;;
        assert (bool_decide (fd h = -1)) ;;
        call_out B E (EvCall uv__stream_destroy a))
       (fun _ => closed_uncalled a) (accounted B) s2).
  { apply wp_bind, wp_assert; [intros _|intros _; apply H2].
    apply wp_bind, wp_assert; [intros _|intros _; apply H2].
    apply wp_bind, wp_assert; [intros _|intros _; apply H2].
    apply Hout; [exact I|exact H2]. }
  apply wp_bind.
  destruct (type h);
    first [ apply wp_abort; apply H2
          | apply wp_ret; apply Htail; exact H2
          | eapply wp_mono; [exact Hstream| |]; [|auto];
            intros [] s' Hs'; simpl in *; apply Htail; exact Hs'
          | eapply wp_mono; [apply Hout; [exact I|exact H2]| |]; [|auto];
            intros [] s' Hs'; simpl in *; apply Htail; exact Hs' ].
Qed.

Lemma keeps_call_out e s :
  plain e -> accounted B s -> keeps (accounted B) (call_out B E e) s.
Proof.
  intros He Hacc. apply keeps_wp. apply wp_call_out_inv.
  - apply accounted_api.
  - apply accounted_plain; assumption.
Qed.

Lemma keeps_drain fuel :
  forall q s, accounted B s -> keeps (accounted B) (drain B E fuel q) s.
Proof.
  induction fuel as [|fuel IH]; intros [a|] s Hacc; simpl;
    try (apply keeps_ret; exact Hacc); [exact I|].
  apply keeps_bind.
  { unfold keeps, load. destruct (heap s !! a); auto. }
  intros h s0 Hload. unfold load in Hload.
  destruct (heap s !! a) as [h0|] eqn:Hh; [|discriminate].
  injection Hload as <- <-.
  set (hd := set_flags (Z.land (flags h0) (Z.lnot (UV__PENDING B)))
               (set_next_pending None h0)).
  assert (Hacc1 : accounted B (set_heap (<[a := hd]> (heap s)) s)).
  { apply accounted_store with h0; auto. subst hd. flags. }
  apply keeps_bind; [exact Hacc1|].
  intros [] s1 Hstore. unfold store, modify in Hstore. injection Hstore as <-.
  apply keeps_bind; [unfold keeps, load; simpl; rewrite lookup_insert_eq; exact Hacc1|].
  intros h1 s1 Hload. unfold load in Hload. simpl in Hload.
  rewrite lookup_insert_eq in Hload. injection Hload as <- <-.
  apply keeps_bind.
  - destruct (has_flag (flags hd) (UV_CLOSING B)).
    + apply keeps_wp, wp_finish_close_acc. exact Hacc1.
    + destruct (type hd);
        first [exact Hacc1 | apply keeps_call_out; [exact I|exact Hacc1]].
  - intros [] s2 Hstep. apply IH.
    assert (Hk : keeps (accounted B)
                   (if has_flag (flags hd) (UV_CLOSING B)
                    then uv__finish_close B E a
                    else match type hd with
                         | UV_NAMED_PIPE | UV_TTY | UV_TCP =>
                             call_out B E (EvCall uv__stream_pending a)
                         | _ => abort
                         end)
                   (set_heap (<[a := hd]> (heap s)) s)).
    { destruct (has_flag (flags hd) (UV_CLOSING B)).
      - apply keeps_wp, wp_finish_close_acc. exact Hacc1.
      - destruct (type hd);
          first [exact Hacc1 | apply keeps_call_out; [exact I|exact Hacc1]]. }
    unfold keeps in Hk. rewrite Hstep in Hk. exact Hk.
Qed.

Lemma keeps_ok {A} I (m : M A) s (v : A) s' :
  keeps I m s -> m s = Ok v s' -> I s'.
Proof. unfold keeps. intros H Heq. rewrite Heq in H. exact H. Qed.

Lemma call_out_acc e s s' :
  call_out B E e s = Ok tt s' -> plain e -> accounted B s -> accounted B s'.
Proof.
  intros Heq He Hacc. exact (keeps_ok _ _ _ _ _ (keeps_call_out e s He Hacc) Heq).
Qed.

Lemma keeps_run_pending fuel s :
  accounted B s -> keeps (accounted B) (uv__run_pending B E fuel) s.
Proof.
  intros Hacc. unfold uv__run_pending. apply keeps_bind; [exact Hacc|].
  intros s0 s1 [= <- <-]. destruct (pending_handles s) as [a|].
  - apply keeps_bind; [exact Hacc|]. intros [] s1 [= <-].
    apply keeps_drain. exact Hacc.
  - exact Hacc.
Qed.

Lemma keeps_uv__run fuel s :
  accounted B s -> keeps (accounted B) (uv__run B E fuel) s.
Proof.
  intros Hacc. unfold uv__run.
  apply keeps_bind; [apply keeps_call_out; [exact I|exact Hacc]|].
  intros [] s1 H1.
  pose proof (call_out_acc _ _ _ H1 I Hacc) as Hacc1.
  apply keeps_bind; [apply keeps_run_pending; exact Hacc1|].
  intros [] s2 H2.
  pose proof (keeps_ok _ _ _ _ _ (keeps_run_pending fuel s1 Hacc1) H2) as Hacc2.
  apply keeps_bind; [exact Hacc2|]. intros s2' s2'' [= <- <-].
  assert (Hmid : keeps (accounted B)
            (if uv__has_active_handles s2 || uv__has_active_reqs s2
             then call_out B E (EvPhase uv__run_prepare) ;;
                  s3 <- get_state ;;
                  uv__poll B E (uv__should_block s3) ;;
                  call_out B E (EvPhase uv__run_check)
             else ret tt) s2).
  { destruct (uv__has_active_handles s2 || uv__has_active_reqs s2); [|exact Hacc2].
    apply keeps_bind; [apply keeps_call_out; [exact I|exact Hacc2]|].
    intros [] s3 H3.
    pose proof (call_out_acc _ _ _ H3 I Hacc2) as Hacc3.
    apply keeps_bind; [exact Hacc3|]. intros s3' s3'' [= <- <-].
    apply keeps_bind; [apply keeps_call_out; [exact I|exact Hacc3]|].
    intros [] s4 H4.
    pose proof (call_out_acc _ _ _ H4 I Hacc3) as Hacc4.
    apply keeps_call_out; [exact I|exact Hacc4]. }
  apply keeps_bind; [exact Hmid|]. intros [] s5 H5.
  pose proof (keeps_ok _ _ _ _ _ Hmid H5) as Hacc5.
  apply keeps_bind; [exact Hacc5|]. intros s5' s5'' [= <- <-]. exact Hacc5.
Qed.

Lemma keeps_uv_run cycles fuel :
  forall s, accounted B s -> keeps (accounted B) (uv_run B E cycles fuel) s.
Proof.
  induction cycles as [|cycles IH]; intros s Hacc; simpl; [exact I|].
  apply keeps_bind; [apply keeps_uv__run; exact Hacc|].
  intros more s1 H1.
  pose proof (keeps_ok _ _ _ _ _ (keeps_uv__run fuel s Hacc) H1) as Hacc1.
  destruct more; [apply IH; exact Hacc1|exact Hacc1].
Qed.

Lemma keeps_exec_top t s :
  accounted B s -> keeps (accounted B) (exec_top B E t) s.
Proof.
  intros Hacc. destruct t as [c|cycles fuel|fuel]; simpl.
  - apply keeps_wp. destruct c as [p|a cb]; simpl.
    + eapply wp_mono; [apply (wp_exec_prim s); apply api_post_refl| |];
        simpl; intros; eapply accounted_api; eauto.
    + eapply wp_mono; [apply (wp_uv_close s); apply api_post_refl| |];
        simpl; intros; eapply accounted_api; eauto.
  - apply keeps_bind; [apply keeps_uv_run; exact Hacc|].
    intros rc s1 H1.
    exact (keeps_ok _ _ _ _ _ (keeps_uv_run cycles fuel s Hacc) H1).
  - unfold uv_run_once.
    assert (Hk : keeps (accounted B) (uv__run B E fuel ;; ret 0) s).
    { apply keeps_bind; [apply keeps_uv__run; exact Hacc|].
      intros more s1 H1.
      exact (keeps_ok _ _ _ _ _ (keeps_uv__run fuel s Hacc) H1). }
    apply keeps_bind; [exact Hk|]. intros rc s1 H1.
    exact (keeps_ok _ _ _ _ _ Hk H1).
Qed.

Lemma keeps_exec_program prog :
  forall s, accounted B s -> keeps (accounted B) (exec_program B E prog) s.
Proof.
  induction prog as [|t prog IH]; intros s Hacc; simpl; [exact Hacc|].
  apply keeps_bind; [apply keeps_exec_top; exact Hacc|].
  intros [] s1 H1. apply IH.
  exact (keeps_ok _ _ _ _ _ (keeps_exec_top t s Hacc) H1).
Qed.

Lemma finish_close_requires s a h :
  heap s !! a = Some h ->
  uv__is_active B h = true \/ closing B h = false \/ closed B h = true ->
  uv__finish_close B E a s = Abort s.
Proof.
  intros Hh Hbad. unfold uv__finish_close, bind, load. rewrite Hh.
  unfold closing, closed in Hbad.
  destruct (uv__is_active B h); simpl; [reflexivity|].
  destruct (has_flag (flags h) (UV_CLOSING B)); simpl; [|reflexivity].
  destruct (has_flag (flags h) (UV_CLOSED B)); simpl; [reflexivity|].
  destruct Hbad as [?|[?|?]]; discriminate.
Qed.

Lemma call_out_summary e s s' :
  call_out B E e s = Ok tt s' ->
  exists evs, trace s' = trace s ++ e :: evs /\ Forall benign evs /\
    (forall x hx, heap s !! x = Some hx ->
       exists hx', heap s' !! x = Some hx' /\ closed B hx' = closed B hx /\
                   (closing B hx = true -> closing B hx' = true)).
Proof.
  unfold call_out. intros H.
  apply bind_ok in H as ([] & s1 & Hem & H). injection Hem as <-.
  apply bind_ok in H as (s1 & s2 & Hg & H). injection Hg as <- <-.
  pose proof (wp_ok _ _ _ _ _ _
                (wp_exec_calls (add_event e s) _ _ (api_post_refl _)) H)
    as (evs & Ht & Hb & Hev & _).
  exists evs. split; [rewrite Ht; simpl; rewrite <- app_assoc; reflexivity|].
  split; [exact Hb|].
  intros x hx Hx. destruct (Hev x hx Hx) as (hx' & ? & _ & ? & ? & _). eauto.
Qed.

Lemma unref_summary s a s' :
  uv__handle_unref B a s = Ok tt s' ->
  trace s' = trace s /\
  (forall h, heap s !! a = Some h ->
     exists h', heap s' !! a = Some h' /\ referenced B h' = false /\
                closed B h' = closed B h /\ closing B h' = closing B h).
Proof.
  unfold uv__handle_unref, bind, load. destruct (heap s !! a) as [h|] eqn:Hh;
    [|discriminate].
  destruct (has_flag (flags h) (UV__REF B)) eqn:Hr; simpl.
  - unfold store, modify.
    destruct (has_flag (flags h) (UV__ACTIVE B)); simpl; intros [= <-]; simpl;
      (split; [reflexivity|]); intros h0 [= <-]; rewrite lookup_insert_eq;
      eexists; (split; [reflexivity|]); clear Hr; repeat split; flags.
  - unfold ret. intros [= <-]. split; [reflexivity|].
    intros h0 [= <-]. exists h. auto.
Qed.

Lemma counts_cons a e evs :
  closed_count a (e :: evs) = (closed_count a [e] + closed_count a evs)%nat /\
  callback_count a (e :: evs) = (callback_count a [e] + callback_count a evs)%nat.
Proof.
  change (e :: evs) with ([e] ++ evs).
  rewrite closed_count_app, callback_count_app. auto.
Qed.

Lemma finish_close_returns s a h s' :
  heap s !! a = Some h -> uv__finish_close B E a s = Ok tt s' ->
  uv__is_active B h = false /\ closing B h = true /\ closed B h = false /\
  exists rel cbs h1 hf,
    trace s' = trace s ++ EvClosed a :: rel ++ cbs /\
    release_events (type h) a rel /\
    (is_stream (type h) = true ->
       read_watcher h = false /\ write_watcher h = false /\ fd h = -1) /\
    callback_events (close_cb h1) a cbs /\
    (rel = [] -> close_cb h1 = close_cb h) /\
    heap s' !! a = Some hf /\
    closed B hf = true /\ closing B hf = true /\ referenced B hf = false /\
    closed_count a (EvClosed a :: rel ++ cbs) = 1%nat /\
    callback_count a (EvClosed a :: rel ++ cbs)
    = match close_cb h1 with Some _ => 1%nat | None => 0%nat end.
Proof.
  intros Hh H. unfold uv__finish_close in H.
  apply bind_ok in H as (h0 & s0 & Hl & H). unfold load in Hl. rewrite Hh in Hl.
  injection Hl as <- <-.
  apply bind_ok in H as ([] & s1 & Ha & H). apply assert_ok in Ha as [Hact ->].
  apply bind_ok in H as ([] & s1 & Ha & H). apply assert_ok in Ha as [Hcl ->].
  apply bind_ok in H as ([] & s1 & Ha & H). apply assert_ok in Ha as [Hcd ->].
  apply negb_true_iff in Hact, Hcd.
  apply bind_ok in H as ([] & s1 & Hst & H). injection Hst as <-.
  apply bind_ok in H as ([] & s2 & Hem & H). injection Hem as <-.
  set (h2 := set_flags (Z.lor (flags h) (UV_CLOSED B)) h) in *.
  set (s2 := add_event (EvClosed a) (set_heap (<[a := h2]> (heap s)) s)) in *.
  apply bind_ok in H as ([] & s3 & Hrel & H).
  apply bind_ok in H as (h1 & s3' & Hl1 & H). unfold load in Hl1.
  destruct (heap s3 !! a) as [h1'|] eqn:Hh3; [|discriminate].
  injection Hl1 as -> <-.
  apply bind_ok in H as ([] & s4 & Hcb & Hunref).
  split; [exact Hact|]. split; [exact Hcl|]. split; [exact Hcd|].
  assert (Hh2 : heap s2 !! a = Some h2) by (subst s2; simpl; apply lookup_insert_eq).
  assert (Hc2 : closed B h2 = true /\ closing B h2 = true).
  { subst h2. clear Hact Hcd. split; flags. }
  (* the type-specific release *)
  assert (Hrelease : exists rel,
            trace s3 = trace s2 ++ rel /\ release_events (type h) a rel /\
            (rel = [] -> s3 = s2) /\
            (is_stream (type h) = true ->
               read_watcher h = false /\ write_watcher h = false /\ fd h = -1) /\
            closed_count a rel = 0%nat /\ callback_count a rel = 0%nat /\
            (forall x hx, heap s2 !! x = Some hx ->
               exists hx', heap s3 !! x = Some hx' /\ closed B hx' = closed B hx /\
                           (closing B hx = true -> closing B hx' = true))).
  { assert (Hnone : s3 = s2 -> ~ is_stream (type h) = true ->
              release_events (type h) a [] ->
              exists rel,
                trace s3 = trace s2 ++ rel /\ release_events (type h) a rel /\
                (rel = [] -> s3 = s2) /\
                (is_stream (type h) = true ->
                   read_watcher h = false /\ write_watcher h = false /\ fd h = -1) /\
                closed_count a rel = 0%nat /\ callback_count a rel = 0%nat /\
                (forall x hx, heap s2 !! x = Some hx ->
                   exists hx', heap s3 !! x = Some hx' /\
                     closed B hx' = closed B hx /\
                     (closing B hx = true -> closing B hx' = true))).
    { intros -> Hns Hre. exists []. rewrite app_nil_r.
      repeat split; auto; try contradiction. intros x hx Hx. exists hx. auto. }
    assert (Hcall : forall r,
              r = uv__stream_destroy \/ r = uv__udp_finish_close ->
              call_out B E (EvCall r a) s2 = Ok tt s3 ->
              exists rel,
                trace s3 = trace s2 ++ rel /\
                (exists evs, rel = EvCall r a :: evs /\ Forall benign evs) /\
                (rel = [] -> s3 = s2) /\
                closed_count a rel = 0%nat /\ callback_count a rel = 0%nat /\
                (forall x hx, heap s2 !! x = Some hx ->
                   exists hx', heap s3 !! x = Some hx' /\
                     closed B hx' = closed B hx /\
                     (closing B hx = true -> closing B hx' = true))).
    { intros r Hr Hc. destruct (call_out_summary _ _ _ Hc) as (evs & Ht & Hb & Hev).
      exists (EvCall r a :: evs). split; [exact Ht|]. split; [eauto|].
      split; [discriminate|].
      destruct (counts_cons a (EvCall r a) evs) as [-> ->].
      destruct (benign_counts a evs Hb) as [-> ->].
      repeat split; auto. }
    destruct (type h) eqn:Hty; simpl in Hrel;
      try (injection Hrel as <-; apply Hnone; [reflexivity|discriminate|reflexivity]);
      try discriminate.
    - apply bind_ok in Hrel as ([] & s5 & Ha & Hrel). apply assert_ok in Ha as [Hr1 ->].
      apply bind_ok in Hrel as ([] & s5 & Ha & Hrel). apply assert_ok in Ha as [Hr2 ->].
      apply bind_ok in Hrel as ([] & s5 & Ha & Hrel). apply assert_ok in Ha as [Hr3 ->].
      apply negb_true_iff in Hr1, Hr2. apply bool_decide_eq_true in Hr3.
      destruct (Hcall uv__stream_destroy (or_introl eq_refl) Hrel)
        as (rel & ? & ? & ? & ? & ? & ?).
      exists rel. repeat split; auto.
    - apply bind_ok in Hrel as ([] & s5 & Ha & Hrel). apply assert_ok in Ha as [Hr1 ->].
      apply bind_ok in Hrel as ([] & s5 & Ha & Hrel). apply assert_ok in Ha as [Hr2 ->].
      apply bind_ok in Hrel as ([] & s5 & Ha & Hrel). apply assert_ok in Ha as [Hr3 ->].
      apply negb_true_iff in Hr1, Hr2. apply bool_decide_eq_true in Hr3.
      destruct (Hcall uv__stream_destroy (or_introl eq_refl) Hrel)
        as (rel & ? & ? & ? & ? & ? & ?).
      exists rel. repeat split; auto.
    - apply bind_ok in Hrel as ([] & s5 & Ha & Hrel). apply assert_ok in Ha as [Hr1 ->].
      apply bind_ok in Hrel as ([] & s5 & Ha & Hrel). apply assert_ok in Ha as [Hr2 ->].
      apply bind_ok in Hrel as ([] & s5 & Ha & Hrel). apply assert_ok in Ha as [Hr3 ->].
      apply negb_true_iff in Hr1, Hr2. apply bool_decide_eq_true in Hr3.
      destruct (Hcall uv__stream_destroy (or_introl eq_refl) Hrel)
        as (rel & ? & ? & ? & ? & ? & ?).
      exists rel. repeat split; auto.
    - destruct (Hcall uv__udp_finish_close (or_intror eq_refl) Hrel)
        as (rel & ? & ? & ? & ? & ? & ?).
      exists rel. repeat split; auto; discriminate. }
  destruct Hrelease as (rel & Ht3 & Hre & Hrel0 & Hasserts & Hrc1 & Hrc2 & Hev3).
  destruct (Hev3 a h2 Hh2) as (h3 & Hh3' & Hcd3 & Hcl3).
  rewrite Hh3 in Hh3'. injection Hh3' as <-.
  (* the close callback *)
  assert (Hcallback : exists cbs,
            trace s4 = trace s3 ++ cbs /\ callback_events (close_cb h1) a cbs /\
            closed_count a cbs = 0%nat /\
            callback_count a cbs = match close_cb h1 with Some _ => 1%nat | None => 0%nat end /\
            exists h4, heap s4 !! a = Some h4 /\ closed B h4 = closed B h1 /\
                       (closing B h1 = true -> closing B h4 = true)).
  { destruct (close_cb h1) as [cb|] eqn:Hcbf.
    - destruct (call_out_summary _ _ _ Hcb) as (evs & Ht & Hb & Hev).
      exists (EvCloseCb cb a :: evs). split; [exact Ht|]. split; [simpl; eauto|].
      destruct (counts_cons a (EvCloseCb cb a) evs) as [-> ->].
      destruct (benign_counts a evs Hb) as [-> ->].
      split; [reflexivity|]. split.
      + unfold callback_count. simpl. rewrite decide_True by reflexivity. reflexivity.
      + destruct (Hev a h1 Hh3) as (h4 & ? & ? & ?). eauto.
    - injection Hcb as <-. exists []. rewrite app_nil_r.
      repeat split; auto. exists h1. auto. }
  destruct Hcallback as (cbs & Ht4 & Hce & Hcc1 & Hcc2 & h4 & Hh4 & Hcd4 & Hcl4).
  destruct (unref_summary _ _ _ Hunref) as (Ht' & Hfinal).
  destruct (Hfinal h4 Hh4) as (hf & Hhf & Href & Hcdf & Hclf).
  exists rel, cbs, h1, hf.
  split; [rewrite Ht', Ht4, Ht3; subst s2; simpl;
          rewrite <- !app_assoc; reflexivity|].
  split; [exact Hre|]. split; [exact Hasserts|]. split; [exact Hce|].
  split.
  { intros Hnil. specialize (Hrel0 Hnil). subst s3.
    rewrite Hh2 in Hh3. injection Hh3 as <-. reflexivity. }
  split; [exact Hhf|].
  destruct Hc2 as [Hc2a Hc2b].
  split; [congruence|]. split; [rewrite Hclf; apply Hcl4, Hcl3; exact Hc2b|].
  split; [exact Href|].
  destruct (counts_cons a (EvClosed a) (rel ++ cbs)) as [-> ->].
  rewrite closed_count_app, callback_count_app, Hrc1, Hrc2, Hcc1, Hcc2.
  split.
  - unfold closed_count. simpl. rewrite decide_True by reflexivity. reflexivity.
  - assert (Hz : callback_count a [EvClosed a] = 0%nat) by reflexivity.
    rewrite Hz. reflexivity.
Qed.

Lemma fresh_accounted s :
  trace s = [] ->
  (forall x hx, heap s !! x = Some hx -> closed B hx = false) ->
  accounted B s.
Proof.
  intros Ht Hfresh x. rewrite Ht. split; [|reflexivity].
  destruct (heap s !! x) as [hx|] eqn:Hx; simpl; [|reflexivity].
  rewrite (Hfresh x hx Hx). reflexivity.
Qed.

(** C4.  [uv__finish_close] aborts at once, changing nothing, unless the
    handle is inactive, has [CLOSING] and lacks [CLOSED].  When it returns,
    its events are, in order: the write of [CLOSED]; the release of the
    handle's kind (none for the kinds that need none; for a stream, whose
    watchers must be inactive and whose descriptor must be -1, the call of
    the stream finaliser; for a UDP handle the call of its finaliser); then
    the call of the close callback if the pointer is not null, and nothing
    otherwise.  So [CLOSED] is written once and the callback is called once
    or, when null, not at all; the handle ends with [CLOSING] and [CLOSED]
    set and unreferenced.  And however a program drives a loop that starts
    with an empty history and no closed handle, and whether it returns or
    aborts, [CLOSED] was written at most once on every handle, exactly on the
    handles that carry it, and no close callback ran more often than that. *)
Theorem finish_close_once (s : reactor) (a : addr) (h : uv_handle_t) :
  heap s !! a = Some h ->
  (uv__is_active B h = true \/ closing B h = false \/ closed B h = true ->
   uv__finish_close B E a s = Abort s) /\
  (forall s', uv__finish_close B E a s = Ok tt s' ->
     uv__is_active B h = false /\ closing B h = true /\ closed B h = false /\
     exists rel cbs h1 hf,
       trace s' = trace s ++ EvClosed a :: rel ++ cbs /\
       release_events (type h) a rel /\
       (is_stream (type h) = true ->
          read_watcher h = false /\ write_watcher h = false /\ fd h = -1) /\
       callback_events (close_cb h1) a cbs /\
       (rel = [] -> close_cb h1 = close_cb h) /\
       heap s' !! a = Some hf /\
       closed B hf = true /\ closing B hf = true /\ referenced B hf = false /\
       closed_count a (EvClosed a :: rel ++ cbs) = 1%nat /\
       callback_count a (EvClosed a :: rel ++ cbs)
       = match close_cb h1 with Some _ => 1%nat | None => 0%nat end) /\
  (forall s0 prog s',
     trace s0 = [] ->
     (forall x hx, heap s0 !! x = Some hx -> closed B hx = false) ->
     exec_program B E prog s0 = Ok tt s' \/ exec_program B E prog s0 = Abort s' ->
     forall x,
       (closed_count x (trace s') <= 1)%nat /\
       (callback_count x (trace s') <= closed_count x (trace s'))%nat /\
       (closed_count x (trace s') = 1%nat <->
        exists hx, heap s' !! x = Some hx /\ closed B hx = true)).
Proof.
  intros Hh. split; [apply finish_close_requires; exact Hh|].
  split; [intros s'; apply finish_close_returns; exact Hh|].
  intros s0 prog s' Ht Hfresh Hrun x.
  pose proof (keeps_exec_program prog s0 (fresh_accounted s0 Ht Hfresh)) as Hk.
  assert (Hacc : accounted B s').
  { unfold keeps in Hk. destruct Hrun as [Hrun|Hrun]; rewrite Hrun in Hk; exact Hk. }
  destruct (Hacc x) as [H1 H2]. rewrite H1 in *.
  destruct (heap s' !! x) as [hx|] eqn:Hx; simpl in *.
  - destruct (closed B hx) eqn:Hcd.
    + split; [lia|]. split; [exact H2|]. split; eauto.
    + split; [lia|]. split; [exact H2|]. split; [discriminate|].
      intros (hx' & [= <-] & Hc). congruence.
  - split; [lia|]. split; [exact H2|]. split; [discriminate|].
    intros (hx' & [=] & _).
Qed.

End Facts.

(** *** The sample loops at work *)

Lemma sample_bits_distinct : distinct_bits sample_bits.
Proof.
  unfold distinct_bits, sample_bits. simpl.
  repeat (apply NoDup_cons_2;
          [rewrite ?not_elem_of_cons, elem_of_nil; intuition lia|]).
  apply NoDup_nil_2.
Qed.

Lemma two_handles (h10 h20 : uv_handle_t) (a : addr) (h : uv_handle_t) :
  (<[10 := h10]> (<[20 := h20]> (∅ : gmap addr uv_handle_t))) !! a = Some h ->
  (a = 10 /\ h = h10) \/ (a = 20 /\ h = h20).
Proof.
  destruct (decide (a = 10)) as [->|H10].
  - rewrite lookup_insert_eq. intros [= <-]. auto.
  - rewrite lookup_insert_ne by done.
    destruct (decide (a = 20)) as [->|H20].
    + rewrite lookup_insert_eq. intros [= <-]. auto.
    + rewrite lookup_insert_ne by done. rewrite lookup_empty. discriminate.
Qed.

Lemma loop_with_event_queues : queues sample_bits loop_with_event None [] [10].
Proof.
  split; [reflexivity|]. split.
  { simpl. split; [reflexivity|]. exists stream_pending_h.
    split; [reflexivity|]. split; reflexivity. }
  split; [apply NoDup_singleton|].
  intros a h Hh Hp. apply two_handles in Hh as [[-> ->]|[-> ->]].
  - simpl. left.
  - discriminate.
Qed.

Lemma loop_with_pending_timer_queues :
  queues sample_bits loop_with_pending_timer None [] [10].
Proof.
  split; [reflexivity|]. split.
  { simpl. split; [reflexivity|]. exists timer_pending_h.
    split; [reflexivity|]. split; reflexivity. }
  split; [apply NoDup_singleton|].
  intros a h Hh Hp. apply two_handles in Hh as [[-> ->]|[-> ->]].
  - simpl. left.
  - discriminate.
Qed.

Lemma loop_at_rest_queues : queues sample_bits loop_at_rest None [] [].
Proof.
  split; [reflexivity|]. split; [reflexivity|]. split; [apply NoDup_nil_2|].
  intros a h Hh Hp. apply two_handles in Hh as [[-> ->]|[-> ->]]; discriminate.
Qed.

(** A timer that is pending without being closed reaches no dispatcher:
    the pending list is well formed and the fuel suffices, yet the drain
    does not return having dispatched the handle; it aborts, and no call has
    left the core. *)
Lemma run_pending_aborts_on_pending_timer :
  queues sample_bits loop_with_pending_timer None [] [10] /\
  (length [10] <= 1)%nat /\
  ~ dispatches_all sample_bits quiet 1 loop_with_pending_timer [10] /\
  exists s1,
    uv__run_pending sample_bits quiet 1 loop_with_pending_timer = Abort s1 /\
    trace s1 = [].
Proof.
  assert (Hrun : uv__run_pending sample_bits quiet 1 loop_with_pending_timer
                 = Abort (set_heap (<[10 := set_flags (Z.land (flags timer_pending_h)
                                                  (Z.lnot (UV__PENDING sample_bits)))
                                           (set_next_pending None timer_pending_h)]>
                                      (heap loop_with_pending_timer))
                            (set_pending_handles None loop_with_pending_timer))).
  { apply (run_pending_guard sample_bits quiet sample_bits_distinct 0
             loop_with_pending_timer 10 timer_pending_h); reflexivity. }
  split; [exact loop_with_pending_timer_queues|].
  split; [simpl; lia|]. split.
  - intros (s' & evs & Hok & _). rewrite Hrun in Hok. discriminate.
  - eexists. split; [exact Hrun|reflexivity].
Qed.

Lemma quiet_calls_nothing : calls_nothing quiet.
Proof. intros e s. reflexivity. Qed.

Lemma loop_with_event_drainable :
  Forall (drainable sample_bits loop_with_event) [10].
Proof.
  apply Forall_cons. split; [|apply Forall_nil_2].
  exists stream_pending_h. split; reflexivity.
Qed.

Lemma loop_after_event_runs :
  uv__run_pending sample_bits busy 1 loop_with_event = Ok tt loop_after_event.
Proof. vm_compute. reflexivity. Qed.

Lemma run_pending_drains_witness :
  (queues sample_bits loop_with_event None [] [10] /\ (length [10] <= 1)%nat /\
   calls_nothing quiet /\ Forall (drainable sample_bits loop_with_event) [10] /\
   exists s' evs,
     uv__run_pending sample_bits quiet 1 loop_with_event = Ok tt s' /\
     trace s' = trace loop_with_event ++ evs /\
     dispatches evs = [Dispatched 10]) /\
  (exists evs,
     uv__run_pending sample_bits busy 1 loop_with_event = Ok tt loop_after_event /\
     trace loop_after_event = trace loop_with_event ++ evs /\
     Dispatched 10 ∈ dispatches evs /\
     map target (dispatches evs) = [10] /\
     queues sample_bits loop_after_event None [] (rev (enqueued evs))) /\
  (queues sample_bits loop_with_pending_timer None [] [10] /\
   heap loop_with_pending_timer !! 10 = Some timer_pending_h /\
   closing sample_bits timer_pending_h = false /\
   is_stream (type timer_pending_h) = false /\
   exists s1, uv__run_pending sample_bits busy 1 loop_with_pending_timer = Abort s1).
Proof.
  split; [|split].
  - split; [exact loop_with_event_queues|]. split; [simpl; lia|].
    split; [exact quiet_calls_nothing|].
    split; [exact loop_with_event_drainable|].
    destruct (run_pending_drains sample_bits quiet sample_bits_distinct 1
                loop_with_event [10] loop_with_event_queues)
      as (_ & _ & _ & Hret & _); [simpl; lia|].
    destruct (Hret quiet_calls_nothing loop_with_event_drainable)
      as (s' & evs & Hrun & Ht & Hd).
    exists s', evs. auto.
  - destruct (run_pending_drains sample_bits busy sample_bits_distinct 1
                loop_with_event [10] loop_with_event_queues)
      as (_ & _ & _ & _ & Hok & _); [simpl; lia|].
    destruct (Hok loop_after_event loop_after_event_runs)
      as (evs & Ht & Hmap & _ & _ & Hopen & _ & Hq & _).
    exists evs. split; [exact loop_after_event_runs|]. split; [exact Ht|].
    split; [|split; [exact Hmap|exact Hq]].
    apply (Hopen 10 (mk_handle UV_TCP 13 None (Some 1%nat) false false (-1))).
    + left.
    + reflexivity.
    + reflexivity.
  - split; [exact loop_with_pending_timer_queues|].
    split; [reflexivity|]. split; [reflexivity|]. split; [reflexivity|].
    destruct (run_pending_drains sample_bits busy sample_bits_distinct 1
                loop_with_pending_timer [10] loop_with_pending_timer_queues)
      as (_ & _ & _ & _ & _ & Hguard); [simpl; lia|].
    destruct (Hguard 10 timer_pending_h [] eq_refl eq_refl eq_refl eq_refl)
      as (s1 & Hs1 & _).
    exists s1. exact Hs1.
Defined.

Lemma finish_close_once_witness :
  (heap loop_at_rest !! 20 = Some timer_h /\
   (uv__is_active sample_bits timer_h = true \/
    closing sample_bits timer_h = false \/ closed sample_bits timer_h = true) /\
   uv__finish_close sample_bits busy 20 loop_at_rest = Abort loop_at_rest) /\
  (heap loop_finalising !! 20 = Some timer_closing_h /\
   exists s', uv__finish_close sample_bits busy 20 loop_finalising = Ok tt s' /\
              closing sample_bits timer_closing_h = true) /\
  (trace loop_at_rest = [] /\
   (forall x hx, heap loop_at_rest !! x = Some hx -> closed sample_bits hx = false) /\
   exists s',
     exec_program sample_bits busy
       [TopCall (AClose 20 (Some 2%nat)); TopRunOnce 4] loop_at_rest = Ok tt s' /\
     (closed_count 20%Z (trace s') <= 1)%nat).
Proof.
  assert (Hfresh : forall x hx, heap loop_at_rest !! x = Some hx ->
                                closed sample_bits hx = false).
  { intros x hx Hx. apply two_handles in Hx as [[-> ->]|[-> ->]]; reflexivity. }
  split; [|split].
  - split; [reflexivity|]. split; [left; reflexivity|].
    apply (finish_close_once sample_bits busy sample_bits_distinct
             loop_at_rest 20 timer_h eq_refl).
    left. reflexivity.
  - split; [reflexivity|].
    assert (Hex : exists s', uv__finish_close sample_bits busy 20 loop_finalising
                             = Ok tt s').
    { vm_compute. eexists. reflexivity. }
    destruct Hex as (s' & Hs'). exists s'. split; [exact Hs'|].
    destruct (finish_close_once sample_bits busy sample_bits_distinct
                loop_finalising 20 timer_closing_h eq_refl) as (_ & Hret & _).
    destruct (Hret s' Hs') as (_ & Hcl & _). exact Hcl.
  - split; [reflexivity|]. split; [exact Hfresh|].
    assert (Hex : exists s',
              exec_program sample_bits busy
                [TopCall (AClose 20 (Some 2%nat)); TopRunOnce 4] loop_at_rest
              = Ok tt s').
    { vm_compute. eexists. reflexivity. }
    destruct Hex as (s' & Hs'). exists s'. split; [exact Hs'|].
    destruct (finish_close_once sample_bits busy sample_bits_distinct
                loop_at_rest 20 timer_h eq_refl) as (_ & _ & Hlife).
    destruct (Hlife loop_at_rest _ s' eq_refl Hfresh (or_introl Hs') 20)
      as (Hle & _).
    exact Hle.
Defined.


Lemma close_enqueues_witness :
  heap loop_at_rest !! 20 = Some timer_h /\
  queues sample_bits loop_at_rest None [] [] /\
  uv_close sample_bits busy 20 (Some 2%nat) loop_at_rest <> OutOfFuel /\
  exists s', uv_close sample_bits busy 20 (Some 2%nat) loop_at_rest = Ok tt s'.
Proof.
  split; [reflexivity|]. split; [exact loop_at_rest_queues|].
  pose proof (close_enqueues sample_bits busy sample_bits_distinct
                loop_at_rest 20 timer_h (Some 2%nat) [] eq_refl loop_at_rest_queues)
    as H.
  simpl in H. destruct H as (_ & Hfuel & Hret & _).
  split; [exact Hfuel|].
  assert (Hex : exists s2,
            close_routine sample_bits busy uv__timer_close 20
              (set_heap (<[20 := set_close_cb (Some 2%nat) timer_h]> (heap loop_at_rest))
                 loop_at_rest) = Ok tt s2).
  { vm_compute. eexists. reflexivity. }
  destruct Hex as (s2 & Hs2). exact (Hret s2 Hs2).
Defined.

(** A loop without handles: [uv_run] returns after one cycle. *)
Example run_on_idle_loop :
  uv_run sample_bits quiet 1 0 idle_loop
  = Ok 0 (add_event (EvPhase uv__run_idle) idle_loop).
Proof. reflexivity. Qed.

(** Closing twice without waiting: the second [uv_close] finds [PENDING]
    set and links nothing, and one finalisation follows. *)
Example close_twice :
  match exec_program sample_bits busy
          [TopCall (AClose 20 (Some 2%nat)); TopCall (AClose 20 (Some 3%nat));
           TopRunOnce 4] loop_at_rest with
  | Ok _ s' =>
      trace s' = [EvCall uv__timer_close 20; EvEnqueue 20;
                  EvCall uv__timer_close 20;
                  EvPhase uv__run_idle; EvClosed 20; EvCloseCb 3 20]
  | _ => False
  end.
Proof. vm_compute. auto. Qed.

(** The sample loop, two cycles of the drain: the stream's event is
    dispatched and its handler closes the stream, which is enqueued anew; the
    next drain finalises the stream, whose callback closes the timer. *)
Example two_drains :
  match uv__run_pending sample_bits busy 1 loop_with_event with
  | Ok _ s1 =>
      trace s1 = [EvCall uv__stream_pending 10; EvCall uv__stream_close 10;
                  EvEnqueue 10] /\
      pending_handles s1 = Some 10 /\
      match uv__run_pending sample_bits busy 1 s1 with
      | Ok _ s2 =>
          trace s2 = trace s1 ++
                     [EvClosed 10; EvCall uv__stream_destroy 10; EvCloseCb 1 10;
                      EvCall uv__timer_close 20; EvEnqueue 20] /\
          pending_handles s2 = Some 20 /\ active_handles s2 = []
      | _ => False
      end
  | _ => False
  end.
Proof. vm_compute. auto. Qed.

End Reactor.


(** ** Bounded string copy ([uv__strlcpy] of [src/unix/core.c]) *)

Module Strlcpy.

(** [size_t] of an LP64 platform. *)
Definition size_bits : Z := 64.
Definition wrap (x : Z) : Z := x mod 2 ^ size_bits.

Definition NUL : Byte.byte := Byte.x00.

Definition is_nul (c : Byte.byte) : bool := Byte.eqb c NUL.

(** What a call leaves: the destination buffer and the value returned, or
    an access outside one of the two buffers.  [OutOfFuel] is a loop that did
    not finish within the steps it was given. *)
Inductive result :=
  | Done (dst : list Byte.byte) (ret : Z)
  | Fault
  | OutOfFuel.

(** The last two statements: [*dst = '\0'; return src - org;], with both
    pointers [i] bytes into their buffers. *)
Definition finish (i : nat) (dst : list Byte.byte) : result :=
  if bool_decide (i < length dst)%nat then Done (<[i := NUL]> dst) (Z.of_nat i)
  else Fault.

(** The [while] loop, entered with [size] not yet decremented.  The source
    and destination pointers advance together; [*src] is not read when
    [--size] is zero. *)
Fixpoint copy_loop (fuel : nat) (size : Z) (i : nat)
    (dst src : list Byte.byte) : result :=
  match fuel with
  | O => OutOfFuel
  | S fuel =>
      let size := wrap (size - 1) in
      if size =? 0 then finish i dst
      else
        match src !! i with
        | None => Fault
        | Some c =>
            if is_nul c then finish i dst
            else if bool_decide (i < length dst)%nat
                 then copy_loop fuel size (S i) (<[i := c]> dst) src
                 else Fault
        end
  end.

(** [uv__strlcpy], on buffers that do not overlap.  The loop runs at most
    [size] times, which is the fuel it gets. *)
Definition uv__strlcpy (dst src : list Byte.byte) (size : Z) : result :=
  if size =? 0 then Done dst 0
  else copy_loop (Z.to_nat size) size 0 dst src.

(** The bytes of a buffer before its first NUL: the C string it holds. *)
Fixpoint cstring (l : list Byte.byte) : list Byte.byte :=
  match l with
  | [] => []
  | c :: l => if is_nul c then [] else c :: cstring l
  end.

(** The buffer holds a NUL. *)
Definition terminated (l : list Byte.byte) : Prop := In NUL l.

(** The number of bytes the loop copies: the length of the source string,
    cut at [size - 1]. *)
Definition copied (src : list Byte.byte) (size : Z) : nat :=
  Nat.min (length (cstring src)) (Z.to_nat size - 1).

Lemma is_nul_true c : is_nul c = true <-> c = NUL.
Proof. unfold is_nul. split; [apply Byte.byte_dec_bl | apply Byte.byte_dec_lb]. Qed.

Lemma cstring_length l : (length (cstring l) <= length l)%nat.
Proof. induction l as [|c l IH]; simpl; [lia|]. destruct (is_nul c); simpl; lia. Qed.

Lemma cstring_terminated l : terminated l -> (length (cstring l) < length l)%nat.
Proof.
  unfold terminated. induction l as [|c l IH]; simpl; [tauto|].
  intros [->|H].
  - replace (is_nul NUL) with true by reflexivity. simpl. lia.
  - destruct (is_nul c); simpl; [lia|]. apply IH in H. lia.
Qed.

Lemma cstring_take l : take (length (cstring l)) l = cstring l.
Proof.
  induction l as [|c l IH]; simpl; [reflexivity|].
  destruct (is_nul c); simpl; [reflexivity|]. now rewrite IH.
Qed.

Lemma cstring_no_nul l : ~ In NUL (cstring l).
Proof.
  induction l as [|c l IH]; simpl; [tauto|].
  destruct (is_nul c) eqn:Hc; simpl; [tauto|].
  intros [->|H]; [discriminate Hc | tauto].
Qed.

Lemma cstring_app_nul l r : ~ In NUL l -> cstring (l ++ NUL :: r) = l.
Proof.
  induction l as [|c l IH]; simpl; intros H.
  - reflexivity.
  - destruct (is_nul c) eqn:Hc.
    + apply is_nul_true in Hc. subst c. tauto.
    + f_equal. apply IH. tauto.
Qed.

Lemma wrap_small x : 0 <= x < 2 ^ size_bits -> wrap x = x.
Proof. intros H. unfold wrap. now apply Z.mod_small. Qed.

Lemma finish_spec i dst :
  (i < length dst)%nat ->
  finish i dst = Done (take i dst ++ NUL :: drop (S i) dst) (Z.of_nat i).
Proof.
  intros H. unfold finish. rewrite bool_decide_eq_true_2 by exact H.
  now rewrite insert_take_drop by exact H.
Qed.

(** The loop, from any point inside the two buffers. *)
Lemma copy_loop_spec fuel : forall size i dst src,
  0 < size < 2 ^ size_bits ->
  (Z.to_nat size <= fuel)%nat ->
  (i + Z.to_nat size <= length dst)%nat ->
  (copied (drop i src) size < length (drop i src) \/
   copied (drop i src) size = Z.to_nat size - 1)%nat ->
  copy_loop fuel size i dst src =
    Done (take i dst ++ take (copied (drop i src) size) (drop i src) ++
          NUL :: drop (S (i + copied (drop i src) size)) dst)
         (Z.of_nat (i + copied (drop i src) size)).
Proof.
  induction fuel as [|fuel IH]; intros size i dst src Hsize Hfuel Hroom Hread.
  - lia.
  - simpl. rewrite wrap_small by lia.
    destruct (size - 1 =? 0) eqn:Hone.
    + apply Z.eqb_eq in Hone.
      assert (Hk : copied (drop i src) size = 0%nat) by (unfold copied; lia).
      rewrite Hk, Nat.add_0_r. simpl. apply finish_spec. lia.
    + apply Z.eqb_neq in Hone.
      destruct (src !! i) as [c|] eqn:Hc.
      * rewrite (drop_S _ _ _ Hc) in *.
        unfold copied in *. simpl cstring in *.
        destruct (is_nul c) eqn:Hnul.
        -- simpl. rewrite Nat.add_0_r. apply finish_spec. lia.
        -- rewrite bool_decide_eq_true_2 by lia.
           simpl length in *.
           replace (Nat.min (S (length (cstring (drop (S i) src))))
                            (Z.to_nat size - 1))
             with (S (Nat.min (length (cstring (drop (S i) src)))
                              (Z.to_nat (size - 1) - 1))) in * by lia.
           rewrite IH; [| lia | lia | rewrite length_insert; lia | lia].
           f_equal; [|lia].
           rewrite (take_S_r _ _ c)
             by (apply list_lookup_insert_eq; lia).
           rewrite take_insert_ge by lia.
           rewrite drop_insert_lt by lia.
           rewrite <- app_assoc. simpl.
           repeat (f_equal; try lia).
      * apply lookup_ge_None in Hc.
        rewrite drop_ge in Hread by lia. unfold copied in Hread.
        simpl in Hread. lia.
Qed.

Lemma strlcpy_done dst src size :
  0 < size < 2 ^ size_bits ->
  (Z.to_nat size <= length dst)%nat ->
  terminated src \/ (Z.to_nat size - 1 <= length src)%nat ->
  uv__strlcpy dst src size =
    Done (take (copied src size) src ++ NUL :: drop (S (copied src size)) dst)
         (Z.of_nat (copied src size)).
Proof.
  intros Hsize Hroom Hsrc. unfold uv__strlcpy.
  destruct (size =? 0) eqn:Hz; [apply Z.eqb_eq in Hz; lia|].
  rewrite copy_loop_spec; rewrite ?drop_0; try lia.
  - reflexivity.
  - unfold copied. destruct Hsrc as [Hsrc|Hsrc].
    + apply cstring_terminated in Hsrc. lia.
    + pose proof (cstring_length src). lia.
Qed.

(** Whatever the buffers, the loop ends within [size] steps and touches only
    the bytes from [i] up to [i + size]. *)
Lemma copy_loop_frame fuel : forall size i dst src,
  0 < size < 2 ^ size_bits ->
  (Z.to_nat size <= fuel)%nat ->
  match copy_loop fuel size i dst src with
  | Done dst' ret =>
      length dst' = length dst /\ take i dst' = take i dst /\
      drop (i + Z.to_nat size) dst' = drop (i + Z.to_nat size) dst /\
      Z.of_nat i <= ret < Z.of_nat i + size
  | Fault => True
  | OutOfFuel => False
  end.
Proof.
  assert (Hfin : forall size i dst, 0 < size ->
    match finish i dst with
    | Done dst' ret =>
        length dst' = length dst /\ take i dst' = take i dst /\
        drop (i + Z.to_nat size) dst' = drop (i + Z.to_nat size) dst /\
        Z.of_nat i <= ret < Z.of_nat i + size
    | Fault => True
    | OutOfFuel => False
    end).
  { intros size i dst Hsize. unfold finish. case_bool_decide; [|exact I].
    rewrite length_insert, take_insert_ge, drop_insert_lt by lia.
    repeat split; lia. }
  induction fuel as [|fuel IH]; intros size i dst src Hsize Hfuel; [lia|].
  simpl. rewrite wrap_small by lia.
  destruct (size - 1 =? 0) eqn:Hone; [now apply Hfin|].
  apply Z.eqb_neq in Hone.
  destruct (src !! i) as [c|]; [|exact I].
  destruct (is_nul c); [now apply Hfin|].
  case_bool_decide; [|exact I].
  specialize (IH (size - 1) (S i) (<[i:=c]> dst) src).
  destruct (copy_loop fuel (size - 1) (S i) (<[i:=c]> dst) src)
    as [dst' ret| |]; [|exact I|apply IH; lia].
  destruct IH as (Hlen & Htake & Hdrop & Hret); [lia|lia|].
  rewrite length_insert in Hlen.
  replace (S i + Z.to_nat (size - 1))%nat with (i + Z.to_nat size)%nat
    in Hdrop by lia.
  rewrite drop_insert_lt in Hdrop by lia.
  repeat split; try lia; try assumption.
  apply (f_equal (take i)) in Htake.
  rewrite !take_take in Htake.
  replace (i `min` S i)%nat with i in Htake by lia.
  now rewrite take_insert_ge in Htake by lia.
Qed.

(** A source string and a destination buffer to try the copy on. *)
Definition hello : list Byte.byte :=
  [Byte.x68; Byte.x65; Byte.x6c; Byte.x6c; Byte.x6f; Byte.x00].
Definition blank : list Byte.byte :=
  [Byte.x78; Byte.x78; Byte.x78; Byte.x78; Byte.x78].

(** X1 - [uv__strlcpy] with a non-zero [size], a destination of at least
    [size] bytes and a source that is NUL-terminated (or at least [size - 1]
    bytes long) copies the first min(strlen(src), size - 1) bytes of the
    source, writes a NUL after them, leaves the rest of the destination as it
    was and returns the number of bytes copied. *)
Theorem strlcpy_copies dst src size :
  0 < size < 2 ^ size_bits ->
  (Z.to_nat size <= length dst)%nat ->
  terminated src \/ (Z.to_nat size - 1 <= length src)%nat ->
  uv__strlcpy dst src size =
    Done (take (copied src size) src ++ NUL :: drop (S (copied src size)) dst)
         (Z.of_nat (copied src size)).
Proof. exact (strlcpy_done dst src size). Qed.

Lemma strlcpy_copies_witness :
  uv__strlcpy blank hello 4 =
    Done [Byte.x68; Byte.x65; Byte.x6c; Byte.x00; Byte.x78] 3.
Proof.
  apply (strlcpy_copies blank hello 4).
  - unfold size_bits. lia.
  - simpl. lia.
  - left. unfold terminated, hello, NUL. simpl. tauto.
Defined.

(** X2 - Under the same conditions the destination holds a C string that is
    the source string cut to at most [size - 1] bytes, and the value returned
    is the length of that copy, not of the source: it is always below
    [size], so a truncation does not show in it. *)
Theorem strlcpy_string dst src size dst' ret :
  0 < size < 2 ^ size_bits ->
  (Z.to_nat size <= length dst)%nat ->
  terminated src \/ (Z.to_nat size - 1 <= length src)%nat ->
  uv__strlcpy dst src size = Done dst' ret ->
  cstring dst' = take (Z.to_nat size - 1) (cstring src) /\
  ret = Z.of_nat (length (cstring dst')) /\
  0 <= ret < size.
Proof.
  intros Hsize Hroom Hsrc Hrun.
  rewrite strlcpy_done in Hrun by assumption.
  injection Hrun as <- <-.
  assert (Hpre : take (copied src size) src =
                 take (Z.to_nat size - 1) (cstring src)).
  { unfold copied. rewrite <- (cstring_take src) at 2.
    rewrite take_take. f_equal. lia. }
  assert (Hstr : cstring (take (copied src size) src ++
                          NUL :: drop (S (copied src size)) dst) =
                 take (copied src size) src).
  { apply cstring_app_nul. rewrite Hpre. intros Hin.
    apply (cstring_no_nul src).
    apply list_elem_of_In. apply list_elem_of_In in Hin.
    revert Hin. apply subseteq_take. }
  rewrite Hstr. split; [exact Hpre|].
  rewrite length_take. unfold copied.
  pose proof (cstring_length src).
  destruct Hsrc as [Hsrc|Hsrc]; [apply cstring_terminated in Hsrc|]; lia.
Qed.

Lemma strlcpy_string_witness :
  cstring [Byte.x68; Byte.x65; Byte.x6c; Byte.x00; Byte.x78] =
    take (Z.to_nat 4 - 1) (cstring hello) /\
  3 = Z.of_nat (length (cstring [Byte.x68; Byte.x65; Byte.x6c; Byte.x00;
                                 Byte.x78])) /\
  0 <= 3 < 4.
Proof.
  apply (strlcpy_string blank hello 4).
  - unfold size_bits. lia.
  - simpl. lia.
  - left. unfold terminated, hello, NUL. simpl. tauto.
  - reflexivity.
Defined.

(** X3 - For every [size] that fits [size_t] and any two buffers, the loop of
    [uv__strlcpy] ends; when the call completes, the destination keeps its
    length, every byte from index [size] on is unchanged, and the value
    returned is below [size] (it is 0 when [size] is 0, and then nothing is
    written at all). *)
Theorem strlcpy_within_size dst src size :
  0 <= size < 2 ^ size_bits ->
  match uv__strlcpy dst src size with
  | Done dst' ret =>
      length dst' = length dst /\
      drop (Z.to_nat size) dst' = drop (Z.to_nat size) dst /\
      0 <= ret /\ (0 < size -> ret < size) /\
      (size = 0 -> dst' = dst /\ ret = 0)
  | Fault => True
  | OutOfFuel => False
  end.
Proof.
  intros Hsize. unfold uv__strlcpy.
  destruct (size =? 0) eqn:Hz.
  - apply Z.eqb_eq in Hz. subst size. repeat split; lia.
  - apply Z.eqb_neq in Hz.
    pose proof (copy_loop_frame (Z.to_nat size) size 0 dst src) as H.
    destruct (copy_loop (Z.to_nat size) size 0 dst src) as [dst' ret| |];
      [|exact I|apply H; lia].
    destruct H as (Hlen & _ & Hdrop & Hret); [lia|lia|].
    simpl in Hdrop. repeat split; try assumption; lia.
Qed.

Lemma strlcpy_within_size_witness :
  match uv__strlcpy blank hello 2 with
  | Done dst' ret =>
      length dst' = length blank /\
      drop (Z.to_nat 2) dst' = drop (Z.to_nat 2) blank /\
      0 <= ret /\ (0 < 2 -> ret < 2) /\
      (2 = 0 -> dst' = blank /\ ret = 0)
  | Fault => True
  | OutOfFuel => False
  end.
Proof.
  apply (strlcpy_within_size blank hello 2). unfold size_bits. lia.
Defined.

End Strlcpy.

(** ** Further properties of the promise ([src/promise.c]) *)

Module PromiseLaws.
Import Promise.



(** The schedule operation of a producer's call. *)
Definition write_op (w : write_call) : op :=
  match w with
  | Fulfil t res => OpFulfil t res
  | Break t c => OpBreak t c
  end.

(** What a reader finds once the producer's call has settled a promise
    fresh from [uv_promise_init]. *)
Definition expected (w : write_call) : uv_promise_result_t :=
  match w with
  | Fulfil _ res => mk_result UV_PROMISE_FULFILLED 0 res
  | Break _ c => mk_result UV_PROMISE_BROKEN c NULL
  end.

(** A schedule to try the laws on: on the promise [woken], a late
    producer, a second reader, a poll and the reader that was woken. *)
Definition late_calls : list op :=
  [OpBreak 2%nat (-5); OpGet 6%nat; OpTrywait 3%nat; OpGetResume 5%nat;
   OpFulfil 1%nat 8192].

(** Runs a schedule and collects what each call gave: [Some v] for a call
    that returned [v], [None] for one that left its thread suspended. *)
Fixpoint run_values (os : list op) (h : uv_promise_t)
    : option (list (option value) * uv_promise_t) :=
  match os with
  | [] => Some ([], h)
  | o :: os =>
      match call o h with
      | Ret v h' =>
          match run_values os h' with
          | Some (vs, h'') => Some (Some v :: vs, h'')
          | None => None
          end
      | Block h' =>
          match run_values os h' with
          | Some (vs, h'') => Some (None :: vs, h'')
          | None => None
          end
      | Undef => None
      end
  end.

(** The lock orders of the two tests of [test/test-promise.c].  The main
    thread initialises the promise, starts a worker whose timer callback
    makes one producer call [w], reads with [uv_promise_get] and destroys
    the promise.  Either the worker gets the lock first, or the main thread
    does and sleeps; it may then leave its wait [n] times before the
    worker's call. *)
Definition worker_first (main : tid) (w : write_call) : list op :=
  [write_op w; OpGet main; OpDestroy main].

Definition main_first (main : tid) (w : write_call) (n : nat) : list op :=
  OpGet main :: repeat (OpGetResume main) n ++
  [write_op w; OpGetResume main; OpDestroy main].

Ltac split_cases H :=
  repeat match type of H with
         | context [match ?x with _ => _ end] => is_var x; destruct x; simpl in H
         | context [bool_decide ?P] => destruct (bool_decide_reflect P); simpl in H
         | context [decide ?P] => destruct (decide P); simpl in H
         | context [if (?a <? ?b) then _ else _] => destruct (a <? b); simpl in H
         end.

Lemma call_write w h : call (write_op w) h = (rc <- write w ;; ret (VInt rc)) h.
Proof. destruct w; reflexivity. Qed.

Lemma woken_by_write h h1 :
  usable h -> waiters_counted h -> usable h1 ->
  waiting h1 = waiting h ->
  sleepers (cond h1) = (if 0 <? waiting h then [] else sleepers (cond h)) ->
  signalled (cond h1) =
    (if 0 <? waiting h then signalled (cond h) ++ sleepers (cond h)
     else signalled (cond h)) ->
  sleepers (cond h1) = [] /\
  forall u, in_wait u h1 = in_wait u h.
Proof.
  intros Hu Hwc Hu1 Hw Hsl Hsg.
  destruct (wake_counted h h1 Hu Hwc Hu1 Hw Hsl Hsg) as [Hnil _].
  split; [exact Hnil|]. intros u.
  destruct (Hwc Hu) as (Hcount & _).
  unfold in_wait. apply bool_decide_ext. rewrite Hnil, Hsg.
  destruct (0 <? waiting h) eqn:Ew.
  - rewrite !elem_of_app, elem_of_nil. tauto.
  - rewrite (no_sleepers_when_uncounted h Hcount Ew). reflexivity.
Qed.

(** A producer's call on a pending promise a program can hold. *)
Lemma write_pending w h :
  reachable h -> usable h -> status h = UV_PROMISE_PENDING ->
  exists h1, write w h = Ret 0 h1 /\ written w h h1 /\ usable h1 /\
    reachable h1 /\ snapshot h1 = expected w /\
    sleepers (cond h1) = [] /\
    (forall u, in_wait u h1 = in_wait u h).
Proof.
  intros Hr Hu Hs.
  destruct (reachable_inv h Hr) as (Hpc & Hwc & _).
  destruct (Hpc Hs) as [Hcode Hres].
  destruct w as [t res|t c]; simpl.
  - destruct (fulfil_when_pending t res h Hu Hs)
      as (h1 & E & Hs1 & Hr1 & Hc1 & Hu1 & Hw1 & Hsl & Hsg).
    exists h1. split; [exact E|]. split; [auto|]. split; [exact Hu1|].
    split.
    { apply (reachable_step h (OpFulfil t res)); [exact Hr|].
      simpl. rewrite (call_eq _ VInt h 0 h1 E). reflexivity. }
    split; [unfold snapshot; rewrite Hs1, Hr1, Hc1, Hcode; reflexivity|].
    eapply woken_by_write; eauto.
  - destruct (break_when_pending t c h Hu Hs)
      as (h1 & E & Hs1 & Hc1 & Hr1 & Hu1 & Hw1 & Hsl & Hsg).
    exists h1. split; [exact E|]. split; [auto|]. split; [exact Hu1|].
    split.
    { apply (reachable_step h (OpBreak t c)); [exact Hr|].
      simpl. rewrite (call_eq _ VInt h 0 h1 E). reflexivity. }
    split; [unfold snapshot; rewrite Hs1, Hr1, Hc1, Hres; reflexivity|].
    eapply woken_by_write; eauto.
Qed.

(** A settled promise lets every reader that leaves its wait return. *)
Lemma resume_reads_settled os h1 h2 u :
  status h1 <> UV_PROMISE_PENDING ->
  run_ops os h1 = Some h2 -> usable h2 -> in_wait u h2 = true ->
  exists hu, uv_promise_get_resume u h2 = Ret (snapshot h1) hu /\
    usable hu /\ in_wait u hu = false /\ waiting hu = waiting h2 - 1.
Proof.
  intros Hs Hrun Hu2 Hin.
  destruct (run_ops_settled os h1 h2 Hrun Hs) as (Hs2 & Hr2 & Hc2).
  destruct (get_leave u h2 Hu2 Hin) as [Hret _].
  destruct Hret as (hu & E & Hu' & _ & Hw & Hin' & _); [congruence|].
  exists hu. split; [|auto].
  rewrite E. unfold snapshot. now rewrite Hs2, Hr2, Hc2.
Qed.

(** X4 - Once the status of a promise is not [PENDING], no sequence of
    calls of [fulfil], [break], [get] (entering or leaving its wait),
    [trywait] and [destroy] changes its status, its result or its code. *)
Theorem settled_is_final os h h' :
  run_ops os h = Some h' -> status h <> UV_PROMISE_PENDING ->
  status h' = status h /\ result h' = result h /\ code h' = code h.
Proof. intros Hrun Hs. exact (run_ops_settled os h h' Hrun Hs). Qed.

Lemma settled_is_final_witness :
  exists h', run_ops late_calls woken = Some h' /\
    status h' = UV_PROMISE_FULFILLED /\ result h' = 4096 /\ code h' = 0.
Proof.
  destruct (run_ops late_calls woken) as [h'|] eqn:E; [|discriminate E].
  exists h'. split; [reflexivity|].
  apply (settled_is_final late_calls woken h' E). discriminate.
Defined.

(** X5 - On every promise a program can hold whose primitives are in place,
    the waiter count is the number of threads inside [uv_promise_get], no
    thread is counted twice, and once the status is not [PENDING] none of
    them is still asleep: each has been woken. *)
Theorem waiters_are_counted h :
  reachable h -> usable h ->
  waiting h = Z.of_nat (length (sleepers (cond h) ++ signalled (cond h))) /\
  NoDup (sleepers (cond h) ++ signalled (cond h)) /\
  (status h <> UV_PROMISE_PENDING -> sleepers (cond h) = []).
Proof.
  intros Hr Hu. destruct (reachable_inv h Hr) as (_ & Hwc & _). exact (Hwc Hu).
Qed.

Lemma waiters_are_counted_witness :
  waiting asleep = 1 /\ NoDup [5%nat] /\
  (status asleep <> UV_PROMISE_PENDING -> sleepers (cond asleep) = []).
Proof.
  apply (waiters_are_counted asleep reachable_asleep). split; reflexivity.
Defined.



(** X7 - Lock discipline: started with the mutex free, every operation that
    returns, and a [uv_promise_get] that goes to sleep, leaves the mutex
    free again; only [uv_promise_destroy] ends without one, having released
    it.  No operation ends holding the lock. *)
Theorem lock_never_kept o h h' :
  mutex h = MutexFree -> after (call o h) = Some h' ->
  mutex h' = MutexFree \/
  ((exists t, o = OpDestroy t) /\ mutex h' = MutexNone).
Proof.
  intros Hm Hstep. open_promise h. subst.
  destruct o; revert Hstep; unfold_ops; simpl; intros Hstep;
    split_cases Hstep; try discriminate; try congruence;
    injection Hstep as <-; simpl; eauto.
Qed.

Lemma lock_never_kept_witness :
  exists h', after (call (OpGet 6%nat) asleep) = Some h' /\
    (mutex h' = MutexFree \/
     ((exists t, OpGet 6%nat = OpDestroy t) /\ mutex h' = MutexNone)).
Proof.
  destruct (after (call (OpGet 6%nat) asleep)) as [h'|] eqn:E;
    [|discriminate E].
  exists h'. split; [reflexivity|].
  apply (lock_never_kept (OpGet 6%nat) asleep h'); [reflexivity|exact E].
Defined.



Lemma run_values_cons_ret o os h v h1 vs h2 :
  call o h = Ret v h1 -> run_values os h1 = Some (vs, h2) ->
  run_values (o :: os) h = Some (Some v :: vs, h2).
Proof. intros H1 H2. simpl. now rewrite H1, H2. Qed.

Lemma run_values_cons_block o os h h1 vs h2 :
  call o h = Block h1 -> run_values os h1 = Some (vs, h2) ->
  run_values (o :: os) h = Some (None :: vs, h2).
Proof. intros H1 H2. simpl. now rewrite H1, H2. Qed.

Lemma run_values_app os1 os2 h vs1 h1 vs2 h2 :
  run_values os1 h = Some (vs1, h1) -> run_values os2 h1 = Some (vs2, h2) ->
  run_values (os1 ++ os2) h = Some (vs1 ++ vs2, h2).
Proof.
  revert h vs1. induction os1 as [|o os1 IH]; intros h vs1 H1 H2; simpl in *.
  - injection H1 as <- <-. exact H2.
  - destruct (call o h) as [v hm|hm|]; [| |discriminate];
      destruct (run_values os1 hm) as [[vs hm']|] eqn:E; try discriminate;
      injection H1 as <- <-; now rewrite (IH hm vs E H2).
Qed.

(** [uv_promise_destroy] on a promise a program can hold. *)
Lemma destroy_returns t h :
  reachable h -> usable h ->
  exists h', call (OpDestroy t) h = Ret VUnit h' /\
    mutex h' = MutexNone /\ cond_live (cond h') = false.
Proof.
  intros Hr Hu. destruct (reachable_inv h Hr) as (_ & Hwc & _).
  destruct (destroy_locked_usable t h Hu)
    as (h1 & E1 & Hu1 & _ & _ & _ & Hw1 & Hsl1 & Hsg1 & _).
  destruct (wake_counted h h1 Hu Hwc Hu1 Hw1 Hsl1 Hsg1) as [Hnil _].
  destruct (destroy_release h1 Hu1 Hnil) as (h' & E2 & _ & Hm & Hl & _).
  exists h'. split; [|auto]. simpl. unfold uv_promise_destroy.
  unfold bind at 1 2, ret. rewrite E1. now rewrite E2.
Qed.

(** Leaving the wait while the promise is still pending: the thread sleeps
    again. *)
Lemma spurious_wakeups t n : forall h,
  reachable h -> usable h -> status h = UV_PROMISE_PENDING ->
  in_wait t h = true ->
  exists h', run_values (repeat (OpGetResume t) n) h = Some (repeat None n, h')
    /\ reachable h' /\ usable h' /\ status h' = UV_PROMISE_PENDING /\
    in_wait t h' = true.
Proof.
  induction n as [|n IH]; intros h Hr Hu Hs Hin.
  - exists h. simpl. auto.
  - destruct (get_leave t h Hu Hin) as [_ Hblk].
    destruct (Hblk Hs) as (h1 & E & Hu1 & _ & Hsl & _).
    assert (Ec : call (OpGetResume t) h = Block h1)
      by apply (call_eq_block _ VSnap h h1 E).
    destruct (get_blocks_unchanged t h h1 (or_intror E)) as (Hs1 & _).
    destruct (IH h1) as (h' & Erun & ?).
    + apply (reachable_step h (OpGetResume t)); [exact Hr|now rewrite Ec].
    + exact Hu1.
    + congruence.
    + apply bool_decide_eq_true. rewrite Hsl.
      rewrite !elem_of_app, list_elem_of_singleton. auto.
    + exists h'. split; [|assumption].
      simpl repeat. eapply run_values_cons_block; eauto.
Qed.

Lemma call_get_enter t h :
  in_wait t h = false ->
  call (OpGet t) h = (rs <- uv_promise_get t ;; ret (VSnap rs)) h.
Proof. intros Hin. simpl. unfold bind at 1, get_state. now rewrite Hin. Qed.

(** The tail of both lock orders: the read that returns, then the
    destruction. *)
Lemma read_then_destroy main h (read : op) hr :
  reachable h -> call read h = Ret (VSnap (snapshot h)) hr -> usable hr ->
  exists h', run_values [read; OpDestroy main] h
             = Some ([Some (VSnap (snapshot h)); Some VUnit], h') /\
    mutex h' = MutexNone /\ cond_live (cond h') = false.
Proof.
  intros Hr Eread Hur.
  assert (Hrr : reachable hr)
    by (apply (reachable_step h read); [exact Hr|now rewrite Eread]).
  destruct (destroy_returns main hr Hrr Hur) as (h' & Ed & Hm & Hl).
  exists h'. split; [|auto].
  eapply run_values_cons_ret; [exact Eread|].
  eapply run_values_cons_ret; [exact Ed|reflexivity].
Qed.

(** X9 - The two tests of [test/test-promise.c] pass in every lock order:
    after a successful [uv_promise_init], whether the worker's [fulfil] (or
    [break]) comes before the main thread's [uv_promise_get] or after it,
    and however often the sleeping main thread wakes up before that call,
    the producer's call returns 0, [uv_promise_get] returns the status and the
    value the producer stored, and [uv_promise_destroy] returns with the
    mutex and the condition variable released. *)
Theorem promise_tests_pass (h0 : uv_promise_t) (main : tid)
    (w : write_call) (n : nat) :
  exists h, uv_promise_init 0 0 h0 = Ret 0 h /\
    (exists h', run_values (worker_first main w) h
         = Some ([Some (VInt 0); Some (VSnap (expected w)); Some VUnit], h')
       /\ mutex h' = MutexNone /\ cond_live (cond h') = false) /\
    (exists h', run_values (main_first main w n) h
         = Some (None :: repeat None n ++
                 [Some (VInt 0); Some (VSnap (expected w)); Some VUnit], h')
       /\ mutex h' = MutexNone /\ cond_live (cond h') = false).
Proof.
  destruct (init_success h0) as (h & Ei & Hs & _ & _ & _ & Hm & Hcd).
  exists h. split; [exact Ei|].
  assert (Hr : reachable h)
    by (apply (reachable_init h0 0); now rewrite Ei).
  assert (Hu : usable h) by (split; [exact Hm|now rewrite Hcd]).
  assert (Hout : in_wait main h = false)
    by (unfold in_wait; rewrite Hcd; reflexivity).
  split.
  - destruct (write_pending w h Hr Hu Hs)
      as (h1 & E1 & Hw1 & Hu1 & Hr1 & Hsnap & _ & Hsame).
    assert (Hs1 : status h1 <> UV_PROMISE_PENDING)
      by (eapply written_settles; eauto).
    destruct (get_enter main h1 Hu1) as [Hret _].
    destruct (Hret Hs1) as (h2 & E2 & (_ & _ & _ & _ & Hm2 & Hc2) & _).
    assert (Ec2 : call (OpGet main) h1 = Ret (VSnap (snapshot h1)) h2).
    { rewrite call_get_enter by (rewrite Hsame; exact Hout).
      apply (call_eq _ VSnap h1 _ h2 E2). }
    destruct (read_then_destroy main h1 (OpGet main) h2 Hr1 Ec2)
      as (h' & Erun & Hfin).
    { destruct Hu1 as [Hm1 Hl1]. split; congruence. }
    exists h'. split; [|exact Hfin]. unfold worker_first.
    eapply run_values_cons_ret.
    + rewrite call_write. apply (call_eq _ VInt h 0 h1 E1).
    + rewrite <- Hsnap. exact Erun.
  - destruct (get_enter main h Hu) as [_ Hblk].
    destruct (Hblk Hs) as (h1 & E1 & Hu1 & _ & Hsl & _).
    assert (Ec1 : call (OpGet main) h = Block h1).
    { rewrite call_get_enter by exact Hout.
      apply (call_eq_block _ VSnap h h1 E1). }
    destruct (get_blocks_unchanged main h h1 (or_introl E1)) as (Hs1 & _).
    destruct (spurious_wakeups main n h1)
      as (h2 & Espur & Hr2 & Hu2 & Hs2 & Hin2).
    { apply (reachable_step h (OpGet main)); [exact Hr|now rewrite Ec1]. }
    { exact Hu1. }
    { congruence. }
    { apply bool_decide_eq_true. rewrite Hsl.
      rewrite !elem_of_app, list_elem_of_singleton. auto. }
    destruct (write_pending w h2 Hr2 Hu2 Hs2)
      as (h3 & E3 & Hw3 & Hu3 & Hr3 & Hsnap & _ & Hsame).
    assert (Hs3 : status h3 <> UV_PROMISE_PENDING)
      by (eapply written_settles; eauto).
    destruct (resume_reads_settled [] h3 h3 main Hs3 eq_refl Hu3)
      as (h4 & E4 & Hu4 & _).
    { rewrite Hsame. exact Hin2. }
    assert (Ec4 : call (OpGetResume main) h3 = Ret (VSnap (snapshot h3)) h4)
      by apply (call_eq _ VSnap h3 _ h4 E4).
    destruct (read_then_destroy main h3 (OpGetResume main) h4 Hr3 Ec4 Hu4)
      as (h' & Erun & Hfin).
    exists h'. split; [|exact Hfin]. unfold main_first.
    eapply run_values_cons_block; [exact Ec1|].
    eapply run_values_app; [exact Espur|].
    eapply run_values_cons_ret.
    + rewrite call_write. apply (call_eq _ VInt h2 0 h3 E3).
    + rewrite <- Hsnap. exact Erun.
Qed.

End PromiseLaws.

(** ** Further properties of the reactor core ([src/unix/core.c]) *)

Module ReactorLaws.
Import Reactor.

Section Vocabulary.

Context (B : flag_bits) (E : environment).

(** [uv_is_closing]. *)
Definition uv_is_closing (h : uv_handle_t) : Z :=
  Z.land (flags h) (Z.lor (UV_CLOSING B) (UV_CLOSED B)).

(** [uv_is_active]. *)
Definition uv_is_active (h : uv_handle_t) : bool := uv__is_active B h.

(** Every handle of [s] is still in [s'], with its type, and with
    [CLOSING] and [CLOSED] if it had them. *)
Definition grows (s s' : reactor) : Prop :=
  forall a h, heap s !! a = Some h ->
    exists h', heap s' !! a = Some h' /\ type h' = type h /\
      (closing B h = true -> closing B h' = true) /\
      (closed B h = true -> closed B h' = true).

(** No handle carries [CLOSED] without [CLOSING]. *)
Definition closed_after_closing (s : reactor) : Prop :=
  forall a h, heap s !! a = Some h -> closed B h = true -> closing B h = true.

(** The events with which the loop announces a phase of its cycle. *)
Definition cycle_event (e : event) : bool :=
  match e with
  | EvPhase _ | EvPoll _ => true
  | _ => false
  end.

(** The calls that leave the core from within a drain: the stream
    dispatcher, the two finalisers and the close callbacks. *)
Definition drain_call (e : event) : Prop :=
  match e with
  | EvCall r _ => is_shutdown_routine r = false
  | EvCloseCb _ _ => True
  | _ => False
  end.

(** The announcements among a stretch of events. *)
Definition phases (evs : list event) : list event :=
  omap (fun e => if cycle_event e then Some e else None) evs.

(** The state [s'] continues the history of [s] with events that are not
    announcements of a phase. *)
Definition within_phase (s s' : reactor) : Prop :=
  exists evs, trace s' = trace s ++ evs /\ phases evs = [].

(** What [uv__handle_init] stores over a handle. *)
Definition fresh_handle (ty : uv_handle_type) (h : uv_handle_t) : uv_handle_t :=
  mk_handle ty (UV__REF B) None (close_cb h)
            (read_watcher h) (write_watcher h) (fd h).

(** The handle [uv__run_pending] leaves when it detaches [h]. *)
Definition detached (h : uv_handle_t) : uv_handle_t :=
  set_flags (Z.land (flags h) (Z.lnot (UV__PENDING B))) (set_next_pending None h).

End Vocabulary.

(** The sample loop [loop_at_rest] after [uv_close] of its timer (address
    20, callback 2), and after one more cycle. *)
Definition loop_timer_closing : reactor := Eval vm_compute in
    match uv_close sample_bits busy 20 (Some 2%nat) loop_at_rest with
    | Ok _ s => s
    | _ => loop_at_rest
    end.

Definition loop_timer_closed : reactor := Eval vm_compute in
    match uv__run sample_bits busy 4 loop_timer_closing with
    | Ok _ s => s
    | _ => loop_at_rest
    end.

Definition close_and_run : list top :=
  [TopCall (AClose 20 (Some 2%nat)); TopRunOnce 4].

(** *** Invariants of the drain and of the cycle

    A property of the loop's state that code using [uv_close] and the
    operations of [prim] keeps, that the calls leaving a drain keep, and that
    the two writes of the drain keep (detaching a handle and setting
    [CLOSED] on a handle that is closing, not closed and not active), holds
    wherever a drain gets to. *)
Section DrainInvariant.

Context (B : flag_bits) (E : environment) (HB : distinct_bits B).
Variable I : reactor -> Prop.
Hypothesis I_api : forall s s', I s -> api_post B s s' -> I s'.
Hypothesis I_call : forall e s, drain_call e -> I s -> I (add_event e s).
Hypothesis I_detach : forall s a h,
  I s -> heap s !! a = Some h ->
  I (set_heap (<[a := detached B h]> (heap s)) s).
Hypothesis I_close : forall s a h,
  I s -> heap s !! a = Some h ->
  uv__is_active B h = false -> closing B h = true -> closed B h = false ->
  I (add_event (EvClosed a)
       (set_heap (<[a := set_flags (Z.lor (flags h) (UV_CLOSED B)) h]> (heap s)) s)).
Hypothesis I_reset : forall s, I s -> I (set_pending_handles None s).

Lemma inv_call_out e s :
  drain_call e -> I s -> wp (call_out B E e) (fun _ => I) I s.
Proof.
  intros He Hs. apply (wp_call_out_inv B E HB I); [exact I_api|].
  apply I_call; assumption.
Qed.

Lemma inv_unref a s : I s -> wp (uv__handle_unref B a) (fun _ => I) I s.
Proof.
  intros Hs.
  eapply wp_mono; [apply (wp_handle_unref B HB s); apply api_post_refl| |];
    simpl; intros; eapply I_api; eauto.
Qed.

Lemma inv_finish_close a s :
  I s -> wp (uv__finish_close B E a) (fun _ => I) I s.
Proof.
  intros Hs. unfold uv__finish_close. apply wp_bind, wp_load. intros h Hh.
  apply wp_bind, wp_assert; [intros Hact|auto].
  apply wp_bind, wp_assert; [intros Hcl|auto].
  apply wp_bind, wp_assert; [intros Hcd|auto].
  apply negb_true_iff in Hact, Hcd.
  apply wp_bind, wp_store. apply wp_bind, wp_emit.
  set (s2 := add_event (EvClosed a)
               (set_heap (<[a := set_flags (Z.lor (flags h) (UV_CLOSED B)) h]>
                            (heap s)) s)).
  assert (H2 : I s2) by (apply I_close; assumption).
  assert (Htail : forall s3, I s3 ->
            wp (h0 <- load a ;;
                match close_cb h0 with
                | Some cb => call_out B E (EvCloseCb cb a)
                | None => ret tt
                end ;;
                uv__handle_unref B a)
               (fun _ => I) I s3).
  { intros s3 Hs3. apply wp_bind, wp_load. intros h0 Hh0. apply wp_bind.
    destruct (close_cb h0) as [cb|].
    - eapply wp_mono; [apply inv_call_out; [exact Logic.I|exact Hs3]| |];
        [|auto].
      intros [] s4 Hs4. simpl in *. apply inv_unref. exact Hs4.
    - apply wp_ret. apply inv_unref. exact Hs3. }
  assert (Hstream :
    wp (assert (negb (read_watcher h)) ;;
        assert (negb (write_watcher h)) ;;
        assert (bool_decide (fd h = -1)) ;;
        call_out B E (EvCall uv__stream_destroy a))
       (fun _ => I) I s2).
  { apply wp_bind, wp_assert; [intros _|intros _; apply H2].
    apply wp_bind, wp_assert; [intros _|intros _; apply H2].
    apply wp_bind, wp_assert; [intros _|intros _; apply H2].
    apply inv_call_out; [reflexivity|exact H2]. }
  apply wp_bind.
  destruct (type h);
    first [ apply wp_abort; apply H2
          | apply wp_ret; apply Htail; exact H2
          | eapply wp_mono; [exact Hstream| |]; [|auto];
            intros [] s' Hs'; simpl in *; apply Htail; exact Hs'
          | eapply wp_mono; [apply inv_call_out; [reflexivity|exact H2]| |];
            [|auto];
            intros [] s' Hs'; simpl in *; apply Htail; exact Hs' ].
Qed.

Lemma inv_dispatch a h s :
  I s ->
  wp (if has_flag (flags h) (UV_CLOSING B) then uv__finish_close B E a
      else
        match type h with
        | UV_NAMED_PIPE | UV_TCP | UV_TTY =>
            call_out B E (EvCall uv__stream_pending a)
        | _ => abort
        end)
     (fun _ => I) I s.
Proof.
  intros Hs. destruct (has_flag (flags h) (UV_CLOSING B)).
  - apply inv_finish_close. exact Hs.
  - destruct (type h);
      first [apply wp_abort; exact Hs
            |apply inv_call_out; [reflexivity|exact Hs]].
Qed.

Lemma inv_drain fuel :
  forall q s, I s -> keeps I (drain B E fuel q) s.
Proof.
  induction fuel as [|fuel IH]; intros [a|] s Hs; simpl;
    try (apply keeps_ret; exact Hs); [exact Logic.I|].
  apply keeps_bind.
  { unfold keeps, load. destruct (heap s !! a); auto. }
  intros h s0 Hload. unfold load in Hload.
  destruct (heap s !! a) as [h0|] eqn:Hh; [|discriminate].
  injection Hload as <- <-.
  pose proof (I_detach s a h0 Hs Hh) as Hs1.
  apply keeps_bind; [exact Hs1|].
  intros [] s1 Hstore. unfold store, modify in Hstore. injection Hstore as <-.
  apply keeps_bind;
    [unfold keeps, load; simpl; rewrite lookup_insert_eq; exact Hs1|].
  intros h1 s1 Hload. unfold load in Hload. simpl in Hload.
  rewrite lookup_insert_eq in Hload. injection Hload as <- <-.
  pose proof (inv_dispatch a (detached B h0) _ Hs1) as Hd.
  apply keeps_bind; [apply keeps_wp; exact Hd|].
  intros [] s2 Hstep. apply IH. exact (wp_ok _ _ _ _ _ _ Hd Hstep).
Qed.

Lemma inv_run_pending fuel s :
  I s -> keeps I (uv__run_pending B E fuel) s.
Proof.
  intros Hs. unfold uv__run_pending. apply keeps_bind; [exact Hs|].
  intros s0 s1 [= <- <-]. destruct (pending_handles s) as [a|].
  - apply keeps_bind; [apply I_reset; exact Hs|]. intros [] s1 [= <-].
    apply inv_drain. apply I_reset. exact Hs.
  - exact Hs.
Qed.

End DrainInvariant.

(** If the property also survives the announcement of a phase, it holds
    wherever a cycle, a run of the loop or a whole program gets to. *)
Section CycleInvariant.

Context (B : flag_bits) (E : environment) (HB : distinct_bits B).
Variable I : reactor -> Prop.
Hypothesis I_api : forall s s', I s -> api_post B s s' -> I s'.
Hypothesis I_call : forall e s, drain_call e -> I s -> I (add_event e s).
Hypothesis I_detach : forall s a h,
  I s -> heap s !! a = Some h ->
  I (set_heap (<[a := detached B h]> (heap s)) s).
Hypothesis I_close : forall s a h,
  I s -> heap s !! a = Some h ->
  uv__is_active B h = false -> closing B h = true -> closed B h = false ->
  I (add_event (EvClosed a)
       (set_heap (<[a := set_flags (Z.lor (flags h) (UV_CLOSED B)) h]> (heap s)) s)).
Hypothesis I_reset : forall s, I s -> I (set_pending_handles None s).
Hypothesis I_phase : forall e s, cycle_event e = true -> I s -> I (add_event e s).

Lemma inv_phase e s :
  cycle_event e = true -> I s -> keeps I (call_out B E e) s.
Proof.
  intros He Hs. apply keeps_wp.
  apply (wp_call_out_inv B E HB I); [exact I_api|]. apply I_phase; assumption.
Qed.

Lemma inv_pending fuel s : I s -> keeps I (uv__run_pending B E fuel) s.
Proof. apply (inv_run_pending B E HB I); assumption. Qed.

Lemma inv_cycle fuel s : I s -> keeps I (uv__run B E fuel) s.
Proof.
  intros Hs. unfold uv__run.
  apply keeps_bind; [apply inv_phase; [reflexivity|exact Hs]|].
  intros [] s1 H1.
  pose proof (keeps_ok _ _ _ _ _ (inv_phase (EvPhase uv__run_idle) s eq_refl Hs) H1) as Hs1.
  apply keeps_bind; [apply inv_pending; exact Hs1|].
  intros [] s2 H2.
  pose proof (keeps_ok _ _ _ _ _ (inv_pending fuel s1 Hs1) H2) as Hs2.
  apply keeps_bind; [exact Hs2|]. intros s2' s2'' [= <- <-].
  assert (Hmid : keeps I
            (if uv__has_active_handles s2 || uv__has_active_reqs s2
             then call_out B E (EvPhase uv__run_prepare) ;;
                  s3 <- get_state ;;
                  uv__poll B E (uv__should_block s3) ;;
                  call_out B E (EvPhase uv__run_check)
             else ret tt) s2).
  { destruct (uv__has_active_handles s2 || uv__has_active_reqs s2); [|exact Hs2].
    apply keeps_bind; [apply inv_phase; [reflexivity|exact Hs2]|].
    intros [] s3 H3.
    pose proof (keeps_ok _ _ _ _ _ (inv_phase (EvPhase uv__run_prepare) s2 eq_refl Hs2) H3) as Hs3.
    apply keeps_bind; [exact Hs3|]. intros s3' s3'' [= <- <-].
    apply keeps_bind; [apply inv_phase; [reflexivity|exact Hs3]|].
    intros [] s4 H4.
    pose proof (keeps_ok _ _ _ _ _ (inv_phase (EvPoll (uv__should_block s3)) s3 eq_refl Hs3) H4) as Hs4.
    apply inv_phase; [reflexivity|exact Hs4]. }
  apply keeps_bind; [exact Hmid|]. intros [] s5 H5.
  pose proof (keeps_ok _ _ _ _ _ Hmid H5) as Hs5.
  apply keeps_bind; [exact Hs5|]. intros s5' s5'' [= <- <-]. exact Hs5.
Qed.

Lemma inv_uv_run cycles fuel :
  forall s, I s -> keeps I (uv_run B E cycles fuel) s.
Proof.
  induction cycles as [|cycles IH]; intros s Hs; simpl; [exact Logic.I|].
  apply keeps_bind; [apply inv_cycle; exact Hs|].
  intros more s1 H1.
  pose proof (keeps_ok _ _ _ _ _ (inv_cycle fuel s Hs) H1) as Hs1.
  destruct more; [apply IH; exact Hs1|exact Hs1].
Qed.

Lemma inv_exec_top t s : I s -> keeps I (exec_top B E t) s.
Proof.
  intros Hs. destruct t as [c|cycles fuel|fuel]; simpl.
  - apply keeps_wp. destruct c as [p|a cb]; simpl.
    + eapply wp_mono; [apply (wp_exec_prim B HB s); apply api_post_refl| |];
        simpl; intros; eapply I_api; eauto.
    + eapply wp_mono; [apply (wp_uv_close B E HB s); apply api_post_refl| |];
        simpl; intros; eapply I_api; eauto.
  - apply keeps_bind; [apply inv_uv_run; exact Hs|].
    intros rc s1 H1.
    exact (keeps_ok _ _ _ _ _ (inv_uv_run cycles fuel s Hs) H1).
  - unfold uv_run_once.
    assert (Hk : keeps I (uv__run B E fuel ;; ret 0) s).
    { apply keeps_bind; [apply inv_cycle; exact Hs|].
      intros more s1 H1.
      exact (keeps_ok _ _ _ _ _ (inv_cycle fuel s Hs) H1). }
    apply keeps_bind; [exact Hk|]. intros rc s1 H1.
    exact (keeps_ok _ _ _ _ _ Hk H1).
Qed.

Lemma inv_exec_program prog :
  forall s, I s -> keeps I (exec_program B E prog) s.
Proof.
  induction prog as [|t prog IH]; intros s Hs; simpl; [exact Hs|].
  apply keeps_bind; [apply inv_exec_top; exact Hs|].
  intros [] s1 H1. apply IH.
  exact (keeps_ok _ _ _ _ _ (inv_exec_top t s Hs) H1).
Qed.

End CycleInvariant.

Section Laws.

Context (B : flag_bits) (E : environment) (HB : distinct_bits B).

Implicit Types (s : reactor) (h : uv_handle_t) (a : addr) (xs : list addr).

Ltac bits :=
  let H := fresh in
  pose proof (bits_ne B HB) as H;
  destruct H as (? & ? & ? & ? & ? & ? & ? & ? & ? & ?);
  unfold uv_is_active, detached, fresh_handle in *;
  unfold closing, closed, pending, referenced, uv__is_active,
    UV_CLOSING, UV_CLOSED, UV__PENDING, UV__REF, UV__ACTIVE in *;
  simpl in *;
  rewrite ?has_flag_set, ?has_flag_clear, ?has_flag_only in *;
  repeat case_decide; try congruence; auto.

(** [uv_is_closing] as a condition. *)
Lemma is_closing_flags h :
  uv_is_closing B h <> 0 <-> closing B h = true \/ closed B h = true.
Proof.
  unfold uv_is_closing, closing, closed, has_flag.
  rewrite Z.land_lor_distr_r, Z.lor_eq_0_iff.
  rewrite !negb_true_iff, !Z.eqb_neq. lia.
Qed.

Lemma grows_refl s : grows B s s.
Proof. intros a h Hh. exists h. auto. Qed.

Lemma grows_trans s1 s2 s3 : grows B s1 s2 -> grows B s2 s3 -> grows B s1 s3.
Proof.
  intros H12 H23 a h Hh.
  destruct (H12 a h Hh) as (h2 & Hh2 & Ht2 & Hc2 & Hd2).
  destruct (H23 a h2 Hh2) as (h3 & Hh3 & Ht3 & Hc3 & Hd3).
  exists h3. split; [exact Hh3|]. split; [congruence|]. auto.
Qed.

Lemma grows_api s s' : api_post B s s' -> grows B s s'.
Proof.
  intros (evs & _ & _ & Hh & _) a h Ha.
  destruct (Hh a h Ha) as (h' & ? & ? & ? & Hcd & _).
  exists h'. rewrite Hcd. auto.
Qed.

(** A write to a handle that keeps its type and does not clear [CLOSING]
    or [CLOSED]. *)
Lemma grows_store s a h h' :
  heap s !! a = Some h -> type h' = type h ->
  (closing B h = true -> closing B h' = true) ->
  (closed B h = true -> closed B h' = true) ->
  grows B s (set_heap (<[a := h']> (heap s)) s).
Proof.
  intros Hh Hty Hcl Hcd x hx Hx. simpl.
  destruct (decide (x = a)) as [->|Hne].
  - rewrite lookup_insert_eq. rewrite Hh in Hx. injection Hx as <-.
    exists h'. auto.
  - rewrite lookup_insert_ne by congruence. exists hx. auto.
Qed.

(** Handles keep their type, [CLOSING] and [CLOSED] wherever a program
    gets to. *)
Lemma grows_program prog s0 :
  keeps (grows B s0) (exec_program B E prog) s0.
Proof.
  apply (inv_exec_program B E HB (grows B s0)).
  - intros s s' Hs Hapi. eapply grows_trans; [exact Hs|]. now apply grows_api.
  - intros e s _ Hs. exact Hs.
  - intros s a h Hs Hh. eapply grows_trans; [exact Hs|].
    apply grows_store with h; auto; bits.
  - intros s a h Hs Hh _ _ _. eapply grows_trans; [exact Hs|].
    apply (grows_store s a h); auto; bits.
  - intros s Hs. exact Hs.
  - intros e s _ Hs. exact Hs.
  - apply grows_refl.
Qed.

Lemma uv_close_sets_closing s a cb s' :
  uv_close B E a cb s = Ok tt s' ->
  exists h h', heap s !! a = Some h /\ heap s' !! a = Some h' /\
    type h' = type h /\ close_cb h' = cb /\
    closing B h' = true /\ pending B h' = true.
Proof.
  intros Hrun. destruct (heap s !! a) as [h|] eqn:Hh.
  - destruct (shutdown_routine (type h)) as [r|] eqn:Hr.
    + destruct (wp_ok _ _ _ _ _ _
                  (wp_uv_close_detail B E HB s a h cb r Hh Hr) Hrun)
        as (h' & enq & ? & ? & ? & ? & ? & _).
      exists h, h'. auto 10.
    + rewrite (uv_close_unknown B E s a h cb Hh Hr) in Hrun. discriminate.
  - unfold uv_close, update, bind, load in Hrun. rewrite Hh in Hrun.
    discriminate.
Qed.

(** X10 - [uv_is_closing] is non-zero exactly when the handle carries
    [CLOSING] or [CLOSED]; it is non-zero once [uv_close] has returned; and
    whatever the program does next with [uv_close], the loop and the
    operations of other libuv files, the handle stays where it is, with its
    type, and [uv_is_closing] stays non-zero. *)
Theorem is_closing_is_permanent :
  (forall h,
     uv_is_closing B h <> 0 <-> closing B h = true \/ closed B h = true) /\
  (forall s a cb s',
     uv_close B E a cb s = Ok tt s' ->
     exists h', heap s' !! a = Some h' /\ uv_is_closing B h' <> 0) /\
  (forall prog s s' a h,
     heap s !! a = Some h -> uv_is_closing B h <> 0 ->
     exec_program B E prog s = Ok tt s' ->
     exists h', heap s' !! a = Some h' /\ type h' = type h /\
                uv_is_closing B h' <> 0).
Proof.
  split; [exact is_closing_flags|]. split.
  - intros s a cb s' Hrun.
    destruct (uv_close_sets_closing s a cb s' Hrun)
      as (h & h' & _ & Hh' & _ & _ & Hcl & _).
    exists h'. split; [exact Hh'|]. apply is_closing_flags. auto.
  - intros prog s s' a h Hh Hc Hrun.
    pose proof (keeps_ok _ _ _ _ _ (grows_program prog s) Hrun) as Hg.
    destruct (Hg a h Hh) as (h' & Hh' & Hty & Hcl & Hcd).
    exists h'. split; [exact Hh'|]. split; [exact Hty|].
    apply is_closing_flags. apply is_closing_flags in Hc. tauto.
Qed.

Lemma closed_after_closing_program prog s :
  closed_after_closing B s ->
  keeps (closed_after_closing B) (exec_program B E prog) s.
Proof.
  apply (inv_exec_program B E HB (closed_after_closing B)).
  - intros s1 s2 Hs (evs & _ & _ & Hh & Hnone & _) a h2 Ha Hcd.
    destruct (heap s1 !! a) as [h1|] eqn:H1.
    + destruct (Hh a h1 H1) as (h' & Hh' & _ & Hcl & Hcd' & _).
      rewrite Ha in Hh'. injection Hh' as <-.
      apply Hcl, (Hs a h1 H1). congruence.
    + rewrite (Hnone a H1) in Ha. discriminate.
  - intros e s1 _ Hs. exact Hs.
  - intros s1 a h Hs Hh x hx. simpl.
    destruct (decide (x = a)) as [->|Hne].
    + rewrite lookup_insert_eq. intros [= <-] Hcd.
      assert (closed B h = true) by (revert Hcd; bits).
      pose proof (Hs a h Hh H). bits.
    + rewrite lookup_insert_ne by congruence. apply Hs.
  - intros s1 a h Hs Hh _ Hcl _ x hx. simpl.
    destruct (decide (x = a)) as [->|Hne].
    + rewrite lookup_insert_eq. intros [= <-] _. revert Hcl. bits.
    + rewrite lookup_insert_ne by congruence. apply Hs.
  - intros s1 Hs. exact Hs.
  - intros e s1 _ Hs. exact Hs.
Qed.

(** X11 - [CLOSED] is only ever found on a handle that carries [CLOSING]:
    if that holds of every handle, it still does wherever a program of
    [uv_close] calls, loop runs and operations of other libuv files gets to,
    whether it returns or aborts there. *)
Theorem closed_only_after_closing prog s s' :
  closed_after_closing B s ->
  exec_program B E prog s = Ok tt s' \/ exec_program B E prog s = Abort s' ->
  forall a h, heap s' !! a = Some h -> closed B h = true -> closing B h = true.
Proof.
  intros Hs Hrun.
  pose proof (closed_after_closing_program prog s Hs) as Hk.
  unfold keeps in Hk. destruct Hrun as [Hrun|Hrun]; rewrite Hrun in Hk;
    exact Hk.
Qed.

(** *** The steps of a cycle *)

(** A drain that returns would have returned the same with more fuel. *)
Lemma drain_fuel_mono fuel : forall fuel' q s s',
  (fuel <= fuel')%nat ->
  drain B E fuel q s = Ok tt s' -> drain B E fuel' q s = Ok tt s'.
Proof.
  induction fuel as [|fuel IH]; intros fuel' [a|] s s' Hle H;
    try (destruct fuel'; exact H); [discriminate H|].
  destruct fuel' as [|fuel']; [lia|]. simpl in *.
  apply bind_ok in H as (h & s1 & E1 & H).
  apply bind_ok in H as ([] & s2 & E2 & H).
  apply bind_ok in H as (h1 & s3 & E3 & H).
  apply bind_ok in H as ([] & s4 & E4 & H).
  apply bind_ok. exists h, s1. split; [exact E1|].
  apply bind_ok. exists tt, s2. split; [exact E2|].
  apply bind_ok. exists h1, s3. split; [exact E3|].
  apply bind_ok. exists tt, s4. split; [exact E4|].
  apply IH; [lia|exact H].
Qed.

Lemma run_pending_fuel_mono fuel fuel' s s' :
  (fuel <= fuel')%nat ->
  uv__run_pending B E fuel s = Ok tt s' -> uv__run_pending B E fuel' s = Ok tt s'.
Proof.
  intros Hle. unfold uv__run_pending, bind, get_state, modify.
  destruct (pending_handles s); [|auto]. apply drain_fuel_mono. exact Hle.
Qed.

(** What a drain that returns has done, whatever fuel it was given. *)
Lemma run_pending_post fuel s xs s' :
  queues B s None [] xs -> uv__run_pending B E fuel s = Ok tt s' ->
  drain_post B xs [] s s'.
Proof.
  intros Hq Hrun.
  apply (run_pending_fuel_mono fuel (Nat.max fuel (length xs))) in Hrun; [|lia].
  refine (wp_ok _ _ _ _ _ _ (wp_run_pending B E HB _ s xs Hq _) Hrun). lia.
Qed.

(** What a call that leaves the core has done when it returns. *)
Lemma call_out_post e s s' :
  (forall a, e <> EvEnqueue a) -> dispatches [e] = [] ->
  call_out B E e s = Ok tt s' -> step_post B [] s s'.
Proof.
  intros He Hd Hrun.
  exact (wp_ok _ _ _ _ _ _
           (wp_call_out B E HB s s e [] [] He Hd
              (api_post_step B s s (api_post_refl B s))) Hrun).
Qed.

(** The calls a cycle that returns is made of. *)
Lemma cycle_steps fuel s more s' :
  uv__run B E fuel s = Ok more s' ->
  exists s1 s2,
    call_out B E (EvPhase uv__run_idle) s = Ok tt s1 /\
    uv__run_pending B E fuel s1 = Ok tt s2 /\
    if uv__has_active_handles s2 || uv__has_active_reqs s2 then
      exists s3 s4,
        call_out B E (EvPhase uv__run_prepare) s2 = Ok tt s3 /\
        call_out B E (EvPoll (uv__should_block s3)) s3 = Ok tt s4 /\
        call_out B E (EvPhase uv__run_check) s4 = Ok tt s'
    else s' = s2.
Proof.
  unfold uv__run. intros H.
  apply bind_ok in H as ([] & s1 & E1 & H).
  apply bind_ok in H as ([] & s2 & E2 & H).
  apply bind_ok in H as (s2' & s2'' & Eg & H). injection Eg as <- <-.
  apply bind_ok in H as ([] & s5 & Emid & H).
  apply bind_ok in H as (s5' & s5'' & Eg & H). injection Eg as <- <-.
  injection H as _ <-.
  exists s1, s2. split; [exact E1|]. split; [exact E2|].
  destruct (uv__has_active_handles s2 || uv__has_active_reqs s2).
  - apply bind_ok in Emid as ([] & s3 & E3 & Emid).
    apply bind_ok in Emid as (s3' & s3'' & Eg & Emid). injection Eg as <- <-.
    apply bind_ok in Emid as ([] & s4 & E4 & E5).
    exists s3, s4. auto.
  - injection Emid as <-. reflexivity.
Qed.

Lemma phases_app evs1 evs2 : phases (evs1 ++ evs2) = phases evs1 ++ phases evs2.
Proof. apply omap_app. Qed.

Lemma benign_phases evs : Forall benign evs -> phases evs = [].
Proof.
  induction 1 as [|e evs He _ IH]; [reflexivity|].
  change (e :: evs) with ([e] ++ evs). rewrite phases_app, IH, app_nil_r.
  destruct e; simpl in *; try contradiction; reflexivity.
Qed.

Lemma within_phase_trans s1 s2 s3 :
  within_phase s1 s2 -> within_phase s2 s3 -> within_phase s1 s3.
Proof.
  intros (e1 & Ht1 & Hp1) (e2 & Ht2 & Hp2). exists (e1 ++ e2).
  rewrite Ht2, Ht1, app_assoc, phases_app, Hp1, Hp2. auto.
Qed.

Lemma within_phase_event e s :
  cycle_event e = false -> within_phase s (add_event e s).
Proof.
  intros He. exists [e]. split; [reflexivity|].
  unfold phases. simpl. now rewrite He.
Qed.

Lemma within_phase_same s s' : trace s' = trace s -> within_phase s s'.
Proof. intros Ht. exists []. rewrite app_nil_r. auto. Qed.

(** A drain announces no phase. *)
Lemma drain_within_phase fuel s0 :
  keeps (within_phase s0) (uv__run_pending B E fuel) s0.
Proof.
  apply (inv_run_pending B E HB (within_phase s0)).
  - intros s s' Hs (evs & Ht & Hb & _).
    eapply within_phase_trans; [exact Hs|].
    exists evs. split; [exact Ht|]. now apply benign_phases.
  - intros e s He Hs. eapply within_phase_trans; [exact Hs|].
    apply within_phase_event. destruct e; simpl in *; tauto.
  - intros s a h Hs _. eapply within_phase_trans; [exact Hs|].
    now apply within_phase_same.
  - intros s a h Hs _ _ _ _. eapply within_phase_trans; [exact Hs|].
    eapply within_phase_trans;
      [|apply within_phase_event; reflexivity].
    now apply within_phase_same.
  - intros s Hs. eapply within_phase_trans; [exact Hs|].
    now apply within_phase_same.
  - now apply within_phase_same.
Qed.

(** A call that announces a phase adds that one announcement. *)
Lemma call_out_phase e s s' :
  call_out B E e s = Ok tt s' -> cycle_event e = true ->
  exists evs, trace s' = trace s ++ evs /\ phases evs = [e].
Proof.
  intros Hrun He.
  destruct (call_out_summary B E HB e s s' Hrun) as (evs & Ht & Hb & _).
  exists (e :: evs). split; [exact Ht|].
  change (e :: evs) with ([e] ++ evs).
  rewrite phases_app, (benign_phases evs Hb), app_nil_r.
  unfold phases. simpl. now rewrite He.
Qed.

(** X12 - One cycle of the loop announces its phases in a fixed order and
    at most once each: the idle hooks first, then the drain of the pending
    list (which announces nothing); prepare, poll and check follow, in this
    order, exactly when the loop has an active handle or an active request
    after the drain, and the poll is asked to block exactly when, after the
    prepare hooks, there is no idle handle and some active handle.  No
    callback makes the loop re-enter a phase. *)
Theorem cycle_phases fuel s more s' :
  uv__run B E fuel s = Ok more s' ->
  exists s1 s2 evs,
    call_out B E (EvPhase uv__run_idle) s = Ok tt s1 /\
    uv__run_pending B E fuel s1 = Ok tt s2 /\
    trace s' = trace s ++ evs /\
    if uv__has_active_handles s2 || uv__has_active_reqs s2 then
      exists s3,
        call_out B E (EvPhase uv__run_prepare) s2 = Ok tt s3 /\
        phases evs = [EvPhase uv__run_idle; EvPhase uv__run_prepare;
                      EvPoll (uv__should_block s3); EvPhase uv__run_check]
    else s' = s2 /\ phases evs = [EvPhase uv__run_idle].
Proof.
  intros Hrun.
  destruct (cycle_steps fuel s more s' Hrun) as (s1 & s2 & E1 & E2 & Hrest).
  destruct (call_out_phase _ s s1 E1 eq_refl) as (ev1 & Ht1 & Hp1).
  destruct (keeps_ok _ _ _ _ _ (drain_within_phase fuel s1) E2)
    as (ev2 & Ht2 & Hp2).
  exists s1, s2.
  destruct (uv__has_active_handles s2 || uv__has_active_reqs s2).
  - destruct Hrest as (s3 & s4 & E3 & E4 & E5).
    destruct (call_out_phase _ s2 s3 E3 eq_refl) as (ev3 & Ht3 & Hp3).
    destruct (call_out_phase _ s3 s4 E4 eq_refl) as (ev4 & Ht4 & Hp4).
    destruct (call_out_phase _ s4 s' E5 eq_refl) as (ev5 & Ht5 & Hp5).
    exists (ev1 ++ ev2 ++ ev3 ++ ev4 ++ ev5).
    split; [exact E1|]. split; [exact E2|]. split.
    + rewrite Ht5, Ht4, Ht3, Ht2, Ht1. now rewrite <- !app_assoc.
    + exists s3. split; [exact E3|].
      rewrite !phases_app, Hp1, Hp2, Hp3, Hp4, Hp5. reflexivity.
  - subst s'. exists (ev1 ++ ev2).
    split; [exact E1|]. split; [exact E2|]. split.
    + rewrite Ht2, Ht1. now rewrite <- app_assoc.
    + split; [reflexivity|]. rewrite phases_app, Hp1, Hp2. reflexivity.
Qed.

(** The part of a cycle that follows the drain. *)
Lemma cycle_tail s2 s' :
  (if uv__has_active_handles s2 || uv__has_active_reqs s2 then
     exists s3 s4,
       call_out B E (EvPhase uv__run_prepare) s2 = Ok tt s3 /\
       call_out B E (EvPoll (uv__should_block s3)) s3 = Ok tt s4 /\
       call_out B E (EvPhase uv__run_check) s4 = Ok tt s'
   else s' = s2) ->
  step_post B [] s2 s'.
Proof.
  destruct (uv__has_active_handles s2 || uv__has_active_reqs s2).
  - intros (s3 & s4 & E3 & E4 & E5).
    apply call_out_post in E3; [|discriminate|reflexivity].
    apply call_out_post in E4; [|discriminate|reflexivity].
    apply call_out_post in E5; [|discriminate|reflexivity].
    apply (step_post_trans B [] [] s2 s3 s'); [exact E3|].
    apply (step_post_trans B [] [] s3 s4 s'); assumption.
  - intros ->. apply api_post_step, api_post_refl.
Qed.

(** A cycle that returns, seen from the pending list [xs] it started
    with: the idle hooks pushed [enq] onto it, the drain dispatched all of
    that, and the rest of the cycle unlinked nothing. *)
Lemma cycle_post fuel s xs more s' :
  queues B s None [] xs -> uv__run B E fuel s = Ok more s' ->
  exists s1 s2 evs1,
    trace s1 = trace s ++ evs1 /\
    step_post B [] s s1 /\
    queues B s1 None [] (rev (enqueued evs1) ++ xs) /\
    drain_post B (rev (enqueued evs1) ++ xs) [] s1 s2 /\
    step_post B [] s2 s'.
Proof.
  intros Hq Hrun.
  destruct (cycle_steps fuel s more s' Hrun) as (s1 & s2 & E1 & E2 & Hrest).
  assert (H1 : step_post B [] s s1)
    by (apply (call_out_post (EvPhase uv__run_idle));
        [discriminate|reflexivity|exact E1]).
  pose proof H1 as (evs1 & Ht1 & _ & _ & _ & Hqs).
  pose proof (Hqs None [] xs Hq) as Hq1.
  exists s1, s2, evs1. split; [exact Ht1|]. split; [exact H1|].
  split; [exact Hq1|]. split.
  - eapply run_pending_post; eauto.
  - apply cycle_tail. exact Hrest.
Qed.

(** X13 - A handle closed with [uv_close] is finalised by the next cycle of
    the loop that returns, whatever the idle hooks do before the drain: the
    cycle writes [CLOSED] on it, and the handle ends the cycle with
    [CLOSING] and [CLOSED] set. *)
Theorem closed_handle_finalised_by_next_cycle
    fuel s xs a cb s1 more s2 :
  queues B s None [] xs ->
  uv_close B E a cb s = Ok tt s1 ->
  uv__run B E fuel s1 = Ok more s2 ->
  exists evs h2,
    trace s2 = trace s1 ++ evs /\ Finalised a ∈ dispatches evs /\
    heap s2 !! a = Some h2 /\ closing B h2 = true /\ closed B h2 = true.
Proof.
  intros Hq Hclose Hrun.
  destruct (uv_close_sets_closing s a cb s1 Hclose)
    as (h & h1 & _ & Hh1 & _ & _ & Hcl1 & Hp1).
  pose proof (wp_ok _ _ _ _ _ _
                (wp_uv_close B E HB s s a cb (api_post_refl B s)) Hclose)
    as (evc & _ & _ & _ & _ & Hqc).
  pose proof (Hqc None [] xs Hq) as Hq1.
  destruct (cycle_post fuel s1 _ more s2 Hq1 Hrun)
    as (t1 & t2 & evs1 & Ht1 & (evs1' & Ht1' & _ & Hh & _) & Hqt1 & Hdrain & Htail).
  rewrite Ht1 in Ht1'. apply app_inv_head in Ht1'. subst evs1'.
  destruct (Hh a h1 Hh1) as (k1 & Hk1 & _ & Hkcl & _ & Hkq).
  specialize (Hkcl Hcl1).
  assert (Hin : a ∈ rev (enqueued evs1) ++ rev (enqueued evc) ++ xs).
  { destruct (decide (a ∈ enqueued evs1)) as [Hen|Hen].
    - apply elem_of_app. left. apply list_elem_of_In.
      apply (proj1 (in_rev _ _)). apply list_elem_of_In. exact Hen.
    - destruct Hqt1 as (_ & _ & _ & Hall). apply (Hall a k1 Hk1).
      specialize (Hkq Hen). unfold qproj in Hkq. congruence. }
  destruct Hdrain as (evs2 & Ht2 & Hmap & Hkinds & _).
  rewrite <- Hmap in Hin.
  apply list_elem_of_fmap in Hin as (d & Htgt & Hd).
  pose proof (Hkinds d Hd) as Hk.
  destruct d as [x|x]; simpl in Htgt; subst x;
    [|destruct Hk as (h0 & Hh0 & Hc0 & _); congruence].
  destruct Hk as (k2 & Hk2 & Hk2cl & Hk2cd).
  destruct Htail as (evs3 & Ht3 & _ & Hh3 & _).
  destruct (Hh3 a k2 Hk2) as (h2 & Hh2 & _ & Hcl2 & Hcd2 & _).
  exists (evs1 ++ evs2 ++ evs3), h2.
  split; [rewrite Ht3, Ht2, Ht1; now rewrite <- !app_assoc|].
  split.
  { rewrite !dispatches_app, !elem_of_app. auto. }
  auto.
Qed.

(** X14 - The pending list stays well formed: if it is a chain without
    repetition that holds exactly the handles flagged [PENDING], it is one
    again wherever a program of [uv_close] calls, loop runs and operations of
    other libuv files returns. *)
Theorem pending_list_stays_well_formed prog : forall s xs s',
  queues B s None [] xs ->
  exec_program B E prog s = Ok tt s' ->
  exists ys, queues B s' None [] ys.
Proof.
  assert (Hcycle : forall fuel s xs more s',
            queues B s None [] xs -> uv__run B E fuel s = Ok more s' ->
            exists ys, queues B s' None [] ys).
  { intros fuel s xs more s' Hq Hrun.
    destruct (cycle_post fuel s xs more s' Hq Hrun)
      as (s1 & s2 & evs1 & _ & _ & _ & (evs2 & _ & _ & _ & _ & _ & Hq2) & Htail).
    destruct Htail as (evs3 & _ & _ & _ & _ & Hqs).
    eexists. apply Hqs. exact Hq2. }
  assert (Hrun : forall cycles fuel s xs rc s',
            queues B s None [] xs -> uv_run B E cycles fuel s = Ok rc s' ->
            exists ys, queues B s' None [] ys).
  { induction cycles as [|cycles IH]; intros fuel s xs rc s' Hq H;
      [discriminate H|].
    simpl in H. apply bind_ok in H as (more & s1 & E1 & H).
    destruct (Hcycle fuel s xs more s1 Hq E1) as (ys & Hq1).
    destruct more; [eauto|]. injection H as _ <-. eauto. }
  induction prog as [|t prog IH]; intros s xs s' Hq H; simpl in H.
  - injection H as <-. eauto.
  - apply bind_ok in H as ([] & s1 & E1 & H).
    assert (Hq1 : exists ys, queues B s1 None [] ys).
    { destruct t as [c|cycles fuel|fuel]; simpl in E1.
      - assert (Hapi : api_post B s s1).
        { destruct c as [p|a cb]; simpl in E1.
          - exact (wp_ok _ _ _ _ _ _
                     (wp_exec_prim B HB s s p (api_post_refl B s)) E1).
          - exact (wp_ok _ _ _ _ _ _
                     (wp_uv_close B E HB s s a cb (api_post_refl B s)) E1). }
        destruct Hapi as (evs & _ & _ & _ & _ & Hqs). eauto.
      - apply bind_ok in E1 as (rc & s0 & E0 & E1). injection E1 as <-. eauto.
      - apply bind_ok in E1 as (rc & s0 & E0 & E1). injection E1 as <-.
        unfold uv_run_once in E0.
        apply bind_ok in E0 as (more & s00 & E00 & E0). injection E0 as _ <-.
        eauto. }
    destruct Hq1 as (ys & Hq1). eauto.
Qed.

(** *** [uv__handle_init] *)

Lemma handle_init_state s a ty :
  uv__handle_init B a ty s =
  Ok tt (set_heap
           (<[a := fresh_handle B ty
                     (default (mk_handle ty 0 None None false false (-1))
                              (heap s !! a))]> (heap s))
           (set_handle_init_count (wrap_counter (handle_init_count s + 1)) s)).
Proof. reflexivity. Qed.

Lemma fresh_handle_flags ty h :
  referenced B (fresh_handle B ty h) = true /\
  uv_is_active B (fresh_handle B ty h) = false /\
  pending B (fresh_handle B ty h) = false /\
  closing B (fresh_handle B ty h) = false /\
  closed B (fresh_handle B ty h) = false.
Proof. repeat split; bits. Qed.

(** X15 - [uv__handle_init] returns, counts the handle, and leaves it with
    the given type, a null pending link and the flags of a handle that was
    never used: referenced, not active, not pending, and [uv_is_closing]
    zero.  The counter is incremented as a 64-bit unsigned counter: it goes
    up by one below [2 ^ 64 - 1] and from [2 ^ 64 - 1] back to 0.  Every
    other handle and the loop's lists are as before, and if the handle was
    not in the pending list, that list is as well formed as it was. *)
Theorem handle_init_fresh s a ty :
  exists s' h',
    uv__handle_init B a ty s = Ok tt s' /\
    handle_init_count s' = (handle_init_count s + 1) mod 2 ^ 64 /\
    0 <= handle_init_count s' < 2 ^ 64 /\
    (0 <= handle_init_count s < 2 ^ 64 - 1 ->
     handle_init_count s' = handle_init_count s + 1) /\
    (handle_init_count s = 2 ^ 64 - 1 -> handle_init_count s' = 0) /\
    heap s' !! a = Some h' /\ type h' = ty /\ next_pending h' = None /\
    referenced B h' = true /\ uv_is_active B h' = false /\
    pending B h' = false /\ uv_is_closing B h' = 0 /\
    (forall x, x <> a -> heap s' !! x = heap s !! x) /\
    pending_handles s' = pending_handles s /\
    active_handles s' = active_handles s /\ trace s' = trace s /\
    (forall xs, queues B s None [] xs -> a ∉ xs -> queues B s' None [] xs).
Proof.
  eexists. eexists. split; [apply handle_init_state|]. simpl.
  rewrite lookup_insert_eq.
  set (h0 := default (mk_handle ty 0 None None false false (-1)) (heap s !! a)).
  destruct (fresh_handle_flags ty h0) as (Hr & Ha & Hp & Hcl & Hcd).
  unfold wrap_counter, counter_bits.
  split; [reflexivity|].
  split; [apply Z.mod_pos_bound; reflexivity|].
  split; [intros Hc; apply Z.mod_small; lia|].
  split; [intros ->; reflexivity|].
  repeat (split; [first [reflexivity|assumption]|]).
  split.
  { destruct (Z.eq_dec (uv_is_closing B (fresh_handle B ty h0)) 0) as [Hz|Hz];
      [exact Hz|].
    apply is_closing_flags in Hz as [Hz|Hz]; congruence. }
  split; [intros x Hx; now rewrite lookup_insert_ne by congruence|].
  do 3 (split; [reflexivity|]).
  intros xs (H1 & H2 & H3 & H4) Hout. split; [exact H1|].
  split; [|split; [exact H3|]].
  - eapply linked_ext; [|exact H2]. intros x Hx. simpl.
    rewrite lookup_insert_ne; [reflexivity|]. intros ->. contradiction.
  - intros x hx. simpl. destruct (decide (x = a)) as [->|Hne].
    + rewrite lookup_insert_eq. intros [= <-] Hpe. congruence.
    + rewrite lookup_insert_ne by congruence. apply H4.
Qed.

(** A chain that visits a handle is no chain any more once that handle
    has lost [PENDING]. *)
Lemma linked_broken s s' a xs : forall p ys,
  (forall x, x <> a -> heap s' !! x = heap s !! x) ->
  (forall h', heap s' !! a = Some h' -> pending B h' = false) ->
  linked B s p xs -> a ∈ xs -> ~ linked B s' p ys.
Proof.
  induction xs as [|x xs IH]; intros p ys Hsame Hfresh Hl Hin Hl';
    [inversion Hin|].
  simpl in Hl. destruct Hl as (-> & h & Hh & Hp & Hl).
  destruct ys as [|y ys]; simpl in Hl'; [discriminate|].
  destruct Hl' as ([= <-] & h' & Hh' & Hp' & Hl').
  destruct (decide (x = a)) as [->|Hne].
  - rewrite (Hfresh h' Hh') in Hp'. discriminate.
  - rewrite (Hsame x Hne), Hh in Hh'. injection Hh' as <-.
    apply elem_of_cons in Hin as [->|Hin]; [congruence|].
    exact (IH _ ys Hsame Hfresh Hl Hin Hl').
Qed.

(** X16 - [uv__handle_init] on a handle that is still linked into the
    pending list leaves the list broken: the chain from the loop's list head
    reaches a handle without [PENDING], so it is no well-formed pending list
    of any handles. *)
Theorem handle_init_on_pending_breaks_list s a ty xs s' :
  queues B s None [] xs -> a ∈ xs ->
  uv__handle_init B a ty s = Ok tt s' ->
  forall ys, ~ queues B s' None [] ys.
Proof.
  intros (_ & Hl & _) Hin Hrun ys (_ & Hl' & _).
  rewrite handle_init_state in Hrun. injection Hrun as <-. simpl in Hl'.
  refine (linked_broken s _ a xs _ ys _ _ Hl Hin Hl').
  - intros x Hx. simpl. now rewrite lookup_insert_ne by congruence.
  - simpl. rewrite lookup_insert_eq. intros h' [= <-].
    apply fresh_handle_flags.
Qed.

End Laws.

Lemma close_runs :
  uv_close sample_bits busy 20 (Some 2%nat) loop_at_rest
  = Ok tt loop_timer_closing.
Proof. vm_compute. reflexivity. Qed.

Lemma cycle_after_close_runs :
  uv__run sample_bits busy 4 loop_timer_closing = Ok false loop_timer_closed.
Proof. vm_compute. reflexivity. Qed.

Lemma close_and_run_runs :
  exec_program sample_bits busy close_and_run loop_at_rest
  = Ok tt loop_timer_closed.
Proof. vm_compute. reflexivity. Qed.

Lemma is_closing_is_permanent_witness :
  exists h1,
    uv_close sample_bits busy 20 (Some 2%nat) loop_at_rest
    = Ok tt loop_timer_closing /\
    heap loop_timer_closing !! 20 = Some h1 /\
    uv_is_closing sample_bits h1 <> 0.
Proof.
  destruct (is_closing_is_permanent sample_bits busy sample_bits_distinct)
    as (_ & Hclose & _).
  destruct (Hclose loop_at_rest 20 (Some 2%nat) _ close_runs)
    as (h1 & Hh1 & Hc).
  exists h1. split; [exact close_runs|]. auto.
Defined.

Lemma closed_only_after_closing_witness :
  exec_program sample_bits busy close_and_run loop_at_rest
  = Ok tt loop_timer_closed /\
  forall a h, heap loop_timer_closed !! a = Some h ->
              closed sample_bits h = true -> closing sample_bits h = true.
Proof.
  split; [exact close_and_run_runs|].
  apply (closed_only_after_closing sample_bits busy sample_bits_distinct
           close_and_run loop_at_rest loop_timer_closed).
  - intros x hx Hx. apply two_handles in Hx as [[-> ->]|[-> ->]]; discriminate.
  - left. exact close_and_run_runs.
Defined.

Lemma cycle_phases_witness :
  exists evs,
    uv__run sample_bits busy 4 loop_timer_closing = Ok false loop_timer_closed /\
    trace loop_timer_closed = trace loop_timer_closing ++ evs /\
    (phases evs = [EvPhase uv__run_idle] \/
     exists b, phases evs = [EvPhase uv__run_idle; EvPhase uv__run_prepare;
                             EvPoll b; EvPhase uv__run_check]).
Proof.
  destruct (cycle_phases sample_bits busy sample_bits_distinct 4
              loop_timer_closing false loop_timer_closed cycle_after_close_runs)
    as (s1 & s2 & evs & _ & _ & Ht & Hrest).
  exists evs. split; [exact cycle_after_close_runs|]. split; [exact Ht|].
  destruct (uv__has_active_handles s2 || uv__has_active_reqs s2).
  - destruct Hrest as (s3 & _ & Hp). right. eauto.
  - left. apply Hrest.
Defined.

Lemma closed_handle_finalised_by_next_cycle_witness :
  exists evs h2,
    uv_close sample_bits busy 20 (Some 2%nat) loop_at_rest
    = Ok tt loop_timer_closing /\
    uv__run sample_bits busy 4 loop_timer_closing = Ok false loop_timer_closed /\
    trace loop_timer_closed = trace loop_timer_closing ++ evs /\
    Finalised 20 ∈ dispatches evs /\
    heap loop_timer_closed !! 20 = Some h2 /\ closed sample_bits h2 = true.
Proof.
  destruct (closed_handle_finalised_by_next_cycle sample_bits busy
              sample_bits_distinct 4 loop_at_rest [] 20 (Some 2%nat)
              loop_timer_closing false loop_timer_closed
              loop_at_rest_queues close_runs cycle_after_close_runs)
    as (evs & h2 & Ht & Hfin & Hh2 & _ & Hcd).
  exists evs, h2.
  split; [exact close_runs|]. split; [exact cycle_after_close_runs|]. auto.
Defined.

Lemma pending_list_stays_well_formed_witness :
  exists ys,
    exec_program sample_bits busy close_and_run loop_at_rest
    = Ok tt loop_timer_closed /\
    queues sample_bits loop_timer_closed None [] ys.
Proof.
  destruct (pending_list_stays_well_formed sample_bits busy sample_bits_distinct
              close_and_run loop_at_rest [] loop_timer_closed
              loop_at_rest_queues close_and_run_runs) as (ys & Hq).
  exists ys. split; [exact close_and_run_runs|exact Hq].
Defined.

Lemma handle_init_fresh_witness :
  exists s' h',
    uv__handle_init sample_bits 30 UV_TIMER loop_at_rest = Ok tt s' /\
    handle_init_count s' = 3 /\
    heap s' !! 30 = Some h' /\ uv_is_closing sample_bits h' = 0 /\
    queues sample_bits s' None [] [].
Proof.
  destruct (handle_init_fresh sample_bits sample_bits_distinct
              loop_at_rest 30 UV_TIMER)
    as (s' & h' & E & _ & _ & Hn & _ & Hh & _ & _ & _ & _ & _ & Hc
        & _ & _ & _ & _ & Hq).
  exists s', h'. split; [exact E|].
  split; [apply Hn; simpl; lia|].
  split; [exact Hh|]. split; [exact Hc|].
  apply Hq; [exact loop_at_rest_queues|]. apply not_elem_of_nil.
Defined.

Lemma handle_init_on_pending_breaks_list_witness :
  exists s',
    uv__handle_init sample_bits 10 UV_TCP loop_with_event = Ok tt s' /\
    ~ queues sample_bits s' None [] [10].
Proof.
  pose proof (handle_init_state sample_bits loop_with_event 10 UV_TCP) as Hrun.
  eexists. split; [exact Hrun|].
  apply (handle_init_on_pending_breaks_list sample_bits sample_bits_distinct
           loop_with_event 10 UV_TCP [10]).
  - exact loop_with_event_queues.
  - apply list_elem_of_here.
  - exact Hrun.
Defined.

End ReactorLaws.

(** ** The descriptor helpers of [src/unix/core.c]

    [uv__nonblock], [uv__cloexec], [uv__socket], [uv__accept] and
    [uv__dup], over a model of the system calls they make. *)

Module Descriptors.

(** What the preprocessor decides, and the values of the constants of the
    system headers: whether [SOCK_NONBLOCK] and [SOCK_CLOEXEC] are defined,
    whether [FIONBIO] is, whether [__linux__] is. *)
Record platform := mk_platform {
  atomic_flags    : bool;
  fionbio         : bool;
  linux           : bool;
  O_NONBLOCK      : Z;
  FD_CLOEXEC      : Z;
  SOCK_NONBLOCK   : Z;
  SOCK_CLOEXEC    : Z;
  UV__SOCK_NONBLOCK : Z;
  UV__SOCK_CLOEXEC  : Z;
  EINTR           : Z;
  EINVAL          : Z;
  ENOSYS          : Z;
  EBADF           : Z
}.

(** The flag constants that are defined are non-empty sets of bits. *)
Definition sane (p : platform) : Prop :=
  0 < O_NONBLOCK p /\ 0 < FD_CLOEXEC p /\
  (atomic_flags p = true -> SOCK_NONBLOCK p <> 0 /\ SOCK_CLOEXEC p <> 0) /\
  (linux p = true -> UV__SOCK_NONBLOCK p <> 0 /\ UV__SOCK_CLOEXEC p <> 0).

(** An open descriptor: its file status flags ([F_GETFL]) and its
    descriptor flags ([F_GETFD]). *)
Record descriptor := mk_descriptor {
  status_flags : Z;
  fd_flags     : Z
}.

(** What the system answers to a call: it fails with an [errno], or it
    works. *)
Inductive answer :=
  | Fails (e : Z)
  | Works.

(** The process as these helpers see it: the open descriptors, [errno],
    and the answers the system will give to the calls to come. *)
Record os := mk_os {
  fds    : gmap Z descriptor;
  errno  : Z;
  script : list answer
}.

Definition set_fds (v : gmap Z descriptor) (w : os) := mk_os v (errno w) (script w).
Definition set_errno (v : Z) (w : os) := mk_os (fds w) v (script w).
Definition set_script (v : list answer) (w : os) := mk_os (fds w) (errno w) v.

(** A call returns, or stops the process in a failed [assert], or is
    stuck because the system's answers ran out. *)
Inductive outcome (A : Type) :=
  | Done (a : A) (w : os)
  | Abort
  | Stuck.
Arguments Done {A} a w.
Arguments Abort {A}.
Arguments Stuck {A}.

Definition Sys (A : Type) := os -> outcome A.

Definition ret {A} (a : A) : Sys A := fun w => Done a w.
Definition bind {A C} (m : Sys A) (k : A -> Sys C) : Sys C :=
  fun w => match m w with
           | Done a w' => k a w'
           | Abort => Abort
           | Stuck => Stuck
           end.
Definition get_os : Sys os := fun w => Done w w.
Definition modify (f : os -> os) : Sys unit := fun w => Done tt (f w).
Definition assert (b : bool) : Sys unit := fun w => if b then Done tt w else Abort.

Notation "x <- m ;; k" := (bind m (fun x => k))
  (at level 100, m at next level, right associativity).
Notation "m ;; k" := (bind m (fun _ => k))
  (at level 100, right associativity).

(** [f & m] used as a condition. *)
Definition has (f m : Z) : bool := negb (Z.land f m =? 0).

(** *** The system calls *)

(** The system's answer to the next call. *)
Definition next : Sys answer := fun w =>
  match script w with
  | [] => Stuck
  | a :: rest => Done a (set_script rest w)
  end.

(** A call that fails: it returns -1 and sets [errno]. *)
Definition fail (e : Z) : Sys Z := modify (set_errno e) ;; ret (-1).

(** The lowest descriptor number that is not in use, which is the one a
    call that opens a descriptor gets: the first free number from [v] on,
    among the next [n]. *)
Fixpoint first_free (used : gset Z) (n : nat) (v : Z) : Z :=
  match n with
  | O => v
  | S n => if bool_decide (v ∈ used) then first_free used n (v + 1) else v
  end.

Definition lowest_free (m : gmap Z descriptor) : Z :=
  first_free (dom m) (size (dom m)) 0.

Definition open_new (d : descriptor) : Sys Z := fun w =>
  let v := lowest_free (fds w) in
  Done v (set_fds (<[v := d]> (fds w)) w).

(** Applies [f] to open descriptor [fd], and fails with [EBADF] when [fd]
    is not open. *)
Definition on_fd (p : platform) (fd : Z) (f : descriptor -> Sys Z) : Sys Z :=
  w <- get_os ;;
  match fds w !! fd with
  | Some d => f d
  | None => fail (EBADF p)
  end.

Definition update_fd (fd : Z) (d : descriptor) : Sys unit :=
  modify (fun w => set_fds (<[fd := d]> (fds w)) w).

(** A call that opens a descriptor [d] when it works. *)
Definition opening (d : descriptor) : Sys Z :=
  a <- next ;;
  match a with
  | Fails e => fail e
  | Works => open_new d
  end.

Section Calls.

Context (p : platform).

(** [socket(domain, type, protocol)]: the new descriptor is non-blocking
    and close-on-exec as the bits of [type] say. *)
Definition sys_socket (domain type protocol : Z) : Sys Z :=
  opening (mk_descriptor
             (if has type (SOCK_NONBLOCK p) then O_NONBLOCK p else 0)
             (if has type (SOCK_CLOEXEC p) then FD_CLOEXEC p else 0)).

(** [accept(sockfd, saddr, &slen)]. *)
Definition sys_accept (sockfd : Z) : Sys Z := opening (mk_descriptor 0 0).

(** Modelled from the spec: [uv__accept4] (of a file that is not among the
    sources), the [accept4] system call: an accept whose new descriptor is
    non-blocking and close-on-exec as its flags say; it fails with [ENOSYS]
    where the kernel lacks the call. *)
Definition uv__accept4 (sockfd flags : Z) : Sys Z :=
  opening (mk_descriptor
             (if has flags (UV__SOCK_NONBLOCK p) then O_NONBLOCK p else 0)
             (if has flags (UV__SOCK_CLOEXEC p) then FD_CLOEXEC p else 0)).

(** [dup(fd)]: the copy shares the file status flags and has no descriptor
    flags. *)
Definition sys_dup (fd : Z) : Sys Z :=
  a <- next ;;
  match a with
  | Fails e => fail e
  | Works => on_fd p fd (fun d => open_new (mk_descriptor (status_flags d) 0))
  end.

(** [close(fd)]: the descriptor is gone whether or not the call reports an
    error. *)
Definition sys_close (fd : Z) : Sys Z :=
  a <- next ;;
  modify (fun w => set_fds (delete fd (fds w)) w) ;;
  match a with
  | Fails e => fail e
  | Works => ret 0
  end.

(** [fcntl(fd, F_GETFL)], [fcntl(fd, F_SETFL, flags)], [fcntl(fd, F_GETFD)],
    [fcntl(fd, F_SETFD, flags)] and [ioctl(fd, FIONBIO, &set)]. *)
Definition fcntl_getfl (fd : Z) : Sys Z :=
  a <- next ;;
  match a with
  | Fails e => fail e
  | Works => on_fd p fd (fun d => ret (status_flags d))
  end.

Definition fcntl_setfl (fd flags : Z) : Sys Z :=
  a <- next ;;
  match a with
  | Fails e => fail e
  | Works =>
      on_fd p fd (fun d => update_fd fd (mk_descriptor flags (fd_flags d)) ;; ret 0)
  end.

Definition fcntl_getfd (fd : Z) : Sys Z :=
  a <- next ;;
  match a with
  | Fails e => fail e
  | Works => on_fd p fd (fun d => ret (fd_flags d))
  end.

Definition fcntl_setfd (fd flags : Z) : Sys Z :=
  a <- next ;;
  match a with
  | Fails e => fail e
  | Works =>
      on_fd p fd (fun d => update_fd fd (mk_descriptor (status_flags d) flags) ;; ret 0)
  end.

Definition ioctl_fionbio (fd set : Z) : Sys Z :=
  a <- next ;;
  match a with
  | Fails e => fail e
  | Works =>
      on_fd p fd (fun d =>
        update_fd fd (mk_descriptor
                        (if set =? 0
                         then Z.land (status_flags d) (Z.lnot (O_NONBLOCK p))
                         else Z.lor (status_flags d) (O_NONBLOCK p))
                        (fd_flags d)) ;;
        ret 0)
  end.

(** *** The helpers *)

(** [uv__nonblock]. *)
Definition uv__nonblock (fd set : Z) : Sys Z :=
  if fionbio p then ioctl_fionbio fd set
  else
    flags <- fcntl_getfl fd ;;
    if flags =? -1 then ret (-1)
    else
      let flags := if set =? 0 then Z.land flags (Z.lnot (O_NONBLOCK p))
                   else Z.lor flags (O_NONBLOCK p) in
      r <- fcntl_setfl fd flags ;;
      if r =? -1 then ret (-1) else ret 0.

(** [uv__cloexec]. *)
Definition uv__cloexec (fd set : Z) : Sys Z :=
  if linux p then fcntl_setfd fd (if set =? 0 then 0 else FD_CLOEXEC p)
  else
    flags <- fcntl_getfd fd ;;
    if flags =? -1 then ret (-1)
    else
      let flags := if set =? 0 then Z.land flags (Z.lnot (FD_CLOEXEC p))
                   else Z.lor flags (FD_CLOEXEC p) in
      r <- fcntl_setfd fd flags ;;
      if r =? -1 then ret (-1) else ret 0.

(** [a || b] on two calls: the second is made only if the first gave 0. *)
Definition either (m1 m2 : Sys Z) : Sys bool :=
  r <- m1 ;;
  if negb (r =? 0) then ret true
  else r <- m2 ;; ret (negb (r =? 0)).

(** The part of [uv__socket] after the [#endif]. *)
Definition socket_fallback (domain type protocol : Z) : Sys Z :=
  sockfd <- sys_socket domain type protocol ;;
  if sockfd =? -1 then ret sockfd
  else
    failed <- either (uv__nonblock sockfd 1) (uv__cloexec sockfd 1) ;;
    if failed then sys_close sockfd ;; ret (-1)
    else ret sockfd.

(** [uv__socket]. *)
Definition uv__socket (domain type protocol : Z) : Sys Z :=
  if atomic_flags p then
    sockfd <- sys_socket domain
                (Z.lor (Z.lor type (SOCK_NONBLOCK p)) (SOCK_CLOEXEC p)) protocol ;;
    if negb (sockfd =? -1) then ret sockfd
    else
      w <- get_os ;;
      if negb (errno w =? EINVAL p) then ret sockfd
      else socket_fallback domain type protocol
  else socket_fallback domain type protocol.

(** The plain [accept] and what follows it in the loop of [uv__accept];
    [None] stands for [continue]. *)
Definition accept_plain (sockfd : Z) : Sys (option Z) :=
  peerfd <- sys_accept sockfd ;;
  if peerfd =? -1 then
    w <- get_os ;;
    if errno w =? EINTR p then ret None else ret (Some peerfd)
  else
    failed <- either (uv__cloexec peerfd 1) (uv__nonblock peerfd 1) ;;
    if failed then sys_close peerfd ;; ret (Some (-1))
    else ret (Some peerfd).

(** One turn of the [while (1)] of [uv__accept]. *)
Definition accept_turn (sockfd : Z) : Sys (option Z) :=
  if linux p then
    peerfd <- uv__accept4 sockfd
                (Z.lor (UV__SOCK_NONBLOCK p) (UV__SOCK_CLOEXEC p)) ;;
    if negb (peerfd =? -1) then ret (Some peerfd)
    else
      w <- get_os ;;
      if errno w =? EINTR p then ret None
      else if negb (errno w =? ENOSYS p) then ret (Some peerfd)
      else accept_plain sockfd
  else accept_plain sockfd.

Fixpoint accept_loop (fuel : nat) (sockfd : Z) : Sys Z :=
  match fuel with
  | O => fun _ => Stuck
  | S fuel =>
      r <- accept_turn sockfd ;;
      match r with
      | Some peerfd => ret peerfd
      | None => accept_loop fuel sockfd
      end
  end.

(** [uv__accept].  Every turn of the loop makes a system call, so the loop
    cannot take more turns than there are answers. *)
Definition uv__accept (sockfd : Z) : Sys Z :=
  assert (0 <=? sockfd) ;;
  w <- get_os ;;
  accept_loop (S (length (script w))) sockfd.

(** Modelled from the spec: [SAVE_ERRNO] (a macro of a header that is not
    among the sources) runs a block and puts [errno] back to what it was
    before. *)
Definition SAVE_ERRNO {A} (m : Sys A) : Sys unit :=
  w <- get_os ;;
  m ;;
  modify (set_errno (errno w)).

(** [uv__dup]. *)
Definition uv__dup (fd : Z) : Sys Z :=
  fd <- sys_dup fd ;;
  if fd =? -1 then ret (-1)
  else
    r <- uv__cloexec fd 1 ;;
    if negb (r =? 0) then SAVE_ERRNO (sys_close fd) ;; ret (-1)
    else ret fd.

End Calls.

(** A descriptor is non-blocking, close-on-exec. *)
Definition nonblocking (p : platform) (d : descriptor) : bool :=
  has (status_flags d) (O_NONBLOCK p).
Definition close_on_exec (p : platform) (d : descriptor) : bool :=
  has (fd_flags d) (FD_CLOEXEC p).

(** Flag words are non-negative, so none is the -1 that reports an
    error. *)
Definition plain_flags (w : os) : Prop :=
  forall fd d, fds w !! fd = Some d -> 0 <= status_flags d /\ 0 <= fd_flags d.

(** A Linux, and a system that has none of the shortcuts. *)
Definition linux_x86 : platform :=
  mk_platform true true true 2048 1 2048 524288 2048 524288 4 22 38 9.
Definition portable : platform :=
  mk_platform false false false 4 1 0 0 0 0 4 22 78 9.

(** A process with a listening socket at descriptor 3. *)
Definition listening (answers : list answer) : os :=
  mk_os (<[3 := mk_descriptor 2 0]> ∅) 0 answers.

(** [runs k m w Q]: from [w] the call [m] does not abort, it needs at
    most [k] answers of the system, and when it returns its result and the
    state it leaves satisfy [Q]. *)
Definition runs {A} (k : nat) (m : Sys A) (w : os) (Q : A -> os -> Prop) : Prop :=
  match m w with
  | Done a w' => Q a w' /\ (length (script w) <= length (script w') + k)%nat
  | Abort => False
  | Stuck => (length (script w) < k)%nat
  end.

(** What a helper that sets a flag on [fd] leaves behind: on success the
    descriptor [d] has become [d'] and nothing else changed, on failure the
    descriptors are as they were. *)
Definition flag_set (fd : Z) (w : os) (ok : descriptor -> descriptor -> Prop)
    (r : Z) (w' : os) : Prop :=
  (r = 0 /\ exists d d', fds w !! fd = Some d /\
             fds w' = <[fd := d']> (fds w) /\ ok d d') \/
  (r = -1 /\ fds w' = fds w).

(** What a helper that opens a descriptor leaves behind: on failure the
    descriptors are as they were, on success one descriptor that was free
    is open and has the property [ok]. *)
Definition opened (w : os) (ok : descriptor -> Prop) (r : Z) (w' : os) : Prop :=
  (r = -1 /\ fds w' = fds w) \/
  (0 <= r /\ fds w !! r = None /\
   exists d, fds w' = <[r := d]> (fds w) /\ ok d).

(** Both flags. *)
Definition secured (p : platform) (d : descriptor) : Prop :=
  nonblocking p d = true /\ close_on_exec p d = true.

(** How often the system will answer with [EINTR]. *)
Fixpoint interrupts (p : platform) (l : list answer) : nat :=
  match l with
  | [] => 0
  | Fails e :: l => (if e =? EINTR p then 1 else 0) + interrupts p l
  | Works :: l => interrupts p l
  end.

(** One turn of the accept loop: when it asks for another turn the system
    has answered [EINTR] and the descriptors are as they were. *)
Definition turn_post (p : platform) (w : os) (r : option Z) (w' : os) : Prop :=
  match r with
  | None =>
      fds w' = fds w /\
      exists pre, script w = pre ++ Fails (EINTR p) :: script w'
  | Some r => opened w (secured p) r w'
  end.

(** *** Flag arithmetic *)

Lemma has_lor_same f m : m <> 0 -> has (Z.lor f m) m = true.
Proof.
  intros Hm. unfold has. apply negb_true_iff, Z.eqb_neq.
  replace (Z.land (Z.lor f m) m) with m; [exact Hm|].
  apply Z.bits_inj'. intros n Hn. rewrite Z.land_spec, Z.lor_spec.
  destruct (Z.testbit f n), (Z.testbit m n); reflexivity.
Qed.

Lemma has_lor_left a b : a <> 0 -> has (Z.lor a b) a = true.
Proof. intros Ha. rewrite Z.lor_comm. now apply has_lor_same. Qed.

Lemma has_lor_other f m c : has f m = true -> has (Z.lor f c) m = true.
Proof.
  unfold has. rewrite !negb_true_iff, !Z.eqb_neq. intros Hm H0. apply Hm.
  apply Z.bits_inj'. intros n Hn. rewrite Z.bits_0.
  apply (f_equal (fun x => Z.testbit x n)) in H0.
  rewrite Z.land_spec, Z.lor_spec, Z.bits_0 in H0. rewrite Z.land_spec.
  destruct (Z.testbit f n), (Z.testbit m n), (Z.testbit c n);
    try reflexivity; discriminate.
Qed.

Lemma has_land_lnot f m : has (Z.land f (Z.lnot m)) m = false.
Proof.
  unfold has. apply negb_false_iff, Z.eqb_eq.
  apply Z.bits_inj'. intros n Hn.
  rewrite !Z.land_spec, Z.lnot_spec, Z.bits_0 by exact Hn.
  destruct (Z.testbit f n), (Z.testbit m n); reflexivity.
Qed.

Lemma lor_keeps_others f m :
  Z.land (Z.lor f m) (Z.lnot m) = Z.land f (Z.lnot m).
Proof.
  apply Z.bits_inj'. intros n Hn.
  rewrite !Z.land_spec, Z.lor_spec, Z.lnot_spec by exact Hn.
  destruct (Z.testbit f n), (Z.testbit m n); reflexivity.
Qed.

Lemma land_keeps_others f m :
  Z.land (Z.land f (Z.lnot m)) (Z.lnot m) = Z.land f (Z.lnot m).
Proof.
  apply Z.bits_inj'. intros n Hn.
  rewrite !Z.land_spec, Z.lnot_spec by exact Hn.
  destruct (Z.testbit f n), (Z.testbit m n); reflexivity.
Qed.

Lemma has_self m : 0 < m -> has m m = true.
Proof.
  intros Hm. unfold has. rewrite Z.land_diag.
  apply negb_true_iff, Z.eqb_neq. lia.
Qed.

Lemma has_zero m : has 0 m = false.
Proof. unfold has. now rewrite Z.land_0_l. Qed.

(** *** The lowest free descriptor *)

Lemma first_free_ge used n : forall v, v <= first_free used n v.
Proof.
  induction n as [|n IH]; intros v; simpl; [lia|].
  case_bool_decide; [|lia]. specialize (IH (v + 1)). lia.
Qed.

Lemma first_free_free (used : gset Z) n : forall v,
  (size (filter (fun k => (v <= k)%Z) used) <= n)%nat ->
  first_free used n v ∉ used.
Proof.
  induction n as [|n IH]; intros v Hsize; simpl.
  - assert (He : filter (fun k => v <= k) used ≡ ∅)
      by (apply size_empty_inv; lia).
    intros Hin. apply (proj1 (elem_of_equiv_empty _) He v).
    apply elem_of_filter. split; [lia|exact Hin].
  - case_bool_decide as Hin; [|exact Hin].
    apply IH.
    assert (Heq : filter (fun k => v + 1 <= k) used
                  ≡ filter (fun k => v <= k) used ∖ {[v]}).
    { intros x. rewrite elem_of_difference, !elem_of_filter, elem_of_singleton.
      split; [intros [? ?]|intros [[? ?] ?]]; repeat split; auto; lia. }
    rewrite Heq, size_difference, size_singleton.
    + lia.
    + intros x. rewrite elem_of_singleton, elem_of_filter. intros ->.
      split; [lia|exact Hin].
Qed.

Lemma lowest_free_spec (m : gmap Z descriptor) :
  0 <= lowest_free m /\ m !! lowest_free m = None.
Proof.
  unfold lowest_free. split; [apply first_free_ge|].
  apply not_elem_of_dom. apply first_free_free.
  apply subseteq_size. intros x. rewrite elem_of_filter. tauto.
Qed.

(** *** Reasoning about calls *)

Lemma runs_ret {A} (a : A) w (Q : A -> os -> Prop) : Q a w -> runs 0 (ret a) w Q.
Proof. intros H. unfold runs, ret. split; [exact H|lia]. Qed.

Lemma runs_bind {A C} k1 k2 (m : Sys A) (f : A -> Sys C) w
    (Q1 : A -> os -> Prop) (Q2 : C -> os -> Prop) :
  runs k1 m w Q1 ->
  (forall a w', Q1 a w' -> runs k2 (f a) w' Q2) ->
  runs (k1 + k2) (x <- m ;; f x) w Q2.
Proof.
  unfold runs, bind. intros H1 H2.
  destruct (m w) as [a w1| |]; [|exact H1|lia].
  destruct H1 as [HQ Hlen]. specialize (H2 a w1 HQ).
  destruct (f a w1) as [c w2| |]; [|exact H2|lia].
  destruct H2 as [HQ2 Hlen2]. split; [exact HQ2|lia].
Qed.

Lemma runs_weaken {A} k k' (m : Sys A) w (Q Q' : A -> os -> Prop) :
  runs k m w Q -> (k <= k')%nat -> (forall a w', Q a w' -> Q' a w') ->
  runs k' m w Q'.
Proof.
  unfold runs. intros H Hk HQ. destruct (m w) as [a w1| |]; [|exact H|lia].
  destruct H. split; [auto|lia].
Qed.

Lemma runs_get w (Q : os -> os -> Prop) : Q w w -> runs 0 get_os w Q.
Proof. intros H. unfold runs, get_os. split; [exact H|lia]. Qed.

Lemma runs_next w (Q : answer -> os -> Prop) :
  (forall a rest, script w = a :: rest -> Q a (set_script rest w)) ->
  runs 1 next w Q.
Proof.
  intros H. unfold runs, next. destruct (script w) as [|a rest] eqn:Hs.
  - simpl. lia.
  - split; [now apply H|]. simpl. lia.
Qed.

Lemma runs_fail e w (Q : Z -> os -> Prop) :
  Q (-1) (set_errno e w) -> runs 0 (fail e) w Q.
Proof. intros H. unfold runs, fail, bind, modify, ret. split; [exact H|simpl; lia]. Qed.

(** A call that opens a descriptor. *)
Lemma runs_opening d0 w :
  runs 1 (opening d0) w (fun r w1 =>
    exists a, script w = a :: script w1 /\
      ((r = -1 /\ fds w1 = fds w /\ a = Fails (errno w1)) \/
       (0 <= r /\ fds w !! r = None /\ fds w1 = <[r := d0]> (fds w)))).
Proof.
  unfold opening.
  apply (runs_bind 1 0)
    with (Q1 := fun a w1 => fds w1 = fds w /\ script w = a :: script w1).
  - apply runs_next. intros a rest Hs. auto.
  - intros [e|] w1 [Hw1 Hs].
    + apply runs_fail. simpl. exists (Fails e). auto.
    + unfold runs, open_new. simpl. split; [|lia]. exists Works.
      split; [exact Hs|]. right.
      rewrite Hw1. destruct (lowest_free_spec (fds w)). auto.
Qed.

(** *** The two flag helpers *)

Ltac unfold_sys :=
  unfold uv__nonblock, uv__cloexec, ioctl_fionbio, fcntl_getfl, fcntl_setfl,
    fcntl_getfd, fcntl_setfd, sys_socket, sys_accept, uv__accept4, sys_dup,
    sys_close, opening, on_fd, update_fd, open_new, fail, next, bind, ret,
    get_os, modify, either, SAVE_ERRNO in *.

Lemma nonblock_runs p fd set w :
  sane p ->
  (forall d, fds w !! fd = Some d -> status_flags d <> -1) ->
  runs 2 (uv__nonblock p fd set) w
    (flag_set fd w (fun d d' =>
       nonblocking p d' = negb (set =? 0) /\
       Z.land (status_flags d') (Z.lnot (O_NONBLOCK p))
       = Z.land (status_flags d) (Z.lnot (O_NONBLOCK p)) /\
       fd_flags d' = fd_flags d)).
Proof.
  intros (Hnb & _) Hplain. unfold runs, flag_set, nonblocking. unfold_sys.
  destruct (fionbio p).
  - destruct (script w) as [|[e|] rest]; simpl; [lia|split; [auto|lia]|].
    destruct (fds w !! fd) as [d|] eqn:Hd; simpl; [|split; [auto|lia]].
    split; [|lia].
    left. split; [reflexivity|]. exists d. eexists.
    split; [reflexivity|]. split; [reflexivity|]. simpl.
    destruct (set =? 0); simpl.
    + split; [apply has_land_lnot|]. split; [apply land_keeps_others|auto].
    + split; [apply has_lor_same; lia|]. split; [apply lor_keeps_others|auto].
  - destruct (script w) as [|[e|] rest]; simpl; [lia|split; [auto|lia]|].
    destruct (fds w !! fd) as [d|] eqn:Hd; simpl; [|split; [auto|lia]].
    destruct (status_flags d =? -1) eqn:Hm1;
      [apply Z.eqb_eq in Hm1; elim (Hplain d eq_refl Hm1)|].
    destruct rest as [|[e|] rest]; simpl; [lia|split; [auto|lia]|].
    rewrite Hd. simpl. split; [|lia].
    left. split; [reflexivity|]. exists d. eexists.
    split; [reflexivity|]. split; [reflexivity|]. simpl.
    destruct (set =? 0); simpl.
    + split; [apply has_land_lnot|]. split; [apply land_keeps_others|auto].
    + split; [apply has_lor_same; lia|]. split; [apply lor_keeps_others|auto].
Qed.

Lemma cloexec_runs p fd set w :
  sane p ->
  (forall d, fds w !! fd = Some d -> fd_flags d <> -1) ->
  runs 2 (uv__cloexec p fd set) w
    (flag_set fd w (fun d d' =>
       close_on_exec p d' = negb (set =? 0) /\
       status_flags d' = status_flags d /\
       if linux p then fd_flags d' = (if set =? 0 then 0 else FD_CLOEXEC p)
       else Z.land (fd_flags d') (Z.lnot (FD_CLOEXEC p))
            = Z.land (fd_flags d) (Z.lnot (FD_CLOEXEC p)))).
Proof.
  intros (_ & Hce & _) Hplain. unfold runs, flag_set, close_on_exec. unfold_sys.
  destruct (linux p).
  - destruct (script w) as [|[e|] rest]; simpl; [lia|split; [auto|lia]|].
    destruct (fds w !! fd) as [d|] eqn:Hd; simpl; [|split; [auto|lia]].
    split; [|lia].
    left. split; [reflexivity|]. exists d. eexists.
    split; [reflexivity|]. split; [reflexivity|]. simpl.
    destruct (set =? 0); simpl.
    + split; [apply has_zero|auto].
    + split; [apply has_self; lia|auto].
  - destruct (script w) as [|[e|] rest]; simpl; [lia|split; [auto|lia]|].
    destruct (fds w !! fd) as [d|] eqn:Hd; simpl; [|split; [auto|lia]].
    destruct (fd_flags d =? -1) eqn:Hm1;
      [apply Z.eqb_eq in Hm1; elim (Hplain d eq_refl Hm1)|].
    destruct rest as [|[e|] rest]; simpl; [lia|split; [auto|lia]|].
    rewrite Hd. simpl. split; [|lia].
    left. split; [reflexivity|]. exists d. eexists.
    split; [reflexivity|]. split; [reflexivity|]. simpl.
    destruct (set =? 0); simpl.
    + split; [apply has_land_lnot|]. split; [reflexivity|apply land_keeps_others].
    + split; [apply has_lor_same; lia|]. split; [reflexivity|apply lor_keeps_others].
Qed.

Lemma sys_close_runs fd w :
  runs 1 (sys_close fd) w (fun _ w' => fds w' = delete fd (fds w)).
Proof.
  unfold runs. unfold_sys.
  destruct (script w) as [|[e|] rest]; simpl; [lia| |]; split; auto; lia.
Qed.

(** Setting both flags on a descriptor, in either order: only that
    descriptor changes, and if neither call failed it has both flags. *)
Lemma both_flags p fd w d (nonblock_first : bool) :
  sane p -> fds w !! fd = Some d ->
  0 <= status_flags d -> 0 <= fd_flags d ->
  runs 4 (if nonblock_first
          then either (uv__nonblock p fd 1) (uv__cloexec p fd 1)
          else either (uv__cloexec p fd 1) (uv__nonblock p fd 1)) w
    (fun failed w' =>
       exists d', fds w' = <[fd := d']> (fds w) /\
                  (failed = false -> secured p d')).
Proof.
  intros Hp Hd Hst Hfl. unfold secured.
  assert (Hsame : fds w = <[fd := d]> (fds w)) by (now rewrite insert_id).
  destruct nonblock_first; unfold either.
  - eapply (runs_bind 2 2); [apply (nonblock_runs p fd 1 w Hp)|].
    { intros d0. rewrite Hd. intros [= <-]. lia. }
    intros r1 w1 [(-> & d0 & d1 & Hd0 & Hw1 & Hnb & _ & Hf1)|(-> & Hw1)];
      [|simpl; apply runs_weaken with 0%nat
                 (fun b w' => b = true /\ w' = w1);
        [apply runs_ret; auto|lia|];
        intros b w' (-> & ->); exists d; split; [congruence|discriminate]].
    rewrite Hd in Hd0. injection Hd0 as <-. simpl.
    change 2%nat with (2 + 0)%nat.
    eapply runs_bind; [apply (cloexec_runs p fd 1 w1 Hp)|].
    { intros d0. rewrite Hw1, lookup_insert_eq. intros [= <-]. lia. }
    intros r2 w2 [(-> & d0 & d2 & Hd0 & Hw2 & Hce & Hs2 & _)|(-> & Hw2)];
      apply runs_ret; simpl.
    + rewrite Hw1, lookup_insert_eq in Hd0. injection Hd0 as <-.
      rewrite Hw1, insert_insert_eq in Hw2. exists d2.
      split; [exact Hw2|]. intros _. split; [|exact Hce].
      unfold nonblocking in *. now rewrite Hs2.
    + exists d1. split; [congruence|discriminate].
  - eapply (runs_bind 2 2); [apply (cloexec_runs p fd 1 w Hp)|].
    { intros d0. rewrite Hd. intros [= <-]. lia. }
    intros r1 w1 [(-> & d0 & d1 & Hd0 & Hw1 & Hce & Hs1 & _)|(-> & Hw1)];
      [|simpl; apply runs_weaken with 0%nat
                 (fun b w' => b = true /\ w' = w1);
        [apply runs_ret; auto|lia|];
        intros b w' (-> & ->); exists d; split; [congruence|discriminate]].
    rewrite Hd in Hd0. injection Hd0 as <-. simpl.
    change 2%nat with (2 + 0)%nat.
    eapply runs_bind; [apply (nonblock_runs p fd 1 w1 Hp)|].
    { intros d0. rewrite Hw1, lookup_insert_eq. intros [= <-]. lia. }
    intros r2 w2 [(-> & d0 & d2 & Hd0 & Hw2 & Hnb & _ & Hf2)|(-> & Hw2)];
      apply runs_ret; simpl.
    + rewrite Hw1, lookup_insert_eq in Hd0. injection Hd0 as <-.
      rewrite Hw1, insert_insert_eq in Hw2. exists d2.
      split; [exact Hw2|]. intros _. split; [exact Hnb|].
      unfold close_on_exec in *. now rewrite Hf2.
    + exists d1. split; [congruence|discriminate].
Qed.

(** The common end of [uv__socket] and [uv__accept]: a descriptor [v] just
    opened gets both flags, or is closed again. *)
Lemma secure_or_close {A} p v w0 w d0 (nonblock_first : bool) (x y : A) :
  sane p -> fds w0 !! v = None -> fds w = <[v := d0]> (fds w0) ->
  0 <= status_flags d0 -> 0 <= fd_flags d0 ->
  runs 5 (failed <- (if nonblock_first
                     then either (uv__nonblock p v 1) (uv__cloexec p v 1)
                     else either (uv__cloexec p v 1) (uv__nonblock p v 1)) ;;
          if failed then sys_close v ;; ret x else ret y) w
    (fun a w' =>
       (a = x /\ fds w' = fds w0) \/
       (a = y /\ exists d, fds w' = <[v := d]> (fds w0) /\ secured p d)).
Proof.
  intros Hp Hfree Hw Hst Hfl.
  eapply (runs_bind 4 1); [apply (both_flags p v w d0 nonblock_first Hp)|];
    try assumption.
  { rewrite Hw. apply lookup_insert_eq. }
  intros failed w1 (d1 & Hw1 & Hok). rewrite Hw, insert_insert_eq in Hw1.
  destruct failed.
  - change 1%nat with (1 + 0)%nat.
    eapply runs_bind; [apply sys_close_runs|].
    intros r0 w2 Hw2. apply runs_ret. left. split; [reflexivity|].
    rewrite Hw2, Hw1. now apply delete_insert_id.
  - apply runs_weaken with 0%nat (fun a w' => a = y /\ w' = w1);
      [apply runs_ret; auto|lia|].
    intros a w' (-> & ->). right. split; [reflexivity|]. eauto.
Qed.

Lemma socket_fallback_runs p domain type protocol w :
  sane p ->
  runs 6 (socket_fallback p domain type protocol) w (opened w (secured p)).
Proof.
  intros Hp. unfold socket_fallback, sys_socket.
  set (d0 := mk_descriptor
               (if has type (SOCK_NONBLOCK p) then O_NONBLOCK p else 0)
               (if has type (SOCK_CLOEXEC p) then FD_CLOEXEC p else 0)).
  eapply (runs_bind 1 5); [apply runs_opening|].
  intros r w1 (a0 & _ & [(-> & Hw1 & _)|(Hr & Hfree & Hw1)]).
  - simpl. apply runs_weaken with 0%nat (fun a w' => a = -1 /\ w' = w1);
      [apply runs_ret; auto|lia|].
    intros a w' (-> & ->). left. auto.
  - destruct (r =? -1) eqn:Hm1; [apply Z.eqb_eq in Hm1; lia|].
    assert (Hd0 : 0 <= status_flags d0 /\ 0 <= fd_flags d0).
    { destruct Hp as (? & ? & _). subst d0. simpl.
      split; match goal with |- context [if ?b then _ else _] => destruct b end;
        lia. }
    eapply runs_weaken;
      [exact (secure_or_close p r w w1 d0 true (-1) r Hp Hfree Hw1
                (proj1 Hd0) (proj2 Hd0))|lia|].
    intros a w' [(-> & Hw')|(-> & d & Hw' & Hok)]; [left; auto|].
    right. split; [exact Hr|]. split; [exact Hfree|]. eauto.
Qed.

Lemma uv__socket_runs p domain type protocol w :
  sane p ->
  runs 7 (uv__socket p domain type protocol) w (opened w (secured p)).
Proof.
  intros Hp. unfold uv__socket.
  destruct (atomic_flags p) eqn:Hat;
    [|eapply runs_weaken; [now apply socket_fallback_runs|lia|auto]].
  unfold sys_socket.
  set (ty := Z.lor (Z.lor type (SOCK_NONBLOCK p)) (SOCK_CLOEXEC p)).
  set (d0 := mk_descriptor
               (if has ty (SOCK_NONBLOCK p) then O_NONBLOCK p else 0)
               (if has ty (SOCK_CLOEXEC p) then FD_CLOEXEC p else 0)).
  eapply (runs_bind 1 6); [apply runs_opening|].
  intros r w1 (a0 & _ & [(-> & Hw1 & _)|(Hr & Hfree & Hw1)]).
  - simpl.
    apply (runs_bind 0 6) with (Q1 := fun a w' => a = w1 /\ w' = w1);
      [apply runs_get; auto|].
    intros w0 w1' [-> ->].
    destruct (negb (errno w1 =? EINVAL p)).
    + apply runs_weaken with 0%nat (fun a w' => a = -1 /\ w' = w1);
        [apply runs_ret; auto|lia|].
      intros a w' (-> & ->). left. auto.
    + eapply runs_weaken; [exact (socket_fallback_runs p domain type protocol w1 Hp)|lia|].
      intros a w'. unfold opened. rewrite Hw1. auto.
  - destruct (r =? -1) eqn:Hm1; [apply Z.eqb_eq in Hm1; lia|]. simpl.
    apply runs_weaken with 0%nat (fun a w' => a = r /\ w' = w1);
      [apply runs_ret; auto|lia|].
    intros a w' (-> & ->).
    right. split; [exact Hr|]. split; [exact Hfree|]. exists d0.
    split; [exact Hw1|].
    destruct Hp as (Hnb & Hce & Hsock & _).
    destruct (Hsock Hat) as [Hsn Hsc].
    unfold secured, nonblocking, close_on_exec. subst d0 ty. simpl.
    rewrite (has_lor_other _ _ _ (has_lor_same type _ Hsn)).
    rewrite (has_lor_same _ _ Hsc).
    split; apply has_self; assumption.
Qed.

(** The first [socket] call failed with something else than [EINVAL]:
    [uv__socket] returns -1 without a second attempt. *)
Lemma uv__socket_gives_up p domain type protocol w e rest :
  atomic_flags p = true -> script w = Fails e :: rest -> e <> EINVAL p ->
  uv__socket p domain type protocol w = Done (-1) (mk_os (fds w) e rest).
Proof.
  intros Hat Hs He. unfold uv__socket. rewrite Hat. unfold_sys.
  rewrite Hs. simpl. apply Z.eqb_neq in He. now rewrite He.
Qed.

(** It failed with [EINVAL]: the call is made again without the flags. *)
Lemma uv__socket_falls_back p domain type protocol w rest :
  atomic_flags p = true -> script w = Fails (EINVAL p) :: rest ->
  uv__socket p domain type protocol w
  = socket_fallback p domain type protocol (mk_os (fds w) (EINVAL p) rest).
Proof.
  intros Hat Hs. unfold uv__socket. rewrite Hat.
  unfold bind at 1. unfold sys_socket, opening, next, bind, fail, modify, ret.
  rewrite Hs. simpl. unfold bind, get_os. simpl.
  now rewrite Z.eqb_refl.
Qed.

(** *** [uv__accept] *)

Lemma accept_plain_runs p sockfd w :
  sane p -> runs 6 (accept_plain p sockfd) w (turn_post p w).
Proof.
  intros Hp. unfold accept_plain, sys_accept.
  eapply (runs_bind 1 5); [apply runs_opening|].
  intros r w1 (a0 & Hs & [(-> & Hw1 & Ha0)|(Hr & Hfree & Hw1)]).
  - simpl.
    apply (runs_bind 0 5) with (Q1 := fun a w' => a = w1 /\ w' = w1);
      [apply runs_get; auto|].
    intros w0 w1' [-> ->].
    destruct (errno w1 =? EINTR p) eqn:Hint.
    + apply runs_weaken with 0%nat (fun a w' => a = None /\ w' = w1);
        [apply runs_ret; auto|lia|].
      intros a w' (-> & ->). simpl. split; [exact Hw1|].
      exists []. simpl. apply Z.eqb_eq in Hint. congruence.
    + apply runs_weaken with 0%nat (fun a w' => a = Some (-1) /\ w' = w1);
        [apply runs_ret; auto|lia|].
      intros a w' (-> & ->). left. auto.
  - destruct (r =? -1) eqn:Hm1; [apply Z.eqb_eq in Hm1; lia|].
    eapply runs_weaken;
      [exact (secure_or_close p r w w1 (mk_descriptor 0 0) false
                (Some (-1)) (Some r) Hp Hfree Hw1 (Z.le_refl 0) (Z.le_refl 0))
      |lia|].
    intros a w' [(-> & Hw')|(-> & d & Hw' & Hok)]; simpl.
    + left. auto.
    + right. split; [exact Hr|]. split; [exact Hfree|]. eauto.
Qed.

Lemma accept_turn_runs p sockfd w :
  sane p -> runs 7 (accept_turn p sockfd) w (turn_post p w).
Proof.
  intros Hp. unfold accept_turn.
  destruct (linux p) eqn:Hlinux;
    [|eapply runs_weaken; [now apply accept_plain_runs|lia|auto]].
  unfold uv__accept4.
  set (fl := Z.lor (UV__SOCK_NONBLOCK p) (UV__SOCK_CLOEXEC p)).
  set (d0 := mk_descriptor
               (if has fl (UV__SOCK_NONBLOCK p) then O_NONBLOCK p else 0)
               (if has fl (UV__SOCK_CLOEXEC p) then FD_CLOEXEC p else 0)).
  eapply (runs_bind 1 6); [apply runs_opening|].
  intros r w1 (a0 & Hs & [(-> & Hw1 & Ha0)|(Hr & Hfree & Hw1)]).
  - simpl.
    apply (runs_bind 0 6) with (Q1 := fun a w' => a = w1 /\ w' = w1);
      [apply runs_get; auto|].
    intros w0 w1' [-> ->].
    destruct (errno w1 =? EINTR p) eqn:Hint.
    + apply runs_weaken with 0%nat (fun a w' => a = None /\ w' = w1);
        [apply runs_ret; auto|lia|].
      intros a w' (-> & ->). simpl. split; [exact Hw1|].
      exists []. simpl. apply Z.eqb_eq in Hint. congruence.
    + destruct (negb (errno w1 =? ENOSYS p)).
      * apply runs_weaken with 0%nat (fun a w' => a = Some (-1) /\ w' = w1);
          [apply runs_ret; auto|lia|].
        intros a w' (-> & ->). left. auto.
      * eapply runs_weaken; [exact (accept_plain_runs p sockfd w1 Hp)|lia|].
        intros [a|] w'; unfold turn_post, opened; rewrite Hw1; [auto|].
        intros [? (pre & Hpre)]. split; [assumption|].
        exists (a0 :: pre). rewrite Hs, Hpre. reflexivity.
  - destruct (r =? -1) eqn:Hm1; [apply Z.eqb_eq in Hm1; lia|]. simpl.
    apply runs_weaken with 0%nat (fun a w' => a = Some r /\ w' = w1);
      [apply runs_ret; auto|lia|].
    intros a w' (-> & ->).
    right. split; [exact Hr|]. split; [exact Hfree|]. exists d0.
    split; [exact Hw1|].
    destruct Hp as (Hnb & Hce & _ & Hacc).
    destruct (Hacc Hlinux) as [Hsn Hsc].
    unfold secured, nonblocking, close_on_exec. subst d0 fl. simpl.
    rewrite (has_lor_left _ _ Hsn), (has_lor_same _ _ Hsc).
    split; apply has_self; assumption.
Qed.

Lemma accept_loop_spec p sockfd fuel : forall w,
  sane p ->
  match accept_loop p fuel sockfd w with
  | Done r w' => opened w (secured p) r w'
  | Abort => False
  | Stuck => True
  end.
Proof.
  induction fuel as [|fuel IH]; intros w Hp; simpl; [exact I|].
  unfold bind. pose proof (accept_turn_runs p sockfd w Hp) as H.
  unfold runs in H.
  destruct (accept_turn p sockfd w) as [[r|] w1| |];
    [apply H| |exact H|exact I].
  destruct H as [[Hw1 _] _]. specialize (IH w1 Hp).
  destruct (accept_loop p fuel sockfd w1) as [a w'| |]; [|exact IH|exact I].
  revert IH. unfold opened. rewrite Hw1. auto.
Qed.

(** The loop never takes more turns than there are answers: more fuel
    than that changes nothing. *)
Lemma accept_loop_fuel p sockfd fuel : forall fuel' w,
  sane p ->
  (length (script w) < fuel)%nat -> (length (script w) < fuel')%nat ->
  accept_loop p fuel sockfd w = accept_loop p fuel' sockfd w.
Proof.
  induction fuel as [|fuel IH]; intros fuel' w Hp H1 H2; [lia|].
  destruct fuel' as [|fuel']; [lia|]. simpl. unfold bind.
  pose proof (accept_turn_runs p sockfd w Hp) as H. unfold runs in H.
  destruct (accept_turn p sockfd w) as [[r|] w1| |]; try reflexivity.
  destruct H as [[_ (pre & Hpre)] _].
  assert (length (script w1) < length (script w))%nat
    by (rewrite Hpre, length_app; simpl; lia).
  apply IH; [exact Hp|lia|lia].
Qed.

(** An interrupted accept: the loop takes another turn. *)
Lemma accept_turn_interrupted p sockfd w rest :
  script w = Fails (EINTR p) :: rest ->
  accept_turn p sockfd w = Done None (mk_os (fds w) (EINTR p) rest).
Proof.
  intros Hs. unfold accept_turn, accept_plain. unfold_sys.
  destruct (linux p); cbv beta; rewrite Hs; simpl; now rewrite Z.eqb_refl.
Qed.

Lemma interrupts_app p l1 l2 :
  interrupts p (l1 ++ l2) = (interrupts p l1 + interrupts p l2)%nat.
Proof.
  induction l1 as [|[e|] l1 IH]; simpl; [reflexivity| |exact IH].
  rewrite IH. lia.
Qed.

(** With seven answers for each interruption to come and seven more, the
    loop returns. *)
Lemma accept_loop_returns p sockfd n : forall fuel w,
  sane p -> (interrupts p (script w) <= n)%nat ->
  (7 * (n + 1) <= length (script w))%nat -> (length (script w) < fuel)%nat ->
  exists r w', accept_loop p fuel sockfd w = Done r w'.
Proof.
  induction n as [|n IH]; intros fuel w Hp Hint Hlen Hfuel;
    (destruct fuel as [|fuel]; [lia|]); simpl; unfold bind;
    pose proof (accept_turn_runs p sockfd w Hp) as H; unfold runs in H;
    destruct (accept_turn p sockfd w) as [[r|] w1| |];
    try (exfalso; lia); try (exfalso; exact H); eauto;
    destruct H as [[_ (pre & Hpre)] Hused];
    assert (Hcount : (S (interrupts p (script w1)) <= interrupts p (script w))%nat)
      by (rewrite Hpre, interrupts_app; simpl; rewrite Z.eqb_refl; lia).
  - lia.
  - assert (length (script w1) < length (script w))%nat
      by (rewrite Hpre, length_app; simpl; lia).
    apply IH; [exact Hp|lia|lia|lia].
Qed.

(** *** [uv__dup] *)

Lemma sys_dup_runs p fd w :
  runs 1 (sys_dup p fd) w (fun r w1 =>
    (r = -1 /\ fds w1 = fds w) \/
    (0 <= r /\ fds w !! r = None /\
     exists d0, fds w !! fd = Some d0 /\
       fds w1 = <[r := mk_descriptor (status_flags d0) 0]> (fds w))).
Proof.
  unfold runs. unfold_sys.
  destruct (script w) as [|[e|] rest]; cbn; [lia|split; [auto|lia]|].
  destruct (fds w !! fd) as [d0|] eqn:Hd0; cbn; [|split; [auto|lia]].
  split; [|lia]. right. destruct (lowest_free_spec (fds w)). eauto 10.
Qed.

Lemma uv__dup_runs p fd w :
  sane p ->
  runs 4 (uv__dup p fd) w
    (opened w (fun d =>
       close_on_exec p d = true /\
       exists d0, fds w !! fd = Some d0 /\ status_flags d = status_flags d0)).
Proof.
  intros Hp. unfold uv__dup.
  eapply (runs_bind 1 3); [apply sys_dup_runs|].
  intros v w1 [(-> & Hw1)|(Hv & Hfree & d0 & Hd0 & Hw1)].
  - simpl. apply runs_weaken with 0%nat (fun a w' => a = -1 /\ w' = w1);
      [apply runs_ret; auto|lia|].
    intros a w' (-> & ->). left. auto.
  - destruct (v =? -1) eqn:Hm1; [apply Z.eqb_eq in Hm1; lia|].
    eapply (runs_bind 2 1); [apply (cloexec_runs p v 1 w1 Hp)|].
    { intros d. rewrite Hw1, lookup_insert_eq. intros [= <-]. simpl. lia. }
    intros r w2 [(-> & d & d' & Hd & Hw2 & Hce & Hst & _)|(-> & Hw2)]; simpl.
    + rewrite Hw1, lookup_insert_eq in Hd. injection Hd as <-.
      rewrite Hw1, insert_insert_eq in Hw2.
      apply runs_weaken with 0%nat (fun a w' => a = v /\ w' = w2);
        [apply runs_ret; auto|lia|].
      intros a w' (-> & ->).
      right. split; [exact Hv|]. split; [exact Hfree|]. exists d'.
      split; [exact Hw2|]. split; [exact Hce|]. exists d0. auto.
    + change 1%nat with (1 + 0)%nat.
      apply runs_bind with (Q1 := fun _ w3 => fds w3 = fds w).
      * unfold runs, SAVE_ERRNO, sys_close, next, bind, get_os, modify, fail, ret.
        destruct (script w2) as [|[e|] rest2]; simpl; [lia| |];
          (split; [|lia]); rewrite Hw2, Hw1; now apply delete_insert_id.
      * intros [] w3 Hw3. apply runs_ret. left. auto.
Qed.

(** [dup] worked and the first call of [uv__cloexec] failed with [e]:
    [uv__dup] closes the copy and returns -1 with [errno] still [e], whatever
    [close] reports. *)
Lemma uv__dup_keeps_errno p fd w e a rest d0 :
  script w = Works :: Fails e :: a :: rest -> fds w !! fd = Some d0 ->
  uv__dup p fd w = Done (-1) (mk_os (fds w) e rest).
Proof.
  intros Hs Hd0. unfold uv__dup. unfold_sys.
  rewrite Hs. cbn. rewrite Hd0. cbn.
  destruct (lowest_free_spec (fds w)) as [Hv Hfree].
  destruct (lowest_free (fds w) =? -1) eqn:Hm1; [apply Z.eqb_eq in Hm1; lia|].
  destruct (linux p); destruct a as [e'|]; cbn;
    now rewrite delete_insert_id.
Qed.

(** *** The properties *)

Lemma sane_linux_x86 : sane linux_x86.
Proof. unfold sane. simpl. repeat split; (lia || discriminate). Qed.

Lemma sane_portable : sane portable.
Proof. unfold sane. simpl. repeat split; (lia || discriminate). Qed.

Lemma listening_plain answers : plain_flags (listening answers).
Proof.
  intros fd d. unfold listening. simpl.
  destruct (decide (fd = 3)) as [->|Hne].
  - rewrite lookup_insert_eq. intros [= <-]. simpl. lia.
  - rewrite lookup_insert_ne by congruence. rewrite lookup_empty. discriminate.
Qed.

(** X17 - [uv__nonblock], in both of its variants, needs at most two
    answers of the system and does not abort.  When it returns 0 the
    descriptor was open, its [O_NONBLOCK] flag is set exactly if [set] is not
    zero, its other status flags and its descriptor flags are as before, and
    no other descriptor changed; otherwise it returns -1 and no descriptor
    changed. *)
Theorem nonblock_flips_one_flag p fd set w :
  sane p -> plain_flags w ->
  runs 2 (uv__nonblock p fd set) w
    (flag_set fd w (fun d d' =>
       nonblocking p d' = negb (set =? 0) /\
       Z.land (status_flags d') (Z.lnot (O_NONBLOCK p))
       = Z.land (status_flags d) (Z.lnot (O_NONBLOCK p)) /\
       fd_flags d' = fd_flags d)).
Proof.
  intros Hp Hplain. apply nonblock_runs; [exact Hp|].
  intros d Hd. destruct (Hplain fd d Hd). lia.
Qed.

Lemma nonblock_flips_one_flag_witness :
  uv__nonblock portable 3 1 (listening [Works; Works])
  = Done 0 (mk_os (<[3 := mk_descriptor 6 0]> ∅) 0 []) /\
  runs 2 (uv__nonblock portable 3 1) (listening [Works; Works])
    (flag_set 3 (listening [Works; Works]) (fun d d' =>
       nonblocking portable d' = negb (1 =? 0) /\
       Z.land (status_flags d') (Z.lnot (O_NONBLOCK portable))
       = Z.land (status_flags d) (Z.lnot (O_NONBLOCK portable)) /\
       fd_flags d' = fd_flags d)).
Proof.
  split; [vm_compute; reflexivity|].
  apply (nonblock_flips_one_flag portable 3 1 (listening [Works; Works])).
  - exact sane_portable.
  - apply listening_plain.
Defined.

(** X18 - [uv__cloexec], in both of its variants, needs at most two answers
    of the system and does not abort.  When it returns 0 the descriptor was
    open, its [FD_CLOEXEC] flag is set exactly if [set] is not zero and its
    status flags are as before (the Linux variant overwrites the other
    descriptor flags, the portable one keeps them), and no other descriptor
    changed; otherwise it returns -1 and no descriptor changed. *)
Theorem cloexec_flips_one_flag p fd set w :
  sane p -> plain_flags w ->
  runs 2 (uv__cloexec p fd set) w
    (flag_set fd w (fun d d' =>
       close_on_exec p d' = negb (set =? 0) /\
       status_flags d' = status_flags d /\
       if linux p then fd_flags d' = (if set =? 0 then 0 else FD_CLOEXEC p)
       else Z.land (fd_flags d') (Z.lnot (FD_CLOEXEC p))
            = Z.land (fd_flags d) (Z.lnot (FD_CLOEXEC p)))).
Proof.
  intros Hp Hplain. apply cloexec_runs; [exact Hp|].
  intros d Hd. destruct (Hplain fd d Hd). lia.
Qed.

Lemma cloexec_flips_one_flag_witness :
  uv__cloexec linux_x86 3 1 (listening [Works])
  = Done 0 (mk_os (<[3 := mk_descriptor 2 1]> ∅) 0 []) /\
  runs 2 (uv__cloexec linux_x86 3 1) (listening [Works])
    (flag_set 3 (listening [Works]) (fun d d' =>
       close_on_exec linux_x86 d' = negb (1 =? 0) /\
       status_flags d' = status_flags d /\
       fd_flags d' = (if 1 =? 0 then 0 else FD_CLOEXEC linux_x86))).
Proof.
  split; [vm_compute; reflexivity|].
  apply (cloexec_flips_one_flag linux_x86 3 1 (listening [Works])).
  - exact sane_linux_x86.
  - apply listening_plain.
Defined.

(** X19 - [uv__socket] needs at most seven answers of the system and does
    not abort.  It returns either -1, with the open descriptors as they were
    (a socket it had opened is closed again), or a descriptor that was free,
    is now open and is both non-blocking and close-on-exec.  Where the
    flags can be given to [socket] itself, a first failure with another
    [errno] than [EINVAL] is returned at once, and one with [EINVAL] makes it
    start over without the flags. *)
Theorem socket_secured_or_nothing p domain type protocol w :
  sane p ->
  runs 7 (uv__socket p domain type protocol) w (opened w (secured p)) /\
  (atomic_flags p = true ->
   forall e rest, script w = Fails e :: rest -> e <> EINVAL p ->
     uv__socket p domain type protocol w = Done (-1) (mk_os (fds w) e rest)) /\
  (atomic_flags p = true ->
   forall rest, script w = Fails (EINVAL p) :: rest ->
     uv__socket p domain type protocol w
     = socket_fallback p domain type protocol (mk_os (fds w) (EINVAL p) rest)).
Proof.
  intros Hp. split; [now apply uv__socket_runs|]. split.
  - intros Hat e rest. now apply uv__socket_gives_up.
  - intros Hat rest. now apply uv__socket_falls_back.
Qed.

Lemma socket_secured_or_nothing_witness :
  uv__socket linux_x86 2 1 0 (listening [Fails 22; Works; Works; Works])
  = Done 0 (mk_os (<[0 := mk_descriptor 2048 1]> (<[3 := mk_descriptor 2 0]> ∅))
              22 []) /\
  runs 7 (uv__socket linux_x86 2 1 0)
    (listening [Fails 22; Works; Works; Works])
    (opened (listening [Fails 22; Works; Works; Works]) (secured linux_x86)).
Proof.
  split; [vm_compute; reflexivity|].
  apply (socket_secured_or_nothing linux_x86 2 1 0
           (listening [Fails 22; Works; Works; Works]) sane_linux_x86).
Defined.

(** X20 - [uv__accept] aborts on a negative descriptor.  Otherwise it does
    not abort, and it returns either -1, with the open descriptors as they
    were, or a descriptor that was free, is now open and is both
    non-blocking and close-on-exec.  An accept that fails with [EINTR] is
    tried again; the loop takes no more turns than the system has answers,
    and it returns whenever the system has seven answers for each [EINTR] to
    come and seven more. *)
Theorem accept_secured_or_nothing p sockfd w :
  sane p ->
  (sockfd < 0 -> uv__accept p sockfd w = Abort) /\
  (0 <= sockfd ->
   match uv__accept p sockfd w with
   | Done r w' => opened w (secured p) r w'
   | Abort => False
   | Stuck => True
   end /\
   (forall fuel, (length (script w) < fuel)%nat ->
      accept_loop p fuel sockfd w = uv__accept p sockfd w) /\
   (forall rest, script w = Fails (EINTR p) :: rest ->
      uv__accept p sockfd w
      = uv__accept p sockfd (mk_os (fds w) (EINTR p) rest)) /\
   ((7 * (interrupts p (script w) + 1) <= length (script w))%nat ->
    exists r w', uv__accept p sockfd w = Done r w')).
Proof.
  intros Hp. split.
  - intros Hneg. unfold uv__accept, bind, assert.
    destruct (0 <=? sockfd) eqn:Hs; [apply Z.leb_le in Hs; lia|reflexivity].
  - intros Hpos.
    assert (Hrun : uv__accept p sockfd w
                   = accept_loop p (S (length (script w))) sockfd w).
    { unfold uv__accept, bind, assert, get_os.
      destruct (0 <=? sockfd) eqn:Hs; [reflexivity|apply Z.leb_gt in Hs; lia]. }
    split; [rewrite Hrun; now apply accept_loop_spec|].
    split; [intros fuel Hfuel; rewrite Hrun;
            apply accept_loop_fuel; [exact Hp|lia|lia]|].
    split.
    + intros rest Hs. rewrite Hrun.
      assert (Hrun' : uv__accept p sockfd (mk_os (fds w) (EINTR p) rest)
                      = accept_loop p (S (length rest)) sockfd
                          (mk_os (fds w) (EINTR p) rest)).
      { unfold uv__accept, bind, assert, get_os.
        destruct (0 <=? sockfd) eqn:Hs'; [reflexivity|apply Z.leb_gt in Hs'; lia]. }
      rewrite Hrun', Hs. simpl. unfold bind.
      rewrite (accept_turn_interrupted p sockfd w rest Hs). reflexivity.
    + intros Hlen. rewrite Hrun.
      apply (accept_loop_returns p sockfd (interrupts p (script w)));
        [exact Hp|lia|exact Hlen|lia].
Qed.

Lemma accept_secured_or_nothing_witness :
  uv__accept linux_x86 3 (listening [Fails 4; Works])
  = Done 0 (mk_os (<[0 := mk_descriptor 2048 1]> (<[3 := mk_descriptor 2 0]> ∅))
              4 []) /\
  uv__accept linux_x86 3 (listening [Fails 4; Works])
  = uv__accept linux_x86 3 (mk_os (fds (listening [])) 4 [Works]) /\
  uv__accept linux_x86 (-1) (listening [Works]) = Abort.
Proof.
  destruct (accept_secured_or_nothing linux_x86 3
              (listening [Fails 4; Works]) sane_linux_x86)
    as (_ & Hpos).
  destruct (Hpos ltac:(lia)) as (_ & _ & Hretry & _).
  destruct (accept_secured_or_nothing linux_x86 (-1)
              (listening [Works]) sane_linux_x86)
    as (Hneg & _).
  split; [vm_compute; reflexivity|]. split.
  - apply (Hretry [Works]). reflexivity.
  - apply Hneg. lia.
Defined.

(** X21 - [uv__dup] needs at most four answers of the system and does not
    abort.  It returns either -1, with the open descriptors as they were
    (a copy it had made is closed again), or a descriptor that was free and is
    now an open, close-on-exec copy with the status flags of the original.
    When [dup] worked and the first call of [uv__cloexec] failed, [errno] is
    the one of that failure, whatever [close] reported. *)
Theorem dup_cloexec_or_nothing p fd w :
  sane p ->
  runs 4 (uv__dup p fd) w
    (opened w (fun d =>
       close_on_exec p d = true /\
       exists d0, fds w !! fd = Some d0 /\ status_flags d = status_flags d0)) /\
  (forall e a rest d0,
     script w = Works :: Fails e :: a :: rest -> fds w !! fd = Some d0 ->
     uv__dup p fd w = Done (-1) (mk_os (fds w) e rest)).
Proof.
  intros Hp. split; [now apply uv__dup_runs|].
  intros e a rest d0. apply uv__dup_keeps_errno.
Qed.

Lemma dup_cloexec_or_nothing_witness :
  uv__dup linux_x86 3 (listening [Works; Works])
  = Done 0 (mk_os (<[0 := mk_descriptor 2 1]> (<[3 := mk_descriptor 2 0]> ∅))
              0 []) /\
  uv__dup linux_x86 3 (listening [Works; Fails 9; Fails 5])
  = Done (-1) (mk_os (fds (listening [])) 9 []).
Proof.
  destruct (dup_cloexec_or_nothing linux_x86 3
              (listening [Works; Fails 9; Fails 5]) sane_linux_x86)
    as (_ & Herr).
  split; [vm_compute; reflexivity|].
  apply (Herr 9 (Fails 5) [] (mk_descriptor 2 0)); reflexivity.
Defined.

End Descriptors.

(** ** The loops of a process ([uv_default_loop], [uv_loop_new] and
    [uv_loop_delete] of [src/unix/core.c]) *)

Module Loops.

(** Pointers are addresses and [NULL] is 0.  [default_loop_struct] is a
    static object, at an address that is not null. *)
Definition NULL : Z := 0.

(** The calls that leave the file, in the order they were made. *)
Inductive call :=
  | CallMalloc (result : Z)
  | CallFree (a : Z)
  | CallLoopInit (loop : Z) (is_default : Z) (rc : Z)
  | CallLoopDelete (loop : Z).

(** The memory of the process as the three functions see it: the static
    [default_loop_ptr], the blocks [malloc] gave out, the loops that are
    initialised, the calls made so far, and what the calls to come will
    answer (for [malloc] whether it finds memory, for [uv__loop_init] its
    return code). *)
Record mem := mk_mem {
  default_loop_ptr : Z;
  blocks           : gset Z;
  live             : gset Z;
  calls            : list call;
  answers          : list Z
}.

Definition set_default_loop_ptr (v : Z) (m : mem) :=
  mk_mem v (blocks m) (live m) (calls m) (answers m).
Definition set_blocks (v : gset Z) (m : mem) :=
  mk_mem (default_loop_ptr m) v (live m) (calls m) (answers m).
Definition set_live (v : gset Z) (m : mem) :=
  mk_mem (default_loop_ptr m) (blocks m) v (calls m) (answers m).
Definition log (c : call) (m : mem) :=
  mk_mem (default_loop_ptr m) (blocks m) (live m) (calls m ++ [c]) (answers m).
Definition set_answers (v : list Z) (m : mem) :=
  mk_mem (default_loop_ptr m) (blocks m) (live m) (calls m) v.

(** A call returns, or frees what [malloc] never gave out ([Fault]), or
    is stuck because the answers ran out. *)
Inductive outcome (A : Type) :=
  | Done (a : A) (m : mem)
  | Fault
  | Stuck.
Arguments Done {A} a m.
Arguments Fault {A}.
Arguments Stuck {A}.

Definition Mem (A : Type) := mem -> outcome A.

Definition ret {A} (a : A) : Mem A := fun m => Done a m.
Definition bind {A C} (x : Mem A) (k : A -> Mem C) : Mem C :=
  fun m => match x m with
           | Done a m' => k a m'
           | Fault => Fault
           | Stuck => Stuck
           end.
Definition get_mem : Mem mem := fun m => Done m m.
Definition modify (f : mem -> mem) : Mem unit := fun m => Done tt (f m).

Notation "x <- m ;; k" := (bind m (fun x => k))
  (at level 100, m at next level, right associativity).
Notation "m ;; k" := (bind m (fun _ => k))
  (at level 100, right associativity).

Definition next : Mem Z := fun m =>
  match answers m with
  | [] => Stuck
  | a :: rest => Done a (set_answers rest m)
  end.

Section Functions.

(** The address of [default_loop_struct]. *)
Context (default_loop_struct : Z).

(** [malloc]: null when the system finds no memory, else a block at an
    address that is not null, not the static object and not in use. *)
Definition malloc : Mem Z :=
  found <- next ;;
  m <- get_mem ;;
  if found =? 0 then modify (log (CallMalloc NULL)) ;; ret NULL
  else
    let used := {[NULL]} ∪ {[default_loop_struct]} ∪ blocks m in
    let a := Descriptors.first_free used (size used) 0 in
    modify (set_blocks ({[a]} ∪ blocks m)) ;;
    modify (log (CallMalloc a)) ;;
    ret a.

(** [free]. *)
Definition free (a : Z) : Mem unit := fun m =>
  if bool_decide (a ∈ blocks m)
  then Done tt (log (CallFree a) (set_blocks (blocks m ∖ {[a]}) m))
  else Fault.

(** Modelled from the spec: [uv__loop_init] and [uv__loop_delete] (of a
    file that is not among the sources) set a loop up, which may fail with
    a code that is not 0, and tear it down. *)
Definition uv__loop_init (loop is_default : Z) : Mem Z :=
  rc <- next ;;
  modify (log (CallLoopInit loop is_default rc)) ;;
  modify (fun m => if rc =? 0 then set_live ({[loop]} ∪ live m) m else m) ;;
  ret rc.

Definition uv__loop_delete (loop : Z) : Mem unit :=
  modify (log (CallLoopDelete loop)) ;;
  modify (fun m => set_live (live m ∖ {[loop]}) m).

(** [uv_default_loop]. *)
Definition uv_default_loop : Mem Z :=
  m <- get_mem ;;
  if negb (default_loop_ptr m =? 0) then ret (default_loop_ptr m)
  else
    rc <- uv__loop_init default_loop_struct 1 ;;
    if negb (rc =? 0) then ret NULL
    else
      modify (set_default_loop_ptr default_loop_struct) ;;
      ret default_loop_struct.

(** [uv_loop_new]. *)
Definition uv_loop_new : Mem Z :=
  loop <- malloc ;;
  if loop =? NULL then ret NULL
  else
    rc <- uv__loop_init loop 0 ;;
    if negb (rc =? 0) then free loop ;; ret NULL
    else ret loop.

(** [uv_loop_delete].  The [memset] of the debug build overwrites the
    bytes of the loop object, which this model does not hold. *)
Definition uv_loop_delete (loop : Z) : Mem unit :=
  uv__loop_delete loop ;;
  m <- get_mem ;;
  if loop =? default_loop_ptr m then modify (set_default_loop_ptr NULL)
  else free loop.

End Functions.

(** The state of a process that has made no call yet, with the answers to
    come. *)
Definition fresh_process (ans : list Z) : mem := mk_mem NULL ∅ ∅ [] ans.

(** The static pointer is null or the address of the static object, which
    is then an initialised loop; the static object is no block of
    [malloc]'s. *)
Definition settled (default_loop_struct : Z) (m : mem) : Prop :=
  default_loop_struct <> NULL /\
  (default_loop_struct ∉ blocks m) /\ (NULL ∉ blocks m) /\
  (default_loop_ptr m = NULL \/
   (default_loop_ptr m = default_loop_struct /\ default_loop_struct ∈ live m)).

(** The static loop object at address 4096, before and after the first
    [uv_default_loop]. *)
Definition static_loop : Z := 4096.
Definition default_made : mem :=
  mk_mem static_loop ∅ ({[static_loop]} ∪ ∅) [CallLoopInit static_loop 1 0] [].

Ltac unfold_mem :=
  unfold uv_default_loop, uv_loop_new, uv_loop_delete, uv__loop_init,
    uv__loop_delete, malloc, free, next, bind, ret, get_mem, modify in *.

Lemma in_added (l : Z) (X : gset Z) : l ∈ {[l]} ∪ X.
Proof. apply elem_of_union_l, elem_of_singleton. reflexivity. Qed.

Lemma not_in_removed (l : Z) (X : gset Z) : l ∉ X ∖ {[l]}.
Proof.
  rewrite elem_of_difference, elem_of_singleton. intros [_ H]. now apply H.
Qed.

Lemma add_remove (l : Z) (X : gset Z) : l ∉ X -> ({[l]} ∪ X) ∖ {[l]} = X.
Proof.
  intros Hl. apply set_eq. intros x.
  rewrite elem_of_difference, elem_of_union, elem_of_singleton.
  split; [intros [[->|?] ?]; [contradiction|assumption]|].
  intros Hx. split; [auto|]. intros ->. contradiction.
Qed.

Lemma malloc_fresh (default_loop_struct : Z) (used : gset Z) :
  Descriptors.first_free used (size used) 0 ∉ used.
Proof.
  apply Descriptors.first_free_free.
  apply subseteq_size. intros x. rewrite elem_of_filter. tauto.
Qed.

(** X22 - [uv_default_loop] never frees or allocates.  While the static
    pointer is set it returns that pointer with no call and no change; else
    it initialises the static loop object once: on success it returns its
    address and records it, so that every later call returns the same loop
    without initialising it again; on failure it returns [NULL] and the
    pointer stays null, so the next call tries again. *)
Theorem default_loop_is_one_loop (default_loop_struct : Z) (m : mem) :
  settled default_loop_struct m ->
  match uv_default_loop default_loop_struct m with
  | Done r m' =>
      settled default_loop_struct m' /\ blocks m' = blocks m /\
      (default_loop_ptr m <> NULL -> r = default_loop_ptr m /\ m' = m) /\
      (r <> NULL ->
       r = default_loop_struct /\ default_loop_ptr m' = r /\ r ∈ live m' /\
       uv_default_loop default_loop_struct m' = Done r m') /\
      (r = NULL ->
       default_loop_ptr m' = NULL /\ live m' = live m /\
       exists rc rest, answers m = rc :: rest /\ rc <> 0 /\
         answers m' = rest /\
         calls m' = calls m ++ [CallLoopInit default_loop_struct 1 rc])
  | Fault => False
  | Stuck => default_loop_ptr m = NULL /\ answers m = []
  end.
Proof.
  intros (Hnn & Hnb & H0b & Hptr). unfold settled. unfold_mem.
  assert (Hne : (default_loop_struct =? 0) = false)
    by (apply Z.eqb_neq; exact Hnn).
  destruct (default_loop_ptr m =? 0) eqn:Hp; simpl.
  - apply Z.eqb_eq in Hp.
    destruct (answers m) as [|rc rest] eqn:Ha; simpl; [auto|].
    destruct (rc =? 0) eqn:Hrc; simpl.
    + rewrite Hne. simpl.
      split; [repeat split; auto; right; split; [reflexivity|apply in_added]|].
      split; [reflexivity|].
      split; [intros Hc; unfold NULL in Hc; congruence|].
      split; [|intros Hc; contradiction].
      intros _. repeat split. apply in_added.
    + split; [repeat split; auto|].
      split; [reflexivity|].
      split; [intros Hc; unfold NULL in Hc; congruence|].
      split; [intros Hc; elim Hc; reflexivity|].
      intros _. split; [exact Hp|]. split; [reflexivity|].
      exists rc, rest. apply Z.eqb_neq in Hrc. auto.
  - apply Z.eqb_neq in Hp.
    destruct Hptr as [Hptr|[Hptr Hlive]]; [unfold NULL in *; congruence|].
    split; [repeat split; auto|].
    split; [reflexivity|].
    split; [auto|].
    split; [|intros Hc; unfold NULL in *; congruence].
    intros _. split; [exact Hptr|]. split; [reflexivity|].
    split; [rewrite Hptr; exact Hlive|].
    apply Z.eqb_neq in Hp. rewrite Hp. reflexivity.
Qed.

Lemma settled_fresh ans : settled static_loop (fresh_process ans).
Proof.
  unfold settled, fresh_process. simpl.
  split; [discriminate|]. split; [apply not_elem_of_empty|].
  split; [apply not_elem_of_empty|]. left. reflexivity.
Qed.

Lemma settled_default_made : settled static_loop default_made.
Proof.
  unfold settled, default_made. simpl.
  split; [discriminate|]. split; [apply not_elem_of_empty|].
  split; [apply not_elem_of_empty|]. right. split; [reflexivity|].
  apply elem_of_union_l, elem_of_singleton. reflexivity.
Qed.

Lemma default_loop_is_one_loop_witness :
  uv_default_loop static_loop (fresh_process [0]) = Done static_loop default_made /\
  uv_default_loop static_loop default_made = Done static_loop default_made.
Proof.
  assert (E : uv_default_loop static_loop (fresh_process [0])
              = Done static_loop default_made) by reflexivity.
  split; [exact E|].
  pose proof (default_loop_is_one_loop static_loop (fresh_process [0])
                (settled_fresh [0])) as H.
  rewrite E in H. destruct H as (_ & _ & _ & Hr & _).
  apply Hr. discriminate.
Defined.

(** X23 - [uv_loop_new] needs at most two answers and frees nothing it
    did not allocate.  It returns either [NULL], with the blocks and the
    initialised loops as they were (a block whose initialisation failed is
    freed again), or a block that is not null, not the static loop object and
    was not in use, which is now allocated and an initialised loop.  The
    static pointer is untouched. *)
Theorem loop_new_leaks_nothing (default_loop_struct : Z) (m : mem) :
  match uv_loop_new default_loop_struct m with
  | Done r m' =>
      default_loop_ptr m' = default_loop_ptr m /\
      ((r = NULL /\ blocks m' = blocks m /\ live m' = live m) \/
       (r <> NULL /\ r <> default_loop_struct /\ (r ∉ blocks m) /\
        blocks m' = {[r]} ∪ blocks m /\ live m' = {[r]} ∪ live m /\
        uv_loop_delete r m' <> Stuck))
  | Fault => False
  | Stuck => (length (answers m) < 2)%nat
  end.
Proof.
  unfold_mem.
  destruct (answers m) as [|found rest] eqn:Ha; simpl; [lia|].
  destruct (found =? 0) eqn:Hf; simpl; [auto|].
  set (used := {[NULL]} ∪ {[default_loop_struct]} ∪ blocks m).
  pose proof (malloc_fresh default_loop_struct used) as Hfresh.
  set (a := Descriptors.first_free used (size used) 0) in *.
  assert (Ha0 : a <> NULL /\ a <> default_loop_struct /\ a ∉ blocks m).
  { subst used. rewrite !not_elem_of_union, !not_elem_of_singleton in Hfresh.
    tauto. }
  destruct Ha0 as (Ha0 & Had & Hab).
  assert (Hne : (a =? NULL) = false) by (apply Z.eqb_neq; exact Ha0).
  rewrite Hne. simpl.
  destruct rest as [|rc rest]; simpl; [lia|].
  destruct (rc =? 0) eqn:Hrc; simpl.
  - split; [reflexivity|]. right. repeat split; auto.
    destruct (a =? default_loop_ptr m); simpl; [discriminate|].
    case_bool_decide; discriminate.
  - rewrite bool_decide_eq_true_2 by apply in_added. simpl.
    split; [reflexivity|]. left. split; [reflexivity|].
    split; [|reflexivity]. now apply add_remove.
Qed.

(** X24 - [uv_loop_delete] never gets stuck.  On the loop the static
    pointer names it clears the pointer and frees nothing, so that the next
    [uv_default_loop] initialises the static object anew.  On a block of
    [malloc]'s it frees that block, so that [uv_loop_new] followed by
    [uv_loop_delete] leaves the blocks as they were.  On the static object
    while the static pointer is null (a default loop that was never created,
    or is deleted a second time) it passes the static object to [free]. *)
Theorem loop_delete_undoes (default_loop_struct : Z) (m : mem) (loop : Z) :
  settled default_loop_struct m ->
  (loop = default_loop_ptr m -> loop <> NULL ->
   exists m', uv_loop_delete loop m = Done tt m' /\
     default_loop_ptr m' = NULL /\ blocks m' = blocks m /\
     (loop ∉ live m') /\ settled default_loop_struct m' /\
     forall rest, answers m = 0 :: rest ->
       exists m'', uv_default_loop default_loop_struct m' = Done loop m'' /\
         calls m'' = calls m ++ [CallLoopDelete loop; CallLoopInit loop 1 0]) /\
  (loop ∈ blocks m ->
   exists m', uv_loop_delete loop m = Done tt m' /\
     default_loop_ptr m' = default_loop_ptr m /\
     blocks m' = blocks m ∖ {[loop]} /\ loop ∉ live m') /\
  (forall r m1, uv_loop_new default_loop_struct m = Done r m1 -> r <> NULL ->
   exists m2, uv_loop_delete r m1 = Done tt m2 /\
     blocks m2 = blocks m /\ default_loop_ptr m2 = default_loop_ptr m) /\
  (loop = default_loop_struct -> default_loop_ptr m = NULL ->
   uv_loop_delete loop m = Fault).
Proof.
  intros (Hnn & Hnb & H0b & Hptr).
  assert (Hblock : forall l mm,
            l ∈ blocks mm -> l <> default_loop_ptr mm ->
            exists m', uv_loop_delete l mm = Done tt m' /\
              default_loop_ptr m' = default_loop_ptr mm /\
              blocks m' = blocks mm ∖ {[l]} /\ l ∉ live m').
  { intros l mm Hin Hne. unfold_mem. simpl.
    apply Z.eqb_neq in Hne. rewrite Hne. simpl.
    rewrite bool_decide_eq_true_2 by exact Hin.
    eexists. split; [reflexivity|]. simpl. repeat split.
    apply not_in_removed. }
  split; [|split; [|split]].
  - intros -> Hne.
    destruct Hptr as [Hptr|[Hptr Hlive]]; [contradiction|].
    unfold_mem. simpl. rewrite Z.eqb_refl. simpl.
    eexists. split; [reflexivity|]. simpl.
    split; [reflexivity|]. split; [reflexivity|].
    split; [apply not_in_removed|].
    split; [unfold settled; simpl; auto|].
    intros rest Ha. rewrite Ha. simpl.
    eexists. split; [rewrite Hptr; reflexivity|]. simpl.
    now rewrite Hptr, <- app_assoc.
  - intros Hin. apply Hblock; [exact Hin|].
    intros ->. destruct Hptr as [Hptr|[Hptr _]]; rewrite Hptr in Hin;
      contradiction.
  - intros r m1 Hnew Hr.
    pose proof (loop_new_leaks_nothing default_loop_struct m) as H.
    rewrite Hnew in H.
    destruct H as (Hp1 & [(-> & _)|(_ & Hrd & Hrb & Hb1 & _)]);
      [contradiction|].
    destruct (Hblock r m1) as (m2 & E & Hp2 & Hb2 & _).
    + rewrite Hb1. apply in_added.
    + rewrite Hp1. destruct Hptr as [->|[-> _]]; assumption.
    + exists m2. split; [exact E|]. split; [|congruence].
      rewrite Hb2, Hb1. now apply add_remove.
  - intros -> Hnull. unfold_mem. simpl. rewrite Hnull.
    apply Z.eqb_neq in Hnn. rewrite Hnn. simpl.
    rewrite bool_decide_eq_false_2 by exact Hnb. reflexivity.
Qed.

Lemma loop_delete_undoes_witness :
  exists m', uv_loop_delete static_loop default_made = Done tt m' /\
    default_loop_ptr m' = NULL /\ blocks m' = blocks default_made.
Proof.
  destruct (loop_delete_undoes static_loop default_made static_loop
              settled_default_made) as (Hdef & _).
  destruct Hdef as (m' & E & Hp & Hb & _); [reflexivity|discriminate|].
  exists m'. auto.
Defined.

End Loops.

(** ** Name resolution ([uv_getaddrinfo] and [uv_getaddrinfo_done] of
    [src/unix/core.c]) *)

Module Resolver.

(** The constants of the system and libuv headers, and what the
    preprocessor sees: [EAI_NODATA] is 0 where it is not defined.
    [translate] is [uv_translate_sys_error]. *)
Record config := mk_config {
  EAI_NONAME   : Z;
  EAI_NODATA   : Z;
  ENOENT       : Z;
  UV_EINVAL    : Z;
  UV_EADDRINFO : Z;
  translate    : Z -> Z
}.

(** [uv_err_t]. *)
Record uv_err_t := mk_err {
  code       : Z;
  sys_errno_ : Z
}.

(** [uv_getaddrinfo_t]: the fields the two functions use.  Pointers are
    addresses, null is 0. *)
Record uv_getaddrinfo_t := mk_request {
  cb       : Z;
  hints    : Z;
  hostname : Z;
  service  : Z;
  res      : Z;
  retcode  : Z
}.

Definition set_cb (v : Z) (r : uv_getaddrinfo_t) :=
  mk_request v (hints r) (hostname r) (service r) (res r) (retcode r).
Definition set_hints (v : Z) (r : uv_getaddrinfo_t) :=
  mk_request (cb r) v (hostname r) (service r) (res r) (retcode r).
Definition set_hostname (v : Z) (r : uv_getaddrinfo_t) :=
  mk_request (cb r) (hints r) v (service r) (res r) (retcode r).
Definition set_service (v : Z) (r : uv_getaddrinfo_t) :=
  mk_request (cb r) (hints r) (hostname r) v (res r) (retcode r).
Definition set_res (v : Z) (r : uv_getaddrinfo_t) :=
  mk_request (cb r) (hints r) (hostname r) (service r) v (retcode r).
Definition set_retcode (v : Z) (r : uv_getaddrinfo_t) :=
  mk_request (cb r) (hints r) (hostname r) (service r) (res r) v.

(** A call of a completion callback: [cb(req, status, res)]. *)
Record completion := mk_completion {
  done_cb     : Z;
  done_req    : Z;
  done_status : Z;
  done_res    : Z
}.

(** The loop and the memory as the two functions see them: the bytes of
    the objects in memory, the blocks [malloc] and [strdup] gave out, the
    request objects, the loop's count of requests in flight and its last
    error, whether the thread pool is set up, the work handed to it, the
    callbacks called so far, and what the calls to come will answer. *)
Record world := mk_world {
  memory      : gmap Z (list Z);
  allocated   : gset Z;
  requests    : gmap Z uv_getaddrinfo_t;
  active_reqs : nat;
  last_err    : uv_err_t;
  eio_ready   : bool;
  queued      : list Z;
  completions : list completion;
  answers     : list Z
}.

Definition set_memory v (w : world) :=
  mk_world v (allocated w) (requests w) (active_reqs w) (last_err w)
           (eio_ready w) (queued w) (completions w) (answers w).
Definition set_allocated v (w : world) :=
  mk_world (memory w) v (requests w) (active_reqs w) (last_err w)
           (eio_ready w) (queued w) (completions w) (answers w).
Definition set_requests v (w : world) :=
  mk_world (memory w) (allocated w) v (active_reqs w) (last_err w)
           (eio_ready w) (queued w) (completions w) (answers w).
Definition set_active_reqs v (w : world) :=
  mk_world (memory w) (allocated w) (requests w) v (last_err w)
           (eio_ready w) (queued w) (completions w) (answers w).
Definition set_last_err v (w : world) :=
  mk_world (memory w) (allocated w) (requests w) (active_reqs w) v
           (eio_ready w) (queued w) (completions w) (answers w).
Definition set_eio_ready v (w : world) :=
  mk_world (memory w) (allocated w) (requests w) (active_reqs w) (last_err w)
           v (queued w) (completions w) (answers w).
Definition set_queued v (w : world) :=
  mk_world (memory w) (allocated w) (requests w) (active_reqs w) (last_err w)
           (eio_ready w) v (completions w) (answers w).
Definition set_completions v (w : world) :=
  mk_world (memory w) (allocated w) (requests w) (active_reqs w) (last_err w)
           (eio_ready w) (queued w) v (answers w).
Definition set_answers v (w : world) :=
  mk_world (memory w) (allocated w) (requests w) (active_reqs w) (last_err w)
           (eio_ready w) (queued w) (completions w) v.

(** A call returns, or uses a pointer to nothing ([Fault]), or stops in a
    failed [assert] ([Abort]), or is stuck because the answers ran out. *)
Inductive outcome (A : Type) :=
  | Done (a : A) (w : world)
  | Fault
  | Abort
  | Stuck.
Arguments Done {A} a w.
Arguments Fault {A}.
Arguments Abort {A}.
Arguments Stuck {A}.

Definition M (A : Type) := world -> outcome A.

Definition ret {A} (a : A) : M A := fun w => Done a w.
Definition bind {A C} (m : M A) (k : A -> M C) : M C :=
  fun w => match m w with
           | Done a w' => k a w'
           | Fault => Fault
           | Abort => Abort
           | Stuck => Stuck
           end.
Definition get_world : M world := fun w => Done w w.
Definition modify (f : world -> world) : M unit := fun w => Done tt (f w).
Definition fault {A} : M A := fun _ => Fault.
Definition assert (b : bool) : M unit := fun w => if b then Done tt w else Abort.

Notation "x <- m ;; k" := (bind m (fun x => k))
  (at level 100, m at next level, right associativity).
Notation "m ;; k" := (bind m (fun _ => k))
  (at level 100, right associativity).

Definition next : M Z := fun w =>
  match answers w with
  | [] => Stuck
  | a :: rest => Done a (set_answers rest w)
  end.

(** *** The C library *)

(** A new block: an address that is not null and holds no object. *)
Definition new_block (w : world) : Z :=
  let used := {[0]} ∪ dom (memory w) in
  Descriptors.first_free used (size used) 0.

(** A block for [bytes], or null when the system finds no memory. *)
Definition alloc (bytes : list Z) : M Z :=
  found <- next ;;
  w <- get_world ;;
  if found =? 0 then ret 0
  else
    let a := new_block w in
    modify (set_memory (<[a := bytes]> (memory w))) ;;
    modify (set_allocated ({[a]} ∪ allocated w)) ;;
    ret a.

(** [malloc]: the block holds nothing yet. *)
Definition malloc : M Z := alloc [].

(** [memcpy(dst, src, n)] of a whole object. *)
Definition memcpy (dst src : Z) : M unit :=
  w <- get_world ;;
  if (dst =? 0) || (src =? 0) then fault
  else
    match memory w !! dst, memory w !! src with
    | Some _, Some bytes => modify (set_memory (<[dst := bytes]> (memory w)))
    | _, _ => fault
    end.

(** [strdup]: a new block holding a copy, or null. *)
Definition strdup (s : Z) : M Z :=
  w <- get_world ;;
  if s =? 0 then fault
  else
    match memory w !! s with
    | None => fault
    | Some bytes => alloc bytes
    end.

(** [free]: nothing on a null pointer. *)
Definition free (a : Z) : M unit :=
  if a =? 0 then ret tt
  else
    w <- get_world ;;
    if bool_decide (a ∈ allocated w)
    then modify (set_allocated (allocated w ∖ {[a]})) ;;
         modify (set_memory (delete a (memory w)))
    else fault.

(** *** The rest of libuv *)

Section Functions.

Context (c : config).

(** Modelled from the spec: [uv_eio_init] sets the thread pool up (once),
    [uv__req_init] and [uv__req_unregister] count a request in and out of
    the requests in flight, [uv__set_artificial_error] and
    [uv__set_sys_error] record the loop's last error, and [eio_custom] hands
    work to the thread pool and gives back its request object, or null.
    None of them is among the sources. *)
Definition uv_eio_init : M unit := modify (set_eio_ready true).

Definition uv__req_init : M unit :=
  modify (fun w => set_active_reqs (S (active_reqs w)) w).

Definition uv__req_unregister : M unit :=
  modify (fun w => set_active_reqs (pred (active_reqs w)) w).

Definition uv__set_artificial_error (e : Z) : M unit :=
  modify (set_last_err (mk_err e 0)).

Definition uv__set_sys_error (e : Z) : M unit :=
  modify (set_last_err (mk_err (translate c e) e)).

Definition eio_custom (data : Z) : M Z :=
  req <- next ;;
  (if req =? 0 then ret tt
   else modify (fun w => set_queued (queued w ++ [data]) w)) ;;
  ret req.

(** Writing a field of the request object at [handle]; the object may be
    fresh memory. *)
Definition blank : uv_getaddrinfo_t := mk_request 0 0 0 0 0 0.

Definition write (handle : Z) (f : uv_getaddrinfo_t -> uv_getaddrinfo_t) : M unit :=
  modify (fun w =>
    set_requests (<[handle := f (default blank (requests w !! handle))]>
                    (requests w)) w).

Definition read (handle : Z) : M uv_getaddrinfo_t := fun w =>
  match requests w !! handle with
  | Some r => Done r w
  | None => Fault
  end.

(** [uv_getaddrinfo]. *)
Definition uv_getaddrinfo (handle cb hostname service hints : Z) : M Z :=
  uv_eio_init ;;
  if (handle =? 0) || (cb =? 0) || ((hostname =? 0) && (service =? 0)) then
    uv__set_artificial_error (UV_EINVAL c) ;;
    ret (-1)
  else
    uv__req_init ;;
    write handle (set_cb cb) ;;
    (if negb (hints =? 0) then
       p <- malloc ;;
       write handle (set_hints p) ;;
       memcpy p hints
     else write handle (set_hints 0)) ;;
    h <- (if negb (hostname =? 0) then strdup hostname else ret 0) ;;
    write handle (set_hostname h) ;;
    s <- (if negb (service =? 0) then strdup service else ret 0) ;;
    write handle (set_service s) ;;
    write handle (set_res 0) ;;
    write handle (set_retcode 0) ;;
    req <- eio_custom handle ;;
    assert (negb (req =? 0)) ;;
    ret 0.

(** [getaddrinfo_thread_proc]: the resolver's return code and result list
    are what the system answers. *)
Definition getaddrinfo_thread_proc (handle : Z) : M unit :=
  rc <- next ;;
  result <- next ;;
  read handle ;;
  write handle (fun r => set_retcode rc (set_res result r)).

(** [uv_getaddrinfo_done], on the request object the work carried (the
    build without [__sun]). *)
Definition uv_getaddrinfo_done (handle : Z) : M Z :=
  req <- read handle ;;
  let result := res req in
  write handle (set_res 0) ;;
  uv__req_unregister ;;
  free (hints req) ;;
  free (service req) ;;
  free (hostname req) ;;
  (if retcode req =? 0 then ret tt
   else if (if negb (EAI_NODATA c =? 0)
            then (retcode req =? EAI_NONAME c) || (retcode req =? EAI_NODATA c)
            else retcode req =? EAI_NONAME c)
   then uv__set_sys_error (ENOENT c)
   else modify (set_last_err (mk_err (UV_EADDRINFO c) (retcode req)))) ;;
  modify (fun w =>
    set_completions (completions w ++
                     [mk_completion (cb req) handle (retcode req) result]) w) ;;
  ret 0.

End Functions.


(** The arguments [uv_getaddrinfo] accepts. *)
Definition acceptable (handle cb hostname service : Z) : Prop :=
  handle <> 0 /\ cb <> 0 /\ (hostname <> 0 \/ service <> 0).

(** A pointer that is null or points to an object. *)
Definition readable (w : world) (p : Z) : Prop :=
  p = 0 \/ is_Some (memory w !! p).

(** The last error [uv_getaddrinfo_done] leaves for a return code of the
    resolver. *)
Definition reported (c : config) (rc : Z) (before : uv_err_t) : uv_err_t :=
  if rc =? 0 then before
  else if (rc =? EAI_NONAME c) || (negb (EAI_NODATA c =? 0) && (rc =? EAI_NODATA c))
       then mk_err (translate c (ENOENT c)) (ENOENT c)
       else mk_err (UV_EADDRINFO c) rc.

(** The blocks a request holds: its three copies, where they are not
    null. *)
Definition blocks (r : uv_getaddrinfo_t) : gset Z :=
  ({[hints r]} ∪ {[hostname r]} ∪ {[service r]}) ∖ {[0]}.

(** A request owns its copies: each is a block given out, and no two are
    the same block. *)
Definition owned (w : world) (r : uv_getaddrinfo_t) : Prop :=
  blocks r ⊆ allocated w /\
  (hints r = 0 \/ hints r <> hostname r) /\
  (hints r = 0 \/ hints r <> service r) /\
  (hostname r = 0 \/ hostname r <> service r).

(** The world after [free a]. *)
Definition release (a : Z) (w : world) : world :=
  if a =? 0 then w
  else set_memory (delete a (memory w)) (set_allocated (allocated w ∖ {[a]}) w).

(** [w1] is [w] with the blocks [new] given out since, and the same loop. *)
Definition grown (new : gset Z) (w w1 : world) : Prop :=
  (forall a, a ∈ new -> a <> 0 /\ memory w !! a = None /\ is_Some (memory w1 !! a)) /\
  (forall a, a ∉ new -> memory w1 !! a = memory w !! a) /\
  allocated w1 = new ∪ allocated w /\
  active_reqs w1 = active_reqs w /\
  last_err w1 = last_err w /\
  completions w1 = completions w /\
  queued w1 = queued w.

(** A configuration ([glibc]'s values), and a process whose memory holds a
    host name at address 100 and a [struct addrinfo] at address 200. *)
Definition glibc : config := mk_config (-2) (-5) 2 (-22) (-3008) (fun e => - e).

Definition caller (ans : list Z) : world :=
  mk_world (<[100 := [108; 111; 99; 97; 108; 0]]> (<[200 := [0; 2; 1]]> ∅))
           ∅ ∅ 0 (mk_err 0 0) false [] [] ans.

(** A request for the caller's host name with its hints, request object at
    address 300 and callback 9: started, and then resolved by the worker
    with return code -2 ([EAI_NONAME]) and no result. *)
Definition resolving : world :=
  Eval vm_compute in
    match uv_getaddrinfo glibc 300 9 100 0 200 (caller [1; 1; 5; -2; 0]) with
    | Done _ w => w
    | _ => caller []
    end.

Definition resolved : world :=
  Eval vm_compute in
    match getaddrinfo_thread_proc 300 resolving with
    | Done _ w => w
    | _ => caller []
    end.

(** *** Lemmas *)









Lemma release_allocated a w :
  allocated (release a w) = allocated w ∖ ({[a]} ∖ {[0]}).
Proof.
  unfold release. destruct (Z.eqb_spec a 0) as [->|Hne]; simpl.
  - apply set_eq. intros x.
    rewrite !elem_of_difference, !elem_of_singleton. tauto.
  - apply set_eq. intros x.
    rewrite !elem_of_difference, !elem_of_singleton.
    split; intros [H1 H2]; (split; [exact H1|]).
    + intros [-> _]. now apply H2.
    + intros ->. apply H2. auto.
Qed.

Lemma release_memory a w x :
  memory (release a w) !! x =
  if decide (x ∈ ({[a]} ∖ {[0]} : gset Z)) then None else memory w !! x.
Proof.
  unfold release. destruct (Z.eqb_spec a 0) as [->|Hne]; simpl.
  - case_decide as H; [|reflexivity].
    apply elem_of_difference in H as [H1 H2]. contradiction.
  - case_decide as H.
    + apply elem_of_difference in H as [H1 _]. apply elem_of_singleton in H1.
      subst. apply lookup_delete_eq.
    + apply lookup_delete_ne. intros ->. apply H.
      apply elem_of_difference. rewrite !elem_of_singleton. auto.
Qed.

Lemma release_rest a w :
  requests (release a w) = requests w /\
  active_reqs (release a w) = active_reqs w /\
  last_err (release a w) = last_err w /\
  completions (release a w) = completions w /\
  queued (release a w) = queued w.
Proof. unfold release. destruct (a =? 0); simpl; auto. Qed.

Lemma free_held a w :
  a = 0 \/ a ∈ allocated w -> free a w = Done tt (release a w).
Proof.
  unfold free, release, bind, get_world, modify, ret.
  destruct (Z.eqb_spec a 0) as [->|Hne]; [reflexivity|].
  intros [H|H]; [contradiction|].
  now rewrite bool_decide_eq_true_2.
Qed.

Lemma grown_eq new new' w w1 : new = new' -> grown new w w1 -> grown new' w w1.
Proof. now intros ->. Qed.








Lemma done_spec c handle req w :
  requests w !! handle = Some req -> owned w req ->
  exists w',
    uv_getaddrinfo_done c handle w = Done 0 w' /\
    completions w' =
      completions w ++ [mk_completion (cb req) handle (retcode req) (res req)] /\
    last_err w' = reported c (retcode req) (last_err w) /\
    allocated w' = allocated w ∖ blocks req /\
    (forall a, memory w' !! a
               = if decide (a ∈ blocks req) then None else memory w !! a) /\
    active_reqs w' = pred (active_reqs w) /\
    requests w' = <[handle := set_res 0 req]> (requests w) /\
    queued w' = queued w.
Proof.
  intros Hreq (Hsub & D1 & D2 & D3).
  unfold uv_getaddrinfo_done, bind, read. rewrite Hreq.
  unfold write, uv__req_unregister, modify. rewrite Hreq. simpl.
  set (wb := set_active_reqs _ _).
  set (w1 := release (hints req) wb).
  set (w2 := release (service req) w1).
  set (w3 := release (hostname req) w2).
  assert (Hin : forall p, p <> 0 ->
                  p = hints req \/ p = hostname req \/ p = service req ->
                  p ∈ allocated w).
  { intros p Hp Hcase. apply Hsub. unfold blocks.
    rewrite elem_of_difference, !elem_of_union, !elem_of_singleton. tauto. }
  assert (F1 : free (hints req) wb = Done tt w1).
  { apply free_held. destruct (decide (hints req = 0)); [auto|right].
    apply Hin; auto. }
  assert (F2 : free (service req) w1 = Done tt w2).
  { apply free_held. destruct (decide (service req = 0)) as [|Hs]; [auto|right].
    unfold w1. rewrite release_allocated.
    rewrite elem_of_difference, elem_of_difference, !elem_of_singleton.
    split; [apply Hin; auto|]. intros [E Hh]. destruct D2; congruence. }
  assert (F3 : free (hostname req) w2 = Done tt w3).
  { apply free_held. destruct (decide (hostname req = 0)) as [|Hs]; [auto|right].
    unfold w2, w1. rewrite !release_allocated.
    rewrite !elem_of_difference, !elem_of_singleton.
    split; [split; [apply Hin; auto|]|].
    - intros [E Hh]. destruct D1; congruence.
    - intros [E Hh]. destruct D3; congruence. }
  rewrite F1, F2, F3.
  assert (HA : allocated w3 = allocated w ∖ blocks req).
  { unfold w3, w2, w1. rewrite !release_allocated. unfold blocks. simpl.
    apply set_eq. intros x.
    rewrite !elem_of_difference, !elem_of_union, !elem_of_singleton. tauto. }
  assert (HM : forall a, memory w3 !! a
                 = if decide (a ∈ blocks req) then None else memory w !! a).
  { intros a. unfold w3, w2, w1. rewrite !release_memory. simpl.
    unfold blocks.
    repeat case_decide; try reflexivity; exfalso;
      repeat match goal with
             | H : _ ∈ _ |- _ =>
                 rewrite ?elem_of_difference, ?elem_of_union,
                   ?elem_of_singleton in H
             | H : _ ∉ _ |- _ =>
                 rewrite ?elem_of_difference, ?elem_of_union,
                   ?elem_of_singleton in H
             end; tauto. }
  assert (HR : requests w3 = <[handle := set_res 0 req]> (requests w) /\
               active_reqs w3 = pred (active_reqs w) /\
               last_err w3 = last_err w /\
               completions w3 = completions w /\
               queued w3 = queued w).
  { unfold w3, w2, w1.
    destruct (release_rest (hostname req)
                (release (service req) (release (hints req) wb)))
      as (-> & -> & -> & -> & ->).
    destruct (release_rest (service req) (release (hints req) wb))
      as (-> & -> & -> & -> & ->).
    destruct (release_rest (hints req) wb) as (-> & -> & -> & -> & ->).
    simpl. auto. }
  destruct HR as (Hrq & Hact & Herr & Hcomp & Hq).
  unfold reported, uv__set_sys_error, modify, ret.
  destruct (retcode req =? 0).
  - eexists. split; [reflexivity|]. simpl. rewrite Hcomp. auto 10.
  - assert (Hb : (if negb (EAI_NODATA c =? 0)
                  then (retcode req =? EAI_NONAME c)
                       || (retcode req =? EAI_NODATA c)
                  else retcode req =? EAI_NONAME c)
                 = (retcode req =? EAI_NONAME c)
                   || (negb (EAI_NODATA c =? 0)
                       && (retcode req =? EAI_NODATA c))).
    { destruct (EAI_NODATA c =? 0); simpl; [now rewrite orb_false_r|reflexivity]. }
    rewrite Hb.
    destruct ((retcode req =? EAI_NONAME c)
              || (negb (EAI_NODATA c =? 0) && (retcode req =? EAI_NODATA c)));
      (eexists; split; [reflexivity|]); simpl; rewrite Hcomp; auto 10.
Qed.




(** X25 - [uv_getaddrinfo] refuses a null request object, a null callback,
    and a host name and a service that are both null: it returns -1 and
    records [UV_EINVAL] (with no system error) as the loop's last error.
    By then the thread pool has been set up, but no request is counted, no
    memory is taken, no work is queued and the request object is not
    written. *)
Theorem getaddrinfo_rejects_bad_arguments c handle cb hostname service hints w :
  ~ acceptable handle cb hostname service ->
  exists w',
    uv_getaddrinfo c handle cb hostname service hints w = Done (-1) w' /\
    last_err w' = mk_err (UV_EINVAL c) 0 /\
    eio_ready w' = true /\
    active_reqs w' = active_reqs w /\
    requests w' = requests w /\
    allocated w' = allocated w /\
    memory w' = memory w /\
    queued w' = queued w /\
    completions w' = completions w /\
    answers w' = answers w.
Proof.
  intros Hbad.
  assert (E : (handle =? 0) || (cb =? 0) || ((hostname =? 0) && (service =? 0))
              = true).
  { destruct (Z.eqb_spec handle 0); [reflexivity|].
    destruct (Z.eqb_spec cb 0); [reflexivity|].
    destruct (Z.eqb_spec hostname 0); destruct (Z.eqb_spec service 0);
      simpl; auto; exfalso; apply Hbad; unfold acceptable; auto. }
  unfold uv_getaddrinfo, bind, uv_eio_init, uv__set_artificial_error,
    modify, ret.
  rewrite E. eexists. split; [reflexivity|]. simpl. auto 10.
Qed.

Lemma getaddrinfo_rejects_bad_arguments_witness :
  exists w',
    uv_getaddrinfo glibc 300 0 100 0 200 (caller [1; 1; 5]) = Done (-1) w' /\
    last_err w' = mk_err (-22) 0 /\
    allocated w' = ∅ /\
    answers w' = [1; 1; 5].
Proof.
  destruct (getaddrinfo_rejects_bad_arguments glibc 300 0 100 0 200
              (caller [1; 1; 5]))
    as (w' & H & He & _ & _ & _ & Ha & _ & _ & _ & Hans).
  - intros (_ & Hcb & _). now apply Hcb.
  - exists w'. auto.
Defined.

(** X26 - [uv_getaddrinfo_done], for a request that owns its copies,
    returns 0 after calling the request's callback exactly once, with the
    request, the resolver's return code and the result list the request
    held; the request's [res] field is null by then.  It frees the three
    copies and nothing else, and counts the request out of the requests in
    flight.  The loop's last error is left alone for return code 0, is the
    system error [ENOENT] for [EAI_NONAME] (and for [EAI_NODATA] where that
    is defined), and is [UV_EADDRINFO] with the return code as system error
    for every other code. *)
Theorem getaddrinfo_done_reports c handle req w :
  requests w !! handle = Some req ->
  owned w req ->
  exists w',
    uv_getaddrinfo_done c handle w = Done 0 w' /\
    completions w' =
      completions w ++ [mk_completion (cb req) handle (retcode req) (res req)] /\
    requests w' !! handle = Some (set_res 0 req) /\
    allocated w' = allocated w ∖ blocks req /\
    active_reqs w' = pred (active_reqs w) /\
    (retcode req = 0 -> last_err w' = last_err w) /\
    (retcode req <> 0 ->
     retcode req = EAI_NONAME c \/
     (EAI_NODATA c <> 0 /\ retcode req = EAI_NODATA c) ->
     last_err w' = mk_err (translate c (ENOENT c)) (ENOENT c)) /\
    (retcode req <> 0 ->
     retcode req <> EAI_NONAME c ->
     (EAI_NODATA c = 0 \/ retcode req <> EAI_NODATA c) ->
     last_err w' = mk_err (UV_EADDRINFO c) (retcode req)).
Proof.
  intros Hreq Hown.
  destruct (done_spec c handle req w Hreq Hown)
    as (w' & Hrun & Hcomp & Herr & Hal & _ & Hact & Hrq & _).
  exists w'. split; [exact Hrun|]. split; [exact Hcomp|].
  split; [rewrite Hrq; apply lookup_insert_eq|].
  split; [exact Hal|]. split; [exact Hact|].
  rewrite Herr. unfold reported.
  destruct (Z.eqb_spec (retcode req) 0) as [E0|E0].
  { split; [reflexivity|]. split; intros; contradiction. }
  split; [intros; contradiction|].
  destruct (Z.eqb_spec (retcode req) (EAI_NONAME c)) as [E1|E1]; simpl.
  { split; [reflexivity|]. intros; contradiction. }
  destruct (Z.eqb_spec (EAI_NODATA c) 0) as [E2|E2]; simpl.
  { split; [|reflexivity]. intros _ [H|[H _]]; contradiction. }
  destruct (Z.eqb_spec (retcode req) (EAI_NODATA c)) as [E3|E3].
  - split; [reflexivity|]. intros _ _ [H|H]; contradiction.
  - split; [|reflexivity]. intros _ [H|[_ H]]; contradiction.
Qed.


(** X28 - [uv_getaddrinfo] does not check what [malloc] returns: called
    with acceptable arguments and hints, it writes through the null pointer
    when [malloc] finds no memory for the copy of the hints. *)
Theorem getaddrinfo_unchecked_malloc c handle cb hostname service hints w rest :
  acceptable handle cb hostname service ->
  hints <> 0 ->
  answers w = 0 :: rest ->
  uv_getaddrinfo c handle cb hostname service hints w = Fault.
Proof.
  intros (Hh & Hc & Hn) Hhints Hans.
  assert (E : (handle =? 0) || (cb =? 0) || ((hostname =? 0) && (service =? 0))
              = false).
  { destruct (Z.eqb_spec handle 0); [contradiction|].
    destruct (Z.eqb_spec cb 0); [contradiction|].
    destruct (Z.eqb_spec hostname 0); destruct (Z.eqb_spec service 0);
      simpl; auto. lia. }
  unfold uv_getaddrinfo. rewrite E.
  destruct (Z.eqb_spec hints 0) as [|_]; [contradiction|].
  unfold bind, uv_eio_init, uv__req_init, write, malloc, alloc, bind, next,
    get_world, modify, ret, memcpy, bind, get_world, fault.
  simpl. rewrite Hans. reflexivity.
Qed.

Lemma resolved_request :
  requests resolved !! 300 = Some (mk_request 9 1 2 0 0 (-2)).
Proof. vm_compute. reflexivity. Qed.

Lemma resolved_owned : owned resolved (mk_request 9 1 2 0 0 (-2)).
Proof.
  split; [|simpl; repeat split; right; discriminate].
  apply (bool_decide_unpack _). vm_compute. exact I.
Qed.

Lemma acceptable_sample : acceptable 300 9 100 0.
Proof. unfold acceptable. repeat split; try discriminate. left. discriminate. Qed.

Lemma getaddrinfo_done_reports_witness :
  exists w',
    uv_getaddrinfo_done glibc 300 resolved = Done 0 w' /\
    completions w' = [mk_completion 9 300 (-2) 0] /\
    last_err w' = mk_err (-2) 2.
Proof.
  destruct (getaddrinfo_done_reports glibc 300 _ resolved
              resolved_request resolved_owned)
    as (w' & Hrun & Hcomp & _ & _ & _ & _ & Hname & _).
  exists w'. split; [exact Hrun|]. split; [exact Hcomp|].
  apply Hname; [discriminate|left; reflexivity].
Defined.


Lemma getaddrinfo_unchecked_malloc_witness :
  uv_getaddrinfo glibc 300 9 100 0 200 (caller [0; 1; 5]) = Fault.
Proof.
  apply (getaddrinfo_unchecked_malloc glibc 300 9 100 0 200
           (caller [0; 1; 5]) [1; 5]).
  - exact acceptable_sample.
  - discriminate.
  - reflexivity.
Defined.

End Resolver.
